(* ===== verification/_CoqProject ===== *)
-Q . S2P
Prelude.v
Threads.v
Schedules.v
Base64.v
InviteKey.v
KeyManager.v
Dispatcher.v
Framing.v
Identity.v
StunParse.v
UdpListener.v
UdpInvariant.v
UdpShutdown.v
PacketBuffers.v
PortListener.v
Discoverer.v
Discovery.v
SessionManager.v
SessionInvariant.v
SessionOnce.v
SessionTable.v
SessionWire.v
SessionCalls.v
SessionLiveness.v
SessionShutdown.v
SessionProperties.v
SessionErrors.v
Daemon.v
DaemonInvariant.v
DaemonRequests.v
DaemonProperties.v
IpcListener.v
KeyRace.v
Interfaces.v
