(* ===== verification/Prelude.v ===== *)
(** * A verification development for the daemonproc repository

    The program is a daemon that connects local applications to a peer-to-peer network.
    Its parts, and where they are modelled (paths are under [src/]):

    - Invite keys ([invitekey/]). A generator writes a node's address and keys as text
      and signs it; a parser checks and reads such a text; a manager chooses generator
      and parser by version and prefix. [Base64] has the encoding that the text uses
      (encoding/base64, unpadded URL alphabet), [InviteKey] the generator and the parser
      of version 1 (key_generator_v1.go, key_parser_v1.go) as [KeyV1.GenerateKey] and
      [KeyV1.ParseKey], [KeyManager] the manager (key_manager.go). The manager has no
      lock; [KeyRace] has its calls as goroutines whose steps are accesses to its maps.
    - Control center ([controlcenter/]). A table of system calls by opcode, its
      dispatcher, the two default handlers, and the reading of length-prefixed
      parameters: [Dispatcher] (abi.go, dispatcher.go, handlers.go, registry.go). The
      handlers use the key manager and the egress interface.
    - Local applications ([ipc/]). [Framing] has the frames on a connection (readPacket
      and writePacket of session_manager.go). [SessionManager] has the session manager:
      the table of sessions, the read and write loop of each, registration,
      unregistration, sending and closing, interleaved. [SessionInvariant], [SessionOnce],
      [SessionTable] and [SessionWire] prove its invariants, [SessionCalls] has its calls
      as functions, [SessionLiveness] the absence of deadlock, [SessionShutdown] that it
      comes down under every scheduler, [SessionProperties] and [SessionErrors] the other
      properties. [IpcListener] has the listeners (listener_unix.go,
      listener_windows.go), the interface that both keep as a class with laws, and the
      selection of the platform (listener.go). The session manager hands every frame to
      a control callback, and the identifier of every session that is unregistered to a
      close callback; its model has arbitrary callbacks, which change a state of their own
      and make any sequence of calls of SendToLocal, UnregisterSession and Close. A close
      callback runs inside an UnregisterSession that another callback may have called, so
      a goroutine carries the stack of its callers (the type [role]).
    - The daemon: the session manager with the callback that gives every frame to the
      dispatcher and sends the response back (the wiring that
      controlcenter/integration_test.go has; the repository has no main program yet).
      [Daemon] has the callback and the runs of the daemon, in which other parts may send
      to applications too and a close callback may call the session manager, and which
      record what each application sent and what went back; [DaemonInvariant] and [DaemonRequests] prove the invariants of these records,
      [DaemonProperties] the properties.
    - Identity ([identify/identifier.go]): [Identity], with a store of objects, because
      what matters there is which objects are shared.
    - UDP port ([network/udp_listener.go]): [UdpListener] is the interleaving model,
      [UdpInvariant] its invariants and properties, [UdpShutdown] that it comes down.
      [PacketBuffers] has the arrays behind packets, which are values elsewhere.
      [PortListener] is the interface
      [interfaces/udp_port_listener.go] as a class with laws, and the proof that the UDP
      listener keeps them.
    - STUN ([stun/stun_discoverer.go]): [StunParse] has the parser of responses,
      [Discoverer] the queries, the round over all servers, which publishes the address
      in the identity, and the background loop; [Discovery] puts loop, port and identity
      together. The queries are proved against the
      interface of the UDP port, not against the listener.
    - Contracts without an implementation ([interfaces/]): [Interfaces] has the
      handshake, NAT punching and ingress interfaces as records of operations, their
      error constructors, and the interface of the session manager with its instance.

    This file has what the others share: bytes, machine integers as [Z] with their
    wrap-around written out, big-endian integers, Go's slices and indexing with their
    bounds checks, and the monad [outcome] of computations that return a value, return
    an error, panic, or do not come back. [Threads] has the lemmas on goroutines that
    the interleaving models share, [Schedules] what it means that something happens
    under every scheduler.

    ** How code is modelled

    A function of the code is a function here, with the same guards in the same order;
    errors are values with a constructor for each message. A panic of the runtime is the
    outcome [Panic], or a flag of the state in the interleaving models. Where goroutines
    share state, a goroutine is a program point, and a step takes one goroutine from one
    point to the next; a section under a lock, an operation on a connection or a socket,
    a channel operation and a callback are one step each. The state is reachable if some
    sequence of steps of goroutines and of calls from outside leads to it. What the
    outside world decides (what a peer sends, whether a write fails, which case of a
    select is chosen) is part of the step. Histories such as [accepted], [taken],
    [closeLog], [made] and [received] are ghost state that no step depends on.

    Code outside the repository is a parameter: Ed25519 is the class [Ed25519] with its
    laws [Ed25519Laws] (key sizes, and that a signature of a message verifies), ECDH
    private keys are an abstract type, the egress is a record of operations. The toy
    instance [ToyEd25519] shows that the laws can hold and is used by the witnesses.
    Go's standard library is modelled as far as the code uses it.

    ** What is shown

    - Invite keys: the parser accepts exactly the texts of the format whose signature
      verifies; what the generator makes is parsed back; the manager's lookups implement
      its specification. A key's text is not unique ([ParseKey_malleable]). Concurrent
      calls of the manager do not race once the parser is registered, and can race on a
      new manager.
    - Control center: every request is answered, with the handler that was registered
      first for its opcode; what the default handlers do; parameters round-trip.
    - Framing: the frames that a peer sends are read back however they arrive; what is
      written is read back by the peer.
    - Sessions, in every interleaving: no panic; queues bounded; the wire carries a
      prefix of the accepted packets in order; no connection is leaked; the close
      callback runs at most once; identifiers are unique until the 32-bit counter wraps,
      and what happens when it does; Close waits for all loops, so that a Close in a
      callback of a loop never returns, and, while no callback calls Close, once the context
      is cancelled every schedule ends with all calls returned and all connections closed;
      the results of RegisterSession, SendToLocal and UnregisterSession on every branch;
      a packet that is too long, and a peer that stops in a frame, end the session.
    - The daemon, in every interleaving: it behaves as a sequential server; each
      application gets the answers to its own requests in order, and otherwise only what
      was sent to it; requests that reach an idle session are answered, one for an invite
      key with a key that other nodes accept; the default system calls never panic and answer with
      documented status codes.
    - Identity: the public address is a register of values in spite of sharing.
    - UDP port, in every interleaving: a channel holds only packets that its callback
      accepted; only the current socket is open; once it is stopped every schedule ends
      with all loops gone and StopListener returned; packets are not overwritten (unless a
      subscriber writes to one); only StopListener releases the port; nothing arrives after unsubscribing.
    - STUN: the parser returns the first usable address of a response and never panics
      on a packet that fits in the buffer (and does panic on longer ones); a query
      returns only addresses from the server's response to this query and leaves no
      subscription; a round publishes the first answer, and the whole discoverer only what
      a configured server has told it; at most one loop is alive; Stop can return; the loop panics exactly when the interval is not positive.
    - Listeners, on both platforms: only the listener in use is open; the goroutine of an earlier Start can
      stop a later listener.

    ** Bounds and fuel

    [StunParse.attrLoop] has fuel, one more than the number of bytes: each round of the
    loop consumes at least four, and [attrLoop_returns] shows that the fuel is never used
    up. [Framing.receive] has fuel, and [receive_delivers] shows that one more than the
    number of frames is enough. [SessionCalls.run_call] has the number of steps of the call
    as fuel, and the theorems show that the call returns within it; for UnregisterSession,
    whose steps depend on what the callbacks do, [UnregisterSession_result] shows that some
    fuel is enough, and so is any larger one. The functions [run]
    of the interleaving models follow an explicit list of steps. The properties on
    identifiers and on leaks have the hypothesis that fewer than 2^32 sessions were
    registered, because the code's counter has 32 bits; [dids_wrap] is what happens
    otherwise.

    ** What is not modelled

    Time (deadlines, tickers and timeouts are steps that may happen at any moment), log
    messages, the texts of most errors, the memory model below the level of locks and
    channels (apart from the races of [KeyRace]), write deadlines other than as a write
    that fails, and the packages handshake and natpunch, which have only comments. A
    callback does not call RegisterSession, SetOnClose or SetControlCallback, and it
    chooses its calls when it starts, so that they do not depend on the results of the
    earlier ones. *)

From stdpp Require Export base gmap strings list pretty.
From Stdlib Require Export ZArith Lia.
From Stdlib Require Import Strings.Byte.

#[export] Set Default Goal Selector "!".

Open Scope Z_scope.

(** Calls that come back, and the bounds that they need. *)
Create HintDb go.

(** ** Bytes *)

Abbreviation byte := Corelib.Init.Byte.byte.

(** The value of a Go [byte] (an unsigned 8-bit integer). *)
Definition byte_val (b : byte) : Z := Z.of_N (Byte.to_N b).

(** The conversion [byte(z)] of a non-negative or negative integer: the low
    eight bits. *)
Definition byte_of (z : Z) : byte :=
  default Byte.x00 (Byte.of_N (Z.to_N (z mod 256))).

(** A Go string literal as its bytes. *)
Definition bstr (s : string) : list byte := String.list_byte_of_string s.

#[export] Instance byte_eq_dec : EqDecision byte := Byte.byte_eq_dec.

Lemma byte_val_range b : 0 <= byte_val b < 256.
Proof.
  unfold byte_val. pose proof (Byte.to_N_bounded b) as H. lia.
Qed.

Lemma byte_val_of z : byte_val (byte_of z) = z mod 256.
Proof.
  unfold byte_val, byte_of. pose proof (Z.mod_pos_bound z 256 eq_refl).
  destruct (Byte.of_N (Z.to_N (z mod 256))) as [b|] eqn:E; simpl.
  - apply Byte.to_of_N in E. rewrite E. lia.
  - apply Byte.of_N_None_iff in E. lia.
Qed.

Lemma byte_of_val b : byte_of (byte_val b) = b.
Proof.
  unfold byte_of. rewrite Z.mod_small by apply byte_val_range.
  unfold byte_val. by rewrite N2Z.id, Byte.of_to_N.
Qed.

#[export] Instance byte_val_inj : Inj (=) (=) byte_val.
Proof. intros a b H. by rewrite <- (byte_of_val a), H, byte_of_val. Qed.

#[export] Instance byte_countable : Countable byte :=
  inj_countable Byte.to_N Byte.of_N Byte.of_to_N.

Lemma byte_of_mod z : byte_of (z mod 256) = byte_of z.
Proof. unfold byte_of. by rewrite Z.mod_mod. Qed.

(** Put the range of every byte of the context at hand. *)
Ltac byte_ranges :=
  repeat match goal with
  | b : Corelib.Init.Byte.byte |- _ =>
      lazymatch goal with
      | _ : 0 <= byte_val b < 256 |- _ => fail
      | _ => pose proof (byte_val_range b)
      end
  end.

(** ** Machine integers *)

Definition u16 (z : Z) : Z := z mod 2 ^ 16.
Definition u32 (z : Z) : Z := z mod 2 ^ 32.

Abbreviation is_u16 z := (0 <= z < 65536).
Abbreviation is_u32 z := (0 <= z < 4294967296).

(** Linear arithmetic with division and remainder by constants. *)
Ltac zlia := Z.to_euclidean_division_equations; lia.

Lemma lor_shiftl_add a b n :
  0 <= n -> 0 <= a < 2 ^ n -> Z.lor a (Z.shiftl b n) = a + b * 2 ^ n.
Proof.
  intros Hn Ha. rewrite <- Z.shiftl_mul_pow2 by done. symmetry.
  rewrite Z.add_nocarry_lxor; [apply Z.lxor_lor|];
    (apply Z.bits_inj'; intros i Hi; rewrite Z.land_spec, Z.bits_0;
     destruct (Z.ltb_spec i n);
     [rewrite Z.shiftl_spec_low by lia; apply andb_false_r|];
     rewrite <- (Z.mod_small a (2 ^ n)), Z.mod_pow2_bits_high by lia; done).
Qed.

Lemma lxor_range a b n :
  0 <= n -> 0 <= a < 2 ^ n -> 0 <= b < 2 ^ n -> 0 <= Z.lxor a b < 2 ^ n.
Proof.
  intros Hn Ha Hb. rewrite <- (Z.mod_small (Z.lxor a b) (2 ^ n)) at 1 2.
  - apply Z.mod_pos_bound. lia.
  - enough (Z.lxor a b = Z.lxor a b mod 2 ^ n) as ->
      by (apply Z.mod_pos_bound; lia).
    apply Z.bits_inj'. intros i Hi. destruct (Z.ltb_spec i n).
    + by rewrite Z.mod_pow2_bits_low.
    + rewrite (Z.mod_pow2_bits_high (Z.lxor a b)) by lia.
      rewrite Z.lxor_spec, <- (Z.mod_small a (2 ^ n)), <- (Z.mod_small b (2 ^ n)),
        !Z.mod_pow2_bits_high by lia. done.
Qed.

Lemma lxor_cancel a b : Z.lxor (Z.lxor a b) b = a.
Proof. by rewrite Z.lxor_assoc, Z.lxor_nilpotent, Z.lxor_0_r. Qed.

(** ** Outcomes of Go code

    A call returns a value, returns an error, panics, or (in a definition that
    bounds a loop by fuel) runs out of fuel. *)

Inductive outcome (E A : Type) : Type :=
| Ret (a : A)
| Fail (e : E)
| Panic
| Diverge.
Arguments Ret {E A} a.
Arguments Fail {E A} e.
Arguments Panic {E A}.
Arguments Diverge {E A}.

#[export] Instance outcome_ret {E} : MRet (outcome E) := fun A a => Ret a.
#[export] Instance outcome_bind {E} : MBind (outcome E) := fun A B k m =>
  match m with
  | Ret a => k a
  | Fail e => Fail e
  | Panic => Panic
  | Diverge => Diverge
  end.

(** The call comes back to its caller, with a value or an error. *)
Definition returns {E A} (m : outcome E A) : Prop :=
  match m with Ret _ | Fail _ => True | Panic | Diverge => False end.

(** Map the error of a call, as [fmt.Errorf("...: %w", err)] does. *)
Definition wrap_err {E E' A} (f : E -> E') (m : outcome E A) : outcome E' A :=
  match m with
  | Ret a => Ret a
  | Fail e => Fail (f e)
  | Panic => Panic
  | Diverge => Diverge
  end.

(** Step through binds whose first call has returned. *)
Ltac go_bind := cbn [mbind outcome_bind mret outcome_ret wrap_err].

Lemma returns_bind {E A B} (m : outcome E A) (k : A -> outcome E B) :
  returns m -> (forall a, m = Ret a -> returns (k a)) -> returns (m ≫= k).
Proof. destruct m; simpl; eauto. Qed.

Lemma returns_wrap {E E' A} (f : E -> E') (m : outcome E A) :
  returns m -> returns (wrap_err f m).
Proof. by destruct m. Qed.

Lemma returns_if_Fail {E A} (b : bool) e (m : outcome E A) :
  (b = false -> returns m) -> returns (if b then Fail e else m).
Proof. destruct b; simpl; auto. Qed.

Lemma bind_Ret_inv {E A B} (m : outcome E A) (k : A -> outcome E B) b :
  m ≫= k = Ret b -> exists a, m = Ret a /\ k a = Ret b.
Proof. destruct m; simpl; eauto; discriminate. Qed.

Lemma wrap_err_Ret_inv {E E' A} (f : E -> E') (m : outcome E A) a :
  wrap_err f m = Ret a -> m = Ret a.
Proof. destruct m; simpl; congruence. Qed.

(** Invert a run that returned a value: every guard was passed and every call
    returned. *)
Ltac go_inv H :=
  cbv beta zeta in H;
  repeat (first
    [ match type of H with
      | (if ?b then Fail _ else _) = Ret _ =>
          let C := fresh "C" in destruct b eqn:C; [discriminate H|]
      end
    | match type of H with
      | (_ ≫= _) = Ret _ =>
          let x := fresh "v" in let C := fresh "C" in
          apply bind_Ret_inv in H as (x & C & H)
      end ]; cbv beta zeta in H).

(** Show that a run comes back: step over its guards and calls, leaving the
    bounds of its slices. *)
Ltac go_total :=
  cbv beta zeta;
  repeat (first
    [ apply returns_if_Fail; let C := fresh "C" in intros C
    | apply returns_bind; [|let x := fresh "v" in let C := fresh "C" in intros x C] ];
    cbv beta zeta).

(** ** Slices and indexing

    [s[lo:hi]] and [s[i]] with their bounds checks. The upper bound is checked
    against the length, which the code guarantees before it slices; Go checks a
    slice of a slice against the capacity, which is at least the length. *)

Definition zlen {A} (l : list A) : Z := Z.of_nat (length l).

Definition go_slice {E A} (l : list A) (lo hi : Z) : outcome E (list A) :=
  if (0 <=? lo) && (lo <=? hi) && (hi <=? zlen l)
  then Ret (take (Z.to_nat (hi - lo)) (drop (Z.to_nat lo) l))
  else Panic.

Definition go_index {E A} (l : list A) (i : Z) : outcome E A :=
  if 0 <=? i
  then match l !! Z.to_nat i with Some x => Ret x | None => Panic end
  else Panic.

Section slices.
Context {E A : Type}.
Implicit Types l a b c : list A.

Lemma zlen_app a b : zlen (a ++ b) = zlen a + zlen b.
Proof. unfold zlen. rewrite length_app. lia. Qed.

Lemma zlen_cons x l : zlen (x :: l) = 1 + zlen l.
Proof. unfold zlen. simpl. lia. Qed.

Lemma zlen_nil : zlen (@nil A) = 0.
Proof. done. Qed.

Lemma zlen_nonneg l : 0 <= zlen l.
Proof. unfold zlen. lia. Qed.

Lemma go_slice_ok l lo hi :
  0 <= lo -> lo <= hi -> hi <= zlen l ->
  @go_slice E A l lo hi = Ret (take (Z.to_nat (hi - lo)) (drop (Z.to_nat lo) l)).
Proof.
  intros. unfold go_slice.
  by rewrite (proj2 (Z.leb_le 0 lo)), (proj2 (Z.leb_le lo hi)),
    (proj2 (Z.leb_le hi (zlen l))).
Qed.

Lemma go_slice_panic l lo hi : hi < lo -> @go_slice E A l lo hi = Panic.
Proof.
  intros. unfold go_slice.
  by rewrite (proj2 (Z.leb_gt lo hi)), andb_false_r.
Qed.

(** Slicing out the middle of a concatenation. *)
Lemma go_slice_mid a b c lo hi :
  lo = zlen a -> hi = zlen a + zlen b ->
  @go_slice E A (a ++ b ++ c) lo hi = Ret b.
Proof.
  intros -> ->. rewrite go_slice_ok by (rewrite ?zlen_app; unfold zlen; lia).
  f_equal. unfold zlen. rewrite Nat2Z.id, drop_app_length.
  replace (Z.to_nat _) with (length b) by lia. apply take_app_length.
Qed.

Lemma go_slice_prefix a c hi :
  hi = zlen a -> @go_slice E A (a ++ c) 0 hi = Ret a.
Proof. intros ->. by apply (go_slice_mid [] a c). Qed.

Lemma go_slice_suffix a b lo hi :
  lo = zlen a -> hi = zlen a + zlen b -> @go_slice E A (a ++ b) lo hi = Ret b.
Proof. intros -> ->. rewrite <- (app_nil_r b) at 1. by apply go_slice_mid. Qed.

(** The parts of a list around one of its elements. *)
Lemma go_slice_after a x b :
  @go_slice E A (a ++ x :: b) (zlen a + 1) (zlen (a ++ x :: b)) = Ret b.
Proof.
  replace (a ++ x :: b) with ((a ++ [x]) ++ b) by (by rewrite <- app_assoc).
  apply go_slice_suffix; rewrite !zlen_app, ?zlen_cons, ?zlen_nil; lia.
Qed.

Lemma go_slice_before a x b : @go_slice E A (a ++ x :: b) 0 (zlen a) = Ret a.
Proof. by apply go_slice_prefix. Qed.

(** What a successful slice says about the sliced list. *)
Lemma go_slice_Ret_inv l lo hi s :
  @go_slice E A l lo hi = Ret s ->
  0 <= lo /\ lo <= hi /\ hi <= zlen l /\ zlen s = hi - lo /\
  exists a c, l = a ++ s ++ c /\ zlen a = lo.
Proof.
  unfold go_slice. destruct (_ && _) eqn:Hc; [|done]. intros [= <-].
  apply andb_true_iff in Hc as [[H1 H2]%andb_true_iff H3].
  apply Z.leb_le in H1, H2, H3. unfold zlen in *.
  rewrite length_take, length_drop. split_and!; [lia..|].
  exists (take (Z.to_nat lo) l), (drop (Z.to_nat (hi - lo)) (drop (Z.to_nat lo) l)).
  rewrite !take_drop, length_take. split; [done|lia].
Qed.

Lemma go_slice_returns l lo hi :
  0 <= lo -> lo <= hi -> hi <= zlen l -> returns (@go_slice E A l lo hi).
Proof. intros. by rewrite go_slice_ok. Qed.

Lemma go_index_ok l i x :
  0 <= i -> l !! Z.to_nat i = Some x -> @go_index E A l i = Ret x.
Proof. intros Hi Hx. unfold go_index. by rewrite (proj2 (Z.leb_le 0 i)), Hx. Qed.

Lemma go_index_mid a x c i : i = zlen a -> @go_index E A (a ++ x :: c) i = Ret x.
Proof.
  intros ->. apply go_index_ok; unfold zlen; [lia|].
  by rewrite Nat2Z.id, list_lookup_middle.
Qed.

Lemma go_index_returns l i : 0 <= i < zlen l -> returns (@go_index E A l i).
Proof.
  unfold zlen. intros Hi. destruct (lookup_lt_is_Some_2 l (Z.to_nat i)) as [x Hx]; [lia|].
  by rewrite (go_index_ok l i x) by (done || lia).
Qed.
(** Reassembling a list from a prefix, the segment up to an element, the
    element and the rest. *)
Lemma go_split_around pre r l x pl tl i :
  l = pre ++ r -> @go_slice E A l (zlen pre) i = Ret pl ->
  @go_index E A l i = Ret x -> @go_slice E A l (i + 1) (zlen l) = Ret tl ->
  l = pre ++ pl ++ x :: tl.
Proof.
  intros Hl Hpl Hx Htl. apply go_slice_Ret_inv in Hpl as (_ & _ & Hi & Lpl & a & c & El & La).
  assert (a = pre) as ->.
  { apply (app_inj_1 a pre (pl ++ c) r); [unfold zlen in La; lia|congruence]. }
  rewrite El in *. clear El Hl r.
  destruct c as [|y c].
  { rewrite app_nil_r in Hx. unfold go_index in Hx. destruct (0 <=? i); [|done].
    rewrite lookup_ge_None_2 in Hx; [done|]. rewrite length_app. unfold zlen in *. lia. }
  rewrite app_assoc in Hx, Htl |- *. rewrite go_index_mid in Hx by (rewrite zlen_app; lia).
  replace i with (zlen (pre ++ pl)) in Htl by (rewrite zlen_app; lia).
  rewrite go_slice_after in Htl. rewrite <- app_assoc. congruence.
Qed.
End slices.

#[export] Hint Resolve returns_wrap go_slice_returns go_index_returns : go.
#[export] Hint Extern 3 (_ <= _) => lia : go.
#[export] Hint Extern 3 (_ < _) => lia : go.

Create Rewrite HintDb zlen.
#[export] Hint Rewrite @zlen_app @zlen_cons @zlen_nil : zlen.
Ltac zlen_norm := autorewrite with zlen in *.

(** ** [encoding/binary.BigEndian] *)

Definition putUint16 (v : Z) : list byte :=
  [byte_of (Z.shiftr v 8); byte_of v].

Definition putUint32 (v : Z) : list byte :=
  [byte_of (Z.shiftr v 24); byte_of (Z.shiftr v 16); byte_of (Z.shiftr v 8); byte_of v].

(** [Uint16] panics on a slice shorter than two bytes, [Uint32] on one shorter
    than four. *)
Definition getUint16 {E} (b : list byte) : outcome E Z :=
  match b with
  | b0 :: b1 :: _ => Ret (Z.lor (byte_val b1) (Z.shiftl (byte_val b0) 8))
  | _ => Panic
  end.

Definition getUint32 {E} (b : list byte) : outcome E Z :=
  match b with
  | b0 :: b1 :: b2 :: b3 :: _ =>
      Ret (Z.lor (Z.lor (Z.lor (byte_val b3) (Z.shiftl (byte_val b2) 8))
                    (Z.shiftl (byte_val b1) 16))
              (Z.shiftl (byte_val b0) 24))
  | _ => Panic
  end.

(** [s[lo:lo+2]] and [s[lo:lo+4]] read as big-endian integers. *)
Definition u16_at {E} (l : list byte) (lo : Z) : outcome E Z :=
  s ← go_slice l lo (lo + 2); getUint16 s.
Definition u32_at {E} (l : list byte) (lo : Z) : outcome E Z :=
  s ← go_slice l lo (lo + 4); getUint32 s.

Lemma zlen_putUint16 v : zlen (putUint16 v) = 2.
Proof. done. Qed.
Lemma zlen_putUint32 v : zlen (putUint32 v) = 4.
Proof. done. Qed.
#[export] Hint Rewrite zlen_putUint16 zlen_putUint32 : zlen.

Section big_endian.
Context {E : Type}.

Lemma getUint16_val b0 b1 r :
  @getUint16 E (b0 :: b1 :: r) = Ret (byte_val b0 * 256 + byte_val b1).
Proof.
  unfold getUint16. byte_ranges. rewrite lor_shiftl_add by lia. f_equal. lia.
Qed.

Lemma getUint32_val b0 b1 b2 b3 r :
  @getUint32 E (b0 :: b1 :: b2 :: b3 :: r) =
  Ret (((byte_val b0 * 256 + byte_val b1) * 256 + byte_val b2) * 256 + byte_val b3).
Proof.
  unfold getUint32. byte_ranges. rewrite (lor_shiftl_add _ _ 8) by lia. rewrite (lor_shiftl_add _ _ 16) by lia.
  rewrite (lor_shiftl_add _ _ 24) by lia. f_equal. lia.
Qed.

Lemma getUint16_put v r : is_u16 v -> @getUint16 E (putUint16 v ++ r) = Ret v.
Proof.
  intros Hv. unfold putUint16. simpl app. rewrite getUint16_val, !byte_val_of.
  rewrite Z.shiftr_div_pow2 by lia. change (2 ^ 8) with 256. f_equal. zlia.
Qed.

Lemma getUint32_put v r : is_u32 v -> @getUint32 E (putUint32 v ++ r) = Ret v.
Proof.
  intros Hv. unfold putUint32. simpl app. rewrite getUint32_val, !byte_val_of.
  rewrite !Z.shiftr_div_pow2 by lia.
  change (2 ^ 8) with 256. change (2 ^ 16) with 65536. change (2 ^ 24) with 16777216.
  f_equal. zlia.
Qed.

Lemma getUint16_put_exact v : is_u16 v -> @getUint16 E (putUint16 v) = Ret v.
Proof. intros Hv. rewrite <- (app_nil_r (putUint16 v)). by apply getUint16_put. Qed.

Lemma getUint32_put_exact v : is_u32 v -> @getUint32 E (putUint32 v) = Ret v.
Proof. intros Hv. rewrite <- (app_nil_r (putUint32 v)). by apply getUint32_put. Qed.

Lemma getUint16_range l v : @getUint16 E l = Ret v -> is_u16 v.
Proof.
  destruct l as [|b0 [|b1 l]]; [done..|]. rewrite getUint16_val. intros [= <-].
  byte_ranges. lia.
Qed.

Lemma getUint32_range l v : @getUint32 E l = Ret v -> is_u32 v.
Proof.
  destruct l as [|b0 [|b1 [|b2 [|b3 l]]]]; [done..|]. rewrite getUint32_val.
  intros [= <-]. byte_ranges. lia.
Qed.

Lemma putUint16_get b0 b1 : putUint16 (byte_val b0 * 256 + byte_val b1) = [b0; b1].
Proof.
  byte_ranges. unfold putUint16.
  f_equal; [|f_equal]; apply (inj byte_val); rewrite byte_val_of;
    rewrite ?Z.shiftr_div_pow2 by lia; change (2 ^ 8) with 256; zlia.
Qed.

Lemma putUint32_get b0 b1 b2 b3 :
  putUint32 (((byte_val b0 * 256 + byte_val b1) * 256 + byte_val b2) * 256 + byte_val b3) =
  [b0; b1; b2; b3].
Proof.
  byte_ranges. unfold putUint32.
  repeat (apply f_equal2; [|try reflexivity]); apply (inj byte_val);
    rewrite byte_val_of; rewrite ?Z.shiftr_div_pow2 by lia;
    change (2 ^ 8) with 256; change (2 ^ 16) with 65536;
    change (2 ^ 24) with 16777216; zlia.
Qed.

Lemma u16_at_mid a v c lo :
  lo = zlen a -> is_u16 v -> @u16_at E (a ++ putUint16 v ++ c) lo = Ret v.
Proof.
  intros -> Hv. unfold u16_at. rewrite go_slice_mid by done. go_bind.
  by apply getUint16_put_exact.
Qed.

Lemma u32_at_mid a v c lo :
  lo = zlen a -> is_u32 v -> @u32_at E (a ++ putUint32 v ++ c) lo = Ret v.
Proof.
  intros -> Hv. unfold u32_at. rewrite go_slice_mid by done. go_bind.
  by apply getUint32_put_exact.
Qed.

Lemma u16_at_ok l lo :
  0 <= lo -> lo + 2 <= zlen l -> exists v, @u16_at E l lo = Ret v /\ is_u16 v.
Proof.
  intros. unfold u16_at. rewrite go_slice_ok by lia. go_bind.
  destruct (take _ _) as [|b0 [|b1 s]] eqn:Ht.
  1,2: apply (f_equal length) in Ht; rewrite length_take, length_drop in Ht;
    unfold zlen in *; simpl in Ht; lia.
  rewrite getUint16_val. eexists. split; [done|].
  byte_ranges. lia.
Qed.

Lemma u32_at_ok l lo :
  0 <= lo -> lo + 4 <= zlen l -> exists v, @u32_at E l lo = Ret v /\ is_u32 v.
Proof.
  intros. unfold u32_at. rewrite go_slice_ok by lia. go_bind.
  destruct (take _ _) as [|b0 [|b1 [|b2 [|b3 s]]]] eqn:Ht.
  1,2,3,4: apply (f_equal length) in Ht; rewrite length_take, length_drop in Ht;
    unfold zlen in *; simpl in Ht; lia.
  rewrite getUint32_val. eexists. split; [done|]. byte_ranges. lia.
Qed.
End big_endian.

(** ** Lists *)

(** Induction three elements at a time. *)
Lemma list_ind3 {A} (P : list A -> Prop) :
  P [] -> (forall a, P [a]) -> (forall a b, P [a; b]) ->
  (forall a b c l, P l -> P (a :: b :: c :: l)) -> forall l, P l.
Proof.
  intros H0 H1 H2 H3. fix IH 1. intros [|a [|b [|c l]]]; [auto..|]. apply H3, IH.
Qed.
