(* ===== verification/Threads.v ===== *)
(** * Threads: goroutines of an interleaving model

    The models of the session manager and of the UDP listener keep their goroutines in
    a finite map from goroutine numbers to program points. This file has what both
    need: goroutines with a property that exist, that are unique, or that are counted,
    when a goroutine moves, ends or is started. *)

From S2P Require Import Prelude.

(** Case analysis on a lookup in an updated map. *)
Ltac lookup_cases H :=
  lazymatch type of H with
  | <[_ := _]> _ !! _ = Some _ =>
      apply lookup_insert_Some in H as [[? ?]|[? H]]; [simplify_eq|]
  | delete _ _ !! _ = Some _ => apply lookup_delete_Some in H as [? H]
  end.

Section threads.
Context {A : Type}.
Implicit Types (P : A -> Prop) (f : A -> bool) (c d : A).

(** A new key is not an old one. *)
Lemma fresh_ne (m : gmap nat A) p (a : A) : m !! p = Some a -> fresh (dom m) <> p.
Proof. intros Hp <-. by apply (is_fresh (dom m)), elem_of_dom_2 with a. Qed.

Lemma lookup_spawn (m : gmap nat A) c t c' :
  m !! t = Some c' -> <[fresh (dom m) := c]> m !! t = Some c'.
Proof. intros Ht. rewrite lookup_insert_ne; [done|]. by eapply fresh_ne. Qed.

(** ** Goroutines with a property *)

(** Some goroutine satisfies [P]. *)
Definition some_thread (P : A -> Prop) (m : gmap nat A) : Prop :=
  exists t c, m !! t = Some c /\ P c.

Lemma some_thread_move P (m : gmap nat A) t c c' :
  m !! t = Some c -> (P c -> P c') -> some_thread P m -> some_thread P (<[t := c']> m).
Proof.
  intros Ht Hpc (u & d & Hu & Hd). destruct (decide (u = t)) as [->|Hne].
  - exists t, c'. rewrite lookup_insert_eq. simplify_eq. auto.
  - exists u, d. by rewrite lookup_insert_ne.
Qed.

Lemma some_thread_delete P (m : gmap nat A) t c :
  m !! t = Some c -> (P c -> False) -> some_thread P m -> some_thread P (delete t m).
Proof.
  intros Ht Hpc (u & d & Hu & Hd). exists u, d. rewrite lookup_delete_ne; [done|].
  intros <-. simplify_eq. auto.
Qed.

Lemma some_thread_here P (m : gmap nat A) t c : P c -> some_thread P (<[t := c]> m).
Proof. intros Hc. exists t, c. by rewrite lookup_insert_eq. Qed.

Lemma some_thread_spawn P (m : gmap nat A) c :
  some_thread P m -> some_thread P (<[fresh (dom m) := c]> m).
Proof. intros (u & d & Hu & Hd). exists u, d. split; [by apply lookup_spawn|done]. Qed.

(** The goroutine that moves satisfies [P], or another one does. *)
Lemma some_thread_split P (m : gmap nat A) t c :
  m !! t = Some c -> some_thread P m ->
  P c \/ (some_thread P (delete t m) /\ forall c', some_thread P (<[t := c']> m)).
Proof.
  intros Ht (u & d & Hu & Hd). destruct (decide (u = t)) as [->|Hne]; [left; congruence|].
  right. split; [|intros c']; exists u, d; [by rewrite lookup_delete_ne|by rewrite lookup_insert_ne].
Qed.

(** At most one goroutine satisfies [P]. *)
Definition one_thread (P : A -> Prop) (m : gmap nat A) : Prop :=
  forall t u c d, m !! t = Some c -> m !! u = Some d -> P c -> P d -> t = u.

Lemma one_thread_move P (m : gmap nat A) t c c' :
  m !! t = Some c -> (P c' -> P c) -> one_thread P m -> one_thread P (<[t := c']> m).
Proof.
  intros Ht Hpc H1 u v d e Hu Hv Pd Pe.
  apply lookup_insert_Some in Hu as [[<- <-]|[? Hu]], Hv as [[<- <-]|[? Hv]]; eauto.
Qed.

Lemma one_thread_delete P (m : gmap nat A) t : one_thread P m -> one_thread P (delete t m).
Proof.
  intros H1 u v d e Hu Hv. apply lookup_delete_Some in Hu as [_ Hu], Hv as [_ Hv]. eauto.
Qed.

Lemma one_thread_spawn P (m : gmap nat A) c :
  (P c -> False) -> one_thread P m -> one_thread P (<[fresh (dom m) := c]> m).
Proof.
  intros Hpc H1 u v d e Hu Hv Pd Pe.
  apply lookup_insert_Some in Hu as [[<- <-]|[? Hu]], Hv as [[<- <-]|[? Hv]]; eauto; done.
Qed.

(** Starting to satisfy [P] when nobody does. *)
Lemma one_thread_enter P (m : gmap nat A) t c :
  (some_thread P m -> False) -> one_thread P (<[t := c]> m).
Proof.
  intros Hno u v d e Hu Hv Pd Pe.
  apply lookup_insert_Some in Hu as [[<- <-]|[? Hu]], Hv as [[<- <-]|[? Hv]]; try done;
    exfalso; apply Hno; eexists _, _; eauto.
Qed.

(** ** What a goroutine holds *)

(** A list that the point of a goroutine stands for; nothing if there is none. *)
Definition of_thread {B} (f : A -> list B) (m : gmap nat A) (t : nat) : list B :=
  match m !! t with Some c => f c | None => [] end.

Lemma of_thread_at {B} (f : A -> list B) (m : gmap nat A) t c :
  m !! t = Some c -> of_thread f m t = f c.
Proof. unfold of_thread. by intros ->. Qed.

Lemma of_thread_new {B} (f : A -> list B) (m : gmap nat A) : of_thread f m (fresh (dom m)) = [].
Proof. unfold of_thread. by rewrite (not_elem_of_dom_1 m) by apply is_fresh. Qed.

Lemma of_thread_newer {B} (f : A -> list B) (m : gmap nat A) u c :
  of_thread f m (fresh (dom (<[u := c]> m))) = [].
Proof.
  unfold of_thread. rewrite (not_elem_of_dom_1 m); [done|]. intros Hin.
  apply (is_fresh (dom (<[u := c]> m))), dom_insert, elem_of_union_r, Hin.
Qed.

Lemma of_thread_insert {B} (f : A -> list B) (m : gmap nat A) t c u :
  of_thread f (<[t := c]> m) u = if decide (t = u) then f c else of_thread f m u.
Proof. unfold of_thread. rewrite lookup_insert. by case_decide. Qed.

Lemma of_thread_delete {B} (f : A -> list B) (m : gmap nat A) t u :
  of_thread f (delete t m) u = if decide (t = u) then [] else of_thread f m u.
Proof. unfold of_thread. rewrite lookup_delete. by case_decide. Qed.

(** ** Counting *)

(** The number of goroutines that satisfy [f]. *)
Definition count_threads (f : A -> bool) (m : gmap nat A) : Z :=
  Z.of_nat (size (filter (fun tc => f tc.2 = true) m)).

Lemma count_new f (m : gmap nat A) t c :
  m !! t = None -> count_threads f (<[t := c]> m) = (if f c then 1 else 0) + count_threads f m.
Proof.
  intros Ht. unfold count_threads. destruct (f c) eqn:Hc.
  - rewrite map_filter_insert_True by done. rewrite map_size_insert_None; [lia|].
    apply map_lookup_filter_None_2. by left.
  - rewrite map_filter_insert_False by (simpl; congruence). by rewrite delete_id.
Qed.

Lemma count_delete f (m : gmap nat A) t c :
  m !! t = Some c -> count_threads f (delete t m) = count_threads f m - (if f c then 1 else 0).
Proof.
  intros Ht. rewrite <- (insert_delete_id m t c Ht) at 2.
  rewrite count_new by apply lookup_delete_eq. lia.
Qed.

Lemma count_move f (m : gmap nat A) t c c' :
  m !! t = Some c ->
  count_threads f (<[t := c']> m) = count_threads f m - (if f c then 1 else 0) + (if f c' then 1 else 0).
Proof.
  intros Ht. rewrite <- insert_delete_eq, count_new by apply lookup_delete_eq.
  rewrite (count_delete f m t c) by done. lia.
Qed.

Lemma count_spawn f (m : gmap nat A) c : count_threads f (<[fresh (dom m) := c]> m) = (if f c then 1 else 0) + count_threads f m.
Proof. apply count_new, not_elem_of_dom, is_fresh. Qed.

Lemma count_nonneg f (m : gmap nat A) : 0 <= count_threads f m.
Proof. unfold count_threads. lia. Qed.

(** Nobody satisfies [f] when the count is zero. *)
Lemma count_zero f (m : gmap nat A) t c : count_threads f m = 0 -> m !! t = Some c -> f c = false.
Proof.
  intros Hl Ht. destruct (f c) eqn:Hc; [|done]. pose proof (count_delete f m t c Ht) as Hd.
  rewrite Hc in Hd. pose proof (count_nonneg f (delete t m)). lia.
Qed.

(** Somebody satisfies [f] when the count is not zero. *)
Lemma count_some f (m : gmap nat A) :
  count_threads f m <> 0 -> exists t c, m !! t = Some c /\ f c = true.
Proof.
  unfold count_threads. intros Hl.
  destruct (map_choose (filter (fun tc => f tc.2 = true) m)) as (t & c & Hc).
  { intros He. rewrite He, map_size_empty in Hl. done. }
  apply map_lookup_filter_Some in Hc as [? ?]. eauto.
Qed.

(** ** Measures *)

(** The total weight of the entries. *)
Definition weight (f : A -> nat) (m : gmap nat A) : nat := map_fold (fun _ c n => f c + n)%nat 0%nat m.

Lemma weight_new (f : A -> nat) (m : gmap nat A) t c :
  m !! t = None -> weight f (<[t := c]> m) = (f c + weight f m)%nat.
Proof.
  intros Ht. unfold weight.
  apply (map_fold_insert_L (fun _ c n => f c + n)%nat); [|done]. intros. lia.
Qed.

Lemma weight_delete (f : A -> nat) (m : gmap nat A) t c :
  m !! t = Some c -> weight f m = (f c + weight f (delete t m))%nat.
Proof.
  intros Ht. rewrite <- (insert_delete_id m t c Ht) at 1. by rewrite weight_new by apply lookup_delete_eq.
Qed.

Lemma weight_move (f : A -> nat) (m : gmap nat A) t c c' :
  m !! t = Some c -> (weight f (<[t := c']> m) + f c = weight f m + f c')%nat.
Proof.
  intros Ht. rewrite (weight_delete f m t c Ht), <- insert_delete_eq, weight_new by apply lookup_delete_eq. lia.
Qed.

Lemma weight_spawn (f : A -> nat) (m : gmap nat A) c :
  weight f (<[fresh (dom m) := c]> m) = (f c + weight f m)%nat.
Proof. apply weight_new, not_elem_of_dom, is_fresh. Qed.

End threads.

(** Carry [some_thread] over the updates of a step. *)
Ltac keep_some_thread :=
  repeat lazymatch goal with
  | |- some_thread _ (<[fresh _ := _]> _) => apply some_thread_spawn
  | |- some_thread _ (<[_ := _]> _) => eapply some_thread_move; [by repeat apply lookup_spawn|..]
  | |- some_thread _ (delete _ _) => eapply some_thread_delete; [by repeat apply lookup_spawn|..]
  | |- some_thread _ _ => assumption
  end.

(** What a goroutine holds after the updates of a step. *)
Ltac held :=
  repeat first [rewrite of_thread_insert | rewrite of_thread_delete]; repeat case_decide; subst; try done;
  rewrite ?of_thread_newer, ?of_thread_new;
  repeat match goal with H : ?m !! ?t = Some _ |- context [of_thread _ ?m ?t] =>
    rewrite (of_thread_at _ m t _ H) end.

(** Compare the weights of an updated map and of the map before. *)
Ltac weigh :=
  repeat match goal with
  | |- context [weight ?f (<[?t := ?c']> ?m)] =>
      first
        [ rewrite (weight_spawn f)
        | let H := fresh "Hw" in
          epose proof (weight_move f m t _ c' ltac:(by repeat apply lookup_spawn)) as H;
          rewrite ?weight_spawn in H;
          revert H; generalize (weight f (<[t := c']> m)); intros ? H ]
  | |- context [weight ?f (delete ?t ?m)] =>
      let H := fresh "Hw" in
      epose proof (weight_delete f m t _ ltac:(eassumption)) as H;
      revert H; generalize (weight f (delete t m)); intros ? H
  end.
