(* ===== verification/Schedules.v ===== *)
(** * Schedules: what happens under every scheduler

    Goroutines move in an order that the program does not choose. Here a system is given
    by two relations: [goes], a step of any goroutine, and [free], a step that needs
    nobody outside the program. A state is inevitable when every order of steps leads to
    it and the program is never stuck before it. *)

From stdpp Require Import relations.
From S2P Require Import Prelude.

Section schedules.
Context {S : Type} (goes free : S -> S -> Prop).
Implicit Types (s : S) (I P : S -> Prop).

(** Whatever steps are taken, a state of [P] is reached; until then there is always a
    step that needs no help. *)
Inductive inevitable P : S -> Prop :=
| inevitable_now s : P s -> inevitable P s
| inevitable_later s s1 :
    free s s1 -> (forall s', goes s s' -> inevitable P s') -> inevitable P s.

(** Nothing moves without help. *)
Definition settled s : Prop := forall s', free s s' -> False.

(** A lexicographic measure: [a] decreases, or [a] stays and [b] decreases. *)
Lemma sn_lex I (a b : S -> nat) s :
  (forall s s', I s -> goes s s' -> I s') ->
  (forall s s', I s -> goes s s' -> a s' < a s \/ a s' = a s /\ b s' < b s)%nat ->
  I s -> sn goes s.
Proof.
  intros HI Hlt. remember (a s) as n eqn:Hn. revert s Hn.
  induction (lt_wf n) as [n _ IHn]. intros s Hn. remember (b s) as m eqn:Hm. revert s Hn Hm.
  induction (lt_wf m) as [m _ IHm]. intros s -> -> Hs. constructor. intros s' Hgo. unfold flip in Hgo.
  destruct (Hlt s s' Hs Hgo) as [Ha|[Ha Hb]]; [by eapply (IHn (a s')); eauto|].
  eapply (IHm (b s')); eauto.
Qed.

(** When the steps come to an end it is enough to look at the states where they do. *)
Lemma inevitable_settled I P s :
  (forall s s', I s -> goes s s' -> I s') ->
  (forall s, I s -> settled s \/ exists s', free s s') ->
  (forall s, I s -> settled s -> P s) ->
  sn goes s -> I s -> inevitable P s.
Proof.
  intros HI Hdec HP. induction 1 as [s _ IH]. intros Hs.
  destruct (Hdec s Hs) as [Hq|[s1 Hs1]]; [by apply inevitable_now, HP|].
  eapply inevitable_later; [exact Hs1|]. intros s' Hs'. apply IH; [done|by eapply HI].
Qed.

(** What is inevitable happens on every way that goes on as long as it can. *)
Lemma inevitable_reached P s :
  inevitable P s -> forall s', rtc goes s s' -> settled s' ->
  exists s1, rtc goes s s1 /\ rtc goes s1 s' /\ P s1.
Proof.
  induction 1 as [s HP|s s1 Hs1 _ IH]; intros s' Hs' Hq; [by exists s|].
  destruct Hs' as [s|s s2 s' Hs2 Hs']; [by destruct (Hq s1)|].
  destruct (IH s2 Hs2 s' Hs' Hq) as (s3 & Hs3 & Hs3' & HP). exists s3. split_and!; [|done..].
  by eapply rtc_l.
Qed.

End schedules.
