(* ===== verification/Base64.v ===== *)
(** * Base64: [encoding/base64.RawURLEncoding]

    The invite keys carry their binary fields in the URL alphabet without
    padding. This file models the encoder and the decoder of the Go standard
    library as the key generator and the key parser call them: the decoder
    skips carriage returns and line feeds, and, being non-strict, ignores the
    unused low bits of the last character. *)

From S2P Require Import Prelude.
From Stdlib Require Import Strings.Byte.

Module Base64.

(** The URL-safe alphabet. *)
Definition alphabet : list byte :=
  bstr "ABCDEFGHIJKLMNOPQRSTUVWXYZabcdefghijklmnopqrstuvwxyz0123456789-_".

(** [enc.encode[v]] for a six-bit value. *)
Definition encodeMap (v : Z) : byte := nth (Z.to_nat v) alphabet Byte.x00.

(** [enc.decodeMap[c]], with [None] for the invalid-character marker 0xff. *)
Definition decodeMap (c : byte) : option Z :=
  Z.of_nat ∘ fst <$> list_find (fun a => a = c) alphabet.

(** The six-bit group of [val] that starts at bit [sh]. *)
Definition sextet (val sh : Z) : Z := Z.land (Z.shiftr val sh) 63.

(** [EncodeToString]: three bytes become four characters; a remainder of one
    or two bytes becomes two or three characters. *)
Fixpoint encodeToString (src : list byte) : list byte :=
  match src with
  | b0 :: b1 :: b2 :: rest =>
      let val := Z.lor (Z.lor (byte_val b2) (Z.shiftl (byte_val b1) 8))
                       (Z.shiftl (byte_val b0) 16) in
      encodeMap (sextet val 18) :: encodeMap (sextet val 12) ::
      encodeMap (sextet val 6) :: encodeMap (sextet val 0) :: encodeToString rest
  | [b0; b1] =>
      let val := Z.lor (Z.shiftl (byte_val b1) 8) (Z.shiftl (byte_val b0) 16) in
      [encodeMap (sextet val 18); encodeMap (sextet val 12); encodeMap (sextet val 6)]
  | [b0] =>
      let val := Z.shiftl (byte_val b0) 16 in
      [encodeMap (sextet val 18); encodeMap (sextet val 12)]
  | [] => []
  end.

(** The three bytes of a quantum: [val>>16], [val>>8] and [val]. *)
Definition quantum (d0 d1 d2 d3 : Z) : Z :=
  Z.lor (Z.lor (Z.lor d3 (Z.shiftl d2 6)) (Z.shiftl d1 12)) (Z.shiftl d0 18).

Definition is_newline (c : byte) : bool :=
  bool_decide (c = Byte.x0a) || bool_decide (c = Byte.x0d).

(** [CorruptInputError]: the offset of the illegal input byte. *)
Inductive decode_error := CorruptInputError (offset : Z).

(** The decoding loop: [si] is the offset of the next character and [acc] holds
    the values already read of the current quantum. *)
Fixpoint decode_from (si : Z) (acc : list Z) (src : list byte)
    : outcome decode_error (list byte) :=
  match src with
  | [] =>
      match acc with
      | [] => Ret []
      | [d0; d1] => Ret [byte_of (Z.shiftr (quantum d0 d1 0 0) 16)]
      | [d0; d1; d2] =>
          let val := quantum d0 d1 d2 0 in
          Ret [byte_of (Z.shiftr val 16); byte_of (Z.shiftr val 8)]
      | _ => Fail (CorruptInputError (si - 1))
      end
  | c :: rest =>
      match decodeMap c with
      | Some d =>
          match acc with
          | [d0; d1; d2] =>
              let val := quantum d0 d1 d2 d in
              bs ← decode_from (si + 1) [] rest;
              Ret (byte_of (Z.shiftr val 16) :: byte_of (Z.shiftr val 8) :: byte_of val :: bs)
          | _ => decode_from (si + 1) (acc ++ [d]) rest
          end
      | None =>
          if is_newline c then decode_from (si + 1) acc rest
          else Fail (CorruptInputError si)
      end
  end.

(** [DecodeString]. *)
Definition decodeString (src : list byte) : outcome decode_error (list byte) :=
  decode_from 0 [] src.

(** ** The alphabet *)

Definition sextet_values : list Z := Z.of_nat <$> seq 0 64.

Lemma in_sextet_values v : 0 <= v < 64 -> v ∈ sextet_values.
Proof.
  intros Hv. apply list_elem_of_fmap. exists (Z.to_nat v).
  split; [lia|]. apply elem_of_seq. lia.
Qed.

Lemma decode_encodeMap v : 0 <= v < 64 -> decodeMap (encodeMap v) = Some v.
Proof.
  intros Hv. assert (Forall (fun v => decodeMap (encodeMap v) = Some v) sextet_values) as H
    by (repeat (constructor; [reflexivity|]); constructor).
  rewrite Forall_forall in H. apply H, in_sextet_values, Hv.
Qed.

Lemma decodeMap_range c v : decodeMap c = Some v -> 0 <= v < 64.
Proof.
  unfold decodeMap. destruct (list_find _ _) as [[i x]|] eqn:Hf; [|done].
  intros [= <-]. apply list_find_Some in Hf as (Hi & _ & _).
  apply lookup_lt_Some in Hi. change (length alphabet) with 64%nat in Hi. simpl. lia.
Qed.

Lemma encode_decodeMap c v : decodeMap c = Some v -> encodeMap v = c.
Proof.
  unfold decodeMap. destruct (list_find _ _) as [[i x]|] eqn:Hf; [|done].
  intros [= <-]. apply list_find_Some in Hf as (Hi & <- & _).
  unfold encodeMap, compose. cbn [fst]. rewrite Nat2Z.id. by apply nth_lookup_Some.
Qed.

(** ** Groups of bits as arithmetic *)

Lemma sextet_spec val sh : 0 <= sh -> sextet val sh = val / 2 ^ sh mod 64.
Proof.
  intros. unfold sextet. change 63 with (Z.ones 6).
  by rewrite Z.land_ones, Z.shiftr_div_pow2.
Qed.

Lemma quantum_spec d0 d1 d2 d3 :
  0 <= d0 < 64 -> 0 <= d1 < 64 -> 0 <= d2 < 64 -> 0 <= d3 < 64 ->
  quantum d0 d1 d2 d3 = ((d0 * 64 + d1) * 64 + d2) * 64 + d3.
Proof.
  intros. unfold quantum. rewrite (lor_shiftl_add _ _ 6) by lia.
  rewrite (lor_shiftl_add _ _ 12) by lia. rewrite (lor_shiftl_add _ _ 18) by lia. lia.
Qed.

Lemma bytes3_spec b0 b1 b2 :
  Z.lor (Z.lor (byte_val b2) (Z.shiftl (byte_val b1) 8)) (Z.shiftl (byte_val b0) 16) =
  (byte_val b0 * 256 + byte_val b1) * 256 + byte_val b2.
Proof.
  byte_ranges. rewrite (lor_shiftl_add _ _ 8) by lia.
  rewrite (lor_shiftl_add _ _ 16) by lia. lia.
Qed.

(** Splitting a 24-bit value into sextets and joining them again. *)
Lemma quantum_sextets val :
  0 <= val < 2 ^ 24 ->
  quantum (sextet val 18) (sextet val 12) (sextet val 6) (sextet val 0) = val.
Proof.
  intros Hv. rewrite !sextet_spec by lia.
  rewrite quantum_spec by (apply Z.mod_pos_bound; lia).
  change (2 ^ 18) with 262144. change (2 ^ 12) with 4096. change (2 ^ 6) with 64.
  change (2 ^ 0) with 1. zlia.
Qed.

Lemma sextet_range val sh : 0 <= sh -> 0 <= sextet val sh < 64.
Proof. intros. rewrite sextet_spec by done. apply Z.mod_pos_bound. lia. Qed.

Lemma val24_bytes b0 b1 b2 :
  let val := (byte_val b0 * 256 + byte_val b1) * 256 + byte_val b2 in
  byte_of (Z.shiftr val 16) = b0 /\ byte_of (Z.shiftr val 8) = b1 /\ byte_of val = b2.
Proof.
  intros val. byte_ranges. rewrite !Z.shiftr_div_pow2 by lia.
  change (2 ^ 16) with 65536. change (2 ^ 8) with 256.
  split_and!; apply (inj byte_val); rewrite byte_val_of; subst val; zlia.
Qed.

(** ** Round trip *)

(** Decoding the characters of a full quantum. *)
Lemma decode_quantum si val rest :
  0 <= val < 2 ^ 24 ->
  decode_from si []
    (encodeMap (sextet val 18) :: encodeMap (sextet val 12) ::
     encodeMap (sextet val 6) :: encodeMap (sextet val 0) :: rest) =
  (bs ← decode_from (si + 1 + 1 + 1 + 1) [] rest;
   Ret (byte_of (Z.shiftr val 16) :: byte_of (Z.shiftr val 8) :: byte_of val :: bs)).
Proof.
  intros Hv. cbn [decode_from].
  rewrite !decode_encodeMap by (apply sextet_range; lia). cbn [app].
  by rewrite quantum_sextets.
Qed.

Lemma decode_from_encode bs : forall si, decode_from si [] (encodeToString bs) = Ret bs.
Proof.
  induction bs as [|b0|b0 b1|b0 b1 b2 bs IH] using list_ind3; intros si.
  - done.
  - cbn [encodeToString decode_from].
    rewrite !decode_encodeMap by (apply sextet_range; lia). cbn [app].
    byte_ranges. set (val := Z.shiftl (byte_val b0) 16).
    assert (val = (byte_val b0 * 256 + 0) * 256 + 0) as Hval
      by (subst val; rewrite Z.shiftl_mul_pow2; lia).
    assert (quantum (sextet val 18) (sextet val 12) 0 0 = val) as ->.
    { rewrite <- (quantum_sextets val) at 3 by lia. f_equal; symmetry;
        rewrite sextet_spec by lia; rewrite Hval; zlia. }
    destruct (val24_bytes b0 Byte.x00 Byte.x00) as (E0 & _).
    change (byte_val Byte.x00) with 0 in E0. by rewrite Hval, E0.
  - cbn [encodeToString decode_from].
    rewrite !decode_encodeMap by (apply sextet_range; lia). cbn [app].
    byte_ranges. set (val := Z.lor _ _).
    assert (val = (byte_val b0 * 256 + byte_val b1) * 256 + 0) as Hval
      by exact (bytes3_spec b0 b1 Byte.x00).
    assert (quantum (sextet val 18) (sextet val 12) (sextet val 6) 0 = val) as ->.
    { rewrite <- (quantum_sextets val) at 4 by lia. f_equal. symmetry.
      rewrite sextet_spec by lia. rewrite Hval. zlia. }
    destruct (val24_bytes b0 b1 Byte.x00) as (E0 & E1 & _).
    change (byte_val Byte.x00) with 0 in E0, E1. by rewrite Hval, E0, E1.
  - cbn [encodeToString]. rewrite bytes3_spec. byte_ranges.
    rewrite decode_quantum by lia. rewrite IH. go_bind.
    by destruct (val24_bytes b0 b1 b2) as (-> & -> & ->).
Qed.

(** Decoding what was encoded gives the bytes back. *)
Lemma decode_encode bs : decodeString (encodeToString bs) = Ret bs.
Proof. apply decode_from_encode. Qed.

(** ** Shape of encoded text *)

Definition in_alphabet (c : byte) : Prop := is_Some (decodeMap c).

Lemma encodeMap_in_alphabet v : 0 <= v < 64 -> in_alphabet (encodeMap v).
Proof. intros. eexists. by apply decode_encodeMap. Qed.

Lemma encode_in_alphabet bs : Forall in_alphabet (encodeToString bs).
Proof.
  induction bs as [|b0|b0 b1|b0 b1 b2 bs IH] using list_ind3; cbn [encodeToString];
    repeat constructor; try done; apply encodeMap_in_alphabet, sextet_range; lia.
Qed.

Lemma length_encode bs : zlen (encodeToString bs) = (8 * zlen bs + 5) / 6.
Proof.
  induction bs as [|b0|b0 b1|b0 b1 b2 bs IH] using list_ind3; try done.
  cbn [encodeToString]. zlen_norm. rewrite IH. zlia.
Qed.

(** ** Length and malleability of decoded text *)

(** The characters of [src] that carry six bits. *)
Fixpoint significant (src : list byte) : list byte :=
  match src with
  | [] => []
  | c :: src => match decodeMap c with Some _ => c :: significant src | None => significant src end
  end.

Lemma significant_le src : zlen (significant src) <= zlen src.
Proof.
  induction src as [|c src IH]; [done|]. simpl. destruct (decodeMap c); zlen_norm; lia.
Qed.

(** Text that decodes to [n] bytes has the characters that [n] bytes need. *)
Lemma decode_from_length src : forall si acc bs,
  zlen acc <= 3 -> decode_from si acc src = Ret bs ->
  zlen bs = (zlen acc + zlen (significant src)) * 6 / 8 /\
  (zlen acc + zlen (significant src)) mod 4 <> 1.
Proof.
  induction src as [|c src IH]; intros si acc bs Hacc Hd; cbn [decode_from] in Hd.
  - destruct acc as [|d0 [|d1 [|d2 [|d3 acc]]]]; by simplify_eq.
  - cbn [significant]. destruct (decodeMap c) as [d|].
    + destruct (decide (zlen acc = 3)) as [H3|H3].
      * destruct acc as [|d0 [|d1 [|d2 [|d3 acc]]]]; zlen_norm;
          try (pose proof (zlen_nonneg acc)); try lia.
        apply bind_Ret_inv in Hd as (bs' & Hd & [= <-]).
        apply IH in Hd as [Hl Hm]; zlen_norm; [|lia]. rewrite Hl. split; zlia.
      * assert (decode_from (si + 1) (acc ++ [d]) src = Ret bs) as Hd'.
        { destruct acc as [|d0 [|d1 [|d2 [|d3 acc]]]]; zlen_norm; done. }
        apply IH in Hd' as [Hl Hm]; zlen_norm; [|lia].
        rewrite Hl. split; [f_equal; lia|]. by replace (zlen acc + _) with
          (zlen acc + (1 + 0) + zlen (significant src)) by lia.
    + destruct (is_newline c); [|done]. by apply IH in Hd.
Qed.

Lemma significant_all src : zlen (significant src) = zlen src -> Forall in_alphabet src.
Proof.
  induction src as [|c src IH]; [done|]. cbn [significant].
  pose proof (significant_le src). destruct (decodeMap c) as [d|] eqn:Hc; zlen_norm; [|lia].
  intros. constructor; [by eexists|]. apply IH. lia.
Qed.

(** When the last quantum has two characters, the low four bits of the last one
    are ignored. *)
Lemma decode_from_last pre : forall si acc c c' d d',
  Forall in_alphabet pre -> Forall (fun v => 0 <= v < 64) acc ->
  zlen acc <= 3 -> (zlen acc + zlen pre) mod 4 = 1 ->
  decodeMap c = Some d -> decodeMap c' = Some d' -> d / 16 = d' / 16 ->
  decode_from si acc (pre ++ [c]) = decode_from si acc (pre ++ [c']).
Proof.
  induction pre as [|p pre IH]; intros si acc c c' d d' Hpre Hacc Hlen Hmod Hc Hc' Hd.
  - cbn [app decode_from]. rewrite Hc, Hc'. zlen_norm.
    destruct acc as [|d0 [|d1 [|d2 [|d3 acc]]]]; zlen_norm; try done.
    { cbn [app]. apply decodeMap_range in Hc, Hc'. inversion_clear Hacc.
      rewrite !quantum_spec by lia. f_equal. f_equal. f_equal.
      rewrite !Z.shiftr_div_pow2 by lia. change (2 ^ 16) with 65536. zlia. }
  - inversion_clear Hpre as [|? ? [v Hv] Hpre']. cbn [app decode_from]. rewrite Hv.
    zlen_norm. destruct (decide (zlen acc = 3)) as [H3|H3].
    + destruct acc as [|d0 [|d1 [|d2 [|d3 acc]]]]; zlen_norm;
        try (pose proof (zlen_nonneg acc)); try lia.
      erewrite IH; [done|done|done| | |done..]; zlen_norm; [lia|].
      rewrite H3 in Hmod. zlia.
    + assert (decode_from (si + 1) (acc ++ [v]) (pre ++ [c]) =
              decode_from (si + 1) (acc ++ [v]) (pre ++ [c'])) as Heq.
      { eapply IH; try done; zlen_norm.
        - apply Forall_app_2; [done|]. constructor; [|done]. by eapply decodeMap_range.
        - lia.
        - rewrite <- Hmod. f_equal. lia. }
      destruct acc as [|d0 [|d1 [|d2 [|d3 acc]]]]; zlen_norm; done.
Qed.

(** Every character has another one with the same high two bits. *)
Lemma sibling_char c d :
  decodeMap c = Some d ->
  exists c' d', decodeMap c' = Some d' /\ d / 16 = d' / 16 /\ c' <> c.
Proof.
  intros Hc. pose proof (decodeMap_range _ _ Hc).
  set (d' := if decide (d mod 16 = 0) then d + 1 else d - 1).
  assert (0 <= d' < 64 /\ d / 16 = d' / 16 /\ d' <> d) as (Hr & Hq & Hne)
    by (subst d'; case_decide; split_and!; zlia).
  exists (encodeMap d'), d'. split_and!; [by apply decode_encodeMap|done|].
  intros Heq. rewrite <- Heq, decode_encodeMap in Hc by done. congruence.
Qed.

(** The decoder never panics. *)
Lemma decode_from_returns src : forall si acc, returns (decode_from si acc src).
Proof.
  induction src as [|c src IH]; intros si acc; cbn [decode_from].
  - by destruct acc as [|? [|? [|? [|? ?]]]].
  - destruct (decodeMap c); [|by destruct (is_newline c)].
    destruct acc as [|? [|? [|? [|? ?]]]]; try apply IH. apply returns_bind; [apply IH|done].
Qed.

Lemma decode_returns src : returns (decodeString src).
Proof. apply decode_from_returns. Qed.

End Base64.
