(* ===== verification/InviteKey.v ===== *)
(** * InviteKey: the version 1 key generator and parser

    Models [src/invitekey/key_generator_v1.go] and
    [src/invitekey/key_parser_v1.go]. Go strings are byte lists. The Ed25519
    primitives are an interface ([Ed25519]) whose laws ([Ed25519Laws]) are the
    documented ones; [ecdh] keys and base64 are modelled concretely. *)

From S2P Require Import Prelude Base64.
From Stdlib Require Import Strings.Byte.

(** ** [strings] *)

(** [strings.HasPrefix]. *)
Definition hasPrefix (s p : list byte) : bool := bool_decide (take (length p) s = p).

(** [strings.LastIndex(s, c)] for a one-byte separator: -1 when absent. *)
Fixpoint last_index_from (i : Z) (s : list byte) (c : byte) : Z :=
  match s with
  | [] => -1
  | x :: s =>
      let j := last_index_from (i + 1) s c in
      if j =? -1 then if bool_decide (x = c) then i else -1 else j
  end.
Definition lastIndex (s : list byte) (c : byte) : Z := last_index_from 0 s c.

(** [strings.Cut(s, c)] for a one-byte separator. *)
Fixpoint cut (s : list byte) (c : byte) : option (list byte * list byte) :=
  match s with
  | [] => None
  | x :: s =>
      if bool_decide (x = c) then Some ([], s)
      else '(before, after) ← cut s c; Some (x :: before, after)
  end.

Definition dash : byte := Byte.x2d.
Definition pipe : byte := Byte.x7c.

Lemma hasPrefix_app p s : hasPrefix (p ++ s) p = true.
Proof. apply bool_decide_eq_true_2, take_app_length. Qed.

Lemma hasPrefix_inv s p : hasPrefix s p = true -> exists r, s = p ++ r.
Proof.
  intros H%bool_decide_eq_true. exists (drop (length p) s).
  by rewrite <- H at 1; rewrite take_drop.
Qed.

Lemma last_index_from_absent s c : forall i, 0 <= i -> c ∉ s <-> last_index_from i s c = -1.
Proof.
  induction s as [|x s IH]; intros i Hi; simpl.
  - split; [done|]. intros _ H. inversion H.
  - rewrite not_elem_of_cons, (IH (i + 1)) by lia.
    destruct (Z.eqb_spec (last_index_from (i + 1) s c) (-1)) as [E|E].
    + case_bool_decide; subst; split; try done; try lia; intros [? ?]; congruence.
    + split; [intros [_ ?]|intros ?]; congruence.
Qed.

Lemma last_index_from_split a b c : forall i,
  0 <= i -> c ∉ b -> last_index_from i (a ++ c :: b) c = i + zlen a.
Proof.
  induction a as [|x a IH]; intros i Hi Hb; simpl.
  - rewrite (proj1 (last_index_from_absent b c (i + 1) ltac:(lia)) Hb). simpl.
    rewrite bool_decide_eq_true_2 by done. zlen_norm. lia.
  - rewrite IH by (done || lia). pose proof (zlen_nonneg a).
    destruct (Z.eqb_spec (i + 1 + zlen a) (-1)); zlen_norm; lia.
Qed.

Lemma lastIndex_split a b c : c ∉ b -> lastIndex (a ++ c :: b) c = zlen a.
Proof. intros. unfold lastIndex. rewrite last_index_from_split; done || lia. Qed.

Lemma lastIndex_absent s c : c ∉ s <-> lastIndex s c = -1.
Proof. by apply last_index_from_absent. Qed.

(** A separator that occurs splits the text at its last occurrence. *)
Lemma last_occurrence (s : list byte) c : c ∈ s -> exists a b, s = a ++ c :: b /\ (c ∉ b).
Proof.
  induction s as [|x s IH]; [inversion 1|]. intros Hin.
  destruct (decide (c ∈ s)) as [Hs|Hs].
  - destruct (IH Hs) as (a & b & -> & Hb). by exists (x :: a), b.
  - apply elem_of_cons in Hin as [->|?]; [|done]. by exists [], s.
Qed.

Lemma lastIndex_present s c :
  lastIndex s c <> -1 -> exists a b, s = a ++ c :: b /\ (c ∉ b) /\ lastIndex s c = zlen a.
Proof.
  intros Hi. destruct (decide (c ∈ s)) as [Hs|Hs]; [|by apply lastIndex_absent in Hs].
  destruct (last_occurrence s c Hs) as (a & b & -> & Hb).
  exists a, b. by rewrite lastIndex_split.
Qed.

Lemma cut_app a b c : c ∉ a -> cut (a ++ c :: b) c = Some (a, b).
Proof.
  induction a as [|x a IH]; intros Ha; simpl.
  - by rewrite bool_decide_eq_true_2.
  - apply not_elem_of_cons in Ha as [Hx Ha]. rewrite bool_decide_eq_false_2 by done.
    by rewrite IH.
Qed.

(** ** Cryptographic interfaces *)

(** [crypto/ecdh]: curves and public keys. *)
Inductive Curve := X25519 | P256 | P384 | P521.

Record PublicKey := mkPublicKey { curve : Curve; publicKey : list byte }.

Definition x25519PublicKeySize : Z := 32.

(** [ecdh.X25519().NewPublicKey]: only the length is checked. *)
Definition newX25519PublicKey (key : list byte) : option PublicKey :=
  if zlen key =? x25519PublicKeySize then Some (mkPublicKey X25519 key) else None.

(** [crypto/ed25519], as the operations on well-sized arguments. *)
Class Ed25519 := {
  pubOfSeed : list byte -> list byte;
  signRaw : list byte -> list byte -> list byte;
  verifyRaw : list byte -> list byte -> list byte -> bool;
}.

Definition SignatureSize : Z := 64.
Definition PublicKeySize : Z := 32.
Definition PrivateKeySize : Z := 64.

(** A private key as [NewKeyFromSeed] lays it out: the seed, then the public
    key of the seed. *)
Definition valid_private `{Ed25519} (priv : list byte) : Prop :=
  exists seed, zlen seed = 32 /\ priv = seed ++ pubOfSeed seed.

(** What the documentation of the package promises. *)
Class Ed25519Laws `{Ed25519} : Prop := {
  pubOfSeed_length seed : zlen (pubOfSeed seed) = PublicKeySize;
  signRaw_length priv msg : zlen (signRaw priv msg) = SignatureSize;
  verify_sign seed msg : zlen seed = 32 ->
    verifyRaw (pubOfSeed seed) msg (signRaw (seed ++ pubOfSeed seed) msg) = true;
}.

Section ed25519.
Context `{Ed25519} {E : Type}.

(** [PrivateKey.Public]: [copy(publicKey, priv[32:])] into a fresh array of
    32 bytes. *)
Definition edPublic (priv : list byte) : outcome E (list byte) :=
  tl ← go_slice priv 32 (zlen priv);
  Ret (take 32 (tl ++ replicate 32 Byte.x00)).

(** [ed25519.Sign] panics on a private key of the wrong length. *)
Definition edSign (priv msg : list byte) : outcome E (list byte) :=
  if zlen priv =? PrivateKeySize then Ret (signRaw priv msg) else Panic.

(** [ed25519.Verify] panics on a public key of the wrong length. *)
Definition edVerify (pub msg sig : list byte) : outcome E bool :=
  if zlen pub =? PublicKeySize then Ret (verifyRaw pub msg sig) else Panic.
End ed25519.

(** ** Errors *)

(** The errors of the package, one constructor per [fmt.Errorf]. *)
Inductive KeyError :=
| PeerAddressEmpty
| PeerIdentityNil
| SigningKeyEmpty
| InvalidKeyPrefix
| KeyTooShort
| MissingSignatureSeparator
| FailedToDecodeSignature (e : Base64.decode_error)
| InvalidSignatureSize (got : Z)
| MissingEd25519Separator
| MissingX25519Separator
| FailedToDecodeEd25519 (e : Base64.decode_error)
| InvalidEd25519Size (got : Z)
| FailedToDecodeX25519 (e : Base64.decode_error)
| TamperingDetected
| FailedToParseEcdh
| GeneratorNotRegistered (version : Z)
| MissingPrefixSeparator
| UnsupportedKeyPrefix (prefix : list byte)
| NoParserRegistered (version : Z)
| CustomError (msg : list byte).

Definition showZ (z : Z) : list byte := bstr (pretty z).

Definition decode_error_text (e : Base64.decode_error) : list byte :=
  let '(Base64.CorruptInputError off) := e in
  bstr "illegal base64 data at input byte " ++ showZ off.

(** [err.Error()]. *)
Definition ErrorText (e : KeyError) : list byte :=
  match e with
  | PeerAddressEmpty => bstr "peer address is empty"
  | PeerIdentityNil => bstr "peer identity public key is nil"
  | SigningKeyEmpty => bstr "signing private key is empty"
  | InvalidKeyPrefix => bstr "invalid key prefix"
  | KeyTooShort => bstr "invite key is too short"
  | MissingSignatureSeparator => bstr "invalid format: missing signature separator"
  | FailedToDecodeSignature e => bstr "failed to decode signature: " ++ decode_error_text e
  | InvalidSignatureSize got =>
      bstr "invalid signature size: expected " ++ showZ SignatureSize ++ bstr ", got " ++ showZ got
  | MissingEd25519Separator => bstr "invalid payload: missing ed25519 key separator"
  | MissingX25519Separator => bstr "invalid payload: missing x25519 key separator"
  | FailedToDecodeEd25519 e => bstr "failed to decode ed25519 key: " ++ decode_error_text e
  | InvalidEd25519Size got =>
      bstr "invalid ed25519 key size: expected " ++ showZ PublicKeySize ++ bstr ", got " ++ showZ got
  | FailedToDecodeX25519 e => bstr "failed to decode x25519 key: " ++ decode_error_text e
  | TamperingDetected => bstr "tampering detected: signature verification failed"
  | FailedToParseEcdh => bstr "failed to parse ecdh public key: crypto/ecdh: invalid public key"
  | GeneratorNotRegistered v => bstr "key generator not registered for version: " ++ showZ v
  | MissingPrefixSeparator => bstr "invalid key format: missing prefix separator"
  | UnsupportedKeyPrefix p => bstr "unsupported key prefix: " ++ p
  | NoParserRegistered v => bstr "no parser registered for version: " ++ showZ v
  | CustomError msg => msg
  end.

(** ** The generator and the parser *)

Module KeyV1.
Section v1.
Context `{Ed25519}.

Record KeyGeneratorV1 := mkKeyGeneratorV1 {
  gen_prefix : list byte;
  peerIdentity : option PublicKey;
  peerAddr : list byte;
  signingKey : list byte;
}.

Definition NewKeyGeneratorV1 (peerIdentity : option PublicKey) (peerAddr signingKey : list byte)
    : KeyGeneratorV1 :=
  {| gen_prefix := bstr "gota1"; peerIdentity := peerIdentity;
     peerAddr := peerAddr; signingKey := signingKey |}.

(** The text that is signed. *)
Definition payload_of (addr encodedX25519 encodedEd25519 : list byte) : list byte :=
  addr ++ pipe :: encodedX25519 ++ pipe :: encodedEd25519.

Definition GenerateKey (kg : KeyGeneratorV1) : outcome KeyError (list byte) :=
  if bool_decide (peerAddr kg = []) then Fail PeerAddressEmpty else
  match peerIdentity kg with
  | None => Fail PeerIdentityNil
  | Some identity =>
      if zlen (signingKey kg) =? 0 then Fail SigningKeyEmpty else
      let keyBuilder := gen_prefix kg ++ [dash] in
      let encodedPubKey := Base64.encodeToString (publicKey identity) in
      verifyingPubKey ← edPublic (signingKey kg);
      let encodedVerifyingKey := Base64.encodeToString verifyingPubKey in
      let payload := payload_of (peerAddr kg) encodedPubKey encodedVerifyingKey in
      let keyBuilder := keyBuilder ++ payload ++ [dash] in
      sigBytes ← edSign (signingKey kg) payload;
      Ret (keyBuilder ++ Base64.encodeToString sigBytes)
  end.

Record KeyParserV1 := mkKeyParserV1 { par_prefix : list byte }.

Definition NewKeyParserV1 : KeyParserV1 := {| par_prefix := bstr "gota1" |}.

Definition minKeyLen : Z := 182.

Definition ParseKey (kp : KeyParserV1) (keyStr : list byte)
    : outcome KeyError (PublicKey * list byte) :=
  let prefixDash := par_prefix kp ++ [dash] in
  if negb (hasPrefix keyStr prefixDash) then Fail InvalidKeyPrefix else
  if zlen keyStr <? minKeyLen then Fail KeyTooShort else
  let sigStart := zlen keyStr - 86 in
  let dashIdx := sigStart - 1 in
  c ← go_index keyStr dashIdx;
  if negb (bool_decide (c = dash)) then Fail MissingSignatureSeparator else
  payload ← go_slice keyStr (zlen prefixDash) dashIdx;
  signature ← go_slice keyStr sigStart (zlen keyStr);
  sigBytes ← wrap_err FailedToDecodeSignature (Base64.decodeString signature);
  if negb (zlen sigBytes =? SignatureSize) then Fail (InvalidSignatureSize (zlen sigBytes)) else
  let idxEd := lastIndex payload pipe in
  if idxEd =? -1 then Fail MissingEd25519Separator else
  encodedEd25519 ← go_slice payload (idxEd + 1) (zlen payload);
  remainingPayload ← go_slice payload 0 idxEd;
  let idxX := lastIndex remainingPayload pipe in
  if idxX =? -1 then Fail MissingX25519Separator else
  encodedX25519 ← go_slice remainingPayload (idxX + 1) (zlen remainingPayload);
  peerAddr ← go_slice remainingPayload 0 idxX;
  if bool_decide (peerAddr = []) then Fail PeerAddressEmpty else
  ed25519Bytes ← wrap_err FailedToDecodeEd25519 (Base64.decodeString encodedEd25519);
  if negb (zlen ed25519Bytes =? PublicKeySize) then Fail (InvalidEd25519Size (zlen ed25519Bytes)) else
  x25519Bytes ← wrap_err FailedToDecodeX25519 (Base64.decodeString encodedX25519);
  verified ← edVerify ed25519Bytes payload sigBytes;
  if negb verified then Fail TamperingDetected else
  match newX25519PublicKey x25519Bytes with
  | None => Fail FailedToParseEcdh
  | Some peerIdentity => Ret (peerIdentity, peerAddr)
  end.

(** ** Specification of the accepted keys *)

(** [keyStr] is a well-formed key for [identity] and [addr]: the prefix, the
    signed payload, a dash and 86 characters of signature, where the signature
    verifies under the key embedded in the payload. *)
Definition accepted_key (keyStr : list byte) (identity : PublicKey) (addr : list byte) : Prop :=
  exists encX encEd signature ed25519Bytes sigBytes,
    keyStr = bstr "gota1-" ++ payload_of addr encX encEd ++ dash :: signature /\
    zlen signature = 86 /\ 182 <= zlen keyStr /\
    addr <> [] /\ (pipe ∉ encX) /\ (pipe ∉ encEd) /\
    Base64.decodeString signature = Ret sigBytes /\ zlen sigBytes = 64 /\
    Base64.decodeString encEd = Ret ed25519Bytes /\ zlen ed25519Bytes = 32 /\
    Base64.decodeString encX = Ret (publicKey identity) /\
    zlen (publicKey identity) = 32 /\ curve identity = X25519 /\
    verifyRaw ed25519Bytes (payload_of addr encX encEd) sigBytes = true.

Lemma zlen_payload addr encX encEd :
  zlen (payload_of addr encX encEd) = zlen addr + 1 + zlen encX + 1 + zlen encEd.
Proof. unfold payload_of. zlen_norm. lia. Qed.

(** Cutting a payload at its last two separators. *)
Lemma payload_split addr encX encEd :
  pipe ∉ encX -> pipe ∉ encEd ->
  let payload := payload_of addr encX encEd in
  let remaining := addr ++ pipe :: encX in
  lastIndex payload pipe = zlen remaining /\ lastIndex remaining pipe = zlen addr /\
  payload = remaining ++ pipe :: encEd.
Proof.
  intros HX HEd payload remaining.
  assert (payload = remaining ++ pipe :: encEd) as E.
  { unfold payload, payload_of, remaining. by rewrite <- app_assoc. }
  rewrite E. split_and!; [by apply lastIndex_split|by apply lastIndex_split|done].
Qed.

Lemma ParseKey_complete s identity addr :
  accepted_key s identity addr -> ParseKey NewKeyParserV1 s = Ret (identity, addr).
Proof.
  intros (encX & encEd & sg & edb & sgb & -> & Hsg & Hmin & Haddr & HX & HEd & Dsg & Lsg &
          DEd & LEd & DX & LX & Hcurve & Hver).
  set (payload := payload_of addr encX encEd) in *.
  destruct (payload_split addr encX encEd HX HEd) as (I1 & I2 & Epl). fold payload in I1, Epl.
  set (pre := bstr "gota1-") in *. change (par_prefix NewKeyParserV1 ++ [dash]) with pre.
  assert (zlen (pre ++ payload ++ dash :: sg) = zlen pre + zlen payload + 1 + 86) as Hlen
    by (zlen_norm; lia).
  unfold ParseKey. change (par_prefix NewKeyParserV1 ++ [dash]) with pre.
  rewrite hasPrefix_app. cbn [negb].
  rewrite (proj2 (Z.ltb_ge _ minKeyLen)) by done. rewrite Hlen.
  rewrite app_assoc, go_index_mid by (zlen_norm; lia). go_bind.
  rewrite bool_decide_eq_true_2 by done. cbn [negb].
  rewrite <- app_assoc, (go_slice_mid pre payload (dash :: sg) (zlen pre)) by lia. go_bind.
  assert (@go_slice KeyError _ (pre ++ payload ++ dash :: sg)
    (zlen pre + zlen payload + 1 + 86 - 86) (zlen pre + zlen payload + 1 + 86) = Ret sg) as ->.
  { replace (pre ++ payload ++ dash :: sg) with ((pre ++ payload ++ [dash]) ++ sg)
      by (by rewrite <- !app_assoc).
    apply go_slice_suffix; zlen_norm; lia. }
  go_bind. rewrite Dsg. go_bind. rewrite Lsg. cbn [Z.eqb Pos.eqb negb SignatureSize].
  rewrite I1, (proj2 (Z.eqb_neq _ (-1)))
    by (pose proof (zlen_nonneg (addr ++ pipe :: encX)); lia).
  rewrite Epl at 1 2. rewrite go_slice_after. go_bind.
  rewrite Epl at 1. rewrite go_slice_before. go_bind.
  rewrite I2, (proj2 (Z.eqb_neq _ (-1))) by (pose proof (zlen_nonneg addr); lia).
  rewrite go_slice_after. go_bind. rewrite go_slice_before. go_bind.
  rewrite bool_decide_eq_false_2 by done.
  rewrite DEd. go_bind. rewrite LEd. cbn [Z.eqb Pos.eqb negb PublicKeySize].
  rewrite DX. go_bind. unfold edVerify. rewrite LEd. cbn [Z.eqb Pos.eqb PublicKeySize].
  go_bind. rewrite Hver. cbn [negb]. unfold newX25519PublicKey. rewrite LX.
  cbn [Z.eqb Pos.eqb x25519PublicKeySize]. destruct identity. simpl in *. by subst.
Qed.

(** Cutting at the last separator, from what the two slices returned. *)
Lemma cut_at_last {E} v c x y :
  lastIndex v c <> -1 ->
  @go_slice E _ v (lastIndex v c + 1) (zlen v) = Ret x ->
  @go_slice E _ v 0 (lastIndex v c) = Ret y -> v = y ++ c :: x /\ (c ∉ x).
Proof.
  intros Hi Hx Hy. destruct (lastIndex_present v c Hi) as (a & b & Hv & Hb & Hz).
  rewrite Hz in *. subst v. rewrite go_slice_after in Hx. rewrite go_slice_before in Hy.
  by simplify_eq.
Qed.

Lemma ParseKey_sound s identity addr :
  ParseKey NewKeyParserV1 s = Ret (identity, addr) -> accepted_key s identity addr.
Proof.
  intros Hp. unfold ParseKey in Hp. go_inv Hp.
  apply negb_false_iff in C, C2, C6, C15, C18. apply hasPrefix_inv in C as [r Hr].
  apply bool_decide_eq_true in C2 as ->. apply bool_decide_eq_false in C13.
  apply Z.eqb_eq in C6, C15. apply Z.eqb_neq in C7, C10. apply Z.ltb_ge in C0.
  apply wrap_err_Ret_inv in C5, C14, C16.
  destruct (cut_at_last _ _ _ _ C7 C8 C9) as [Hpl HEd].
  destruct (cut_at_last _ _ _ _ C10 C11 C12) as [Hrem HX].
  replace (zlen s - 86) with (zlen s - 86 - 1 + 1) in C4 by lia.
  pose proof (go_split_around _ _ _ _ _ _ _ Hr C3 C1 C4) as Hs.
  apply go_slice_Ret_inv in C4 as (_ & _ & _ & Lsg & _).
  unfold edVerify in C17. rewrite C15 in C17. simplify_eq/=.
  unfold newX25519PublicKey in Hp.
  destruct (Z.eqb_spec (zlen v8) x25519PublicKeySize) as [LX|]; simplify_eq/=.
  rewrite <- app_assoc in C17. exists v5, v3, v1, v7, v2.
  assert ((addr ++ pipe :: v5) ++ pipe :: v3 = payload_of addr v5 v3) as E
    by (unfold payload_of; by rewrite <- app_assoc).
  split_and!; try done; [by rewrite E|rewrite Lsg; lia].
Qed.

Lemma lastIndex_bounds s c : -1 <= lastIndex s c < zlen s.
Proof.
  destruct (decide (lastIndex s c = -1)) as [->|Hi]; [pose proof (zlen_nonneg s); lia|].
  destruct (lastIndex_present s c Hi) as (a & b & -> & _ & ->). zlen_norm.
  pose proof (zlen_nonneg a). pose proof (zlen_nonneg b). lia.
Qed.

(** No input makes the parser panic. *)
Lemma ParseKey_returns s : returns (ParseKey NewKeyParserV1 s).
Proof.
  assert (forall v : list byte, -1 <= lastIndex v pipe < zlen v) as Hb
    by (intros; apply lastIndex_bounds).
  unfold ParseKey. go_total;
    repeat match goal with
    | C : negb (_ =? _) = false |- _ => apply negb_false_iff, Z.eqb_eq in C
    | C : (_ =? -1) = false |- _ => apply Z.eqb_neq in C
    | C : (_ <? _) = false |- _ => apply Z.ltb_ge in C; unfold minKeyLen in C
    | |- context [lastIndex ?v pipe] =>
        lazymatch goal with
        | _ : -1 <= lastIndex v pipe < zlen v |- _ => fail
        | _ => pose proof (Hb v)
        end
    end;
    try (apply returns_wrap, Base64.decode_returns);
    try (first [apply go_slice_returns|apply go_index_returns];
         change (zlen (par_prefix NewKeyParserV1 ++ [dash])) with 6; lia).
  - unfold edVerify. by rewrite C15.
  - by destruct (newX25519PublicKey _).
Qed.

(** The signature is 86 characters that all carry bits, so its last character
    has four ignored bits. *)
Lemma signature_last sg sgb :
  zlen sg = 86 -> Base64.decodeString sg = Ret sgb -> zlen sgb = 64 ->
  exists pre c c', sg = pre ++ [c] /\ c' <> c /\
    Base64.decodeString (pre ++ [c']) = Ret sgb.
Proof.
  intros Lsg Dsg Lb. destruct (Base64.decode_from_length sg 0 [] sgb) as [Hl Hm];
    [done|done|]. pose proof (Base64.significant_le sg). rewrite zlen_nil in Hl, Hm.
  assert (Forall Base64.in_alphabet sg) as Hall.
  { apply Base64.significant_all. rewrite Lsg, Lb in *. zlia. }
  destruct sg as [|c pre _] using rev_ind; [done|].
  apply Forall_app in Hall as [Hpre [[d Hd] _]%Forall_cons].
  destruct (Base64.sibling_char c d Hd) as (c' & d' & Hd' & Hq & Hne).
  exists pre, c, c'. split_and!; [done|done|]. rewrite <- Dsg.
  unfold Base64.decodeString. symmetry. zlen_norm.
  eapply Base64.decode_from_last; try done. zlen_norm. by replace (zlen pre) with 85 by lia.
Qed.

(** The key that the generator builds. *)
Definition generated_key (identity : PublicKey) (addr seed : list byte) : list byte :=
  let payload := payload_of addr (Base64.encodeToString (publicKey identity))
                   (Base64.encodeToString (pubOfSeed seed)) in
  bstr "gota1-" ++ payload ++
  dash :: Base64.encodeToString (signRaw (seed ++ pubOfSeed seed) payload).

(** Everything but the address has a fixed size. *)
Lemma generated_length `{!Ed25519Laws} identity addr seed :
  zlen (publicKey identity) = 32 -> zlen (generated_key identity addr seed) = zlen addr + 181.
Proof.
  intros Hlen. unfold generated_key, payload_of. zlen_norm.
  rewrite !Base64.length_encode, Hlen, pubOfSeed_length, signRaw_length.
  unfold PublicKeySize, SignatureSize. change (zlen (bstr "gota1-")) with 6. zlia.
Qed.

Lemma pipe_not_encoded bs : pipe ∉ Base64.encodeToString bs.
Proof.
  intros Hin. pose proof (Base64.encode_in_alphabet bs) as Hall.
  rewrite Forall_forall in Hall. by destruct (Hall _ Hin).
Qed.

(** A payload has one reading. *)
Lemma payload_inj addr encX encEd addr' encX' encEd' :
  pipe ∉ encX -> pipe ∉ encEd -> pipe ∉ encX' -> pipe ∉ encEd' ->
  payload_of addr encX encEd = payload_of addr' encX' encEd' ->
  addr = addr' /\ encX = encX' /\ encEd = encEd'.
Proof.
  intros HX HEd HX' HEd' Heq.
  destruct (payload_split addr encX encEd HX HEd) as (I1 & I2 & E).
  destruct (payload_split addr' encX' encEd' HX' HEd') as (I1' & I2' & E').
  rewrite Heq, I1' in I1. rewrite Heq, E' in E. unfold zlen in *.
  apply app_inj_1 in E as [E [= ->]]; [|lia].
  rewrite <- E, I2' in I2. apply app_inj_1 in E as [-> [= ->]]; [done|lia].
Qed.

Section laws.
Context `{!Ed25519Laws}.

Lemma generate_form identity addr seed :
  addr <> [] -> zlen seed = 32 ->
  GenerateKey (NewKeyGeneratorV1 (Some identity) addr (seed ++ pubOfSeed seed)) =
  Ret (generated_key identity addr seed).
Proof.
  intros Haddr Lseed. pose proof (pubOfSeed_length seed) as Lpub.
  unfold GenerateKey. cbn [NewKeyGeneratorV1 peerAddr peerIdentity signingKey gen_prefix].
  rewrite bool_decide_eq_false_2 by done. unfold PublicKeySize in Lpub.
  rewrite (proj2 (Z.eqb_neq _ 0)) by (zlen_norm; lia).
  assert (edPublic (E:=KeyError) (seed ++ pubOfSeed seed) = Ret (pubOfSeed seed)) as ->.
  { unfold edPublic. rewrite go_slice_suffix by (zlen_norm; lia). go_bind.
    rewrite take_app_length'; [done|]. unfold zlen in Lpub. lia. }
  go_bind. unfold edSign.
  rewrite (proj2 (Z.eqb_eq _ PrivateKeySize)) by (zlen_norm; unfold PrivateKeySize; lia).
  go_bind. unfold generated_key. by rewrite <- !app_assoc.
Qed.

Lemma zlen_signature priv msg : zlen (Base64.encodeToString (signRaw priv msg)) = 86.
Proof. by rewrite Base64.length_encode, signRaw_length. Qed.

Lemma generated_accepted identity addr seed :
  addr <> [] -> curve identity = X25519 -> zlen (publicKey identity) = 32 ->
  zlen seed = 32 -> accepted_key (generated_key identity addr seed) identity addr.
Proof.
  intros Haddr Hcurve LX Lseed. unfold generated_key. set (payload := payload_of _ _ _).
  eexists _, _, _, (pubOfSeed seed), (signRaw (seed ++ pubOfSeed seed) payload).
  split_and!; try done; try apply Base64.decode_encode; try apply pipe_not_encoded.
  - apply zlen_signature.
  - zlen_norm. unfold payload. rewrite zlen_payload, zlen_signature.
    rewrite !Base64.length_encode, LX, (pubOfSeed_length seed).
    assert (0 < zlen addr) by (destruct addr; [done|zlen_norm; pose proof (zlen_nonneg addr); lia]).
    change (zlen (bstr "gota1-")) with 6. unfold PublicKeySize. zlia.
  - apply signRaw_length.
  - apply pubOfSeed_length.
  - by apply verify_sign.
Qed.

(** A generated key reads back as the identity it was made from, or not at all. *)
Lemma generated_accepted_inv identity addr seed identity' addr' :
  accepted_key (generated_key identity addr seed) identity' addr' ->
  publicKey identity' = publicKey identity /\ addr' = addr /\
  curve identity' = X25519 /\ zlen (publicKey identity') = 32.
Proof.
  intros (encX & encEd & sg & edb & sgb & Heq & Hsg & _ & _ & HX & HEd & _ & _ & _ & _ & DX &
          LX & Hcurve & _).
  unfold generated_key in Heq. apply app_inv_head in Heq.
  apply app_inj_2 in Heq as [Hpl _];
    [|pose proof (zlen_signature (seed ++ pubOfSeed seed)
        (payload_of addr (Base64.encodeToString (publicKey identity))
           (Base64.encodeToString (pubOfSeed seed)))); unfold zlen in *; simpl; lia].
  apply payload_inj in Hpl as (-> & <- & _); try apply pipe_not_encoded; try done.
  rewrite Base64.decode_encode in DX. injection DX as ->. done.
Qed.
End laws.

(** ** Properties *)

(** C1. The parser accepts exactly the well-formed, correctly self-signed keys:
    it returns an identity and an address if and only if the key is the prefix,
    that address, two separated encoded keys and an 86-character signature that
    verifies, under the embedded Ed25519 key, the payload it was read from. *)
Theorem ParseKey_accepts_iff s identity addr :
  ParseKey NewKeyParserV1 s = Ret (identity, addr) <-> accepted_key s identity addr.
Proof. split; [apply ParseKey_sound|apply ParseKey_complete]. Qed.

(** C6. Round trip: a generator with a non-empty address, a 32-byte X25519
    identity and a well-formed Ed25519 private key produces a key, and the
    parser reads back exactly that identity and that address, whatever the
    address contains (separators included). *)
Theorem GenerateKey_ParseKey `{!Ed25519Laws} identity addr priv
    (Haddr : addr <> []) (Hcurve : curve identity = X25519)
    (Hlen : zlen (publicKey identity) = 32) (Hpriv : valid_private priv) :
  exists key,
    GenerateKey (NewKeyGeneratorV1 (Some identity) addr priv) = Ret key /\
    ParseKey NewKeyParserV1 key = Ret (identity, addr).
Proof.
  destruct Hpriv as (seed & Lseed & ->).
  exists (generated_key identity addr seed). split; [by apply generate_form|].
  by apply ParseKey_complete, generated_accepted.
Qed.

(** No string makes the parser panic: every index and slice it takes is in
    range and every call it makes comes back. *)
Theorem ParseKey_no_panic s : returns (ParseKey NewKeyParserV1 s).
Proof. apply ParseKey_returns. Qed.

(** C40. The text of a key is malleable: every accepted key has another text of
    the same length, different from it in its last character only, that is
    accepted with the same result. The decoder is not strict about the unused
    bits of the last signature character. *)
Theorem ParseKey_malleable s identity addr
    (Hs : ParseKey NewKeyParserV1 s = Ret (identity, addr)) :
  exists pre c c', s = pre ++ [c] /\ c' <> c /\
    ParseKey NewKeyParserV1 (pre ++ [c']) = Ret (identity, addr).
Proof.
  apply ParseKey_sound in Hs as (encX & encEd & sg & edb & sgb & -> & Hsg & Hmin & Haddr &
    HX & HEd & Dsg & Lsg & DEd & LEd & DX & LX & Hcurve & Hver).
  destruct (signature_last sg sgb Hsg Dsg Lsg) as (pre & c & c' & -> & Hne & Dsg').
  exists (bstr "gota1-" ++ payload_of addr encX encEd ++ dash :: pre), c, c'.
  split_and!; [by rewrite <- !app_assoc|done|].
  apply ParseKey_complete. exists encX, encEd, (pre ++ [c']), edb, sgb.
  zlen_norm. split_and!; try done; [by rewrite <- !app_assoc|lia].
Qed.

(** The generator's guards, in the order of the code: an empty address,
    a nil identity and an empty signing key each give their own error. *)
Theorem GenerateKey_guards identity addr priv :
  (addr = [] ->
   GenerateKey (NewKeyGeneratorV1 identity addr priv) = Fail PeerAddressEmpty) /\
  (addr <> [] ->
   GenerateKey (NewKeyGeneratorV1 None addr priv) = Fail PeerIdentityNil) /\
  (addr <> [] -> is_Some identity ->
   GenerateKey (NewKeyGeneratorV1 identity addr []) = Fail SigningKeyEmpty).
Proof.
  unfold GenerateKey, NewKeyGeneratorV1; simpl. split_and!.
  - intros ->. by rewrite bool_decide_eq_true_2.
  - intros ?. by rewrite bool_decide_eq_false_2.
  - intros ? [? ->]. by rewrite bool_decide_eq_false_2.
Qed.

(** The generator does not check the curve of the identity: with an identity
    that is not a 32-byte X25519 key it still produces a key, and no parse of
    that key succeeds. *)
Theorem GenerateKey_unchecked_curve `{!Ed25519Laws} identity addr priv
    (Haddr : addr <> []) (Hlen : zlen (publicKey identity) <> 32)
    (Hpriv : valid_private priv) :
  exists key,
    GenerateKey (NewKeyGeneratorV1 (Some identity) addr priv) = Ret key /\
    forall r, ParseKey NewKeyParserV1 key <> Ret r.
Proof.
  destruct Hpriv as (seed & Lseed & ->).
  exists (generated_key identity addr seed). split; [by apply generate_form|].
  intros [identity' addr'] Hp%ParseKey_sound. apply generated_accepted_inv in Hp as (Hk & _ & _ & HL).
  congruence.
Qed.
End v1.
End KeyV1.

(** ** A concrete instance

    A toy signature scheme that satisfies the laws, to evaluate the definitions
    and to show that the laws can hold: the public key is the seed and a
    signature is the first 64 bytes of the public key and the message. *)

Module ToyEd25519.

Definition pad (n : nat) (bs : list byte) : list byte := take n (bs ++ replicate n Byte.x00).

#[export] Instance toy : Ed25519 := {|
  pubOfSeed seed := pad 32 seed;
  signRaw priv msg := pad 64 (drop 32 priv ++ msg);
  verifyRaw pub msg sig := bool_decide (sig = pad 64 (pub ++ msg));
|}.

Lemma length_pad n bs : zlen (pad n bs) = Z.of_nat n.
Proof. unfold zlen, pad. rewrite length_take, length_app, length_replicate. lia. Qed.

#[export] Instance toy_laws : Ed25519Laws.
Proof.
  constructor.
  - intros. apply length_pad.
  - intros. apply length_pad.
  - intros seed msg Hs. cbn. apply bool_decide_eq_true_2. rewrite drop_app_length'; [done|].
    unfold zlen in Hs. lia.
Qed.

Definition toy_identity : PublicKey := mkPublicKey X25519 (replicate 32 Byte.x42).
Definition toy_addr : list byte := bstr "127.0.0.1:9000|relay-1".
Definition toy_seed : list byte := replicate 32 Byte.x07.
Definition toy_priv : list byte := toy_seed ++ pubOfSeed toy_seed.

Lemma toy_priv_valid : valid_private toy_priv.
Proof. by exists toy_seed. Qed.

Definition toy_key : list byte :=
  match KeyV1.GenerateKey (KeyV1.NewKeyGeneratorV1 (Some toy_identity) toy_addr toy_priv) with
  | Ret key => key
  | _ => []
  end.

Lemma GenerateKey_ParseKey_witness :
  toy_addr <> [] /\
  exists key,
    KeyV1.GenerateKey (KeyV1.NewKeyGeneratorV1 (Some toy_identity) toy_addr toy_priv) = Ret key /\
    KeyV1.ParseKey KeyV1.NewKeyParserV1 key = Ret (toy_identity, toy_addr).
Proof.
  split; [done|].
  apply (KeyV1.GenerateKey_ParseKey toy_identity toy_addr toy_priv);
    [done|reflexivity|reflexivity|exact toy_priv_valid].
Defined.

Lemma ParseKey_malleable_witness :
  exists pre c c', toy_key = pre ++ [c] /\ c' <> c /\
    KeyV1.ParseKey KeyV1.NewKeyParserV1 (pre ++ [c']) = Ret (toy_identity, toy_addr).
Proof.
  apply (KeyV1.ParseKey_malleable toy_key toy_identity toy_addr). vm_compute. reflexivity.
Defined.

Lemma GenerateKey_guards_witness :
  KeyV1.GenerateKey (KeyV1.NewKeyGeneratorV1 (Some toy_identity) [] toy_priv) =
  Fail PeerAddressEmpty.
Proof. by apply (KeyV1.GenerateKey_guards (Some toy_identity) [] toy_priv). Defined.

(** The uncompressed encoding of a NIST P-256 key is 65 bytes. *)
Lemma GenerateKey_unchecked_curve_witness :
  exists key,
    KeyV1.GenerateKey
      (KeyV1.NewKeyGeneratorV1 (Some (mkPublicKey P256 (replicate 65 Byte.x04))) toy_addr toy_priv)
      = Ret key /\
    forall r, KeyV1.ParseKey KeyV1.NewKeyParserV1 key <> Ret r.
Proof.
  apply (KeyV1.GenerateKey_unchecked_curve (mkPublicKey P256 (replicate 65 Byte.x04))
           toy_addr toy_priv); [done|vm_compute; discriminate|exact toy_priv_valid].
Defined.

End ToyEd25519.
