(* ===== verification/KeyManager.v ===== *)
(** * KeyManager: versions of generators and parsers

    Models [src/invitekey/key_manager.go]. The interfaces of
    [src/interfaces/invite_key.go] are values: a generator or a parser of this
    repository, one of another implementation, or the nil interface, whose
    method calls panic. *)

From S2P Require Import Prelude Base64 InviteKey.

Module KeyManager.
Section km.
Context `{Ed25519}.

(** [interfaces.IKeyGenerator] and [interfaces.IKeyParser]. *)
Inductive IKeyGenerator :=
| GenNil
| GenV1 (kg : KeyV1.KeyGeneratorV1)
| GenOther (run : outcome KeyError (list byte)).

Inductive IKeyParser :=
| ParNil
| ParV1 (kp : KeyV1.KeyParserV1)
| ParOther (run : list byte -> outcome KeyError (PublicKey * list byte)).

Definition callGenerate (g : IKeyGenerator) : outcome KeyError (list byte) :=
  match g with
  | GenNil => Panic
  | GenV1 kg => KeyV1.GenerateKey kg
  | GenOther run => run
  end.

Definition callParse (p : IKeyParser) (keyStr : list byte)
    : outcome KeyError (PublicKey * list byte) :=
  match p with
  | ParNil => Panic
  | ParV1 kp => KeyV1.ParseKey kp keyStr
  | ParOther run => run keyStr
  end.

Record KeyManager := mkKeyManager {
  generatorList : gmap Z IKeyGenerator;
  ecdhParserList : gmap Z IKeyParser;
  prefixToVersion : gmap (list byte) Z;
}.

Definition v1keytype : Z := 0.

Definition NewKeyManager : KeyManager :=
  {| generatorList := ∅; ecdhParserList := ∅;
     prefixToVersion := {[ bstr "gota1" := v1keytype ]} |}.

Definition RegisterGenerator (km : KeyManager) (version : Z) (generator : IKeyGenerator)
    : KeyManager :=
  {| generatorList := <[version := generator]> (generatorList km);
     ecdhParserList := ecdhParserList km;
     prefixToVersion := prefixToVersion km |}.

Definition RegisterParser (km : KeyManager) (version : Z) (prefix : list byte)
    (parser : IKeyParser) : KeyManager :=
  {| generatorList := generatorList km;
     ecdhParserList := <[version := parser]> (ecdhParserList km);
     prefixToVersion := <[prefix := version]> (prefixToVersion km) |}.

Definition GenerateKey (km : KeyManager) (version : Z) : outcome KeyError (list byte) :=
  match generatorList km !! version with
  | None => Fail (GeneratorNotRegistered version)
  | Some generator => callGenerate generator
  end.

(** [ParseKey] may register the version 1 parser, so it also returns the
    manager as it leaves it. *)
Definition ParseKey (km : KeyManager) (keyStr : list byte)
    : KeyManager * outcome KeyError (PublicKey * list byte) :=
  match cut keyStr dash with
  | None => (km, Fail MissingPrefixSeparator)
  | Some (prefix, _) =>
      match prefixToVersion km !! prefix with
      | None => (km, Fail (UnsupportedKeyPrefix prefix))
      | Some version =>
          match ecdhParserList km !! version with
          | Some parser => (km, callParse parser keyStr)
          | None =>
              if negb (version =? v1keytype) then (km, Fail (NoParserRegistered version)) else
              let parser := ParV1 KeyV1.NewKeyParserV1 in
              ({| generatorList := generatorList km;
                  ecdhParserList := <[version := parser]> (ecdhParserList km);
                  prefixToVersion := prefixToVersion km |},
               callParse parser keyStr)
          end
      end
  end.

(** ** Abstract view

    Which parser answers for a prefix: the registered one, or the version 1
    parser for a prefix of that version that has none. *)
Definition parser_for (km : KeyManager) (prefix : list byte) : KeyError + IKeyParser :=
  match prefixToVersion km !! prefix with
  | None => inl (UnsupportedKeyPrefix prefix)
  | Some version =>
      match ecdhParserList km !! version with
      | Some parser => inr parser
      | None =>
          if version =? v1keytype then inr (ParV1 KeyV1.NewKeyParserV1)
          else inl (NoParserRegistered version)
      end
  end.

Definition parse_spec (km : KeyManager) (keyStr : list byte)
    : outcome KeyError (PublicKey * list byte) :=
  match cut keyStr dash with
  | None => Fail MissingPrefixSeparator
  | Some (prefix, _) =>
      match parser_for km prefix with
      | inl e => Fail e
      | inr parser => callParse parser keyStr
      end
  end.

(** Managers that answer every call alike. *)
Definition km_equiv (km km' : KeyManager) : Prop :=
  generatorList km = generatorList km' /\
  forall prefix, parser_for km prefix = parser_for km' prefix.

#[global] Instance km_equiv_equivalence : Equivalence km_equiv.
Proof.
  split.
  - by intros km.
  - intros km km' [? ?]. by split.
  - intros km1 km2 km3 [? Hp] [? Hq]. split; [congruence|]. intros. by rewrite Hp.
Qed.

#[global] Instance parse_spec_proper : Proper (km_equiv ==> (=) ==> (=)) parse_spec.
Proof.
  intros km km' [_ Hp] s ? <-. unfold parse_spec.
  destruct (cut s dash) as [[prefix ?]|]; [|done]. by rewrite Hp.
Qed.

#[global] Instance GenerateKey_proper : Proper (km_equiv ==> (=) ==> (=)) GenerateKey.
Proof. intros km km' [Hg _] v ? <-. unfold GenerateKey. by rewrite Hg. Qed.

Lemma ParseKey_result km s : (ParseKey km s).2 = parse_spec km s.
Proof.
  unfold ParseKey, parse_spec, parser_for.
  destruct (cut s dash) as [[prefix ?]|]; [|done].
  destruct (_ !! prefix) as [version|]; [|done].
  destruct (_ !! version) as [p|]; [done|].
  by destruct (version =? v1keytype).
Qed.

Lemma ParseKey_state km s : km_equiv (ParseKey km s).1 km.
Proof.
  unfold ParseKey. destruct (cut s dash) as [[prefix ?]|]; [|reflexivity].
  destruct (prefixToVersion km !! prefix) as [version|]; [|reflexivity].
  destruct (ecdhParserList km !! version) as [p|] eqn:Hv; [reflexivity|].
  destruct (Z.eqb_spec version v1keytype) as [->|]; [|reflexivity]. cbn [negb fst].
  split; [done|]. intros q. unfold parser_for. cbn [prefixToVersion ecdhParserList].
  destruct (prefixToVersion km !! q) as [v|]; [|done].
  destruct (decide (v = v1keytype)) as [->|Hne].
  - by rewrite lookup_insert_eq, Hv.
  - by rewrite lookup_insert_ne by done.
Qed.

(** ** Properties *)

(** C35. Parsing never changes what the manager answers: registering the version
    1 parser on first use is invisible. Whatever keys were parsed before, each
    call returns what the parser of its prefix returns, and key generation is
    unchanged. *)
Theorem ParseKey_refines_spec km (earlier : list (list byte)) s version :
  let km' := fold_left (fun km s => (ParseKey km s).1) earlier km in
  (ParseKey km' s).2 = parse_spec km s /\ GenerateKey km' version = GenerateKey km version.
Proof.
  intros km'. assert (km_equiv km' km) as Heq.
  { subst km'. revert km. induction earlier as [|s' earlier IH]; intros km; [reflexivity|].
    simpl. rewrite IH. apply ParseKey_state. }
  rewrite ParseKey_result. by split; rewrite Heq.
Qed.

Lemma cut_generated identity addr seed :
  exists after, cut (KeyV1.generated_key identity addr seed) dash = Some (bstr "gota1", after).
Proof.
  eexists. apply (cut_app (bstr "gota1") _ dash).
  by apply (bool_decide_unpack (dash ∉ bstr "gota1")).
Qed.

(** A new manager reads it. *)
Lemma generated_parsed `{!Ed25519Laws} identity addr seed :
  addr <> [] -> curve identity = X25519 -> zlen (publicKey identity) = 32 -> zlen seed = 32 ->
  (ParseKey NewKeyManager (KeyV1.generated_key identity addr seed)).2 = Ret (identity, addr).
Proof.
  intros Haddr Hcurve Hlen Hseed. rewrite ParseKey_result. unfold parse_spec.
  destruct (cut_generated identity addr seed) as [after ->].
  by apply KeyV1.ParseKey_complete, KeyV1.generated_accepted.
Qed.

(** End to end: register a version 1 generator with a fresh manager; the key
    it generates is parsed by the same manager back to the identity and the
    address of the generator. *)
Theorem manager_roundtrip `{!Ed25519Laws} identity addr priv
    (Haddr : addr <> []) (Hcurve : curve identity = X25519)
    (Hlen : zlen (publicKey identity) = 32) (Hpriv : valid_private priv) :
  let kg := KeyV1.NewKeyGeneratorV1 (Some identity) addr priv in
  let km := RegisterGenerator NewKeyManager v1keytype (GenV1 kg) in
  exists key, GenerateKey km v1keytype = Ret key /\ (ParseKey km key).2 = Ret (identity, addr).
Proof.
  intros kg km. destruct Hpriv as (seed & Lseed & ->).
  exists (KeyV1.generated_key identity addr seed). split.
  - by apply KeyV1.generate_form.
  - rewrite ParseKey_result. unfold parse_spec.
    destruct (cut_generated identity addr seed) as [after ->].
    by apply KeyV1.ParseKey_complete, KeyV1.generated_accepted.
Qed.

(** A generator registered for a version answers for that version and no
    other; a version with no generator is refused with that version. *)
Theorem RegisterGenerator_GenerateKey km version g version' :
  GenerateKey (RegisterGenerator km version g) version' =
    (if decide (version = version') then callGenerate g else GenerateKey km version') /\
  (generatorList km !! version' = None ->
   GenerateKey km version' = Fail (GeneratorNotRegistered version')).
Proof.
  unfold GenerateKey, RegisterGenerator. cbn [generatorList]. rewrite lookup_insert.
  split; [by case_decide|]. by intros ->.
Qed.

End km.
End KeyManager.

Module KeyManagerWitness.
Import ToyEd25519.

Lemma manager_roundtrip_witness :
  exists key,
    KeyManager.GenerateKey
      (KeyManager.RegisterGenerator KeyManager.NewKeyManager KeyManager.v1keytype
         (KeyManager.GenV1 (KeyV1.NewKeyGeneratorV1 (Some toy_identity) toy_addr toy_priv)))
      KeyManager.v1keytype = Ret key /\
    (KeyManager.ParseKey
      (KeyManager.RegisterGenerator KeyManager.NewKeyManager KeyManager.v1keytype
         (KeyManager.GenV1 (KeyV1.NewKeyGeneratorV1 (Some toy_identity) toy_addr toy_priv)))
      key).2 = Ret (toy_identity, toy_addr).
Proof.
  apply (KeyManager.manager_roundtrip toy_identity toy_addr toy_priv);
    [done|reflexivity|reflexivity|exact toy_priv_valid].
Defined.

Lemma RegisterGenerator_GenerateKey_witness :
  KeyManager.GenerateKey KeyManager.NewKeyManager 7 = Fail (GeneratorNotRegistered 7).
Proof.
  apply (KeyManager.RegisterGenerator_GenerateKey KeyManager.NewKeyManager 0
           KeyManager.GenNil 7). reflexivity.
Defined.

End KeyManagerWitness.
