(* ===== verification/Dispatcher.v ===== *)
(** * Dispatcher: the ABI control center

    Models [src/controlcenter/abi.go], [dispatcher.go], [handlers.go] and
    [registry.go]. System call handlers run on a world [W], the state that the
    services behind them share; a pointer to a service that lives in the world is
    the function that reads it. The dispatcher's mutex makes each table access
    one step; a handler runs after the lock is released. *)

From S2P Require Import Prelude Base64 InviteKey KeyManager.

(** The error type of calls that have no error result. *)
Inductive never : Set :=.

(** [interfaces.DID], an unsigned 32-bit integer. *)
Abbreviation DID := Z.

(** ** Parameters *)

Module Abi.

Definition Success : Z := 0x0000.
Definition ErrInvalidArgs : Z := 0x1001.
Definition ErrAuthFailed : Z := 0x1002.
Definition ErrUnknownOpcode : Z := 0x1003.
Definition ErrTooManyRequests : Z := 0x1004.
Definition ErrInvalidKey : Z := 0x2001.
Definition ErrPeerTimeout : Z := 0x2002.
Definition ErrInternalDaemon : Z := 0x5000.

(** [ReadBytesParam]: the parameter, the rest and the status. *)
Definition ReadBytesParam (payload : list byte) : outcome never (list byte * list byte * Z) :=
  if zlen payload <? 2 then Ret ([], payload, ErrInvalidArgs) else
  head ← go_slice payload 0 2;
  paramLen ← getUint16 head;
  if zlen payload <? 2 + paramLen then Ret ([], payload, ErrInvalidArgs) else
  param ← go_slice payload 2 (2 + paramLen);
  rest ← go_slice payload (2 + paramLen) (zlen payload);
  Ret (param, rest, Success).

(** The encoding that [ReadBytesParam] reads. *)
Definition encodeParam (param : list byte) : list byte := putUint16 (zlen param) ++ param.

Lemma ReadBytesParam_encode param rest :
  zlen param < 65536 -> ReadBytesParam (encodeParam param ++ rest) = Ret (param, rest, Success).
Proof.
  intros Hp. unfold ReadBytesParam, encodeParam. rewrite <- app_assoc.
  set (h := putUint16 (zlen param)). assert (zlen h = 2) as Hh by done.
  pose proof (zlen_nonneg param). pose proof (zlen_nonneg rest).
  assert (zlen (h ++ param ++ rest) = 2 + zlen param + zlen rest) as Hl by (zlen_norm; lia).
  rewrite Hl, (proj2 (Z.ltb_ge _ 2)) by lia.
  rewrite go_slice_prefix by done. go_bind.
  assert (@getUint16 never h = Ret (zlen param)) as -> by (apply getUint16_put_exact; lia).
  go_bind.
  rewrite (proj2 (Z.ltb_ge _ _)) by lia.
  rewrite (go_slice_mid h param rest 2) by lia. go_bind.
  rewrite app_assoc. rewrite go_slice_suffix by (zlen_norm; lia). done.
Qed.

(** What the result says about the input, on every branch. *)
Lemma ReadBytesParam_cases payload :
  (exists param rest,
     payload = encodeParam param ++ rest /\ zlen param < 65536 /\
     ReadBytesParam payload = Ret (param, rest, Success)) \/
  ((forall param rest, zlen param < 65536 -> payload <> encodeParam param ++ rest) /\
   ReadBytesParam payload = Ret ([], payload, ErrInvalidArgs)).
Proof.
  destruct payload as [|b0 [|b1 body]].
  1,2: right; split; [|done]; intros param rest _ Heq;
    apply (f_equal zlen) in Heq; unfold encodeParam in Heq; zlen_norm;
    pose proof (zlen_nonneg param); pose proof (zlen_nonneg rest); lia.
  set (n := byte_val b0 * 256 + byte_val b1). assert (is_u16 n) as Hn by (subst n; byte_ranges; lia).
  destruct (Z.ltb_spec (zlen body) n) as [Hlt|Hge].
  - right. split.
    + intros param rest Hp Heq. unfold encodeParam in Heq. unfold putUint16 in Heq.
      simpl in Heq. injection Heq as -> -> ->. subst n. zlen_norm.
      rewrite !byte_val_of, Z.shiftr_div_pow2 in Hlt by lia.
      change (2 ^ 8) with 256 in Hlt. pose proof (zlen_nonneg rest).
      pose proof (zlen_nonneg param). zlia.
    + unfold ReadBytesParam. zlen_norm. pose proof (zlen_nonneg body).
      rewrite (proj2 (Z.ltb_ge _ 2)) by lia.
      rewrite (go_slice_prefix [b0; b1] body 2) by done. go_bind.
      rewrite getUint16_val. go_bind. fold n. by rewrite (proj2 (Z.ltb_lt _ _)) by lia.
  - left. exists (take (Z.to_nat n) body), (drop (Z.to_nat n) body).
    assert (zlen (take (Z.to_nat n) body) = n) as Hl
      by (unfold zlen in *; rewrite length_take; lia).
    assert (b0 :: b1 :: body =
      encodeParam (take (Z.to_nat n) body) ++ drop (Z.to_nat n) body) as E.
    { unfold encodeParam. rewrite Hl. unfold n at 1. rewrite putUint16_get. simpl.
      by rewrite take_drop. }
    split_and!; [done|lia|]. rewrite E. apply ReadBytesParam_encode. lia.
Qed.

(** Reading a sequence of parameters, as a handler with several would. *)
Fixpoint readParams (n : nat) (payload : list byte) : option (list (list byte) * list byte) :=
  match n with
  | O => Some ([], payload)
  | S n =>
      match ReadBytesParam payload with
      | Ret (param, rest, status) =>
          if status =? Success
          then '(ps, rest') ← readParams n rest; Some (param :: ps, rest')
          else None
      | _ => None
      end
  end.

(** A length-prefixed parameter is read back exactly, and the bytes after it
    are returned untouched, so parameters can be chained: reading as many
    parameters as were encoded gives them all, in order, and what followed. *)
Theorem ReadBytesParam_roundtrip (params : list (list byte)) rest
    (Hsize : Forall (fun p => zlen p < 65536) params) :
  readParams (length params) (concat (encodeParam <$> params) ++ rest) = Some (params, rest).
Proof.
  induction Hsize as [|p ps Hp _ IH]; [done|]. cbn [length fmap list_fmap concat readParams].
  rewrite <- app_assoc, ReadBytesParam_encode by done. rewrite Z.eqb_refl. by rewrite IH.
Qed.

Lemma ReadBytesParam_roundtrip_witness :
  readParams 2 (concat (encodeParam <$> [bstr "test"; bstr "ok"]) ++ bstr "!") =
  Some ([bstr "test"; bstr "ok"], bstr "!").
Proof.
  apply (ReadBytesParam_roundtrip [bstr "test"; bstr "ok"] (bstr "!")).
  repeat constructor; reflexivity.
Defined.

(** [ReadBytesParam] never panics and decides its input: it reports success
    exactly on a payload that starts with an encoded parameter, and then returns
    that parameter and the rest; on any other payload it reports invalid
    arguments and hands the payload back unread. *)
Theorem ReadBytesParam_decides payload param rest status :
  returns (ReadBytesParam payload) /\
  (ReadBytesParam payload = Ret (param, rest, status) <->
   (status = Success /\ payload = encodeParam param ++ rest /\ zlen param < 65536) \/
   (status = ErrInvalidArgs /\ param = [] /\ rest = payload /\
    forall p r, zlen p < 65536 -> payload <> encodeParam p ++ r)).
Proof.
  destruct (ReadBytesParam_cases payload) as [(p & r & Heq & Hp & Hr)|[Hno Hr]];
    rewrite Hr; (split; [done|split]).
  - intros [= -> -> <-]. by left.
  - intros [(-> & Heq' & Hp')|(_ & _ & _ & Hno)]; [|by destruct (Hno p r)].
    rewrite <- Hr, Heq'. by apply ReadBytesParam_encode.
  - intros [= <- <- <-]. by right.
  - intros [(_ & Heq' & Hp')|(-> & -> & -> & _)]; [|done]. by destruct (Hno param rest).
Qed.

End Abi.

(** ** The dispatcher *)

Module Dispatcher.
Import Abi.

Record IpcResponse := mkIpcResponse {
  StatusCode : Z;
  Opcode : Z;
  Payload : list byte;
  resp_DID : DID;
}.

(** [IpcResponse.Encode]. *)
Definition Encode (r : IpcResponse) : list byte :=
  putUint16 (Opcode r) ++ putUint16 (StatusCode r) ++ Payload r.

Section dispatcher.
Context {W : Type}.

(** A handler runs on the world and returns a response and a status. *)
Definition SyscallHandler : Type :=
  W -> DID -> list byte -> outcome never (W * list byte * Z).

(** The handler of a descriptor may be nil. *)
Record SyscallDescriptor := mkSyscallDescriptor {
  desc_Opcode : Z;
  Name : string;
  Handler : option SyscallHandler;
}.

(** The table is nil in the zero value of the struct. *)
Record Dispatcher := mkDispatcher { syscalls : option (gmap Z SyscallDescriptor) }.

Definition NewDispatcher : Dispatcher := {| syscalls := Some ∅ |}.

Inductive DispatcherError := ErrAlreadyRegistered | ErrNilDispatcher.

(** Reading a nil map finds nothing. *)
Definition lookup_syscall (d : Dispatcher) (opcode : Z) : option SyscallDescriptor :=
  m ← syscalls d; m !! opcode.

Definition RegisterSysCall (d : Dispatcher) (opcode : Z) (descriptor : SyscallDescriptor)
    : Dispatcher * option DispatcherError :=
  let table := match syscalls d with None => ∅ | Some m => m end in
  match table !! opcode with
  | Some _ => ({| syscalls := Some table |}, Some ErrAlreadyRegistered)
  | None => ({| syscalls := Some (<[opcode := descriptor]> table) |}, None)
  end.

Definition DispatchSysCall (d : Dispatcher) (w : W) (did : DID) (opcode : Z) (payload : list byte)
    : outcome never (W * IpcResponse) :=
  match lookup_syscall d opcode with
  | None => Ret (w, mkIpcResponse ErrUnknownOpcode opcode [] did)
  | Some descriptor =>
      match Handler descriptor with
      | None => Panic
      | Some handler =>
          '(w', resPayload, statusCode) ← handler w did payload;
          Ret (w', mkIpcResponse statusCode opcode resPayload did)
      end
  end.

(** ** Default handlers *)

Definition OpcodeEgressRoute : Z := 0x0001.
Definition OpcodeGetInviteKey : Z := 0x0201.

(** [interfaces.IEgress]: a call returns the text of its error, if any. *)
Record IEgress := mkIEgress {
  RouteToNetwork : W -> DID -> list byte -> W * option (list byte);
}.

Definition MakeEgressRouteHandler (egress : option IEgress) : SyscallHandler :=
  fun w did payload =>
    match egress with
    | None => Ret (w, [], ErrInternalDaemon)
    | Some egress =>
        '(data, _, status) ← ReadBytesParam payload;
        if negb (status =? Success) then Ret (w, [], status) else
        match RouteToNetwork egress w did data with
        | (w', Some err) => Ret (w', err, ErrInternalDaemon)
        | (w', None) => Ret (w', [], Success)
        end
    end.

Context `{Ed25519}.

(** The key version that a request asks for. *)
Definition requestedVersion (payload : list byte) : outcome never Z :=
  if 4 <=? zlen payload
  then head ← go_slice payload 0 4; getUint32 head
  else Ret 0.

(** The handler holds a pointer to the key manager, which lives in the world. *)
Definition MakeGetInviteKeyHandler (km : option (W -> KeyManager.KeyManager)) : SyscallHandler :=
  fun w _ payload =>
    match km with
    | None => Ret (w, [], ErrInternalDaemon)
    | Some km =>
        version ← requestedVersion payload;
        match KeyManager.GenerateKey (km w) version with
        | Fail err => Ret (w, ErrorText err, ErrInvalidKey)
        | Ret keyStr => Ret (w, keyStr, Success)
        | Panic => Panic
        | Diverge => Diverge
        end
    end.

Definition RegisterDefaultHandlers (d : option Dispatcher)
    (km : option (W -> KeyManager.KeyManager)) (egress : option IEgress)
    : option Dispatcher * option DispatcherError :=
  match d with
  | None => (None, Some ErrNilDispatcher)
  | Some d =>
      let '(d, err) :=
        match egress with
        | None => (d, None)
        | Some _ =>
            RegisterSysCall d OpcodeEgressRoute
              (mkSyscallDescriptor OpcodeEgressRoute "EgressRoute"
                 (Some (MakeEgressRouteHandler egress)))
        end in
      match err with
      | Some err => (Some d, Some err)
      | None =>
          match km with
          | None => (Some d, None)
          | Some _ =>
              let '(d, err) :=
                RegisterSysCall d OpcodeGetInviteKey
                  (mkSyscallDescriptor OpcodeGetInviteKey "GetInviteKey"
                     (Some (MakeGetInviteKeyHandler km))) in
              (Some d, err)
          end
      end
  end.

(** ** Table lemmas *)

Lemma lookup_RegisterSysCall d opcode desc opcode' :
  lookup_syscall (RegisterSysCall d opcode desc).1 opcode' =
  match lookup_syscall d opcode' with
  | Some old => Some old
  | None => if decide (opcode = opcode') then Some desc else None
  end.
Proof.
  unfold RegisterSysCall, lookup_syscall.
  destruct (syscalls d) as [m|] eqn:Hs; simpl.
  - destruct (m !! opcode) eqn:Ho; simpl.
    + case_decide; subst; [by rewrite Ho|by destruct (m !! opcode')].
    + rewrite lookup_insert. case_decide; subst; [by rewrite Ho|by destruct (m !! opcode')].
  - rewrite lookup_empty. simpl. rewrite lookup_insert, lookup_empty. by case_decide.
Qed.

Lemma RegisterSysCall_error d opcode desc :
  (RegisterSysCall d opcode desc).2 =
  match lookup_syscall d opcode with Some _ => Some ErrAlreadyRegistered | None => None end.
Proof.
  unfold RegisterSysCall, lookup_syscall. destruct (syscalls d) as [m|]; simpl; [|done].
  by destruct (m !! opcode).
Qed.

Lemma requestedVersion_short payload : zlen payload < 4 -> requestedVersion payload = Ret 0.
Proof. intros. unfold requestedVersion. by rewrite (proj2 (Z.leb_gt 4 _)). Qed.

Lemma requestedVersion_put version rest :
  is_u32 version -> requestedVersion (putUint32 version ++ rest) = Ret version.
Proof.
  intros Hv. unfold requestedVersion. pose proof (zlen_nonneg rest).
  rewrite (proj2 (Z.leb_le 4 _)) by (zlen_norm; lia).
  rewrite go_slice_prefix by done. go_bind. by apply getUint32_put_exact.
Qed.

Lemma requestedVersion_returns payload :
  exists version, requestedVersion payload = Ret version /\ is_u32 version.
Proof.
  unfold requestedVersion. destruct (Z.leb_spec 4 (zlen payload)); [|by exists 0].
  apply (u32_at_ok payload 0); lia.
Qed.

(** The dispatcher that the default registration builds on a fresh table. *)
Lemma default_lookup km egress d :
  RegisterDefaultHandlers (Some NewDispatcher) (Some km) (Some egress) = (Some d, None) ->
  forall opcode, lookup_syscall d opcode =
    if decide (opcode = OpcodeEgressRoute) then
      Some (mkSyscallDescriptor OpcodeEgressRoute "EgressRoute"
              (Some (MakeEgressRouteHandler (Some egress))))
    else if decide (opcode = OpcodeGetInviteKey) then
      Some (mkSyscallDescriptor OpcodeGetInviteKey "GetInviteKey"
              (Some (MakeGetInviteKeyHandler (Some km))))
    else None.
Proof.
  unfold RegisterDefaultHandlers.
  destruct (RegisterSysCall NewDispatcher _ _) as [d1 e1] eqn:E1.
  destruct e1; [done|]. destruct (RegisterSysCall d1 _ _) as [d2 e2] eqn:E2.
  intros [= -> _] opcode. change d with ((d, e2).1). rewrite <- E2, lookup_RegisterSysCall.
  change d1 with ((d1, @None DispatcherError).1). rewrite <- E1, lookup_RegisterSysCall.
  cbn [lookup_syscall NewDispatcher syscalls mbind option_bind]. rewrite lookup_empty.
  repeat case_decide; congruence || done.
Qed.

(** ** Properties *)

(** Registration is write-once: after any sequence of registrations an opcode
    is bound to the descriptor it had before, or else to the first one registered
    for it; later attempts change nothing and are refused. *)
Theorem RegisterSysCall_first_wins (regs : list (Z * SyscallDescriptor)) d opcode desc :
  let d' := fold_left (fun d r => (RegisterSysCall d r.1 r.2).1) regs d in
  lookup_syscall d' opcode =
    match lookup_syscall d opcode with
    | Some old => Some old
    | None => snd <$> List.find (fun r => r.1 =? opcode) regs
    end /\
  ((RegisterSysCall d' opcode desc).2 = Some ErrAlreadyRegistered <->
   is_Some (lookup_syscall d opcode) \/ opcode ∈ regs.*1).
Proof.
  intros d'. assert (lookup_syscall d' opcode =
    match lookup_syscall d opcode with
    | Some old => Some old
    | None => snd <$> List.find (fun r => r.1 =? opcode) regs
    end) as Hl.
  { subst d'. revert d. induction regs as [|[o ds] regs IH]; intros d; simpl.
    - by destruct (lookup_syscall d opcode).
    - rewrite IH, lookup_RegisterSysCall. destruct (lookup_syscall d opcode); [done|].
      simpl. destruct (Z.eqb_spec o opcode); case_decide; congruence || done. }
  split; [done|]. rewrite RegisterSysCall_error, Hl.
  destruct (lookup_syscall d opcode) as [old|]; [naive_solver|].
  destruct (List.find _ regs) as [[o ds]|] eqn:Hf; simpl; split; try done; intros Hx.
  - right. apply find_some in Hf as [Hin Ho]. simpl in Ho. apply Z.eqb_eq in Ho as ->.
    apply list_elem_of_fmap. exists (opcode, ds). split; [done|]. by apply list_elem_of_In.
  - destruct Hx as [[? ?]|Hx]; [done|]. apply list_elem_of_fmap in Hx as ([o ds] & -> & Hin).
    apply list_elem_of_In in Hin. pose proof (find_none _ _ Hf _ Hin) as Hn.
    simpl in Hn. by rewrite Z.eqb_refl in Hn.
Qed.

(** Every response names the opcode and the process of its request; an opcode
    that is not in the table gets the unknown-opcode status and an empty payload,
    and leaves the world as it was; a registered one gets exactly what its handler
    returns. *)
Theorem DispatchSysCall_response d w did opcode payload :
  match lookup_syscall d opcode with
  | None =>
      DispatchSysCall d w did opcode payload =
      Ret (w, mkIpcResponse ErrUnknownOpcode opcode [] did)
  | Some desc =>
      forall w' res status handler,
        Handler desc = Some handler -> handler w did payload = Ret (w', res, status) ->
        DispatchSysCall d w did opcode payload =
        Ret (w', mkIpcResponse status opcode res did)
  end /\
  forall w' r, DispatchSysCall d w did opcode payload = Ret (w', r) ->
    Opcode r = opcode /\ resp_DID r = did.
Proof.
  unfold DispatchSysCall. destruct (lookup_syscall d opcode) as [desc|].
  - split.
    + intros w' res status handler -> Hh. by rewrite Hh.
    + intros w' r. destruct (Handler desc) as [handler|]; [|done].
      destruct (handler w did payload) as [[[w2 res] st]| | |]; simpl; try done.
      by intros [= <- <-].
  - split; [done|]. by intros w' r [= <- <-].
Qed.

(** C34. Egress through the default table: a request whose payload starts with an
    encoded parameter routes exactly that parameter, once, under the caller's
    process identifier, and reports the network's error as an internal error with
    its text; any other payload is refused as invalid and routes nothing. *)
Theorem egress_route_dispatch km egress d w did payload
    (Hd : RegisterDefaultHandlers (Some NewDispatcher) (Some km) (Some egress) = (Some d, None)) :
  (forall data extra, payload = encodeParam data ++ extra -> zlen data < 65536 ->
     DispatchSysCall d w did OpcodeEgressRoute payload =
     let '(w', err) := RouteToNetwork egress w did data in
     Ret (w', match err with
              | Some text => mkIpcResponse ErrInternalDaemon OpcodeEgressRoute text did
              | None => mkIpcResponse Success OpcodeEgressRoute [] did
              end)) /\
  ((forall data extra, zlen data < 65536 -> payload <> encodeParam data ++ extra) ->
   DispatchSysCall d w did OpcodeEgressRoute payload =
   Ret (w, mkIpcResponse ErrInvalidArgs OpcodeEgressRoute [] did)).
Proof.
  unfold DispatchSysCall. rewrite (default_lookup _ _ _ Hd), decide_True by done. cbn [Handler].
  unfold MakeEgressRouteHandler. split.
  - intros data extra -> Hdata. rewrite ReadBytesParam_encode by done. go_bind.
    rewrite Z.eqb_refl. cbn [negb]. by destruct (RouteToNetwork egress w did data) as [w' [text|]].
  - intros Hno. destruct (ReadBytesParam_cases payload) as [(p & r & Heq & Hp & _)|[_ ->]].
    + by destruct (Hno p r).
    + done.
Qed.

(** What the default table answers to a request for an invite key. *)
Lemma invite_key_dispatched km egress d w did payload identity addr seed
    (Hd : RegisterDefaultHandlers (Some NewDispatcher) (Some km) (Some egress) = (Some d, None))
    (Hgen : KeyManager.generatorList (km w) !! KeyManager.v1keytype =
            Some (KeyManager.GenV1 (KeyV1.NewKeyGeneratorV1 (Some identity) addr (seed ++ pubOfSeed seed))))
    (Haddr : addr <> []) (Hseed : zlen seed = 32) (Hver : requestedVersion payload = Ret 0)
    `{!Ed25519Laws} :
  DispatchSysCall d w did OpcodeGetInviteKey payload =
    Ret (w, mkIpcResponse Success OpcodeGetInviteKey (KeyV1.generated_key identity addr seed) did).
Proof.
  unfold DispatchSysCall. rewrite (default_lookup _ _ _ Hd), decide_False, decide_True by done.
  cbn [Handler]. unfold MakeGetInviteKeyHandler. rewrite Hver. go_bind.
  unfold KeyManager.v1keytype in Hgen. unfold KeyManager.GenerateKey.
  rewrite Hgen. cbn [KeyManager.callGenerate]. by rewrite KeyV1.generate_form.
Qed.

(** Invite keys through the default table: when the key manager in the world
    has a well-formed version 1 generator, a request that names no version, or
    names version 0 in its first four bytes, is answered with success, leaves the
    world as it was, and its payload is a key from which a fresh manager reads
    this daemon's identity and address. *)
Theorem invite_key_dispatch `{!Ed25519Laws} km egress d w did payload identity addr priv
    (Hd : RegisterDefaultHandlers (Some NewDispatcher) (Some km) (Some egress) = (Some d, None))
    (Hgen : KeyManager.generatorList (km w) !! KeyManager.v1keytype =
            Some (KeyManager.GenV1 (KeyV1.NewKeyGeneratorV1 (Some identity) addr priv)))
    (Haddr : addr <> []) (Hcurve : curve identity = X25519)
    (Hlen : zlen (publicKey identity) = 32) (Hpriv : valid_private priv)
    (Hver : requestedVersion payload = Ret 0) :
  exists key,
    DispatchSysCall d w did OpcodeGetInviteKey payload =
      Ret (w, mkIpcResponse Success OpcodeGetInviteKey key did) /\
    (KeyManager.ParseKey KeyManager.NewKeyManager key).2 = Ret (identity, addr).
Proof.
  destruct Hpriv as (seed & Lseed & ->).
  exists (KeyV1.generated_key identity addr seed).
  split; [by apply (invite_key_dispatched km egress)|by apply KeyManager.generated_parsed].
Qed.

(** A request for an unregistered key version is answered with the invalid
    key status and the text of the manager's error, which names the version. *)
Theorem invite_key_unknown_version km egress d w did version extra
    (Hd : RegisterDefaultHandlers (Some NewDispatcher) (Some km) (Some egress) = (Some d, None))
    (Hv : is_u32 version)
    (Hgen : KeyManager.generatorList (km w) !! version = None) :
  DispatchSysCall d w did OpcodeGetInviteKey (putUint32 version ++ extra) =
  Ret (w, mkIpcResponse ErrInvalidKey OpcodeGetInviteKey
            (bstr "key generator not registered for version: " ++ showZ version) did).
Proof.
  unfold DispatchSysCall. rewrite (default_lookup _ _ _ Hd), decide_False, decide_True by done.
  cbn [Handler]. unfold MakeGetInviteKeyHandler. rewrite requestedVersion_put by done. go_bind.
  unfold KeyManager.GenerateKey. by rewrite Hgen.
Qed.

(** The encoded response is its opcode, its status and its payload, four bytes
    and nothing else before the payload: the fields can be read back, but there is
    no length field, so two responses written one after the other can be the
    encoding of a single third one. *)
Theorem Encode_layout r (Hop : is_u16 (Opcode r)) (Hst : is_u16 (StatusCode r)) :
  @u16_at never (Encode r) 0 = Ret (Opcode r) /\
  @u16_at never (Encode r) 2 = Ret (StatusCode r) /\
  @go_slice never _ (Encode r) 4 (zlen (Encode r)) = Ret (Payload r) /\
  zlen (Encode r) = 4 + zlen (Payload r) /\
  forall r', exists r'', Encode r ++ Encode r' = Encode r''.
Proof.
  unfold Encode. split_and!.
  - by apply (u16_at_mid [] (Opcode r)).
  - by apply (u16_at_mid (putUint16 (Opcode r)) (StatusCode r)).
  - rewrite app_assoc. apply go_slice_suffix; zlen_norm; lia.
  - zlen_norm. lia.
  - intros r'. exists (mkIpcResponse (StatusCode r) (Opcode r) (Payload r ++ Encode r') 0).
    unfold Encode. cbn [StatusCode Opcode Payload]. by rewrite <- !app_assoc.
Qed.

(** Default registration is not atomic: when the table already has a handler
    for invite keys but none for egress, it reports the clash and leaves the egress
    handler registered. *)
Theorem RegisterDefaultHandlers_partial km egress d
    (Hkey : is_Some (lookup_syscall d OpcodeGetInviteKey))
    (Hegress : lookup_syscall d OpcodeEgressRoute = None) :
  exists d', RegisterDefaultHandlers (Some d) (Some km) (Some egress) =
      (Some d', Some ErrAlreadyRegistered) /\
    is_Some (lookup_syscall d' OpcodeEgressRoute) /\
    lookup_syscall d' OpcodeGetInviteKey = lookup_syscall d OpcodeGetInviteKey.
Proof.
  destruct Hkey as [old Hkey]. unfold RegisterDefaultHandlers.
  set (eg := mkSyscallDescriptor OpcodeEgressRoute _ _).
  set (gi := mkSyscallDescriptor OpcodeGetInviteKey _ _).
  pose proof (RegisterSysCall_error d OpcodeEgressRoute eg) as He1. rewrite Hegress in He1.
  pose proof (lookup_RegisterSysCall d OpcodeEgressRoute eg) as Hl1.
  destruct (RegisterSysCall d OpcodeEgressRoute eg) as [d1 e1]. simpl in He1, Hl1. subst e1.
  pose proof (RegisterSysCall_error d1 OpcodeGetInviteKey gi) as He2.
  pose proof (lookup_RegisterSysCall d1 OpcodeGetInviteKey gi) as Hl2.
  destruct (RegisterSysCall d1 OpcodeGetInviteKey gi) as [d2 e2]. simpl in He2, Hl2.
  rewrite Hl1, Hkey in He2. subst e2. exists d2. split; [done|].
  rewrite !Hl2, !Hl1, Hkey, Hegress, decide_True by done. by eauto.
Qed.

End dispatcher.
Arguments Dispatcher : clear implicits.
Arguments IEgress : clear implicits.
Arguments SyscallDescriptor : clear implicits.
Arguments SyscallHandler : clear implicits.
End Dispatcher.

(** ** Concrete runs *)

Module DispatcherWitness.
Import Abi Dispatcher ToyEd25519.

(** A world with a key manager and the packets routed so far; the egress refuses
    an empty packet. *)
Record world := mkWorld { the_km : KeyManager.KeyManager; routed : list (DID * list byte) }.

Definition egress : IEgress world := {|
  RouteToNetwork w did data :=
    match data with
    | [] => (w, Some (bstr "no route"))
    | _ => (mkWorld (the_km w) (routed w ++ [(did, data)]), None)
    end
|}.

Definition w0 : world :=
  mkWorld (KeyManager.RegisterGenerator KeyManager.NewKeyManager KeyManager.v1keytype
             (KeyManager.GenV1 (KeyV1.NewKeyGeneratorV1 (Some toy_identity) toy_addr toy_priv))) [].

Definition d0 : Dispatcher world :=
  default NewDispatcher
    (RegisterDefaultHandlers (Some NewDispatcher) (Some the_km) (Some egress)).1.

Lemma d0_registered :
  RegisterDefaultHandlers (Some NewDispatcher) (Some the_km) (Some egress) = (Some d0, None).
Proof. reflexivity. Qed.

Lemma egress_route_dispatch_witness :
  DispatchSysCall d0 w0 7 OpcodeEgressRoute (encodeParam (bstr "hi") ++ []) =
  Ret (mkWorld (the_km w0) [(7, bstr "hi")], mkIpcResponse Success OpcodeEgressRoute [] 7).
Proof.
  by apply (egress_route_dispatch the_km egress d0 w0 7 (encodeParam (bstr "hi") ++ [])
              d0_registered) with (data := bstr "hi") (extra := []).
Defined.

Lemma invite_key_dispatch_witness :
  exists key,
    DispatchSysCall d0 w0 7 OpcodeGetInviteKey [] =
      Ret (w0, mkIpcResponse Success OpcodeGetInviteKey key 7) /\
    (KeyManager.ParseKey KeyManager.NewKeyManager key).2 = Ret (toy_identity, toy_addr).
Proof.
  apply (invite_key_dispatch the_km egress d0 w0 7 [] toy_identity toy_addr toy_priv);
    [exact d0_registered|reflexivity|done|reflexivity|reflexivity|exact toy_priv_valid|reflexivity].
Defined.

Lemma invite_key_unknown_version_witness :
  DispatchSysCall d0 w0 7 OpcodeGetInviteKey (putUint32 9 ++ []) =
  Ret (w0, mkIpcResponse ErrInvalidKey OpcodeGetInviteKey
             (bstr "key generator not registered for version: " ++ showZ 9) 7).
Proof.
  apply (invite_key_unknown_version the_km egress d0 w0 7 9 []);
    [exact d0_registered|lia|reflexivity].
Defined.

Definition d1 : Dispatcher world :=
  (RegisterSysCall NewDispatcher OpcodeGetInviteKey
     (mkSyscallDescriptor OpcodeGetInviteKey "mine" None)).1.

Lemma RegisterDefaultHandlers_partial_witness :
  exists d', RegisterDefaultHandlers (Some d1) (Some the_km) (Some egress) =
      (Some d', Some ErrAlreadyRegistered) /\
    is_Some (lookup_syscall d' OpcodeEgressRoute) /\
    lookup_syscall d' OpcodeGetInviteKey = lookup_syscall d1 OpcodeGetInviteKey.
Proof.
  apply (RegisterDefaultHandlers_partial the_km egress d1); [by eexists|reflexivity].
Defined.

Lemma DispatchSysCall_response_witness :
  DispatchSysCall d0 w0 7 0x8888 [] = Ret (w0, mkIpcResponse ErrUnknownOpcode 0x8888 [] 7).
Proof. exact (proj1 (DispatchSysCall_response d0 w0 7 0x8888 [])). Defined.

Lemma Encode_layout_witness :
  @u16_at never (Encode (mkIpcResponse Success 0x0201 (bstr "k") 7)) 0 = Ret 0x0201.
Proof.
  apply (Encode_layout (mkIpcResponse Success 0x0201 (bstr "k") 7)); simpl; unfold Success; lia.
Defined.

End DispatcherWitness.
