(* ===== verification/Framing.v ===== *)
(** * Framing: packets on a local connection

    Models [readPacket] and [writePacket] of [src/ipc/session_manager.go] with
    the parts of [io] they use. A connection delivers its bytes in chunks of any
    size, one chunk or part of one per [Read], and then fails with an error; a
    [Write] may fail after a part of its bytes. *)

From S2P Require Import Prelude.
From Stdlib Require Import Strings.Byte.

Module Framing.

Inductive IoError := EOF | ErrUnexpectedEOF | ErrIo | ErrPacketTooLong (length : Z).

(** ** Reading *)

(** The chunks that are still to come, and the error after the last one. *)
Record Reader := mkReader { chunks : list (list byte); read_end : IoError }.

(** All the bytes that are still to come. *)
Definition stream (r : Reader) : list byte := concat (chunks r).

(** One [Read] into a buffer of [n] bytes. *)
Definition Read (r : Reader) (n : nat) : list byte * Reader * option IoError :=
  match chunks r with
  | [] => ([], r, Some (read_end r))
  | c :: cs =>
      if (length c <=? n)%nat then (c, mkReader cs (read_end r), None)
      else (take n c, mkReader (drop n c :: cs) (read_end r), None)
  end.

(** The loop of [io.ReadFull] ([io.ReadAtLeast] with the whole buffer): read
    until the buffer of [need] more bytes is full or a [Read] fails. *)
Fixpoint readFull_loop (cs : list (list byte)) (e : IoError) (need : nat) (got : list byte)
    : outcome IoError (list byte) * Reader :=
  match need with
  | O => (Ret got, mkReader cs e)
  | S _ =>
      match cs with
      | [] =>
          (Fail (match got, e with _ :: _, EOF => ErrUnexpectedEOF | _, _ => e end), mkReader [] e)
      | c :: cs' =>
          if (length c <=? need)%nat
          then readFull_loop cs' e (need - length c) (got ++ c)
          else (Ret (got ++ take need c), mkReader (drop need c :: cs') e)
      end
  end.

(** Computations that read from the connection. *)
Definition rd (A : Type) : Type := Reader -> outcome IoError A * Reader.

#[export] Instance rd_ret : MRet rd := fun A a r => (Ret a, r).
#[export] Instance rd_bind : MBind rd := fun A B k m r =>
  match m r with
  | (Ret a, r) => k a r
  | (Fail e, r) => (Fail e, r)
  | (Panic, r) => (Panic, r)
  | (Diverge, r) => (Diverge, r)
  end.

(** A computation that does not read. *)
Definition pure {A} (m : outcome IoError A) : rd A := fun r => (m, r).

(** [io.ReadFull]. *)
Definition ReadFull (n : nat) : rd (list byte) :=
  fun r => readFull_loop (chunks r) (read_end r) n [].

(** [readPacket]. *)
Definition readPacket : rd (Z * list byte) :=
  header ← ReadFull 4;
  opcode ← pure (u16_at header 0);
  length ← pure (u16_at header 2);
  buf ← ReadFull (Z.to_nat length);
  mret (opcode, buf).

(** ** Writing *)

(** What a connection has been given so far, and how many more bytes it takes
    before it fails ([None]: any number). *)
Record Writer := mkWriter { written : list byte; room : option nat }.

Definition Write (w : Writer) (p : list byte) : Writer * option IoError :=
  match room w with
  | None => (mkWriter (written w ++ p) None, None)
  | Some k =>
      if (length p <=? k)%nat then (mkWriter (written w ++ p) (Some (k - length p)%nat), None)
      else (mkWriter (written w ++ take k p) (Some 0%nat), Some ErrIo)
  end.

Definition maxPacketSize : Z := 65535.

(** [writePacket]. *)
Definition writePacket (w : Writer) (opcode statusCode : Z) (data : list byte)
    : Writer * option IoError :=
  let length := zlen data in
  if maxPacketSize <? length then (w, Some (ErrPacketTooLong length)) else
  let header := putUint16 opcode ++ putUint16 statusCode ++ putUint16 (u16 length) in
  match Write w header with
  | (w, Some err) => (w, Some err)
  | (w, None) => if 0 <? length then Write w data else (w, None)
  end.

(** ** Wire formats *)

(** A request: opcode, length and body. *)
Definition requestFrame (p : Z * list byte) : list byte :=
  putUint16 p.1 ++ putUint16 (zlen p.2) ++ p.2.

(** A response: opcode, status, length and body. *)
Definition responseFrame (opcode statusCode : Z) (data : list byte) : list byte :=
  putUint16 opcode ++ putUint16 statusCode ++ putUint16 (zlen data) ++ data.

Definition frame_ok (p : Z * list byte) : Prop := is_u16 p.1 /\ zlen p.2 < 65536.

(** ** [ReadFull] does not depend on how the bytes are chunked *)

(** Each turn of the loop is one [Read] into what is left of the buffer. *)
Lemma readFull_loop_Read r n got :
  readFull_loop (chunks r) (read_end r) (S n) got =
  match Read r (S n) with
  | (bs, r', None) => readFull_loop (chunks r') (read_end r') (S n - length bs) (got ++ bs)
  | (_, r', Some e) =>
      (Fail (match got, e with _ :: _, EOF => ErrUnexpectedEOF | _, _ => e end), r')
  end.
Proof.
  destruct r as [[|c cs] e]; [done|]. unfold Read. cbn [chunks read_end].
  cbn [readFull_loop]. destruct (Nat.leb_spec (length c) (S n)); [done|].
  cbn [chunks read_end]. rewrite length_take_le, Nat.sub_diag by lia. done.
Qed.

Lemma readFull_loop_enough cs e : forall need got,
  (need <= length (concat cs))%nat ->
  exists r, readFull_loop cs e need got = (Ret (got ++ take need (concat cs)), r) /\
    stream r = drop need (concat cs) /\ read_end r = e.
Proof.
  induction cs as [|c cs IH]; intros need got Hle.
  - destruct need; [|simpl in Hle; lia]. eexists. simpl. by rewrite app_nil_r.
  - destruct need as [|n].
    { eexists. cbn [readFull_loop]. by rewrite take_0, app_nil_r, drop_0. }
    cbn [readFull_loop concat]. set (need := S n) in *. clearbody need.
    cbn [concat] in Hle. rewrite length_app in Hle.
    destruct (Nat.leb_spec (length c) need).
    + destruct (IH (need - length c)%nat (got ++ c)) as (r & -> & Hs & He); [lia|].
      exists r. rewrite take_app_ge, drop_app_ge by lia. by rewrite <- app_assoc.
    + eexists. rewrite take_app_le, drop_app_le by lia. done.
Qed.

Lemma readFull_loop_short cs e : forall need got,
  (length (concat cs) < need)%nat ->
  readFull_loop cs e need got =
  (Fail (match got ++ concat cs, e with _ :: _, EOF => ErrUnexpectedEOF | _, _ => e end),
   mkReader [] e).
Proof.
  induction cs as [|c cs IH]; intros need got Hlt.
  - destruct need; [simpl in Hlt; lia|]. simpl. by rewrite app_nil_r.
  - destruct need as [|n]; [lia|]. cbn [readFull_loop concat]. set (need := S n) in *.
    clearbody need. cbn [concat] in Hlt. rewrite length_app in Hlt.
    rewrite (proj2 (Nat.leb_le _ _)) by lia. rewrite IH by lia. by rewrite <- app_assoc.
Qed.

Lemma ReadFull_enough r a b :
  stream r = a ++ b ->
  exists r', ReadFull (length a) r = (Ret a, r') /\ stream r' = b /\ read_end r' = read_end r.
Proof.
  intros Hs. unfold ReadFull, stream in *.
  destruct (readFull_loop_enough (chunks r) (read_end r) (length a) []) as (r' & -> & H1 & H2).
  { rewrite Hs, length_app. lia. }
  exists r'. rewrite Hs, take_app_length, drop_app_length in *. done.
Qed.

Lemma ReadFull_short r n :
  (length (stream r) < n)%nat -> exists e, ReadFull n r = (Fail e, mkReader [] (read_end r)).
Proof. intros Hlt. eexists. by apply readFull_loop_short. Qed.

Lemma ReadFull_enough_n r n b :
  (n <= length (stream r))%nat -> drop n (stream r) = b ->
  exists r', ReadFull n r = (Ret (take n (stream r)), r') /\ stream r' = b /\
    read_end r' = read_end r.
Proof.
  intros Hn <-. destruct (ReadFull_enough r (take n (stream r)) (drop n (stream r))) as (r' & Hr & H1).
  { by rewrite take_drop. }
  rewrite length_take_le in Hr by done. by exists r'.
Qed.

(** ** One packet *)

Lemma rd_bind_Ret {A B} (m : rd A) (k : A -> rd B) r a r' :
  m r = (Ret a, r') -> (m ≫= k) r = k a r'.
Proof. intros Hm. unfold mbind, rd_bind. by rewrite Hm. Qed.

Lemma rd_bind_Fail {A B} (m : rd A) (k : A -> rd B) r e r' :
  m r = (Fail e, r') -> (m ≫= k) r = (Fail e, r').
Proof. intros Hm. unfold mbind, rd_bind. by rewrite Hm. Qed.

Lemma readPacket_frame r p rest :
  frame_ok p -> stream r = requestFrame p ++ rest ->
  exists r', readPacket r = (Ret p, r') /\ stream r' = rest /\ read_end r' = read_end r.
Proof.
  intros [Hop Hlen] Hs. destruct p as [op body]. unfold requestFrame in Hs. cbn [fst snd] in *.
  pose proof (zlen_nonneg body).
  set (header := putUint16 op ++ putUint16 (zlen body)) in *.
  replace (_ ++ rest) with (header ++ body ++ rest) in Hs by (by rewrite <- !app_assoc).
  destruct (ReadFull_enough r header (body ++ rest) Hs) as (r1 & H1 & S1 & E1).
  destruct (ReadFull_enough r1 body rest S1) as (r2 & H2 & S2 & E2).
  assert (@u16_at IoError header 0 = Ret op) as Hh0 by (by apply (u16_at_mid [] op)).
  assert (@u16_at IoError header 2 = Ret (zlen body)) as Hh2.
  { unfold header. rewrite <- (app_nil_r (putUint16 (zlen body))). apply u16_at_mid; [done|lia]. }
  exists r2. split_and!; [|done|congruence]. unfold readPacket.
  rewrite (rd_bind_Ret _ _ _ _ _ H1). unfold pure. rewrite Hh0, Hh2.
  rewrite !(rd_bind_Ret _ _ _ _ _ eq_refl).
  unfold zlen. rewrite Nat2Z.id. by erewrite rd_bind_Ret by exact H2.
Qed.

(** What a packet read says about the stream, on every branch. *)
Lemma readPacket_cases r :
  (exists p rest, frame_ok p /\ stream r = requestFrame p ++ rest) \/
  ((forall p rest, frame_ok p -> stream r <> requestFrame p ++ rest) /\
   exists e, readPacket r = (Fail e, mkReader [] (read_end r))).
Proof.
  assert (forall op body, zlen (requestFrame (op, body)) = 4 + zlen body) as Hz
    by (intros; unfold requestFrame; zlen_norm; simpl; lia).
  destruct (stream r) as [|b0 [|b1 [|b2 [|b3 body]]]] eqn:Hs.
  1,2,3,4: right; split;
    [intros [op body] rest _ Heq; apply (f_equal zlen) in Heq; rewrite zlen_app, Hz in Heq;
     zlen_norm; pose proof (zlen_nonneg body); pose proof (zlen_nonneg rest); lia
    |destruct (ReadFull_short r 4) as [e He]; [rewrite Hs; simpl; lia|];
     exists e; by apply rd_bind_Fail].
  set (op := byte_val b0 * 256 + byte_val b1). set (n := byte_val b2 * 256 + byte_val b3).
  assert (is_u16 op /\ is_u16 n) as [Hop Hn] by (subst op n; byte_ranges; lia).
  destruct (Z.ltb_spec (zlen body) n) as [Hlt|Hge].
  - right. split.
    + intros [op' body'] rest [_ Hl] Heq. unfold requestFrame in Heq. simpl in Heq, Hl.
      injection Heq as _ _ H2 H3 Hb. subst body. unfold n in Hlt. rewrite H2, H3 in Hlt.
      rewrite !byte_val_of, Z.shiftr_div_pow2 in Hlt by lia. change (2 ^ 8) with 256 in Hlt.
      rewrite zlen_app in Hlt. pose proof (zlen_nonneg rest). pose proof (zlen_nonneg body'). zlia.
    + destruct (ReadFull_enough r [b0; b1; b2; b3] body) as (r1 & H1 & S1 & E1); [done|].
      destruct (ReadFull_short r1 (Z.to_nat n)) as [e He]; [unfold zlen in Hlt; rewrite S1; lia|].
      assert (@u16_at IoError [b0; b1; b2; b3] 0 = Ret op) as Hh0 by apply getUint16_val.
      assert (@u16_at IoError [b0; b1; b2; b3] 2 = Ret n) as Hh2 by apply getUint16_val.
      exists e. unfold readPacket. rewrite (rd_bind_Ret _ _ _ _ _ H1). unfold pure.
      rewrite Hh0, Hh2, !(rd_bind_Ret _ _ _ _ _ eq_refl), <- E1. by apply rd_bind_Fail.
  - left. exists (op, take (Z.to_nat n) body), (drop (Z.to_nat n) body).
    assert (zlen (take (Z.to_nat n) body) = n) as Hl
      by (unfold zlen in *; rewrite length_take; lia).
    split; [split; simpl; lia|]. unfold requestFrame. cbn [fst snd].
    rewrite Hl, (putUint16_get b0 b1 : putUint16 op = _), (putUint16_get b2 b3 : putUint16 n = _).
    simpl. by rewrite take_drop.
Qed.

Lemma readPacket_returns r : returns (readPacket r).1.
Proof.
  destruct (readPacket_cases r) as [(p & rest & Hp & Hs)|[_ [e ->]]]; [|done].
  by destruct (readPacket_frame r p rest Hp Hs) as (r' & -> & _).
Qed.

(** ** The packets of a whole connection *)

(** The packets that repeated reads deliver before the error that ends them.
    [None] would mean that the fuel was not enough. *)
Fixpoint receive (fuel : nat) (r : Reader) : list (Z * list byte) * option IoError :=
  match fuel with
  | O => ([], None)
  | S fuel =>
      match readPacket r with
      | (Ret p, r') => let '(ps, e) := receive fuel r' in (p :: ps, e)
      | (Fail e, _) => ([], Some e)
      | _ => ([], None)
      end
  end.

Lemma requestFrame_length p : (4 <= length (requestFrame p))%nat.
Proof. unfold requestFrame. rewrite !length_app. simpl. lia. Qed.

Lemma receive_frames ps : forall r fuel tail,
  Forall frame_ok ps -> stream r = concat (requestFrame <$> ps) ++ tail ->
  (forall p rest, frame_ok p -> tail <> requestFrame p ++ rest) ->
  (length ps < fuel)%nat -> exists e, receive fuel r = (ps, Some e).
Proof.
  induction ps as [|p ps IH]; intros r fuel tail Hok Hs Htail Hfuel;
    (destruct fuel as [|fuel]; [simpl in *; lia|]); cbn [receive].
  - destruct (readPacket_cases r) as [(p & rest & Hp & Hr)|[_ [e ->]]]; [|by exists e].
    simpl in Hs. rewrite Hs in Hr. by destruct (Htail p rest).
  - inversion_clear Hok as [|? ? Hp Hps]. cbn [fmap list_fmap concat] in Hs.
    rewrite <- app_assoc in Hs.
    destruct (readPacket_frame r p _ Hp Hs) as (r' & -> & S' & _).
    destruct (IH r' fuel tail) as [e He]; [done|done|done|simpl in Hfuel; lia|].
    exists e. by rewrite He.
Qed.

(** ** Writing a packet *)

Lemma writePacket_spec w opcode statusCode data :
  zlen data <= maxPacketSize ->
  exists k, written (writePacket w opcode statusCode data).1 =
      written w ++ take k (responseFrame opcode statusCode data) /\
    ((writePacket w opcode statusCode data).2 = None ->
     (length (responseFrame opcode statusCode data) <= k)%nat).
Proof.
  intros Hd. pose proof (zlen_nonneg data). unfold writePacket, maxPacketSize in *.
  rewrite (proj2 (Z.ltb_ge 65535 _)) by done. unfold u16. rewrite Z.mod_small by lia.
  set (header := putUint16 opcode ++ putUint16 statusCode ++ putUint16 (zlen data)).
  assert (responseFrame opcode statusCode data = header ++ data) as ->
    by (unfold header, responseFrame; by rewrite <- !app_assoc).
  assert (forall w p, exists k, written (Write w p).1 = written w ++ take k p /\
    ((Write w p).2 = None -> (length p <= k)%nat)) as HW.
  { intros [wr [k|]] p; unfold Write; simpl.
    - destruct (Nat.leb_spec (length p) k); simpl.
      + exists (length p). by rewrite firstn_all.
      + exists k. done.
    - exists (length p). by rewrite firstn_all. }
  clearbody header. destruct (HW w header) as (k1 & Hk1 & Hn1).
  destruct (Write w header) as [w1 [err|]] eqn:E1; cbn [fst snd] in *.
  - exists (k1 `min` length header)%nat. split; [|done].
    rewrite take_app_le by lia. rewrite Hk1. f_equal.
    destruct (Nat.le_gt_cases k1 (length header)); [by rewrite Nat.min_l|].
    rewrite Nat.min_r, !take_ge by lia. done.
  - specialize (Hn1 eq_refl). rewrite take_ge in Hk1 by done.
    destruct (Z.ltb_spec 0 (zlen data)).
    + destruct (HW w1 data) as (k2 & Hk2 & Hn2). exists (length header + k2)%nat.
      rewrite Hk2, Hk1, take_app_add, <- app_assoc. split; [done|].
      intros Hn. rewrite length_app. apply Hn2 in Hn. lia.
    + assert (data = []) as -> by (destruct data; [done|zlen_norm; pose proof (zlen_nonneg data); lia]).
      exists (length header). simpl. by rewrite app_nil_r, firstn_all.
Qed.

Lemma writePacket_unlimited wr opcode statusCode data :
  zlen data <= maxPacketSize ->
  writePacket (mkWriter wr None) opcode statusCode data =
  (mkWriter (wr ++ responseFrame opcode statusCode data) None, None).
Proof.
  intros Hd. pose proof (zlen_nonneg data). unfold writePacket, maxPacketSize in *.
  rewrite (proj2 (Z.ltb_ge 65535 _)) by done. unfold u16. rewrite Z.mod_small by lia.
  unfold Write. simpl. unfold responseFrame. destruct (Z.ltb_spec 0 (zlen data)).
  - by rewrite <- !app_assoc.
  - assert (data = []) as -> by (destruct data; [done|zlen_norm; pose proof (zlen_nonneg data); lia]).
    by rewrite !app_nil_r.
Qed.

(** The reader of responses on the other side of the connection. *)
Definition readResponse : rd (Z * Z * list byte) :=
  header ← ReadFull 6;
  opcode ← pure (u16_at header 0);
  statusCode ← pure (u16_at header 2);
  length ← pure (u16_at header 4);
  buf ← ReadFull (Z.to_nat length);
  mret (opcode, statusCode, buf).

Fixpoint readResponses (n : nat) : rd (list (Z * Z * list byte)) :=
  match n with
  | O => mret []
  | S n => p ← readResponse; ps ← readResponses n; mret (p :: ps)
  end.

(** Writing packets one after the other, as the write loop does. *)
Fixpoint writePackets (w : Writer) (ps : list (Z * Z * list byte)) : Writer * option IoError :=
  match ps with
  | [] => (w, None)
  | (opcode, statusCode, data) :: ps =>
      match writePacket w opcode statusCode data with
      | (w, None) => writePackets w ps
      | (w, Some err) => (w, Some err)
      end
  end.

Definition response_ok (p : Z * Z * list byte) : Prop :=
  is_u16 p.1.1 /\ is_u16 p.1.2 /\ zlen p.2 <= maxPacketSize.

Lemma readResponse_frame r opcode statusCode data rest :
  response_ok (opcode, statusCode, data) ->
  stream r = responseFrame opcode statusCode data ++ rest ->
  exists r', readResponse r = (Ret (opcode, statusCode, data), r') /\ stream r' = rest.
Proof.
  intros (Hop & Hst & Hlen) Hs. cbn [fst snd] in *. unfold maxPacketSize in Hlen.
  pose proof (zlen_nonneg data). unfold responseFrame in Hs.
  set (header := putUint16 opcode ++ putUint16 statusCode ++ putUint16 (zlen data)) in *.
  replace (_ ++ rest) with (header ++ data ++ rest) in Hs by (by rewrite <- !app_assoc).
  destruct (ReadFull_enough r header (data ++ rest) Hs) as (r1 & H1 & S1 & _).
  destruct (ReadFull_enough r1 data rest S1) as (r2 & H2 & S2 & _).
  assert (@u16_at IoError header 0 = Ret opcode) as Hh0 by (by apply (u16_at_mid [] opcode)).
  assert (@u16_at IoError header 2 = Ret statusCode) as Hh2
    by (by apply (u16_at_mid (putUint16 opcode) statusCode)).
  assert (@u16_at IoError header 4 = Ret (zlen data)) as Hh4.
  { unfold header. rewrite app_assoc, <- (app_nil_r (putUint16 (zlen data))).
    apply u16_at_mid; [done|lia]. }
  exists r2. split; [|done]. unfold readResponse.
  rewrite (rd_bind_Ret _ _ _ _ _ H1). unfold pure.
  rewrite Hh0, Hh2, Hh4, !(rd_bind_Ret _ _ _ _ _ eq_refl).
  unfold zlen. rewrite Nat2Z.id. by rewrite (rd_bind_Ret _ _ _ _ _ H2).
Qed.

Lemma writePackets_unlimited ps : forall wr,
  Forall response_ok ps ->
  writePackets (mkWriter wr None) ps =
  (mkWriter (wr ++ concat ((fun p => responseFrame p.1.1 p.1.2 p.2) <$> ps)) None, None).
Proof.
  induction ps as [|[[op st] data] ps IH]; intros wr Hok.
  - simpl. by rewrite app_nil_r.
  - inversion_clear Hok as [|? ? (_ & _ & Hlen) Hps].
    cbn [writePackets fmap list_fmap concat]. rewrite writePacket_unlimited by done.
    rewrite IH by done. cbn [fst snd]. by rewrite <- app_assoc.
Qed.

Lemma readResponses_frames ps : forall r,
  Forall response_ok ps ->
  stream r = concat ((fun p => responseFrame p.1.1 p.1.2 p.2) <$> ps) ->
  (readResponses (length ps) r).1 = Ret ps.
Proof.
  induction ps as [|[[op st] data] ps IH]; intros r Hok Hs; [done|].
  inversion_clear Hok as [|? ? Hp Hps]. cbn [fmap list_fmap concat fst snd] in Hs.
  destruct (readResponse_frame r op st data _ Hp Hs) as (r1 & H1 & S1).
  cbn [length readResponses]. rewrite (rd_bind_Ret _ _ _ _ _ H1).
  specialize (IH r1 Hps S1). destruct (readResponses (length ps) r1) as [o r2] eqn:E.
  simpl in IH. subst o. by rewrite (rd_bind_Ret _ _ _ _ _ E).
Qed.

(** ** Properties *)

(** C33. Requests are delivered whole, in order and once, however the transport
    splits the bytes: if the bytes of a connection are the frames of some packets
    and then a tail that holds no complete frame, reading delivers exactly those
    packets and then fails. *)
Theorem receive_delivers ps r tail
    (Hok : Forall frame_ok ps)
    (Hs : stream r = concat (requestFrame <$> ps) ++ tail)
    (Htail : forall p rest, frame_ok p -> tail <> requestFrame p ++ rest) :
  exists e, receive (S (length ps)) r = (ps, Some e).
Proof. apply (receive_frames ps r _ tail); [done..|lia]. Qed.

Lemma receive_delivers_witness :
  exists e, receive 3 (mkReader [[Byte.x00]; [Byte.x01; Byte.x00; Byte.x02; Byte.x61];
                         [Byte.x62; Byte.x02; Byte.x01; Byte.x00]; [Byte.x00; Byte.x07]] EOF) =
    ([(1, [Byte.x61; Byte.x62]); (0x0201, [])], Some e).
Proof.
  apply (receive_delivers [(1, [Byte.x61; Byte.x62]); (0x0201, [])] _ [Byte.x07]).
  - repeat constructor; simpl; lia.
  - reflexivity.
  - intros p rest _ Heq. apply (f_equal length) in Heq. rewrite length_app in Heq.
    pose proof (requestFrame_length p). simpl in Heq. lia.
Defined.

(** Reading one packet never panics and decides the stream: it returns a
    packet exactly when the stream starts with a complete frame of it, leaving
    the bytes after the frame; otherwise it fails. *)
Theorem readPacket_decides r p :
  returns (readPacket r).1 /\
  ((readPacket r).1 = Ret p <->
   exists rest, frame_ok p /\ stream r = requestFrame p ++ rest /\
     stream (readPacket r).2 = rest).
Proof.
  destruct (readPacket_cases r) as [(q & rest & Hq & Hs)|[Hno [e ->]]].
  - destruct (readPacket_frame r q rest Hq Hs) as (r' & -> & S' & _). split; [done|]. simpl. split.
    + intros [= ->]. by exists rest.
    + intros (rest' & Hp & Hs' & _). destruct (readPacket_frame r p rest' Hp Hs') as (r2 & Hr2 & _).
      destruct (readPacket_frame r q rest Hq Hs) as (r3 & Hr3 & _). congruence.
  - split; [done|]. simpl. split; [done|]. intros (rest & Hp & Hs & _). by destruct (Hno p rest).
Qed.

(** A packet that is too long for its length field is refused before a byte
    is written. Any other packet puts a prefix of its frame on the connection,
    and the whole frame when no error is reported. *)
Theorem writePacket_writes w opcode statusCode data :
  (maxPacketSize < zlen data ->
   writePacket w opcode statusCode data = (w, Some (ErrPacketTooLong (zlen data)))) /\
  (zlen data <= maxPacketSize ->
   exists k, written (writePacket w opcode statusCode data).1 =
       written w ++ take k (responseFrame opcode statusCode data) /\
     ((writePacket w opcode statusCode data).2 = None ->
      written (writePacket w opcode statusCode data).1 =
      written w ++ responseFrame opcode statusCode data)).
Proof.
  split.
  - intros Hlt. unfold writePacket. by rewrite (proj2 (Z.ltb_lt _ _)).
  - intros Hle. destruct (writePacket_spec w opcode statusCode data Hle) as (k & Hk & Hn).
    exists k. split; [done|]. intros Hnone. rewrite Hk, take_ge; [done|]. by apply Hn.
Qed.

Lemma writePacket_writes_witness :
  exists k, written (writePacket (mkWriter [] (Some 7%nat)) 1 0 (bstr "abc")).1 =
    take k (responseFrame 1 0 (bstr "abc")).
Proof.
  destruct (proj2 (writePacket_writes (mkWriter [] (Some 7%nat)) 1 0 (bstr "abc"))
              ltac:(vm_compute; discriminate)) as (k & Hk & _).
  by exists k.
Defined.

(** Responses round trip: what the daemon writes for a sequence of responses
    is read back by the client as that sequence, however the bytes are chunked. *)
Theorem responses_roundtrip ps r
    (Hok : Forall response_ok ps)
    (Hs : stream r = written (writePackets (mkWriter [] None) ps).1) :
  (writePackets (mkWriter [] None) ps).2 = None /\ (readResponses (length ps) r).1 = Ret ps.
Proof.
  rewrite writePackets_unlimited in * by done. split; [done|]. by apply readResponses_frames.
Qed.

Lemma responses_roundtrip_witness :
  (readResponses 2 (mkReader
     [[Byte.x00; Byte.x01; Byte.x00]; [Byte.x00; Byte.x00; Byte.x01; Byte.x61; Byte.x02];
      [Byte.x01; Byte.x20; Byte.x01; Byte.x00; Byte.x00]] EOF)).1 =
  Ret [(1, 0, [Byte.x61]); (0x0201, 0x2001, [])].
Proof.
  apply (responses_roundtrip [(1, 0, [Byte.x61]); (0x0201, 0x2001, [])]).
  - repeat constructor; simpl; unfold maxPacketSize; vm_compute; congruence.
  - reflexivity.
Defined.

End Framing.
