(* ===== verification/Identity.v ===== *)
(** * Identity: the node's keys and public address

    Models [src/identify/identifier.go]. Addresses and byte slices are shared
    objects, so the model has a store: byte arrays and [net.UDPAddr] structs by
    reference. [GetPublicAddr] and [SetPublicAddr] copy, and the theorems say
    that this isolates the identity from every later write of its clients; the
    Ed25519 keys are handed out by reference. The read-write mutex makes each
    method one step. *)

From S2P Require Import Prelude Base64 InviteKey.
From Stdlib Require Import Strings.Byte.

(** ** [net.UDPAddr] *)

(** An address as a value. *)
Record UDPAddr := mkUDPAddr { IP : list byte; Port : Z; Zone : list byte }.

Abbreviation ref := nat.

(** An address in the store: its [IP] is a slice, nil or over an array. *)
Record AddrObj := mkAddrObj { obj_IP : option ref; obj_Port : Z; obj_Zone : list byte }.

Record Store := mkStore {
  arrays : gmap ref (list byte);
  addrs : gmap ref AddrObj;
}.

Definition readSlice (st : Store) (s : option ref) : list byte :=
  match s with None => [] | Some a => default [] (arrays st !! a) end.

(** The value of an address object in a store. *)
Definition valueOf (st : Store) (o : AddrObj) : UDPAddr :=
  mkUDPAddr (readSlice st (obj_IP o)) (obj_Port o) (obj_Zone o).

Definition newArray (st : Store) (bs : list byte) : Store * ref :=
  let a := fresh (dom (arrays st)) in
  (mkStore (<[a := bs]> (arrays st)) (addrs st), a).

Definition newAddr (st : Store) (o : AddrObj) : Store * ref :=
  let p := fresh (dom (addrs st)) in
  (mkStore (arrays st) (<[p := o]> (addrs st)), p).

(** [append([]byte(nil), ip...)]: a fresh array, or nil when there is nothing to
    append. *)
Definition cloneSlice (st : Store) (s : option ref) : Store * option ref :=
  match readSlice st s with
  | [] => (st, None)
  | bs => let '(st, a) := newArray st bs in (st, Some a)
  end.

(** The copy that both accessors make:
    [&net.UDPAddr{IP: append([]byte(nil), addr.IP...), Port: addr.Port, Zone: addr.Zone}]. *)
Definition cloneAddr (st : Store) (o : AddrObj) : Store * ref :=
  let '(st, ip) := cloneSlice st (obj_IP o) in
  newAddr st (mkAddrObj ip (obj_Port o) (obj_Zone o)).

(** ** The identity *)

Module Identity.
Section identity.

(** [crypto/ecdh] private keys, which the code only passes around. *)
Context {ecdhPrivateKey : Type} (ecdhPublic : ecdhPrivateKey -> PublicKey).

Record Identity := mkIdentity {
  publicAddr : option ref;
  x25519Priv : ecdhPrivateKey;
  x25519Pub : PublicKey;
  ed25519Priv : option ref;
  ed25519Pub : option ref;
}.

Inductive IdentityError := X25519Nil | Ed25519Empty.

Definition NewIdentity (st : Store) (x25519Priv : option ecdhPrivateKey) (ed25519Priv : option ref)
    : outcome IdentityError (Store * Identity) :=
  match x25519Priv with
  | None => Fail X25519Nil
  | Some x25519Priv =>
      if zlen (readSlice st ed25519Priv) =? 0 then Fail Ed25519Empty else
      pub ← edPublic (readSlice st ed25519Priv);
      let '(st, pubRef) := newArray st pub in
      Ret (st, mkIdentity None x25519Priv (ecdhPublic x25519Priv) ed25519Priv (Some pubRef))
  end.

Definition GetPublicAddr (st : Store) (id : Identity) : Store * option ref :=
  match p ← publicAddr id; addrs st !! p with
  | None => (st, None)
  | Some o => let '(st, p) := cloneAddr st o in (st, Some p)
  end.

Definition SetPublicAddr (st : Store) (id : Identity) (addr : option ref) : Store * Identity :=
  match p ← addr; addrs st !! p with
  | None =>
      (st, mkIdentity None (x25519Priv id) (x25519Pub id) (ed25519Priv id) (ed25519Pub id))
  | Some o =>
      let '(st, p) := cloneAddr st o in
      (st, mkIdentity (Some p) (x25519Priv id) (x25519Pub id) (ed25519Priv id) (ed25519Pub id))
  end.

Definition GetX25519Keys (id : Identity) : ecdhPrivateKey * PublicKey :=
  (x25519Priv id, x25519Pub id).

Definition GetEd25519Keys (id : Identity) : option ref * option ref :=
  (ed25519Priv id, ed25519Pub id).

(** The public address that the identity holds, as a value. *)
Definition publicAddrValue (st : Store) (id : Identity) : option UDPAddr :=
  p ← publicAddr id; o ← addrs st !! p; Some (valueOf st o).

(** ** Clients

    A client holds references and may write through any of them, at any time.
    [known] is what clients hold; the identity's own objects are not among it. *)

Record Sys := mkSys {
  store : Store;
  ident : Identity;
  knownArrays : gset ref;
  knownAddrs : gset ref;
}.

Inductive action :=
| ASet (addr : option ref)                  (* SetPublicAddr with a held address *)
| AGet                                      (* GetPublicAddr, keeping the result *)
| AWriteArray (a : ref) (bs : list byte)    (* write into a held array *)
| AWriteAddr (p : ref) (o : AddrObj)        (* write the fields of a held struct *)
| ANewArray (bs : list byte)
| ANewAddr (o : AddrObj).

(** The slices that an address object mentions are held by clients. *)
Definition slice_known (s : Sys) (o : AddrObj) : bool :=
  match obj_IP o with None => true | Some a => bool_decide (a ∈ knownArrays s) end.

(** Reading a returned address makes its array reachable. *)
Definition reachableArrays (st : Store) (p : option ref) : gset ref :=
  match p ≫= fun p => addrs st !! p with
  | Some o => match obj_IP o with Some a => {[ a ]} | None => ∅ end
  | None => ∅
  end.

Definition step (s : Sys) (a : action) : option (Sys * option UDPAddr) :=
  match a with
  | ASet addr =>
      if match addr with None => true | Some p => bool_decide (p ∈ knownAddrs s) end then
        let '(st, id) := SetPublicAddr (store s) (ident s) addr in
        Some (mkSys st id (knownArrays s) (knownAddrs s), None)
      else None
  | AGet =>
      let '(st, p) := GetPublicAddr (store s) (ident s) in
      let result := o ← (p ≫= fun p => addrs st !! p); Some (valueOf st o) in
      Some (mkSys st (ident s) (reachableArrays st p ∪ knownArrays s)
              (match p with Some p => {[ p ]} | None => ∅ end ∪ knownAddrs s), result)
  | AWriteArray a bs =>
      if bool_decide (a ∈ knownArrays s) then
        Some (mkSys (mkStore (<[a := bs]> (arrays (store s))) (addrs (store s)))
                (ident s) (knownArrays s) (knownAddrs s), None)
      else None
  | AWriteAddr p o =>
      if bool_decide (p ∈ knownAddrs s) && slice_known s o then
        Some (mkSys (mkStore (arrays (store s)) (<[p := o]> (addrs (store s))))
                (ident s) (knownArrays s) (knownAddrs s), None)
      else None
  | ANewArray bs =>
      let '(st, a) := newArray (store s) bs in
      Some (mkSys st (ident s) ({[ a ]} ∪ knownArrays s) (knownAddrs s), None)
  | ANewAddr o =>
      if slice_known s o then
        let '(st, p) := newAddr (store s) o in
        Some (mkSys st (ident s) (knownArrays s) ({[ p ]} ∪ knownAddrs s), None)
      else None
  end.

(** The specification: the identity is a register that holds an address value.
    [deref] is the value of the argument of a call at the time of the call. *)
Definition deref (s : Sys) (addr : option ref) : option UDPAddr :=
  o ← (addr ≫= fun p => addrs (store s) !! p); Some (valueOf (store s) o).

Definition spec_step (v : option UDPAddr) (s : Sys) (a : action)
    : option UDPAddr * option UDPAddr :=
  match a with
  | ASet addr => (deref s addr, None)
  | AGet => (v, v)
  | _ => (v, None)
  end.

Fixpoint run (s : Sys) (acts : list action) : option (Sys * list (option UDPAddr)) :=
  match acts with
  | [] => Some (s, [])
  | a :: acts =>
      '(s', r) ← step s a; '(s'', rs) ← run s' acts; Some (s'', r :: rs)
  end.

Fixpoint spec_run (v : option UDPAddr) (s : Sys) (acts : list action) : list (option UDPAddr) :=
  match acts with
  | [] => []
  | a :: acts =>
      let '(v', r) := spec_step v s a in
      match step s a with
      | Some (s', _) => r :: spec_run v' s' acts
      | None => []
      end
  end.

(** ** Isolation invariant *)

(** The identity's address object, and the array under it, are not held by any
    client. *)
Definition isolated (s : Sys) : Prop :=
  knownArrays s ⊆ dom (arrays (store s)) /\
  knownAddrs s ⊆ dom (addrs (store s)) /\
  match publicAddr (ident s) with
  | None => True
  | Some p =>
      p ∉ knownAddrs s /\
      exists o, addrs (store s) !! p = Some o /\
        forall a, obj_IP o = Some a -> a ∈ dom (arrays (store s)) /\ a ∉ knownArrays s
  end.

Lemma readSlice_extend st a bs ads s :
  a ∉ dom (arrays st) ->
  (forall a', s = Some a' -> a' ∈ dom (arrays st)) ->
  readSlice (mkStore (<[a := bs]> (arrays st)) ads) s = readSlice st s.
Proof.
  intros Ha Hs. destruct s as [a'|]; [|done]. simpl. rewrite lookup_insert_ne; [done|].
  intros <-. by apply Ha, Hs.
Qed.

Lemma readSlice_write st a bs ads s :
  s <> Some a -> readSlice (mkStore (<[a := bs]> (arrays st)) ads) s = readSlice st s.
Proof.
  intros Hs. destruct s as [a'|]; [|done]. simpl. rewrite lookup_insert_ne; [done|].
  intros ->. done.
Qed.

(** A copy is a fresh object over a fresh array, with the same value. *)
Lemma cloneAddr_spec st o st' p :
  cloneAddr st o = (st', p) ->
  p ∉ dom (addrs st) /\ dom (arrays st) ⊆ dom (arrays st') /\
  (forall s, (forall a, s = Some a -> a ∈ dom (arrays st)) -> readSlice st' s = readSlice st s) /\
  exists o', addrs st' = <[p := o']> (addrs st) /\ valueOf st' o' = valueOf st o /\
    forall a, obj_IP o' = Some a -> a ∈ dom (arrays st') /\ a ∉ dom (arrays st).
Proof.
  unfold cloneAddr, cloneSlice. destruct (readSlice st (obj_IP o)) as [|b bs] eqn:Hr; intros [= <- <-].
  - split_and!; [apply is_fresh|done|by intros|]. eexists. split; [done|].
    unfold valueOf. cbn [obj_IP obj_Port obj_Zone readSlice]. by rewrite Hr.
  - split_and!; [apply is_fresh|cbn [arrays]; set_solver| |].
    + intros s Hs. apply readSlice_extend; [apply is_fresh|done].
    + eexists. split; [done|]. unfold valueOf. cbn [obj_IP obj_Port obj_Zone readSlice arrays].
      rewrite lookup_insert_eq, Hr. split; [done|]. intros a [= <-].
      pose proof (is_fresh (dom (arrays st))). set_solver.
Qed.

Lemma publicAddrValue_some st id p o :
  publicAddr id = Some p -> addrs st !! p = Some o ->
  publicAddrValue st id = Some (valueOf st o).
Proof. intros Hp Ho. unfold publicAddrValue. rewrite Hp. simpl. by rewrite Ho. Qed.

Lemma SetPublicAddr_refines s addr st' id' :
  isolated s -> SetPublicAddr (store s) (ident s) addr = (st', id') ->
  isolated (mkSys st' id' (knownArrays s) (knownAddrs s)) /\
  publicAddrValue st' id' = deref s addr.
Proof.
  intros (HA & HP & _). unfold SetPublicAddr, deref, mbind, option_bind.
  destruct (match addr with Some p => _ | None => None end) as [o|] eqn:Ho.
  - destruct (cloneAddr (store s) o) as [st2 p] eqn:Hc. intros [= <- <-].
    apply cloneAddr_spec in Hc as (Hp & Hdom & Hread & o' & Hst & Hv & Hip).
    assert (addrs st2 !! p = Some o') as Hl by (rewrite Hst; apply lookup_insert_eq).
    split.
    + split_and!; cbn [store knownArrays knownAddrs ident publicAddr].
      * set_solver.
      * rewrite Hst. set_solver.
      * split; [set_solver|]. exists o'. split; [done|]. intros a Ha.
        destruct (Hip a Ha). set_solver.
    + rewrite (publicAddrValue_some _ _ p o') by done. by rewrite Hv.
  - intros [= <- <-]. by split.
Qed.

Lemma GetPublicAddr_refines s st' p :
  isolated s -> GetPublicAddr (store s) (ident s) = (st', p) ->
  isolated (mkSys st' (ident s) (reachableArrays st' p ∪ knownArrays s)
              (match p with Some p => {[ p ]} | None => ∅ end ∪ knownAddrs s)) /\
  publicAddrValue st' (ident s) = publicAddrValue (store s) (ident s) /\
  (o ← (p ≫= fun p => addrs st' !! p); Some (valueOf st' o)) =
    publicAddrValue (store s) (ident s).
Proof.
  intros (HA & HP & Hid). unfold GetPublicAddr.
  destruct (publicAddr (ident s)) as [q|] eqn:Hq; cbn [mbind option_bind].
  - destruct Hid as (Hqk & o & Ho & Hip). rewrite Ho.
    destruct (cloneAddr (store s) o) as [st2 p2] eqn:Hc. intros [= <- <-].
    apply cloneAddr_spec in Hc as (Hp & Hdom & Hread & o' & Hst & Hv & Hip').
    assert (addrs st2 !! p2 = Some o') as Hl by (rewrite Hst; apply lookup_insert_eq).
    assert (q <> p2) as Hne by (intros ->; apply Hp, elem_of_dom; eauto).
    assert (addrs st2 !! q = Some o) as Hlq by (by rewrite Hst, lookup_insert_ne).
    assert (valueOf st2 o = valueOf (store s) o) as Hvo
      by (unfold valueOf; f_equal; apply Hread; intros; by apply Hip).
    split_and!.
    + split_and!; cbn [store knownArrays knownAddrs ident publicAddr].
      * apply union_subseteq. split; [|set_solver]. unfold reachableArrays.
        cbn [mbind option_bind]. rewrite Hl. destruct (obj_IP o') as [a|] eqn:Ha; [|set_solver].
        destruct (Hip' a eq_refl). set_solver.
      * rewrite Hst. set_solver.
      * rewrite Hq. split; [set_solver|]. exists o. split; [done|]. intros a Ha.
        destruct (Hip a Ha) as [Ha1 Ha2]. split; [set_solver|].
        unfold reachableArrays. cbn [mbind option_bind]. rewrite Hl.
        destruct (obj_IP o') as [a'|] eqn:Ha'; [|set_solver]. destruct (Hip' a' eq_refl). set_solver.
    + rewrite !(publicAddrValue_some _ _ q o) by done. by rewrite Hvo.
    + cbn [mbind option_bind]. rewrite Hl. cbn [mbind option_bind]. rewrite (publicAddrValue_some _ _ q o) by done.
      by rewrite Hv.
  - intros [= <- <-]. unfold publicAddrValue. rewrite Hq. split_and!; try done.
    split_and!; cbn [store knownArrays knownAddrs ident]; [set_solver..|]. by rewrite Hq.
Qed.

(** A write to what clients hold does not reach the identity. *)
Lemma publicAddrValue_frame s arrs ads :
  isolated s ->
  (forall a, a ∈ dom (arrays (store s)) -> a ∉ knownArrays s -> arrs !! a = arrays (store s) !! a) ->
  (forall p, p ∈ dom (addrs (store s)) -> p ∉ knownAddrs s -> ads !! p = addrs (store s) !! p) ->
  publicAddrValue (mkStore arrs ads) (ident s) = publicAddrValue (store s) (ident s).
Proof.
  intros (_ & _ & Hid) Harr Hads.
  destruct (publicAddr (ident s)) as [q|] eqn:Hq; [|by unfold publicAddrValue; rewrite Hq].
  destruct Hid as (Hqk & o & Ho & Hip).
  rewrite !(publicAddrValue_some _ _ q o); try done.
  - unfold valueOf. do 2 f_equal. destruct (obj_IP o) as [a|] eqn:Ha; [|done]. simpl.
    destruct (Hip a eq_refl). by rewrite Harr.
  - cbn [addrs]. rewrite Hads; [done| |done]. apply elem_of_dom. by rewrite Ho.
Qed.

(** Growing the store and what clients hold, outside the identity. *)
Lemma isolated_frame s arrs ads ka kp :
  isolated s ->
  dom (arrays (store s)) ⊆ dom arrs -> ka ⊆ dom arrs -> kp ⊆ dom ads ->
  (forall p, p ∈ dom (addrs (store s)) -> p ∉ knownAddrs s -> p ∉ kp /\ ads !! p = addrs (store s) !! p) ->
  (forall a, a ∈ dom (arrays (store s)) -> a ∉ knownArrays s -> a ∉ ka) ->
  isolated (mkSys (mkStore arrs ads) (ident s) ka kp).
Proof.
  intros (_ & _ & Hid) Hd Hka Hkp Hp Ha. split_and!; [done..|]. cbn [ident store addrs arrays].
  destruct (publicAddr (ident s)) as [q|]; [|done]. destruct Hid as (Hqk & o & Ho & Hip).
  assert (q ∈ dom (addrs (store s))) as Hq by (apply elem_of_dom; eauto).
  destruct (Hp q Hq Hqk) as [Hq1 Hq2]. split; [done|]. exists o. split; [congruence|].
  intros a HaIP. destruct (Hip a HaIP). split; [set_solver|by apply Ha].
Qed.

Lemma step_refines s a s' r :
  isolated s -> step s a = Some (s', r) ->
  isolated s' /\
  spec_step (publicAddrValue (store s) (ident s)) s a =
    (publicAddrValue (store s') (ident s'), r).
Proof.
  intros Hi Hstep. pose proof Hi as (HA & HP & _).
  destruct a as [addr| |a bs|p o|bs|o]; cbn [step spec_step] in *.
  - destruct (match addr with Some p => _ | None => true end); [|done].
    destruct (SetPublicAddr _ _ _) as [st' id'] eqn:Hs. simplify_eq/=.
    destruct (SetPublicAddr_refines _ _ _ _ Hi Hs) as [? Hv]. by rewrite Hv.
  - destruct (GetPublicAddr _ _) as [st' p] eqn:Hs. simplify_eq/=.
    destruct (GetPublicAddr_refines _ _ _ Hi Hs) as (? & Hv & Hr). split; [done|].
    by rewrite Hv, <- Hr.
  - case_bool_decide as Hk; simplify_eq/=. split.
    + apply isolated_frame; try done; set_solver.
    + f_equal. symmetry. cbn [store ident]. apply publicAddrValue_frame; [done| |done].
      intros. apply lookup_insert_ne. set_solver.
  - destruct (bool_decide (p ∈ knownAddrs s)) eqn:Hk; simpl in Hstep; [|done].
    apply bool_decide_eq_true in Hk. destruct (slice_known s o); simplify_eq/=.
    assert (forall q, q ∉ knownAddrs s -> <[p := o]> (addrs (store s)) !! q = addrs (store s) !! q)
      by (intros q Hq; apply lookup_insert_ne; set_solver).
    split.
    + apply isolated_frame; try done; [set_solver|]. intros q Hq1 Hq2. split; [done|auto].
    + f_equal. symmetry. cbn [store ident]. apply publicAddrValue_frame; [done|done|auto].
  - injection Hstep as <- <-. pose proof (is_fresh (dom (arrays (store s)))) as Hf. split.
    + apply isolated_frame; try done; set_solver.
    + f_equal. symmetry. cbn [store ident]. apply publicAddrValue_frame; [done| |done].
      intros. apply lookup_insert_ne. set_solver.
  - destruct (slice_known s o); [|done]. injection Hstep as <- <-.
    pose proof (is_fresh (dom (addrs (store s)))) as Hf.
    assert (forall q, q ∈ dom (addrs (store s)) ->
      <[fresh (dom (addrs (store s))) := o]> (addrs (store s)) !! q = addrs (store s) !! q)
      by (intros q Hq; apply lookup_insert_ne; set_solver).
    split.
    + apply isolated_frame; try done; [set_solver|]. intros q Hq1 Hq2. split; [set_solver|auto].
    + f_equal. symmetry. cbn [store ident]. apply publicAddrValue_frame; [done|done|auto].
Qed.

(** ** Properties *)

(** C38. The identity's public address is a register, whatever its clients do:
    each [GetPublicAddr] returns the value that the argument of the last
    [SetPublicAddr] had at the time of that call. Writes through the address that
    was passed in, through its byte slice, or through any address that was
    returned earlier never change it. *)
Theorem public_address_register s acts s' results
    (Hi : isolated s) (Hrun : run s acts = Some (s', results)) :
  results = spec_run (publicAddrValue (store s) (ident s)) s acts /\ isolated s'.
Proof.
  revert s results Hi Hrun. induction acts as [|a acts IH]; intros s results Hi Hrun.
  - by simplify_eq/=.
  - cbn [run] in Hrun. destruct (step s a) as [[s1 r]|] eqn:Hs; [|done]. simpl in Hrun.
    destruct (run s1 acts) as [[s2 rs]|] eqn:Hr; [|done]. simplify_eq/=.
    destruct (step_refines _ _ _ _ Hi Hs) as [Hi1 Hspec].
    destruct (IH s1 rs Hi1 Hr) as [-> ?]. by rewrite Hspec, Hs.
Qed.

(** A new identity has no public address and the public keys of its private
    keys; a nil X25519 key or an empty Ed25519 key is refused. *)
Theorem NewIdentity_spec `{Ed25519Laws} st xpriv edpriv seed
    (Hpriv : readSlice st edpriv = seed ++ pubOfSeed seed) (Hseed : zlen seed = 32) :
  NewIdentity st None edpriv = Fail X25519Nil /\
  NewIdentity st (Some xpriv) None = Fail Ed25519Empty /\
  exists st' id, NewIdentity st (Some xpriv) edpriv = Ret (st', id) /\
    publicAddrValue st' id = None /\
    GetX25519Keys id = (xpriv, ecdhPublic xpriv) /\
    (GetEd25519Keys id).1 = edpriv /\
    readSlice st' (GetEd25519Keys id).2 = pubOfSeed seed.
Proof.
  pose proof (pubOfSeed_length seed) as Hpub. unfold PublicKeySize in Hpub.
  split_and!; [done|done|]. unfold NewIdentity. rewrite Hpriv.
  rewrite (proj2 (Z.eqb_neq _ 0)) by (zlen_norm; lia).
  unfold edPublic. rewrite go_slice_suffix by (zlen_norm; lia). go_bind.
  eexists _, _. split; [done|]. split_and!; try done.
  cbn [GetEd25519Keys snd ed25519Pub readSlice arrays newArray]. rewrite lookup_insert_eq.
  simpl. rewrite take_app_length'; [done|]. unfold zlen in Hpub. lia.
Qed.

(** The Ed25519 keys are shared, not copied: a client that writes the array it
    passed to [NewIdentity] changes the private key that the identity hands out,
    while the derived public key keeps its value. *)
Theorem ed25519_key_aliased st xpriv a st' id bs
    (Hnew : NewIdentity st (Some xpriv) (Some a) = Ret (st', id)) :
  let st'' := mkStore (<[a := bs]> (arrays st')) (addrs st') in
  readSlice st'' (GetEd25519Keys id).1 = bs /\
  readSlice st'' (GetEd25519Keys id).2 = readSlice st' (GetEd25519Keys id).2.
Proof.
  unfold NewIdentity in Hnew. go_inv Hnew. simplify_eq/=. rewrite lookup_insert_eq. split; [done|].
  rewrite (lookup_insert_ne _ a); [done|]. apply Z.eqb_neq in C.
  destruct (arrays st !! a) as [bs'|] eqn:Ha; [|done].
  intros ->. pose proof (is_fresh (dom (arrays st))) as Hf. apply Hf, elem_of_dom. by rewrite Ha.
Qed.

End identity.
End Identity.

Module IdentityWitness.
Import Identity ToyEd25519.

(** One client that owns a private key array (0) and an address (0) over the
    array 1. *)
Definition st0 : Store :=
  mkStore {[ 0%nat := toy_priv; 1%nat := [Byte.x0a; Byte.x00; Byte.x00; Byte.x01] ]}
          {[ 0%nat := mkAddrObj (Some 1%nat) 9000 [] ]}.

Definition ecdh0 (k : unit) : PublicKey := toy_identity.

Definition id0 : Store * Identity :=
  match NewIdentity ecdh0 st0 (Some tt) (Some 0%nat) with
  | Ret r => r
  | _ => (st0, mkIdentity None tt toy_identity None None)
  end.

Definition s0 : Sys := mkSys id0.1 id0.2 {[ 0; 1 ]}%nat {[ 0 ]}%nat.

(** Set, overwrite the caller's slice, get, overwrite the result, get again. *)
Definition acts0 : list action :=
  [ASet (Some 0%nat); AWriteArray 1 [Byte.xff]; AGet;
   AWriteAddr 2 (mkAddrObj None 1 []); AGet].

Lemma s0_isolated : isolated s0.
Proof.
  split_and!; [apply (bool_decide_unpack _); vm_compute; exact I..|exact I].
Qed.

Lemma public_address_register_witness :
  (snd <$> run s0 acts0) =
  Some [None; None; Some (mkUDPAddr [Byte.x0a; Byte.x00; Byte.x00; Byte.x01] 9000 []); None;
        Some (mkUDPAddr [Byte.x0a; Byte.x00; Byte.x00; Byte.x01] 9000 [])].
Proof.
  destruct (run s0 acts0) as [[s' rs]|] eqn:Hr; [|vm_compute in Hr; discriminate].
  destruct (public_address_register s0 acts0 s' rs s0_isolated Hr) as [-> _].
  vm_compute. reflexivity.
Defined.

Lemma NewIdentity_spec_witness :
  exists st' id, NewIdentity ecdh0 st0 (Some tt) (Some 0%nat) = Ret (st', id) /\
    publicAddrValue st' id = None /\ GetX25519Keys id = (tt, toy_identity) /\
    (GetEd25519Keys id).1 = Some 0%nat /\
    readSlice st' (GetEd25519Keys id).2 = pubOfSeed toy_seed.
Proof.
  apply (NewIdentity_spec ecdh0 st0 tt (Some 0%nat) toy_seed); reflexivity.
Defined.

Lemma ed25519_key_aliased_witness :
  readSlice (mkStore (<[0%nat := [Byte.x00]]> (arrays id0.1)) (addrs id0.1))
    (GetEd25519Keys id0.2).1 = [Byte.x00].
Proof.
  apply (ed25519_key_aliased ecdh0 st0 tt 0%nat id0.1 id0.2 [Byte.x00]). reflexivity.
Defined.

End IdentityWitness.
