(* ===== verification/StunParse.v ===== *)
(** * StunParse: reading STUN binding responses

    Models [parseSTUNResponse], [parseXORMappedAddress] and [parseMappedAddress]
    of [src/stun/stun_discoverer.go]. A transaction identifier, an array of
    twelve bytes in the code, is a byte list of that length. *)

From S2P Require Import Prelude Base64 InviteKey Identity.
From Stdlib Require Import Strings.Byte.

Module StunParse.

Definition magicCookie : Z := 0x2112A442.

Definition byte_xor (a b : byte) : byte := byte_of (Z.lxor (byte_val a) (byte_val b)).

Inductive StunError :=
| XorAddressTooShort
| XorAddressTooShortIPv6
| XorAddressFamily (family : Z)
| MappedAddressTooShort
| MappedAddressTooShortIPv6
| MappedAddressFamily (family : Z)
| ResponseTooShort
| UnexpectedMessageType (msgType : Z)
| InvalidMagicCookie (cookie : Z)
| TransactionMismatch
| PacketTruncated
| AttributeExceeds
| NoMappedAddress.

(** The loop [for i := range 16 { ipBytes[i] = val[4+i] ^ mask[i] }]. *)
Definition xorLoop (val mask : list byte) : outcome StunError (list byte) :=
  mapM (fun i => v ← go_index val (4 + i); m ← go_index mask i; Ret (byte_xor v m)) (seqZ 0 16).

Definition parseXORMappedAddress (val txID : list byte) : outcome StunError UDPAddr :=
  if zlen val <? 8 then Fail XorAddressTooShort else
  family ← go_index val 1;
  xPort ← u16_at val 2;
  let port := Z.lxor xPort 0x2112 in
  if byte_val family =? 0x01 then
    xAddr ← u32_at val 4;
    let ipVal := Z.lxor xAddr magicCookie in
    Ret (mkUDPAddr (putUint32 ipVal) port [])
  else if byte_val family =? 0x02 then
    if zlen val <? 20 then Fail XorAddressTooShortIPv6 else
    let mask := putUint32 magicCookie ++ txID in
    ipBytes ← xorLoop val mask;
    Ret (mkUDPAddr ipBytes port [])
  else Fail (XorAddressFamily (byte_val family)).

Definition parseMappedAddress (val : list byte) : outcome StunError UDPAddr :=
  if zlen val <? 8 then Fail MappedAddressTooShort else
  family ← go_index val 1;
  port ← u16_at val 2;
  if byte_val family =? 0x01 then
    ipBytes ← go_slice val 4 8;
    Ret (mkUDPAddr ipBytes port [])
  else if byte_val family =? 0x02 then
    if zlen val <? 20 then Fail MappedAddressTooShortIPv6 else
    ipBytes ← go_slice val 4 20;
    Ret (mkUDPAddr ipBytes port [])
  else Fail (MappedAddressFamily (byte_val family)).

(** The [switch] on the attribute type: an address, or why there is none. *)
Definition parseAttribute (attrType : Z) (val txID : list byte) : outcome StunError UDPAddr :=
  if attrType =? 0x0020 then parseXORMappedAddress val txID
  else if attrType =? 0x0001 then parseMappedAddress val
  else Fail NoMappedAddress.

(** [(int(attrLen) + 3) &^ 3]. *)
Definition paddedLen (attrLen : Z) : Z := Z.land (attrLen + 3) (Z.lnot 3).

(** The loop over the attributes, from offset [idx]. *)
Fixpoint attrLoop (fuel : nat) (attrs : list byte) (idx : Z) (txID : list byte)
    : outcome StunError UDPAddr :=
  match fuel with
  | O => Diverge
  | S fuel =>
      if idx + 4 <=? zlen attrs then
        attrType ← u16_at attrs idx;
        attrLen ← u16_at attrs (idx + 2);
        let valStart := idx + 4 in
        let valEnd := valStart + attrLen in
        if zlen attrs <? valEnd then Fail AttributeExceeds else
        val ← go_slice attrs valStart valEnd;
        match parseAttribute attrType val txID with
        | Fail _ => attrLoop fuel attrs (idx + (4 + paddedLen attrLen)) txID
        | found => found
        end
      else Fail NoMappedAddress
  end.

(** [20+msgLen] is computed in sixteen bits. *)
Definition parseSTUNResponse (data expectedTxID : list byte) : outcome StunError UDPAddr :=
  if zlen data <? 20 then Fail ResponseTooShort else
  msgType ← u16_at data 0;
  msgLen ← u16_at data 2;
  cookie ← u32_at data 4;
  if negb (msgType =? 0x0101) then Fail (UnexpectedMessageType msgType) else
  if negb (cookie =? magicCookie) then Fail (InvalidMagicCookie cookie) else
  txID ← go_slice data 8 20;
  if negb (bool_decide (txID = expectedTxID)) then Fail TransactionMismatch else
  if zlen data <? 20 + msgLen then Fail PacketTruncated else
  attrs ← go_slice data 20 (u16 (20 + msgLen));
  attrLoop (S (length attrs)) attrs 0 txID.

(** ** The format *)

(** An attribute: its type, its value and the bytes that pad it. *)
Record Attr := mkAttr { at_type : Z; at_val : list byte; at_pad : list byte }.

Definition attr_ok (a : Attr) : Prop :=
  is_u16 (at_type a) /\ zlen (at_val a) < 65536 /\
  zlen (at_pad a) = - zlen (at_val a) mod 4.

Definition encodeAttr (a : Attr) : list byte :=
  putUint16 (at_type a) ++ putUint16 (zlen (at_val a)) ++ at_val a ++ at_pad a.

Definition encodeHeader (msgType msgLen : Z) (txID : list byte) : list byte :=
  putUint16 msgType ++ putUint16 msgLen ++ putUint32 magicCookie ++ txID.

Definition encodeResponse (txID : list byte) (attrs : list Attr) : list byte :=
  let body := concat (encodeAttr <$> attrs) in
  encodeHeader 0x0101 (zlen body) txID ++ body.

(** The specification: the first attribute that decodes to an address decides. *)
Fixpoint firstMapped (attrs : list Attr) (txID : list byte) : outcome StunError UDPAddr :=
  match attrs with
  | [] => Fail NoMappedAddress
  | a :: attrs =>
      match parseAttribute (at_type a) (at_val a) txID with
      | Fail _ => firstMapped attrs txID
      | found => found
      end
  end.

(** What a server sends for an address. *)
Definition family_of (a : UDPAddr) : byte := if zlen (IP a) =? 4 then Byte.x01 else Byte.x02.

Definition encodeXORMapped (a : UDPAddr) (txID : list byte) : list byte :=
  [Byte.x00; family_of a] ++ putUint16 (Z.lxor (Port a) 0x2112) ++
  zip_with byte_xor (IP a) (putUint32 magicCookie ++ txID).

Definition encodeMapped (a : UDPAddr) : list byte :=
  [Byte.x00; family_of a] ++ putUint16 (Port a) ++ IP a.

Definition udp_addr_ok (a : UDPAddr) : Prop :=
  (zlen (IP a) = 4 \/ zlen (IP a) = 16) /\ is_u16 (Port a) /\ Zone a = [].

(** ** The attribute loop *)

Lemma paddedLen_spec n : paddedLen n = n + - n mod 4.
Proof.
  unfold paddedLen. rewrite <- Z.ldiff_land. change 3 with (Z.ones 2) at 2.
  rewrite Z.ldiff_ones_r, Z.shiftl_mul_pow2, Z.shiftr_div_pow2 by lia. change (2 ^ 2) with 4. zlia.
Qed.

Lemma zlen_encodeAttr a :
  attr_ok a -> zlen (encodeAttr a) = 4 + paddedLen (zlen (at_val a)).
Proof.
  intros (_ & _ & Hpad). unfold encodeAttr. zlen_norm. rewrite paddedLen_spec, Hpad. lia.
Qed.

(** Parsing an attribute comes back. *)
Lemma xorLoop_returns val mask :
  20 <= zlen val -> 16 <= zlen mask -> returns (xorLoop val mask).
Proof.
  intros Hv Hm. unfold xorLoop.
  assert (forall l, Forall (fun i => 0 <= i < 16) l -> returns
    (mapM (M:=outcome StunError) (fun i => v ← go_index val (4 + i); m ← go_index mask i;
       Ret (byte_xor v m)) l)) as Hl.
  { induction 1 as [|i l Hi _ IH]; [done|]. cbn [mapM].
    repeat (apply returns_bind; [|intros]); try done; apply go_index_returns; lia. }
  apply Hl, Forall_forall. intros i Hi%elem_of_seqZ. lia.
Qed.

Lemma parseXORMappedAddress_returns val txID :
  zlen txID = 12 -> returns (parseXORMappedAddress val txID).
Proof.
  intros Htx. unfold parseXORMappedAddress. apply returns_if_Fail. intros C%Z.ltb_ge.
  apply returns_bind; [apply go_index_returns; lia|intros family _].
  destruct (@u16_at_ok StunError val 2) as (xp & -> & _); [lia..|]. go_bind.
  destruct (_ =? 1).
  - by destruct (@u32_at_ok StunError val 4) as (xa & -> & _); [lia..|].
  - destruct (_ =? 2); [|done]. apply returns_if_Fail. intros C2%Z.ltb_ge.
    apply returns_bind; [|done]. apply xorLoop_returns; zlen_norm; lia.
Qed.

Lemma parseMappedAddress_returns val : returns (parseMappedAddress val).
Proof.
  unfold parseMappedAddress. apply returns_if_Fail. intros C%Z.ltb_ge.
  apply returns_bind; [apply go_index_returns; lia|intros family _].
  destruct (@u16_at_ok StunError val 2) as (xp & -> & _); [lia..|]. go_bind.
  destruct (_ =? 1).
  - apply returns_bind; [apply go_slice_returns; lia|done].
  - destruct (_ =? 2); [|done]. apply returns_if_Fail. intros C2%Z.ltb_ge.
    apply returns_bind; [apply go_slice_returns; lia|done].
Qed.

Lemma parseAttribute_returns t val txID :
  zlen txID = 12 -> returns (parseAttribute t val txID).
Proof.
  intros. unfold parseAttribute. destruct (t =? 0x0020); [by apply parseXORMappedAddress_returns|].
  destruct (t =? 0x0001); [apply parseMappedAddress_returns|done].
Qed.

(** Every turn advances by at least four bytes, so the fuel is enough. *)
Lemma attrLoop_returns fuel : forall attrs idx txID,
  zlen txID = 12 -> 0 <= idx -> (0 < fuel)%nat -> zlen attrs - idx < 4 * Z.of_nat fuel ->
  returns (attrLoop fuel attrs idx txID).
Proof.
  induction fuel as [|fuel IH]; intros attrs idx txID Htx Hidx Hpos Hfuel; [lia|].
  cbn [attrLoop]. destruct (Z.leb_spec (idx + 4) (zlen attrs)); [|done].
  destruct (@u16_at_ok StunError attrs idx) as (t & -> & Ht); [lia..|]. go_bind.
  destruct (@u16_at_ok StunError attrs (idx + 2)) as (n & -> & Hn); [lia..|]. go_bind.
  apply returns_if_Fail. intros C%Z.ltb_ge.
  rewrite go_slice_ok by lia. go_bind. set (val := take _ _).
  pose proof (parseAttribute_returns t val txID Htx) as Hp.
  destruct (parseAttribute t val txID); try done.
  apply IH; [done|rewrite paddedLen_spec; zlia|lia|rewrite paddedLen_spec; zlia].
Qed.

(** The loop on encoded attributes, from the start of one of them. *)
Lemma attrLoop_encoded attrs : forall fuel pre txID,
  zlen txID = 12 -> Forall attr_ok attrs -> (length attrs < fuel)%nat ->
  attrLoop fuel (pre ++ concat (encodeAttr <$> attrs)) (zlen pre) txID = firstMapped attrs txID.
Proof.
  induction attrs as [|a attrs IH]; intros fuel pre txID Htx Hok Hfuel;
    (destruct fuel as [|fuel]; [simpl in Hfuel; lia|]); cbn [attrLoop firstMapped].
  - simpl. rewrite app_nil_r. by rewrite (proj2 (Z.leb_gt _ _)) by lia.
  - inversion_clear Hok as [|? ? Ha Hattrs]. pose proof Ha as (Ht & Hl & Hpad).
    cbn [fmap list_fmap concat]. set (tl := concat (encodeAttr <$> attrs)).
    pose proof (zlen_nonneg (at_val a)). pose proof (zlen_nonneg tl).
    assert (pre ++ encodeAttr a ++ tl =
      pre ++ putUint16 (at_type a) ++ putUint16 (zlen (at_val a)) ++ at_val a ++ at_pad a ++ tl) as E
      by (unfold encodeAttr; by rewrite <- !app_assoc).
    assert (zlen (pre ++ encodeAttr a ++ tl) =
      zlen pre + 4 + zlen (at_val a) + - zlen (at_val a) mod 4 + zlen tl) as Hz
      by (rewrite E; zlen_norm; rewrite Hpad; lia).
    assert (@u16_at StunError (pre ++ encodeAttr a ++ tl) (zlen pre) = Ret (at_type a)) as U1
      by (rewrite E; by apply u16_at_mid).
    assert (@u16_at StunError (pre ++ encodeAttr a ++ tl) (zlen pre + 2) =
      Ret (zlen (at_val a))) as U2
      by (rewrite E, app_assoc; apply u16_at_mid; zlen_norm; lia).
    assert (@go_slice StunError _ (pre ++ encodeAttr a ++ tl) (zlen pre + 4)
      (zlen pre + 4 + zlen (at_val a)) = Ret (at_val a)) as U3
      by (rewrite E, (app_assoc pre), (app_assoc (pre ++ _)); apply go_slice_mid; zlen_norm; lia).
    rewrite (proj2 (Z.leb_le _ _)) by (rewrite Hz; zlia). rewrite U1. go_bind. rewrite U2. go_bind.
    rewrite (proj2 (Z.ltb_ge _ _)) by (rewrite Hz; zlia). rewrite U3. go_bind.
    destruct (parseAttribute (at_type a) (at_val a) txID) as [addr|e| |] eqn:Hp; try done.
    rewrite app_assoc. rewrite <- (IH fuel (pre ++ encodeAttr a) txID); [|done|done|simpl in Hfuel; lia].
    f_equal. rewrite zlen_app, zlen_encodeAttr by done. done.
Qed.

(** ** Headers *)

Lemma parse_header msgLen txID rest :
  zlen txID = 12 -> is_u16 msgLen ->
  parseSTUNResponse (encodeHeader 0x0101 msgLen txID ++ rest) txID =
  if zlen rest <? msgLen then Fail PacketTruncated else
  attrs ← go_slice (encodeHeader 0x0101 msgLen txID ++ rest) 20 (u16 (20 + msgLen));
  attrLoop (S (length attrs)) attrs 0 txID.
Proof.
  intros Htx Hn. pose proof (zlen_nonneg rest). unfold parseSTUNResponse.
  assert (zlen (encodeHeader 0x0101 msgLen txID ++ rest) = 20 + zlen rest) as Hz
    by (unfold encodeHeader; zlen_norm; lia).
  set (data := encodeHeader 0x0101 msgLen txID ++ rest) in *.
  assert (data = putUint16 0x0101 ++ putUint16 msgLen ++ putUint32 magicCookie ++ txID ++ rest) as E
    by (unfold data, encodeHeader; by rewrite <- !app_assoc).
  assert (@u16_at StunError data 0 = Ret 0x0101) as U1
    by (rewrite E; by apply (u16_at_mid [])).
  assert (@u16_at StunError data 2 = Ret msgLen) as U2
    by (rewrite E; by apply u16_at_mid).
  assert (@u32_at StunError data 4 = Ret magicCookie) as U3
    by (rewrite E, app_assoc; by apply u32_at_mid).
  assert (@go_slice StunError _ data 8 20 = Ret txID) as U4
    by (rewrite E, (app_assoc (putUint16 _)), (app_assoc (_ ++ _)); apply go_slice_mid; zlen_norm; lia).
  rewrite Hz, (proj2 (Z.ltb_ge _ 20)) by lia. rewrite U1, U2, U3, U4. go_bind.
  cbn [Z.eqb Pos.eqb negb magicCookie]. go_bind.
  rewrite bool_decide_eq_true_2 by done. cbn [negb].
  destruct (Z.ltb_spec (zlen rest) msgLen), (Z.ltb_spec (20 + zlen rest) (20 + msgLen)); lia || done.
Qed.

(** ** Exclusive or on bytes *)

Lemma byte_of_lxor a b : byte_of (Z.lxor a b) = byte_xor (byte_of a) (byte_of b).
Proof.
  apply (inj byte_val). unfold byte_xor. rewrite !byte_val_of. change 256 with (2 ^ 8).
  apply Z.bits_inj'. intros i Hi. destruct (Z.ltb_spec i 8).
  - rewrite !Z.mod_pow2_bits_low, !Z.lxor_spec, !Z.mod_pow2_bits_low by lia. done.
  - by rewrite !(Z.mod_pow2_bits_high _ 8 i) by lia.
Qed.

Lemma byte_xor_cancel a b : byte_xor (byte_xor a b) b = a.
Proof.
  unfold byte_xor at 1. rewrite byte_of_lxor, !byte_of_val. unfold byte_xor.
  rewrite byte_val_of, Z.mod_small.
  - by rewrite lxor_cancel, byte_of_val.
  - apply (lxor_range _ _ 8); [lia|apply byte_val_range..].
Qed.

Lemma zip_xor_cancel bs : forall mask,
  (length bs <= length mask)%nat ->
  zip_with byte_xor (zip_with byte_xor bs mask) mask = bs.
Proof.
  induction bs as [|b bs IH]; intros [|m mask] Hl; simpl in *; try done; [lia|].
  rewrite byte_xor_cancel, IH; [done|lia].
Qed.

Lemma putUint32_lxor x c :
  putUint32 (Z.lxor x c) = zip_with byte_xor (putUint32 x) (putUint32 c).
Proof. unfold putUint32. simpl. by rewrite !Z.shiftr_lxor, !byte_of_lxor. Qed.

Lemma xorLoop_mapM pre bs : forall dv dm mask,
  zlen pre = 4 -> zlen dv = zlen dm -> length bs = length mask ->
  mapM (M:=outcome StunError)
    (fun i => v ← go_index (pre ++ dv ++ bs) (4 + i); m ← go_index (dm ++ mask) i;
       Ret (byte_xor v m)) (seqZ (zlen dm) (zlen bs)) = Ret (zip_with byte_xor bs mask).
Proof.
  induction bs as [|b bs IH]; intros dv dm [|m mask] Hp Hd Hl; try done.
  rewrite zlen_cons, seqZ_cons by (pose proof (zlen_nonneg bs); lia).
  replace (Z.pred (1 + zlen bs)) with (zlen bs) by lia. cbn [mapM].
  assert (@go_index StunError _ (pre ++ dv ++ b :: bs) (4 + zlen dm) = Ret b) as ->
    by (rewrite app_assoc; apply go_index_mid; zlen_norm; lia).
  rewrite (go_index_mid dm m mask) by done. go_bind.
  replace (Z.succ (zlen dm)) with (zlen (dm ++ [m])) by (zlen_norm; lia).
  replace (dv ++ b :: bs) with ((dv ++ [b]) ++ bs) by (by rewrite <- app_assoc).
  replace (dm ++ m :: mask) with ((dm ++ [m]) ++ mask) by (by rewrite <- app_assoc).
  rewrite IH; [reflexivity|done|zlen_norm; lia|simpl in Hl; lia].
Qed.

Lemma xorLoop_spec pre bs mask :
  zlen pre = 4 -> zlen bs = 16 -> zlen mask = 16 ->
  xorLoop (pre ++ bs) mask = Ret (zip_with byte_xor bs mask).
Proof.
  intros Hp Hb Hm. unfold xorLoop. rewrite <- Hb.
  apply (xorLoop_mapM pre bs [] [] mask); [done|done|]. unfold zlen in *. lia.
Qed.

(** ** Addresses as servers send them *)

Lemma parse_encodeXORMapped a txID :
  udp_addr_ok a -> zlen txID = 12 ->
  parseXORMappedAddress (encodeXORMapped a txID) txID = Ret a.
Proof.
  intros (Hip & Hport & Hzone) Htx. destruct a as [ip port zone]. simpl in *. subst zone.
  set (mask := putUint32 magicCookie ++ txID). set (xip := zip_with byte_xor ip mask).
  assert (zlen xip = zlen ip) as Lx.
  { unfold xip, zlen in *. rewrite length_zip_with. unfold mask. rewrite length_app. simpl. lia. }
  set (xp := Z.lxor port 0x2112).
  assert (is_u16 xp) as Hxp by (apply (lxor_range _ _ 16); lia).
  set (fam := family_of (mkUDPAddr ip port [])).
  set (val := encodeXORMapped (mkUDPAddr ip port []) txID).
  assert (val = [Byte.x00; fam] ++ putUint16 xp ++ xip) as E by done.
  assert (zlen val = 4 + zlen ip) as Lv by (rewrite E; zlen_norm; lia).
  assert (@go_index StunError _ val 1 = Ret fam) as U1 by done.
  assert (@u16_at StunError val 2 = Ret xp) as U2 by (rewrite E; by apply u16_at_mid).
  unfold parseXORMappedAddress. rewrite Lv, (proj2 (Z.ltb_ge _ 8)) by lia.
  rewrite U1. go_bind. rewrite U2. go_bind. unfold xp at 1 2. rewrite lxor_cancel.
  unfold fam, family_of. cbn [IP]. destruct Hip as [L4|L16].
  - rewrite L4. cbn [Z.eqb Pos.eqb byte_val Byte.to_N Z.of_N].
    assert (xip = zip_with byte_xor ip (putUint32 magicCookie)) as Ex.
    { unfold xip, mask. destruct ip as [|i0 [|i1 [|i2 [|i3 [|i4 ip]]]]];
        zlen_norm; try (pose proof (zlen_nonneg ip)); try lia. done. }
    destruct xip as [|x0 [|x1 [|x2 [|x3 [|x4 xip']]]]] eqn:Exip;
      zlen_norm; try (pose proof (zlen_nonneg xip')); try lia.
    assert (@u32_at StunError val 4 =
      Ret (((byte_val x0 * 256 + byte_val x1) * 256 + byte_val x2) * 256 + byte_val x3)) as U3.
    { rewrite E. unfold u32_at. rewrite app_assoc, go_slice_suffix by (zlen_norm; lia).
      apply getUint32_val. }
    rewrite U3. go_bind. rewrite putUint32_lxor, putUint32_get, Ex, zip_xor_cancel; [done|].
    unfold zlen in L4. simpl. lia.
  - rewrite L16. cbn [Z.eqb Pos.eqb byte_val Byte.to_N Z.of_N].
    rewrite (proj2 (Z.ltb_ge _ 20)) by lia. fold mask. rewrite E, app_assoc.
    rewrite xorLoop_spec; [|by zlen_norm|lia|unfold mask; zlen_norm; lia]. go_bind.
    unfold xip. rewrite zip_xor_cancel; [done|]. unfold mask, zlen in *. rewrite length_app. simpl. lia.
Qed.

Lemma parse_encodeMapped a : udp_addr_ok a -> parseMappedAddress (encodeMapped a) = Ret a.
Proof.
  intros (Hip & Hport & Hzone). destruct a as [ip port zone]. simpl in *. subst zone.
  set (fam := family_of (mkUDPAddr ip port [])). set (val := encodeMapped (mkUDPAddr ip port [])).
  assert (val = [Byte.x00; fam] ++ putUint16 port ++ ip) as E by done.
  assert (zlen val = 4 + zlen ip) as Lv by (rewrite E; zlen_norm; lia).
  assert (@go_index StunError _ val 1 = Ret fam) as U1 by done.
  assert (@u16_at StunError val 2 = Ret port) as U2 by (rewrite E; by apply u16_at_mid).
  assert (forall hi, hi = 4 + zlen ip -> @go_slice StunError _ val 4 hi = Ret ip) as U3
    by (intros hi ->; rewrite E, app_assoc; apply go_slice_suffix; zlen_norm; lia).
  unfold parseMappedAddress. rewrite Lv, (proj2 (Z.ltb_ge _ 8)) by lia.
  rewrite U1. go_bind. rewrite U2. go_bind.
  unfold fam, family_of. cbn [IP]. destruct Hip as [L4|L16].
  - rewrite L4. cbn [Z.eqb Pos.eqb byte_val Byte.to_N Z.of_N]. by rewrite U3 by lia.
  - rewrite L16. cbn [Z.eqb Pos.eqb byte_val Byte.to_N Z.of_N].
    rewrite (proj2 (Z.ltb_ge _ 20)) by lia. by rewrite U3 by lia.
Qed.

(** ** What an accepted response says *)

Lemma mapM_length {A B} (f : A -> outcome StunError B) l : forall r,
  mapM f l = Ret r -> length r = length l.
Proof.
  induction l as [|a l IH]; intros r Hr; cbn [mapM] in Hr.
  - by injection Hr as <-.
  - go_inv Hr. injection Hr as <-. simpl. f_equal. by apply IH.
Qed.

Lemma u16_at_range (l : list byte) lo v : @u16_at StunError l lo = Ret v -> is_u16 v.
Proof. unfold u16_at. intros H. go_inv H. by eapply getUint16_range. Qed.

Lemma parseXORMappedAddress_ok val txID a : parseXORMappedAddress val txID = Ret a -> udp_addr_ok a.
Proof.
  intros Hp. unfold parseXORMappedAddress in Hp. go_inv Hp. apply u16_at_range in C1.
  assert (is_u16 (Z.lxor v0 0x2112)) by (apply (lxor_range _ _ 16); lia).
  destruct (_ =? 1); [|destruct (_ =? 2); [|done]]; go_inv Hp; injection Hp as <-;
    (refine (conj _ (conj _ _)); [|done|done]); [by left|]. right. unfold xorLoop in C3.
  apply mapM_length in C3. unfold zlen. simpl. by rewrite C3, length_seqZ.
Qed.

Lemma parseMappedAddress_ok val a : parseMappedAddress val = Ret a -> udp_addr_ok a.
Proof.
  intros Hp. unfold parseMappedAddress in Hp. go_inv Hp. apply u16_at_range in C1.
  destruct (_ =? 1); [|destruct (_ =? 2); [|done]]; go_inv Hp; injection Hp as <-;
    (refine (conj _ (conj _ _)); [|done|done]); cbn [IP];
    match goal with H : go_slice _ _ _ = Ret _ |- _ =>
      apply go_slice_Ret_inv in H as (_ & _ & _ & -> & _) end; lia.
Qed.

Lemma attrLoop_ok fuel : forall attrs idx txID a,
  attrLoop fuel attrs idx txID = Ret a -> udp_addr_ok a.
Proof.
  induction fuel as [|fuel IH]; intros attrs idx txID a Hp; [done|]. cbn [attrLoop] in Hp.
  destruct (_ <=? _); [|done]. go_inv Hp.
  destruct (parseAttribute v v1 txID) as [a'|e| |] eqn:Ha; try done; [|by apply IH in Hp].
  injection Hp as ->. unfold parseAttribute in Ha.
  destruct (_ =? _); [by eapply parseXORMappedAddress_ok|].
  destruct (_ =? _); [by eapply parseMappedAddress_ok|done].
Qed.

(** ** Whole responses *)

Lemma attrs_shorter attrs : (length attrs <= length (concat (encodeAttr <$> attrs)))%nat.
Proof.
  induction attrs as [|a attrs IH]; [done|]. cbn [fmap list_fmap concat length].
  rewrite length_app. unfold encodeAttr at 1. rewrite !length_app. simpl. lia.
Qed.

Lemma parse_encoded attrs txID trailing :
  zlen txID = 12 -> Forall attr_ok attrs ->
  zlen (concat (encodeAttr <$> attrs)) < 65516 ->
  parseSTUNResponse (encodeResponse txID attrs ++ trailing) txID = firstMapped attrs txID.
Proof.
  intros Htx Hok Hsize. unfold encodeResponse. set (body := concat (encodeAttr <$> attrs)) in *.
  pose proof (zlen_nonneg body). pose proof (zlen_nonneg trailing).
  rewrite <- app_assoc, parse_header by lia.
  rewrite (proj2 (Z.ltb_ge _ _)) by (zlen_norm; lia).
  unfold u16. rewrite Z.mod_small by lia.
  rewrite go_slice_mid by (unfold encodeHeader; zlen_norm; lia). go_bind.
  apply (attrLoop_encoded attrs (S (length body)) []); [done|done|].
  unfold body. pose proof (attrs_shorter attrs). lia.
Qed.

(** An attribute that carries no address. *)
Definition other_attr (a : Attr) : Prop :=
  attr_ok a /\ at_type a <> 0x0020 /\ at_type a <> 0x0001.

Lemma firstMapped_skip noise rest txID :
  Forall other_attr noise -> firstMapped (noise ++ rest) txID = firstMapped rest txID.
Proof.
  induction 1 as [|a noise (_ & H1 & H2) _ IH]; [done|]. cbn [app firstMapped].
  unfold parseAttribute. by rewrite (proj2 (Z.eqb_neq _ 0x0020)), (proj2 (Z.eqb_neq _ 0x0001)).
Qed.

Lemma zlen_encodeMapped a : zlen (encodeMapped a) = 4 + zlen (IP a).
Proof. unfold encodeMapped. zlen_norm. lia. Qed.

Lemma zlen_encodeXORMapped a txID :
  zlen (IP a) <= 16 -> zlen txID = 12 -> zlen (encodeXORMapped a txID) = 4 + zlen (IP a).
Proof.
  intros Hip Htx. unfold encodeXORMapped. zlen_norm. unfold zlen in *.
  rewrite length_zip_with, length_app. simpl. lia.
Qed.

(** A response whose first address attribute is [t] with value [val]. *)
Lemma parse_around t val noise more txID trailing a :
  zlen txID = 12 -> Forall other_attr noise -> Forall attr_ok more ->
  is_u16 t -> zlen val <= 20 -> zlen val mod 4 = 0 ->
  zlen (concat (encodeAttr <$> noise)) + zlen (concat (encodeAttr <$> more)) < 65000 ->
  parseAttribute t val txID = Ret a ->
  parseSTUNResponse (encodeResponse txID (noise ++ mkAttr t val [] :: more) ++ trailing) txID = Ret a.
Proof.
  intros Htx Hnoise Hmore Ht Hval Hmod Hsize Ha. pose proof (zlen_nonneg val).
  rewrite parse_encoded; [|done| |].
  - rewrite firstMapped_skip by done. cbn [firstMapped at_type at_val]. by rewrite Ha.
  - apply Forall_app_2; [by eapply Forall_impl; [done|intros ? [? _]]|].
    constructor; [|done]. split_and!; cbn [at_type at_val at_pad]; rewrite ?zlen_nil; zlia.
  - rewrite fmap_app, concat_app. cbn [fmap list_fmap concat]. zlen_norm.
    unfold encodeAttr at 2. cbn [at_type at_val at_pad]. zlen_norm. lia.
Qed.

(** ** Properties *)

(** C22. The parser implements the format: on a binding success response with the
    expected transaction identifier, whatever its attributes are and whatever
    follows the message, the result is that of the first attribute that decodes to
    an address, or the error that there is none. The bound keeps the sixteen-bit
    message end from overflowing. *)
Theorem parse_first_mapped attrs txID trailing
    (Htx : zlen txID = 12) (Hok : Forall attr_ok attrs)
    (Hsize : zlen (concat (encodeAttr <$> attrs)) < 65516) :
  parseSTUNResponse (encodeResponse txID attrs ++ trailing) txID = firstMapped attrs txID.
Proof. by apply parse_encoded. Qed.

(** C23. Discovery round trip: when the first address attribute of a response is the
    XOR-mapped (or plain mapped) encoding of an IPv4 or IPv6 address, the parser
    returns exactly that address, whatever other attributes surround it. *)
Theorem parse_server_response a txID noise more trailing
    (Htx : zlen txID = 12) (Ha : udp_addr_ok a)
    (Hnoise : Forall other_attr noise) (Hmore : Forall attr_ok more)
    (Hsize : zlen (concat (encodeAttr <$> noise)) + zlen (concat (encodeAttr <$> more)) < 65000) :
  parseSTUNResponse
    (encodeResponse txID (noise ++ mkAttr 0x0020 (encodeXORMapped a txID) [] :: more) ++ trailing)
    txID = Ret a /\
  parseSTUNResponse
    (encodeResponse txID (noise ++ mkAttr 0x0001 (encodeMapped a) [] :: more) ++ trailing)
    txID = Ret a.
Proof.
  pose proof Ha as (Hip & _ & _).
  split; apply parse_around; try done; try lia; rewrite ?zlen_encodeMapped;
    rewrite ?zlen_encodeXORMapped by lia; try (destruct Hip as [-> | ->]; done || lia).
  - by apply parse_encodeXORMapped.
  - by apply parse_encodeMapped.
Qed.

(** The parser returns. *)
Lemma parse_returns data expectedTxID :
  zlen data <= 65535 -> returns (parseSTUNResponse data expectedTxID).
Proof.
  intros Hsize. unfold parseSTUNResponse. apply returns_if_Fail. intros C%Z.ltb_ge.
  destruct (@u16_at_ok StunError data 0) as (t & -> & Ht); [lia..|]. go_bind.
  destruct (@u16_at_ok StunError data 2) as (n & -> & Hn); [lia..|]. go_bind.
  destruct (@u32_at_ok StunError data 4) as (c & -> & Hc); [lia..|]. go_bind.
  do 2 (apply returns_if_Fail; intros _).
  apply returns_bind; [auto with go|]. intros tx Htx.
  apply go_slice_Ret_inv in Htx as (_ & _ & _ & Ltx & _).
  do 2 (apply returns_if_Fail; intros ?C). apply Z.ltb_ge in C1.
  unfold u16. rewrite Z.mod_small by lia.
  apply returns_bind; [auto with go|]. intros attrs _.
  apply attrLoop_returns; unfold zlen in *; lia.
Qed.

(** C24. No datagram that the transport can deliver makes the parser panic or loop:
    on every input of at most 65535 bytes it comes back with an address or an
    error. *)
Theorem parse_no_panic data expectedTxID (Hsize : zlen data <= 65535) :
  returns (parseSTUNResponse data expectedTxID).
Proof. by apply parse_returns. Qed.

(** Beyond that size the end of the message is computed in sixteen bits and
    wraps: on every complete response whose length field is at least 65516 the
    slice bounds are inverted and the parser panics. *)
Theorem parse_length_overflow msgLen txID rest
    (Htx : zlen txID = 12) (Hlen : 65516 <= msgLen < 65536) (Hrest : msgLen <= zlen rest) :
  parseSTUNResponse (encodeHeader 0x0101 msgLen txID ++ rest) txID = Panic.
Proof.
  rewrite parse_header by lia. rewrite (proj2 (Z.ltb_ge _ _)) by lia.
  rewrite go_slice_panic; [done|]. unfold u16. change (2 ^ 16) with 65536. zlia.
Qed.

(** Only matching responses are accepted: a returned address means that the
    packet is a binding success response with the magic cookie and the expected
    transaction identifier; the address is an IPv4 or IPv6 one with a port in
    range. *)
Theorem parse_accepts_only_matching data expectedTxID a
    (Hp : parseSTUNResponse data expectedTxID = Ret a) :
  @u16_at StunError data 0 = Ret 0x0101 /\ @u32_at StunError data 4 = Ret magicCookie /\
  @go_slice StunError _ data 8 20 = Ret expectedTxID /\ udp_addr_ok a.
Proof.
  unfold parseSTUNResponse in Hp. go_inv Hp.
  apply negb_false_iff in C3, C4, C6. apply Z.eqb_eq in C3 as ->, C4 as ->.
  apply bool_decide_eq_true in C6 as ->. split_and!; try done. by eapply attrLoop_ok.
Qed.

End StunParse.

Module StunWitness.
Import StunParse.

Definition tx0 : list byte := bstr "123456789012".
Definition addr0 : UDPAddr := mkUDPAddr [Byte.xc6; Byte.x33; Byte.x64; Byte.x02] 12345 [].
Definition software : Attr := mkAttr 0x8022 (bstr "stund") [Byte.x20; Byte.x20; Byte.x20].

Lemma software_ok : other_attr software.
Proof. repeat split; vm_compute; congruence. Qed.

Lemma addr0_ok : udp_addr_ok addr0.
Proof. repeat split; [by left|vm_compute; congruence..]. Qed.

Lemma parse_first_mapped_witness :
  parseSTUNResponse (encodeResponse tx0 [software] ++ []) tx0 = Fail NoMappedAddress.
Proof.
  apply (parse_first_mapped [software] tx0 []);
    [reflexivity|constructor; [apply software_ok|constructor]|reflexivity].
Defined.

Lemma parse_server_response_witness :
  parseSTUNResponse
    (encodeResponse tx0 ([software] ++ mkAttr 0x0020 (encodeXORMapped addr0 tx0) [] :: []) ++ [])
    tx0 = Ret addr0.
Proof.
  apply (parse_server_response addr0 tx0 [software] [] []);
    [reflexivity|exact addr0_ok|constructor; [exact software_ok|constructor]|constructor|reflexivity].
Defined.

Lemma parse_no_panic_witness :
  returns (parseSTUNResponse (encodeHeader 0x0101 65535 tx0 ++ []) tx0).
Proof. apply (parse_no_panic (encodeHeader 0x0101 65535 tx0 ++ []) tx0). vm_compute. congruence. Defined.

Lemma parse_length_overflow_witness :
  parseSTUNResponse (encodeHeader 0x0101 65516 tx0 ++ replicate (Z.to_nat 65516) Byte.x00) tx0 = Panic.
Proof.
  apply (parse_length_overflow 65516 tx0 (replicate (Z.to_nat 65516) Byte.x00));
    [reflexivity|lia|]. unfold zlen. rewrite length_replicate. lia.
Defined.

Lemma parse_accepts_only_matching_witness : udp_addr_ok addr0.
Proof.
  apply (parse_accepts_only_matching
    (encodeResponse tx0 [mkAttr 0x0020 (encodeXORMapped addr0 tx0) []]) tx0 addr0).
  vm_compute. reflexivity.
Defined.

End StunWitness.
