(* ===== verification/UdpListener.v ===== *)
(** * UdpListener: the UDP port

    Models [src/network/udp_listener.go] as an interleaving of goroutines, in the way
    of [SessionManager]: a section under the lock is one step, and so is an operation
    on a socket, a callback, and a channel operation. Sockets, contexts and channels
    are shared objects, referred to by number. Callbacks are functions of the packet.

    [made] and [received] are ghost history: the subscriptions that were made, and
    the packets that a read loop has read. *)

From S2P Require Import Prelude Identity.

Module UdpListener.

Abbreviation ref := nat.

(** The size of the read buffer. *)
Definition bufSize : nat := Z.to_nat 65535.

Record subscription := mkSubscription {
  callback : UDPAddr -> list byte -> bool;
  ch : ref;
}.

(** A buffered channel of packets. *)
Record Chan := mkChan { cap : nat; buf : list (list byte) }.

Inductive UdpError :=
| ErrAlreadyRunning
| ErrResolve
| ErrListen
| ErrNotRunning
| ErrWrite
| ErrNilCallback
| ErrNilChannel
| ErrSubNotFound (id : Z).

Inductive pc :=
(* StartListener, after the section under the lock *)
| UStartSpawn (sock ctx : ref)
(* StopListener, at its wait *)
| UStopWait
(* SendPacketTo, before the write *)
| USendWrite (sock : ref) (target : UDPAddr) (data : list byte)
(* readLoop: the select; the read; after an error; after a packet *)
| ULoopTop (sock ctx : ref)
| ULoopRead (sock ctx : ref)
| ULoopError (sock ctx : ref)
| ULoopPacket (sock ctx : ref) (addr : UDPAddr) (data : list byte)
(* a goroutine per subscription and packet: before the callback; before the send *)
| UDeliver (sub : subscription) (addr : UDPAddr) (data : list byte)
| UPush (sub : subscription) (addr : UDPAddr) (data : list byte)
(* returned *)
| UReturned (err : option UdpError)
| USubscribed (id : Z).

Record UDPListener := mkUDPListener {
  conn : option ref;
  subscriptions : gmap Z subscription;
  nextSubID : Z;
  isListening : bool;
  cancel : option ref;
  wg : Z;
  sockets : gmap ref bool;             (* whether the socket is closed *)
  ctxs : gmap ref bool;                (* whether the context is done *)
  chans : gmap ref Chan;
  sent : list (UDPAddr * list byte);
  threads : gmap nat pc;
  made : list subscription;
  received : list (UDPAddr * list byte);
}.

Definition NewUDPListener : UDPListener :=
  mkUDPListener None ∅ 0 false None 0 ∅ ∅ ∅ [] ∅ [] [].

(** ** Updates *)

Definition set_thread (t : nat) (c : pc) (s : UDPListener) : UDPListener :=
  mkUDPListener (conn s) (subscriptions s) (nextSubID s) (isListening s) (cancel s) (wg s)
    (sockets s) (ctxs s) (chans s) (sent s) (<[t := c]> (threads s)) (made s) (received s).

Definition spawn (c : pc) (s : UDPListener) : UDPListener :=
  set_thread (fresh (dom (threads s))) c s.

Definition kill_thread (t : nat) (s : UDPListener) : UDPListener :=
  mkUDPListener (conn s) (subscriptions s) (nextSubID s) (isListening s) (cancel s) (wg s)
    (sockets s) (ctxs s) (chans s) (sent s) (delete t (threads s)) (made s) (received s).

Definition set_wg (n : Z) (s : UDPListener) : UDPListener :=
  mkUDPListener (conn s) (subscriptions s) (nextSubID s) (isListening s) (cancel s) n
    (sockets s) (ctxs s) (chans s) (sent s) (threads s) (made s) (received s).

Definition set_chan (c : ref) (k : Chan) (s : UDPListener) : UDPListener :=
  mkUDPListener (conn s) (subscriptions s) (nextSubID s) (isListening s) (cancel s) (wg s)
    (sockets s) (ctxs s) (<[c := k]> (chans s)) (sent s) (threads s) (made s) (received s).

Definition set_ctx (c : ref) (b : bool) (s : UDPListener) : UDPListener :=
  mkUDPListener (conn s) (subscriptions s) (nextSubID s) (isListening s) (cancel s) (wg s)
    (sockets s) (<[c := b]> (ctxs s)) (chans s) (sent s) (threads s) (made s) (received s).

Definition set_socket (c : ref) (b : bool) (s : UDPListener) : UDPListener :=
  mkUDPListener (conn s) (subscriptions s) (nextSubID s) (isListening s) (cancel s) (wg s)
    (<[c := b]> (sockets s)) (ctxs s) (chans s) (sent s) (threads s) (made s) (received s).

Definition set_listening (b : bool) (c cn : option ref) (s : UDPListener) : UDPListener :=
  mkUDPListener c (subscriptions s) (nextSubID s) b cn (wg s)
    (sockets s) (ctxs s) (chans s) (sent s) (threads s) (made s) (received s).

Definition set_subscriptions (m : gmap Z subscription) (next : Z) (l : list subscription)
    (s : UDPListener) : UDPListener :=
  mkUDPListener (conn s) m next (isListening s) (cancel s) (wg s)
    (sockets s) (ctxs s) (chans s) (sent s) (threads s) l (received s).

Definition log_sent (p : UDPAddr * list byte) (s : UDPListener) : UDPListener :=
  mkUDPListener (conn s) (subscriptions s) (nextSubID s) (isListening s) (cancel s) (wg s)
    (sockets s) (ctxs s) (chans s) (sent s ++ [p]) (threads s) (made s) (received s).

Definition log_received (p : UDPAddr * list byte) (s : UDPListener) : UDPListener :=
  mkUDPListener (conn s) (subscriptions s) (nextSubID s) (isListening s) (cancel s) (wg s)
    (sockets s) (ctxs s) (chans s) (sent s) (threads s) (made s) (received s ++ [p]).

(** ** StartListener and StopListener *)

(** The outcome of resolving and binding the port. *)
Inductive bind := BindOk | ResolveFails | ListenFails.

(** The section of [StartListener] under the lock. *)
Definition do_start (b : bind) (s : UDPListener) : UDPListener :=
  if isListening s then spawn (UReturned (Some ErrAlreadyRunning)) s else
  match b with
  | ResolveFails => spawn (UReturned (Some ErrResolve)) s
  | ListenFails => spawn (UReturned (Some ErrListen)) s
  | BindOk =>
      let sock := fresh (dom (sockets s)) in
      let ctx := fresh (dom (ctxs s)) in
      let s := set_ctx ctx false (set_socket sock false s) in
      let s := set_listening true (Some sock) (Some ctx) s in
      spawn (UStartSpawn sock ctx) s
  end.

(** [l.wg.Add(1)] and [go l.readLoop(childCtx, conn)]. *)
Definition do_start_spawn (t : nat) (sock ctx : ref) (s : UDPListener) : UDPListener :=
  set_thread t (UReturned None) (spawn (ULoopTop sock ctx) (set_wg (wg s + 1) s)).

(** The section of [StopListener] under the lock. *)
Definition do_stop (s : UDPListener) : UDPListener :=
  if negb (isListening s) then spawn (UReturned None) s else
  let s := set_listening false (conn s) (cancel s) s in
  let s := match conn s with Some sock => set_socket sock true s | None => s end in
  let s := match cancel s with Some ctx => set_ctx ctx true s | None => s end in
  spawn UStopWait s.

(** ** SendPacketTo *)

Definition do_send (target : UDPAddr) (data : list byte) (s : UDPListener) : UDPListener :=
  match isListening s, conn s with
  | true, Some sock => spawn (USendWrite sock target data) s
  | _, _ => spawn (UReturned (Some ErrNotRunning)) s
  end.

(** [WriteToUDP], which fails on a closed socket and may fail on an open one. *)
Definition do_send_write (t : nat) (sock : ref) (target : UDPAddr) (data : list byte) (ok : bool)
    (s : UDPListener) : UDPListener :=
  match sockets s !! sock with
  | Some false => if ok then set_thread t (UReturned None) (log_sent (target, data) s)
                  else set_thread t (UReturned (Some ErrWrite)) s
  | _ => set_thread t (UReturned (Some ErrWrite)) s
  end.

(** ** Subscriptions *)

Definition SubscribeToPacketReceived (cb : option (UDPAddr -> list byte -> bool))
    (packetChannel : option ref) (s : UDPListener) : UDPListener * (UdpError + Z) :=
  match cb, packetChannel with
  | None, _ => (s, inl ErrNilCallback)
  | _, None => (s, inl ErrNilChannel)
  | Some cb, Some c =>
      let id := u32 (nextSubID s + 1) in
      let sub := mkSubscription cb c in
      (set_subscriptions (<[id := sub]> (subscriptions s)) id (made s ++ [sub]) s, inr id)
  end.

Definition UnsubscribeFromPacketReceived (id : Z) (s : UDPListener)
    : UDPListener * option UdpError :=
  match subscriptions s !! id with
  | None => (s, Some (ErrSubNotFound id))
  | Some _ => (set_subscriptions (delete id (subscriptions s)) (nextSubID s) (made s) s, None)
  end.

(** ** readLoop *)

Definition do_loop_top (t : nat) (sock ctx : ref) (s : UDPListener) : UDPListener :=
  match ctxs s !! ctx with
  | Some true => kill_thread t (set_wg (wg s - 1) s)
  | _ => set_thread t (ULoopRead sock ctx) s
  end.

(** [ReadFromUDP]: a packet, cut to the buffer, or an error, which is what a closed
    socket gives. *)
Definition do_loop_read (t : nat) (sock ctx : ref) (input : option (UDPAddr * list byte))
    (s : UDPListener) : UDPListener :=
  match sockets s !! sock, input with
  | Some false, Some (addr, data) =>
      let data := take bufSize data in
      set_thread t (ULoopPacket sock ctx addr data) (log_received (addr, data) s)
  | _, _ => set_thread t (ULoopError sock ctx) s
  end.

Definition do_loop_error (t : nat) (sock ctx : ref) (s : UDPListener) : UDPListener :=
  if isListening s then set_thread t (ULoopTop sock ctx) s
  else kill_thread t (set_wg (wg s - 1) s).

(** One goroutine for each subscription. *)
Definition delivering (s : UDPListener) (subs : list subscription) (addr : UDPAddr)
    (data : list byte) : UDPListener :=
  foldr (fun sub => spawn (UDeliver sub addr data)) s subs.

(** The snapshot of the subscriptions, and their goroutines. *)
Definition do_loop_packet (t : nat) (sock ctx : ref) (addr : UDPAddr) (data : list byte)
    (s : UDPListener) : UDPListener :=
  let subs := (map_to_list (subscriptions s)).*2 in
  set_thread t (ULoopTop sock ctx) (delivering s subs addr data).

Definition do_deliver (t : nat) (sub : subscription) (addr : UDPAddr) (data : list byte)
    (s : UDPListener) : UDPListener :=
  if callback sub addr data then set_thread t (UPush sub addr data) s else kill_thread t s.

(** The send of the select: the packet is dropped when the channel is full. *)
Definition do_push (t : nat) (sub : subscription) (data : list byte) (s : UDPListener)
    : UDPListener :=
  match chans s !! ch sub with
  | Some k =>
      if (length (buf k) <? cap k)%nat
      then kill_thread t (set_chan (ch sub) (mkChan (cap k) (buf k ++ [data])) s)
      else kill_thread t s
  | None => kill_thread t s
  end.

(** ** Steps *)

Inductive event :=
| ERun (t : nat) (ok : bool) (input : option (UDPAddr * list byte))
| EStart (b : bind)
| EStop
| ESend (target : UDPAddr) (data : list byte)
| ESubscribe (cb : option (UDPAddr -> list byte -> bool)) (c : option ref)
| EUnsubscribe (id : Z)
| ECancelParent (ctx : ref)
| EMakeChan (n : nat)
| EReceive (c : ref).

Definition run_thread (t : nat) (ok : bool) (input : option (UDPAddr * list byte)) (c : pc)
    (s : UDPListener) : option UDPListener :=
  match c with
  | UStartSpawn sock ctx => Some (do_start_spawn t sock ctx s)
  | UStopWait => if wg s =? 0 then Some (set_thread t (UReturned None) s) else None
  | USendWrite sock target data => Some (do_send_write t sock target data ok s)
  | ULoopTop sock ctx => Some (do_loop_top t sock ctx s)
  | ULoopRead sock ctx => Some (do_loop_read t sock ctx input s)
  | ULoopError sock ctx => Some (do_loop_error t sock ctx s)
  | ULoopPacket sock ctx addr data => Some (do_loop_packet t sock ctx addr data s)
  | UDeliver sub addr data => Some (do_deliver t sub addr data s)
  | UPush sub _ data => Some (do_push t sub data s)
  | UReturned _ | USubscribed _ => None
  end.

(** A channel that exists, as every channel that a caller can pass does. *)
Definition chan_known (c : option ref) (s : UDPListener) : bool :=
  match c with Some c => bool_decide (is_Some (chans s !! c)) | None => true end.

Definition step (e : event) (s : UDPListener) : option UDPListener :=
  match e with
  | ERun t ok input => c ← threads s !! t; run_thread t ok input c s
  | EStart b => Some (do_start b s)
  | EStop => Some (do_stop s)
  | ESend target data => Some (do_send target data s)
  | ESubscribe cb c =>
      if chan_known c s then
        match SubscribeToPacketReceived cb c s with
        | (s, inl err) => Some (spawn (UReturned (Some err)) s)
        | (s, inr id) => Some (spawn (USubscribed id) s)
        end
      else None
  | EUnsubscribe id =>
      let '(s, err) := UnsubscribeFromPacketReceived id s in Some (spawn (UReturned err) s)
  | ECancelParent ctx =>
      match ctxs s !! ctx with Some _ => Some (set_ctx ctx true s) | None => None end
  | EMakeChan n => Some (set_chan (fresh (dom (chans s))) (mkChan n []) s)
  | EReceive c =>
      match chans s !! c with
      | Some k => match buf k with
                  | _ :: q => Some (set_chan c (mkChan (cap k) q) s)
                  | [] => None
                  end
      | None => None
      end
  end.

Inductive reachable : UDPListener -> Prop :=
| reachable_new : reachable NewUDPListener
| reachable_step s e s' : reachable s -> step e s = Some s' -> reachable s'.

Fixpoint run (es : list event) (s : UDPListener) : option UDPListener :=
  match es with
  | [] => Some s
  | e :: es => s' ← step e s; run es s'
  end.

Lemma udp_run_reachable es : forall s s', reachable s -> run es s = Some s' -> reachable s'.
Proof.
  induction es as [|e es IH]; intros s s' Hs Hr; simpl in Hr; [by simplify_eq|].
  destruct (step e s) as [s1|] eqn:He; [|done]. eapply IH; [|done]. by eapply reachable_step.
Qed.

End UdpListener.
