(* ===== verification/UdpInvariant.v ===== *)
(** * UdpInvariant: what the UDP listener guarantees

    Invariants of the interleaving model of [UdpListener] and the properties that
    follow: a subscriber's channel holds only packets that its callback accepted and
    is never overfull; at most one socket is open, the current one; a stopped listener
    has no read loop left; subscription identifiers are unique until the 32-bit counter
    wraps. *)

From S2P Require Import Prelude Threads Identity UdpListener.

Module UdpInvariant.
Import UdpListener.

(** ** Steps *)

(** The goroutines that the delivery of a packet starts are the only change. *)
Lemma delivering_same s subs addr data :
  delivering s subs addr data =
  mkUDPListener (conn s) (subscriptions s) (nextSubID s) (isListening s) (cancel s) (wg s)
    (sockets s) (ctxs s) (chans s) (sent s) (threads (delivering s subs addr data)) (made s)
    (received s).
Proof. induction subs as [|sub subs IH]; [by destruct s|]. simpl. by rewrite IH. Qed.

Lemma delivering_old s subs addr data t c :
  threads s !! t = Some c -> threads (delivering s subs addr data) !! t = Some c.
Proof. intros Ht. induction subs as [|sub subs IH]; [done|]. simpl. by apply lookup_spawn. Qed.

Lemma delivering_new s subs addr data t c :
  threads (delivering s subs addr data) !! t = Some c ->
  threads s !! t = Some c \/ exists sub, sub ∈ subs /\ c = UDeliver sub addr data.
Proof.
  induction subs as [|sub subs IH]; [by left|]. simpl. intros Ht. lookup_cases Ht.
  - right. exists sub. split; [by left|done].
  - destruct (IH Ht) as [?|(sub' & Hsub & ->)]; [by left|]. right. exists sub'. split; [by right|done].
Qed.

Lemma delivering_count f s subs addr data :
  (forall sub, f (UDeliver sub addr data) = false) ->
  count_threads f (threads (delivering s subs addr data)) = count_threads f (threads s).
Proof.
  intros Hf. induction subs as [|sub subs IH]; [done|]. simpl. rewrite count_spawn, Hf. lia.
Qed.

(** Case analysis on a step. *)
Ltac u_cases H :=
  unfold step in H;
  match type of H with match ?e with _ => _ end = _ =>
    destruct e as [?t ?ok ?input|?b| |?target ?data|?cb ?c|?id|?ctx|?n|?c] end;
  [ match type of H with (?m ≫= _) = _ =>
      let c := fresh "c" in destruct m as [c|] eqn:Ht; [|discriminate H];
      cbn [mbind option_bind] in H; destruct c; cbn [run_thread] in H
    end
  | .. ];
  unfold do_start, do_start_spawn, do_stop, do_send, do_send_write, do_loop_top, do_loop_read,
    do_loop_error, do_loop_packet, do_deliver, do_push, SubscribeToPacketReceived,
    UnsubscribeFromPacketReceived in H;
  repeat match type of H with
  | match (match ?x with _ => _ end) with _ => _ end = Some _ => destruct x eqn:?
  | match ?x with _ => _ end = Some _ => destruct x eqn:?
  | (let '(_, _) := ?x in _) = Some _ => destruct x eqn:?
  | context [match ?x with _ => _ end] => destruct x eqn:?
  end; simplify_eq/=.

(** Read a field of an updated listener. *)
Ltac u_simpl :=
  try rewrite delivering_same in *;
  cbn [conn subscriptions nextSubID isListening cancel wg sockets ctxs chans sent threads made
       received spawn set_thread kill_thread set_wg set_chan set_ctx set_socket set_listening
       set_subscriptions log_sent log_received callback ch cap buf fst snd] in *.

(** ** Deliveries *)

(** A packet was read, and the callback of a subscription to the channel takes it. *)
Definition passed (M : list subscription) (R : list (UDPAddr * list byte)) (c : ref)
    (data : list byte) : Prop :=
  exists sub addr, sub ∈ M /\ ch sub = c /\ (addr, data) ∈ R /\ callback sub addr data = true.

(** What the goroutines on the way from the socket to a channel hold. *)
Definition pc_ok (M : list subscription) (R : list (UDPAddr * list byte)) (c : pc) : Prop :=
  match c with
  | ULoopPacket _ _ addr data => (addr, data) ∈ R
  | UDeliver sub addr data => sub ∈ M /\ (addr, data) ∈ R
  | UPush sub addr data => sub ∈ M /\ (addr, data) ∈ R /\ callback sub addr data = true
  | _ => True
  end.

Definition chan_ok (M : list subscription) (R : list (UDPAddr * list byte)) (c : ref) (k : Chan)
    : Prop :=
  (length (buf k) <= cap k)%nat /\ forall data, data ∈ buf k -> passed M R c data.

Record delivery_ok s : Prop := {
  do_made : map_Forall (fun _ sub => sub ∈ made s) (subscriptions s);
  do_chan sub : sub ∈ made s -> is_Some (chans s !! ch sub);
  do_threads : map_Forall (fun _ c => pc_ok (made s) (received s) c) (threads s);
  do_chans : map_Forall (chan_ok (made s) (received s)) (chans s);
  do_size : Forall (fun p => zlen p.2 <= 65535) (received s);
}.

(** More history does not hurt. *)
Lemma udp_pc_ok_mono M M' R R' c : M ⊆ M' -> R ⊆ R' -> pc_ok M R c -> pc_ok M' R' c.
Proof. intros H1 H2. destruct c; simpl; set_solver. Qed.

Lemma chan_ok_mono M M' R R' c k : M ⊆ M' -> R ⊆ R' -> chan_ok M R c k -> chan_ok M' R' c k.
Proof.
  intros H1 H2 [Hl Hp]. split; [done|]. intros data Hd.
  destruct (Hp data Hd) as (sub & addr & ? & ? & ? & ?). exists sub, addr. set_solver.
Qed.

Lemma history_mono M M' R R' (m : gmap nat pc) (cs : gmap ref Chan) :
  M ⊆ M' -> R ⊆ R' -> map_Forall (fun (_ : nat) c => pc_ok M R c) m -> map_Forall (chan_ok M R) cs ->
  map_Forall (fun _ c => pc_ok M' R' c) m /\ map_Forall (chan_ok M' R') cs.
Proof.
  intros H1 H2 Hm Hc. split.
  - eapply map_Forall_impl; [done|]. intros ? ?. by apply udp_pc_ok_mono.
  - eapply map_Forall_impl; [done|]. intros ? ?. by apply chan_ok_mono.
Qed.

(** A channel that is replaced still exists. *)
Lemma chans_kept (cs : gmap ref Chan) c k c' : is_Some (cs !! c') -> is_Some (<[c := k]> cs !! c').
Proof. intros H. apply lookup_insert_is_Some'. by right. Qed.

Lemma delivery_ok_step s e s' : delivery_ok s -> step e s = Some s' -> delivery_ok s'.
Proof.
  intros [H1 H2 H3 H4 H5] Hs. u_cases Hs.
  all: constructor; u_simpl; try done; try (by auto using chans_kept).
  all: repeat first [apply map_Forall_insert_2 | apply map_Forall_delete]; try done.
  all: try (eapply history_mono; [..|exact H3|exact H4]; set_solver).
  - simpl. set_solver.
  - apply Forall_app. split; [done|]. repeat constructor. simpl. unfold zlen, bufSize.
    rewrite length_take. lia.
  - intros u c Hu. destruct (delivering_new _ _ _ _ _ _ Hu) as [Hu'|(sub & Hsub & ->)]; [by eapply H3|].
    apply list_elem_of_fmap in Hsub as ([id sub'] & -> & Hin). apply elem_of_map_to_list in Hin.
    split; [by eapply H1|]. by apply (H3 _ _ Ht).
  - destruct (H3 _ _ Ht). simpl. auto.
  - destruct (H3 _ _ Ht) as (Hm & Hr & Hc).
    match goal with Hk : chans s !! _ = Some _ |- _ => destruct (H4 _ _ Hk) as [Hl Hp] end.
    split; u_simpl; [rewrite length_app, Nat.ltb_lt in *; simpl; lia|].
    intros d [Hd|Hd%list_elem_of_singleton]%elem_of_app; [by auto|]. subst. by exists sub, addr.
  - set_solver.
  - eapply map_Forall_impl; [done|]. intros. set_solver.
  - intros sub [Hs|Hs%list_elem_of_singleton]%elem_of_app; [by auto|]. subst. u_simpl.
    by match goal with Hb : bool_decide _ = true |- _ => apply bool_decide_eq_true in Hb end.
  - split; simpl; [lia|]. intros d Hd. by apply elem_of_nil in Hd.
  - match goal with Hk : chans s !! _ = Some ?k, Hb : buf ?k = _ |- _ =>
      destruct (H4 _ _ Hk) as [Hl Hp]; rewrite Hb in Hl, Hp end.
    split; u_simpl; [simpl in Hl; lia|]. intros d Hd. apply Hp. by right.
Qed.

Lemma delivery_ok_reachable s : reachable s -> delivery_ok s.
Proof.
  induction 1; [|by eapply delivery_ok_step].
  constructor; simpl; try apply map_Forall_empty; [|constructor]. intros sub Hs. by apply elem_of_nil in Hs.
Qed.

(** ** Sockets and loops *)

(** The socket and the context of a read loop, also before it is started. *)
Definition loop_of (c : pc) : option (ref * ref) :=
  match c with
  | UStartSpawn sock ctx | ULoopTop sock ctx | ULoopRead sock ctx | ULoopError sock ctx
  | ULoopPacket sock ctx _ _ => Some (sock, ctx)
  | _ => None
  end.

(** At most one socket is open, the current one of a listener that listens. A loop has
    a socket and a context; its context is done when its socket is closed, and its
    context is the current one when its socket is. *)
Record sockets_ok s : Prop := {
  so_open c : sockets s !! c = Some false -> isListening s = true /\ conn s = Some c;
  so_current : isListening s = true -> exists sock ctx, conn s = Some sock /\ cancel s = Some ctx /\
    sockets s !! sock = Some false;
  so_conn c : conn s = Some c -> is_Some (sockets s !! c);
  so_cancel c : cancel s = Some c -> is_Some (ctxs s !! c);
  so_loop t c sock ctx : threads s !! t = Some c -> loop_of c = Some (sock, ctx) ->
    is_Some (sockets s !! sock) /\ is_Some (ctxs s !! ctx) /\
    (sockets s !! sock = Some true -> ctxs s !! ctx = Some true) /\
    (conn s = Some sock -> cancel s = Some ctx);
}.

(** The loops of a state, by socket and context. *)
Definition has_loop s (sock ctx : ref) : Prop :=
  exists t c, threads s !! t = Some c /\ loop_of c = Some (sock, ctx).

(** What a step does to the sockets: nothing, but perhaps a parent context is
    cancelled; a start; a stop. *)
Inductive socket_step s s' : Prop :=
| ss_same (Hc : conn s' = conn s) (Hn : cancel s' = cancel s) (Hi : isListening s' = isListening s)
    (Hk : sockets s' = sockets s)
    (Hx : forall c, is_Some (ctxs s !! c) -> ctxs s' !! c = ctxs s !! c \/ ctxs s' !! c = Some true)
    (Hl : forall sock ctx, has_loop s' sock ctx -> has_loop s sock ctx)
| ss_start sock ctx (Hoff : isListening s = false) (Hk0 : sockets s !! sock = None)
    (Hx0 : ctxs s !! ctx = None)
    (Hc : conn s' = Some sock) (Hn : cancel s' = Some ctx) (Hi : isListening s' = true)
    (Hk : sockets s' = <[sock := false]> (sockets s)) (Hx : ctxs s' = <[ctx := false]> (ctxs s))
    (Hl : forall sock' ctx', has_loop s' sock' ctx' ->
       has_loop s sock' ctx' \/ (sock' = sock /\ ctx' = ctx))
| ss_stop sock ctx (Hon : conn s = Some sock) (Hcn : cancel s = Some ctx)
    (Hc : conn s' = Some sock) (Hn : cancel s' = Some ctx) (Hi : isListening s' = false)
    (Hk : sockets s' = <[sock := true]> (sockets s)) (Hx : ctxs s' = <[ctx := true]> (ctxs s))
    (Hl : forall sock ctx, has_loop s' sock ctx -> has_loop s sock ctx).

Ltac loop_kept :=
  intros ? ? (u' & c' & Hu & Hloop);
  repeat lookup_cases Hu; first [ done | by (eexists _, _; eauto) ].

Lemma socket_step_cases s e s' : sockets_ok s -> step e s = Some s' -> socket_step s s'.
Proof.
  intros Hok Hs. u_cases Hs.
  all: try (apply ss_same; u_simpl; try done; [by left|unfold has_loop; u_simpl; loop_kept]).
  all: try (apply ss_same; u_simpl; try done; by left).
  - apply ss_same; u_simpl; try done; [by left|]. unfold has_loop; u_simpl.
    intros k x (u & c & Hu & Hloop). lookup_cases Hu; [by (eexists _, _; eauto)|].
    destruct (delivering_new _ _ _ _ _ _ Hu) as [Hu'|(sub & _ & ->)]; [by (eexists _, _; eauto)|done].
  - eapply ss_start; u_simpl; try done.
    1,2: apply not_elem_of_dom, is_fresh.
    unfold has_loop; u_simpl. intros k x (u & c & Hu & Hloop).
    lookup_cases Hu; [simplify_eq/=; by right|left; eexists _, _; eauto].
  - eapply ss_stop; u_simpl; try done. unfold has_loop; u_simpl; loop_kept.
  - exfalso. destruct (so_current s Hok) as (k & x & Hk & Hx & _); [by destruct (isListening s)|]. congruence.
  - exfalso. destruct (so_current s Hok) as (k & x & Hk & Hx & _); [by destruct (isListening s)|]. congruence.
  - exfalso. destruct (so_current s Hok) as (k & x & Hk & Hx & _); [by destruct (isListening s)|]. congruence.
  - apply ss_same; u_simpl; try done. intros c Hc. destruct (decide (ctx = c)) as [<-|].
    + right. apply lookup_insert_eq.
    + left. by rewrite lookup_insert_ne.
Qed.

Lemma loop_has s t c sock ctx :
  threads s !! t = Some c -> loop_of c = Some (sock, ctx) -> has_loop s sock ctx.
Proof. intros. by exists t, c. Qed.

Lemma sockets_ok_step s e s' : sockets_ok s -> step e s = Some s' -> sockets_ok s'.
Proof.
  intros Hok Hs. pose proof Hok as [H1 H2 H3 H4 H5].
  assert (forall sock ctx, has_loop s sock ctx -> is_Some (sockets s !! sock) /\
    is_Some (ctxs s !! ctx) /\ (sockets s !! sock = Some true -> ctxs s !! ctx = Some true) /\
    (conn s = Some sock -> cancel s = Some ctx)) as Hloops.
  { intros sock ctx (t & c & Ht & Hc). eauto. }
  destruct (socket_step_cases _ _ _ Hok Hs).
  - assert (forall c, is_Some (ctxs s !! c) -> is_Some (ctxs s' !! c)) as Hx'.
    { intros c Hc'. destruct (Hx c Hc') as [->| ->]; [done|eauto]. }
    constructor; rewrite ?Hc, ?Hn, ?Hi, ?Hk; eauto.
    intros t c sock ctx Ht Hlo. destruct (Hloops sock ctx) as (A1 & A2 & A3 & A4); [by eapply Hl, loop_has|].
    split_and!; auto. intros Hcl. destruct (Hx ctx A2) as [->|]; auto.
  - constructor; rewrite ?Hc, ?Hn, ?Hi, ?Hk, ?Hx.
    + intros c Hcc. lookup_cases Hcc; [done|]. destruct (H1 _ Hcc). congruence.
    + intros _. exists sock, ctx. by rewrite lookup_insert_eq.
    + intros c [= <-]. rewrite lookup_insert_eq. eauto.
    + intros c [= <-]. rewrite lookup_insert_eq. eauto.
    + intros t c sock' ctx' Ht Hlo. destruct (Hl sock' ctx' (loop_has _ _ _ _ _ Ht Hlo)) as [Hold|[-> ->]].
      * destruct (Hloops _ _ Hold) as ([b Hb] & [x Hb'] & A3 & A4).
        rewrite !lookup_insert_ne by congruence. split_and!; eauto. congruence.
      * rewrite !lookup_insert_eq. split_and!; eauto; congruence.
  - constructor; rewrite ?Hc, ?Hn, ?Hi, ?Hk, ?Hx; try done.
    + intros c Hcc. lookup_cases Hcc. destruct (H1 _ Hcc). congruence.
    + intros c [= <-]. rewrite lookup_insert_eq. eauto.
    + intros c [= <-]. rewrite lookup_insert_eq. eauto.
    + intros t c sock' ctx' Ht Hlo. destruct (Hloops sock' ctx') as (A1 & A2 & A3 & A4); [by eapply Hl, loop_has|].
      split_and!; [apply lookup_insert_is_Some'; by right|apply lookup_insert_is_Some'; by right| |].
      * destruct (decide (sock = sock')) as [<-|].
        { intros _. rewrite A4 in Hcn by done. simplify_eq. apply lookup_insert_eq. }
        rewrite lookup_insert_ne by done. intros Hcl. apply A3 in Hcl.
        destruct (decide (ctx = ctx')) as [<-|]; [apply lookup_insert_eq|by rewrite lookup_insert_ne].
      * intros [= <-]. by rewrite A4 in Hcn.
Qed.

Lemma sockets_ok_reachable s : reachable s -> sockets_ok s.
Proof.
  induction 1; [|by eapply sockets_ok_step]. constructor; simpl; try done.
Qed.

(** ** The wait group *)

Definition owes (c : pc) : bool :=
  match c with
  | ULoopTop _ _ | ULoopRead _ _ | ULoopError _ _ | ULoopPacket _ _ _ _ => true
  | _ => false
  end.

Definition wg_ok s : Prop := wg s = count_threads owes (threads s).

Lemma udp_wg_ok_step s e s' : wg_ok s -> step e s = Some s' -> wg_ok s'.
Proof.
  unfold wg_ok. intros Hwg Hs. u_cases Hs; u_simpl.
  all: repeat first
    [ rewrite count_spawn
    | erewrite count_delete by (by repeat apply lookup_spawn)
    | erewrite count_move by (first [by repeat apply lookup_spawn | by apply delivering_old]) ].
  all: rewrite ?delivering_count by done.
  all: cbn [owes]; try lia.
Qed.

Lemma udp_wg_ok_reachable s : reachable s -> wg_ok s.
Proof. induction 1; [done|]. by eapply udp_wg_ok_step. Qed.

(** ** Subscription identifiers *)

(** The subscriptions that were made, in order, have the identifiers 1, 2, ... while
    there are fewer than 2^32. *)
Definition ids_ok s : Prop :=
  0 <= zlen (made s) < 2 ^ 32 ->
  nextSubID s = zlen (made s) /\
  forall id sub, subscriptions s !! id = Some sub ->
    1 <= id /\ made s !! Z.to_nat (id - 1) = Some sub.

Lemma ids_ok_step s e s' : ids_ok s -> step e s = Some s' -> ids_ok s'.
Proof.
  unfold ids_ok. intros Hok Hs. u_cases Hs; u_simpl; try done.
  - intros Hn. rewrite zlen_app in *. zlen_norm. pose proof (zlen_nonneg (made s)).
    destruct Hok as [Hnext Hids]; [lia|]. unfold u32. rewrite Hnext, Z.mod_small by lia.
    split; [lia|]. intros id sub Hid. lookup_cases Hid.
    + split; [lia|]. rewrite Z.add_simpl_r. unfold zlen. rewrite Nat2Z.id. by apply list_lookup_middle.
    + destruct (Hids _ _ Hid) as [Hpos Hl]. split; [done|]. by apply lookup_app_l_Some.
  - intros Hn. destruct (Hok Hn) as [Hnext Hids]. split; [done|].
    intros id' sub Hid. lookup_cases Hid. auto.
Qed.

Lemma udp_ids_ok_reachable s : reachable s -> ids_ok s.
Proof.
  induction 1; [|by eapply ids_ok_step]. intros _. split; [done|]. simpl. intros id sub Hid.
  by rewrite lookup_empty in Hid.
Qed.

(** ** Properties *)

(** C27. A subscriber's channel holds only packets that a read loop has read and that
    the callback of a subscription to that channel accepted for their source address;
    they are no longer than the read buffer, and no more than the channel's capacity. *)
Theorem channel_packets_accepted s c k :
  reachable s -> chans s !! c = Some k ->
  (length (buf k) <= cap k)%nat /\
  forall data, data ∈ buf k -> zlen data <= 65535 /\
    exists sub addr, sub ∈ made s /\ ch sub = c /\ (addr, data) ∈ received s /\
      callback sub addr data = true.
Proof.
  intros Hr Hk. destruct (delivery_ok_reachable s Hr) as [_ _ _ Hch Hsz].
  destruct (Hch c k Hk) as [Hl Hp]. split; [done|]. intros data Hd.
  destruct (Hp data Hd) as (sub & addr & H1 & H2 & H3 & H4). split; [|by exists sub, addr].
  rewrite Forall_forall in Hsz. by apply (Hsz (addr, data)).
Qed.

(** C30. A socket is open exactly when it is the current socket of a listener that
    listens: [StartListener] never loses a socket and [StopListener] leaves none open. *)
Theorem open_socket_is_current s c :
  reachable s -> sockets s !! c = Some false <-> isListening s = true /\ conn s = Some c.
Proof.
  intros Hr. pose proof (sockets_ok_reachable s Hr) as Hok. split; [apply (so_open s Hok)|].
  intros [Hi Hc]. destruct (so_current s Hok Hi) as (sock & ctx & Hsock & _ & Hopen). congruence.
Qed.

Lemma udp_run_app es1 es2 : forall s, run (es1 ++ es2) s = run es1 s ≫= run es2.
Proof.
  induction es1 as [|e es1 IH]; intros s; [done|]. cbn [run app].
  destruct (step e s); [|done]. apply IH.
Qed.

Lemma step_loop s t c ok input :
  threads s !! t = Some c -> step (ERun t ok input) s = run_thread t ok input c s.
Proof. intros Ht. unfold step. by rewrite Ht. Qed.

(** A loop moves, and nothing changes that other goroutines see, except for deliveries
    that it starts. *)
Record loop_moves s s' (t : nat) : Prop := {
  lm_ctxs : ctxs s' = ctxs s;
  lm_sockets : sockets s' = sockets s;
  lm_listening : isListening s' = isListening s;
  lm_received : received s' = received s;
  lm_others u c : u <> t -> threads s !! u = Some c -> threads s' !! u = Some c;
}.

Lemma loop_moves_trans s1 s2 s3 t : loop_moves s1 s2 t -> loop_moves s2 s3 t -> loop_moves s1 s3 t.
Proof. intros [] []. constructor; eauto; congruence. Qed.

Lemma loop_moves_thread s t c : loop_moves s (set_thread t c s) t.
Proof. constructor; try done. intros u x Hu Hx. simpl. by rewrite lookup_insert_ne. Qed.

(** The loop has ended. *)
Definition loop_ended s s' (t : nat) : Prop :=
  loop_moves s s' t /\ threads s' !! t = None /\ wg s' = wg s - 1.

Lemma loop_killed s t : loop_ended s (kill_thread t (set_wg (wg s - 1) s)) t.
Proof.
  split_and!; [|apply lookup_delete_eq|done].
  constructor; try done. intros u x Hu Hx. simpl. by rewrite lookup_delete_ne.
Qed.

Lemma loop_ended_later s1 s2 s3 t :
  loop_moves s1 s2 t -> wg s2 = wg s1 -> loop_ended s2 s3 t -> loop_ended s1 s3 t.
Proof. intros Hm Hw (Hm' & Ht & Hw'). split_and!; [by eapply loop_moves_trans|done|lia]. Qed.

Section stopped_loop.
Context (t sock ctx : nat) (ok : bool) (input : option (UDPAddr * list byte)).

(** The select of a loop whose context is done ends it. *)
Lemma loop_top_ends s :
  threads s !! t = Some (ULoopTop sock ctx) -> ctxs s !! ctx = Some true ->
  exists s', run [ERun t ok input] s = Some s' /\ loop_ended s s' t.
Proof.
  intros Ht Hx. cbn [run]. rewrite (step_loop _ _ _ _ _ Ht). cbn [run_thread]. unfold do_loop_top.
  rewrite Hx. eexists. split; [done|apply loop_killed].
Qed.

(** So does an error, at once or at the select that follows. *)
Lemma loop_error_ends s :
  threads s !! t = Some (ULoopError sock ctx) -> ctxs s !! ctx = Some true ->
  exists n s', (n <= 2)%nat /\ run (replicate n (ERun t ok input)) s = Some s' /\ loop_ended s s' t.
Proof.
  intros Ht Hx. pose proof (step_loop s t _ ok input Ht) as Hs. cbn [run_thread] in Hs.
  unfold do_loop_error in Hs. destruct (isListening s).
  - destruct (loop_top_ends (set_thread t (ULoopTop sock ctx) s)) as (s' & Hs' & He);
      [apply lookup_insert_eq|done|].
    exists 2%nat, s'. split; [lia|]. cbn [replicate run]. rewrite Hs. split; [done|].
    by eapply loop_ended_later; [apply loop_moves_thread|..].
  - exists 1%nat. eexists. split; [lia|]. cbn [replicate run]. rewrite Hs. split; [done|apply loop_killed].
Qed.

Lemma read_loop_ends s c :
  threads s !! t = Some c -> loop_of c = Some (sock, ctx) -> owes c = true ->
  sockets s !! sock = Some true -> ctxs s !! ctx = Some true ->
  exists n s', (n <= 3)%nat /\ run (replicate n (ERun t ok input)) s = Some s' /\ loop_ended s s' t.
Proof.
  intros Ht Hl Ho Hk Hx. pose proof (step_loop s t c ok input Ht) as Hs.
  destruct c; try done; cbn [loop_of] in Hl; injection Hl as -> ->; cbn [run_thread] in Hs.
  - destruct (loop_top_ends s) as (s' & ?); try done. exists 1%nat, s'. split; [lia|done].
  - unfold do_loop_read in Hs. rewrite Hk in Hs.
    destruct (loop_error_ends (set_thread t (ULoopError sock ctx) s)) as (n & s' & Hn & Hs' & He);
      [apply lookup_insert_eq|done|].
    exists (S n), s'. split; [lia|]. cbn [replicate run]. rewrite Hs. split; [done|].
    by eapply loop_ended_later; [apply loop_moves_thread|..].
  - destruct (loop_error_ends s) as (n & s' & Hn & Hs'); try done. exists n, s'. split; [lia|done].
  - unfold do_loop_packet in Hs. set (s1 := delivering s _ addr data) in Hs.
    assert (loop_moves s s1 t /\ wg s1 = wg s) as [Hm Hw].
    { unfold s1. split; [|by rewrite delivering_same].
      constructor; try (by rewrite delivering_same). intros u x _ Hu. by apply delivering_old. }
    destruct (loop_top_ends (set_thread t (ULoopTop sock ctx) s1)) as (s' & Hs' & He);
      [apply lookup_insert_eq|simpl; by rewrite (lm_ctxs _ _ _ Hm)|].
    exists 2%nat, s'. split; [lia|]. cbn [replicate run]. rewrite Hs. split; [done|].
    by eapply loop_ended_later; [eapply loop_moves_trans; [done|apply loop_moves_thread]|..].
Qed.

End stopped_loop.

(** After [StopListener] has closed its socket a read loop ends within three of
    its own steps, whatever arrives and even if the listener was started again
    meanwhile; it reads no packet any more and gives back its count in the wait group. *)
Theorem stopped_loop_ends s t c sock ctx ok input :
  reachable s -> threads s !! t = Some c -> loop_of c = Some (sock, ctx) -> owes c = true ->
  sockets s !! sock = Some true ->
  exists n s', (n <= 3)%nat /\ run (replicate n (ERun t ok input)) s = Some s' /\
    threads s' !! t = None /\ wg s' = wg s - 1 /\ received s' = received s.
Proof.
  intros Hr Ht Hl Ho Hk.
  destruct (so_loop s (sockets_ok_reachable s Hr) t c sock ctx Ht Hl) as (_ & _ & Hx & _).
  destruct (read_loop_ends t sock ctx ok input s c) as (n & s' & Hn & Hrun & Hm & Hgone & Hw); auto.
  exists n, s'. split_and!; [done..|apply Hm].
Qed.

(** All the loops of a listener that does not listen end, one after the other. *)
Lemma read_loops_end n : forall s,
  reachable s -> isListening s = false -> count_threads owes (threads s) = Z.of_nat n ->
  exists es s', Forall (fun e => exists u, e = ERun u true None) es /\ run es s = Some s' /\
    wg s' = 0 /\ forall u, threads s !! u = Some UStopWait -> threads s' !! u = Some UStopWait.
Proof.
  induction n as [|n IH]; intros s Hr Hi Hn; pose proof (udp_wg_ok_reachable s Hr) as Hw.
  { exists [], s. split_and!; [constructor|done|by rewrite Hw|done]. }
  destruct (count_some owes (threads s)) as (u & c & Hu & Hc); [lia|].
  assert (exists sock ctx, loop_of c = Some (sock, ctx)) as (sock & ctx & Hl)
    by (destruct c; try done; by eexists _, _).
  pose proof (sockets_ok_reachable s Hr) as Hok.
  destruct (so_loop s Hok u c sock ctx Hu Hl) as ([b Hb] & _ & Hx & _).
  assert (b = true) as -> by (destruct b; [done|]; by destruct (so_open s Hok sock Hb); congruence).
  destruct (read_loop_ends u sock ctx true None s c Hu Hl Hc Hb (Hx Hb)) as (k & s1 & _ & Hrun & Hm & _ & Hw1).
  assert (reachable s1) as Hr1 by (by eapply udp_run_reachable).
  destruct (IH s1) as (es & s' & Hes & Hrun' & Hw' & Hkeep); [done|by rewrite (lm_listening _ _ _ Hm)| |].
  { rewrite <- (udp_wg_ok_reachable s1 Hr1), Hw1. rewrite Hw. lia. }
  exists (replicate k (ERun u true None) ++ es), s'. split_and!; [|by rewrite udp_run_app, Hrun|done|].
  - apply Forall_app. split; [|done]. apply Forall_replicate. eauto.
  - intros v Hv. apply Hkeep, (lm_others _ _ _ Hm); [|done]. intros ->. simplify_eq.
Qed.

(** [StopListener] returns: from every reachable state in which the listener was
    not started again, a call of [StopListener] that waits for the loops can return, by
    steps of the loops alone and without any packet from the network. *)
Theorem StopListener_can_return s t :
  reachable s -> isListening s = false -> threads s !! t = Some UStopWait ->
  exists es s', Forall (fun e => exists u, e = ERun u true None) es /\ run es s = Some s' /\
    threads s' !! t = Some (UReturned None).
Proof.
  intros Hr Hi Ht. pose proof (count_nonneg owes (threads s)).
  destruct (read_loops_end (Z.to_nat (count_threads owes (threads s))) s Hr Hi) as (es & s1 & Hes & Hrun & Hw & Hkeep);
    [lia|].
  exists (es ++ [ERun t true None]), (set_thread t (UReturned None) s1). split_and!.
  - apply Forall_app. split; [done|]. apply Forall_singleton. eauto.
  - rewrite udp_run_app, Hrun. cbn [mbind option_bind run].
    rewrite (step_loop s1 t UStopWait) by auto. cbn [run_thread]. by rewrite Hw.
  - apply lookup_insert_eq.
Qed.

Lemma listening_step s e s' c :
  isListening s = true -> conn s = Some c -> sockets s !! c = Some false -> e <> EStop ->
  step e s = Some s' -> isListening s' = true /\ conn s' = Some c /\ sockets s' !! c = Some false.
Proof.
  intros Hi Hc Hk He Hs. u_cases Hs; u_simpl; try done; try congruence.
Qed.

(** Only [StopListener] releases the port: as long as it is not called, the
    listener keeps listening and its socket stays open, whatever else happens. In
    particular cancelling the context that [StartListener] was given ends the read loop
    and leaves the port bound, and a new [StartListener] is refused. *)
Theorem only_stop_releases es : forall s s' c,
  reachable s -> isListening s = true -> conn s = Some c -> EStop ∉ es -> run es s = Some s' ->
  sockets s' !! c = Some false /\
  forall b, exists s'' t, step (EStart b) s' = Some s'' /\
    threads s'' !! t = Some (UReturned (Some ErrAlreadyRunning)) /\ sockets s'' = sockets s'.
Proof.
  intros s s' c Hr Hi Hc Hes Hrun.
  assert (sockets s !! c = Some false) as Hk.
  { destruct (so_current s (sockets_ok_reachable s Hr) Hi) as (sock & ctx & Hsock & _ & ?). congruence. }
  assert (isListening s' = true /\ sockets s' !! c = Some false) as [Hi' Hk'].
  { clear Hr. revert s Hi Hc Hk Hrun. induction es as [|e es IH]; intros s Hi Hc Hk Hrun; simpl in Hrun;
      [by simplify_eq|].
    destruct (step e s) as [s1|] eqn:Hs; [|done]. apply not_elem_of_cons in Hes as [He Hes].
    destruct (listening_step s e s1 c) as (? & ? & ?); [done..|congruence|done|]. by eapply IH. }
  split; [done|]. intros b. eexists _, _. split; [done|]. unfold do_start. rewrite Hi'.
  split; [apply lookup_insert_eq|done].
Qed.

(** [StopListener] returns only when no read loop is running. *)
Theorem StopListener_waits s t ok input s' :
  reachable s -> threads s !! t = Some UStopWait -> step (ERun t ok input) s = Some s' ->
  threads s' !! t = Some (UReturned None) /\
  forall u c, threads s' !! u = Some c -> owes c = false.
Proof.
  intros Hr Ht Hs. assert (reachable s') as Hr' by (by eapply reachable_step).
  rewrite (step_loop s t UStopWait ok input Ht) in Hs. cbn [run_thread] in Hs.
  destruct (Z.eqb_spec (wg s) 0) as [Hwg|]; [|done]. simplify_eq.
  split; [apply lookup_insert_eq|]. intros u c Hu.
  pose proof (udp_wg_ok_reachable _ Hr') as Hw. unfold wg_ok in Hw. u_simpl.
  eapply count_zero; [|done]. congruence.
Qed.

(** Starting again while [StopListener] waits makes it wait for the new loop too: its own
    loop has ended, and it cannot return as long as the new one runs. *)
Theorem StopListener_waits_for_restart :
  exists s, reachable s /\ threads s !! 2%nat = Some UStopWait /\ threads s !! 1%nat = None /\
    isListening s = true /\ forall ok input, step (ERun 2 ok input) s = None.
Proof.
  destruct (run [EStart BindOk; ERun 0 true None; EStop; EStart BindOk; ERun 3 true None; ERun 1 true None]
    NewUDPListener) as [s|] eqn:Hs; [|vm_compute in Hs; discriminate Hs].
  exists s. split; [eapply udp_run_reachable; [constructor|exact Hs]|].
  vm_compute in Hs. injection Hs as <-. split_and!; [reflexivity..|]. intros ok input. reflexivity.
Qed.

(** [StartListener] starts its loop after it has released the lock, so that
    [StopListener] can return before the loop that it stops has begun. *)
Theorem StopListener_misses_loop :
  exists s, reachable s /\ threads s !! 1%nat = Some (UReturned None) /\ isListening s = false /\
    threads s !! 2%nat = Some (ULoopTop 0 0) /\ wg s = 1.
Proof.
  destruct (run [EStart BindOk; EStop; ERun 1 true None; ERun 0 true None] NewUDPListener) as [s|] eqn:Hs;
    [|vm_compute in Hs; discriminate Hs].
  exists s. split; [eapply udp_run_reachable; [constructor|exact Hs]|].
  vm_compute in Hs. injection Hs as <-. split_and!; reflexivity.
Qed.

(** While fewer than 2^32 subscriptions have been made, a new subscription gets an
    identifier that no other subscription has, and the others stay. *)
Theorem subscribe_keeps_others s cb c :
  reachable s -> zlen (made s) + 1 < 2 ^ 32 ->
  exists s' id, SubscribeToPacketReceived (Some cb) (Some c) s = (s', inr id) /\
    1 <= id /\ subscriptions s !! id = None /\
    subscriptions s' !! id = Some (mkSubscription cb c) /\ subscriptions s ⊆ subscriptions s'.
Proof.
  intros Hr Hn. pose proof (zlen_nonneg (made s)).
  destruct (udp_ids_ok_reachable s Hr) as [Hnext Hids]; [lia|].
  assert (u32 (nextSubID s + 1) = zlen (made s) + 1) as Hid
    by (unfold u32; rewrite Hnext; apply Z.mod_small; lia).
  assert (subscriptions s !! (zlen (made s) + 1) = None) as Hnew.
  { destruct (subscriptions s !! (zlen (made s) + 1)) as [sub|] eqn:E; [|done].
    destruct (Hids _ _ E) as [_ Hl]. rewrite Z.add_simpl_r in Hl. unfold zlen in Hl.
    rewrite Nat2Z.id in Hl. apply lookup_lt_Some in Hl. lia. }
  unfold SubscribeToPacketReceived. rewrite Hid. eexists _, _. split; [done|]. simpl.
  split_and!; [lia|done|apply lookup_insert_eq|by apply insert_subseteq].
Qed.

(** ** After unsubscribing *)

(** A goroutine that is about to deliver to the channel. *)
Definition delivers (c : ref) (p : pc) : Prop :=
  match p with UDeliver sub _ _ | UPush sub _ _ => ch sub = c | _ => False end.

(** Nothing is on its way to the channel, and no subscription is to it. *)
Definition quiet (c : ref) s : Prop :=
  (forall id sub, subscriptions s !! id = Some sub -> ch sub <> c) /\
  (forall t p, threads s !! t = Some p -> delivers c p -> False) /\
  is_Some (chans s !! c).

Definition subscribes_to (c : ref) (e : event) : Prop :=
  match e with ESubscribe _ (Some c') => c' = c | _ => False end.

(** What is in the channel is a tail of what was there. *)
Definition drained (c : ref) s s' : Prop :=
  forall k', chans s' !! c = Some k' ->
    exists k, chans s !! c = Some k /\ buf k' `suffix_of` buf k.

Lemma quiet_step c s e s' :
  quiet c s -> step e s = Some s' -> (subscribes_to c e -> False) -> quiet c s' /\ drained c s s'.
Proof.
  intros (H1 & H2 & H3) Hs He. unfold quiet, drained. u_cases Hs; u_simpl.
  all: try (split; [split_and!; [done| |done]; intros ? ? Hu Hp; repeat lookup_cases Hu;
    simpl in Hp; by eauto|by eauto]).
  - split; [|by eauto]. split_and!; [done| |done]. intros u p Hu Hp. lookup_cases Hu; [done|].
    destruct (delivering_new _ _ _ _ _ _ Hu) as [Hu'|(sub & Hsub & ->)]; [by eauto|].
    apply list_elem_of_fmap in Hsub as ([id sub'] & -> & Hin). apply elem_of_map_to_list in Hin.
    by eapply H1.
  - assert (ch sub <> c) as Hne by (intros <-; by eapply H2).
    rewrite lookup_insert_ne by done. split; [|by eauto]. split_and!; [done| |done].
    intros u p Hu Hp. lookup_cases Hu. by eauto.
  - split; [|by eauto]. split_and!; [| |done].
    + intros id sub Hid. lookup_cases Hid; [|by eauto]. simpl. intros ->. by apply He.
    + intros u p Hu Hp. lookup_cases Hu; first [done|by eauto].
  - split; [|by eauto]. split_and!; [| |done].
    + intros id' sub Hid. lookup_cases Hid. by eauto.
    + intros u p Hu Hp. lookup_cases Hu; first [done|by eauto].
  - destruct H3 as [k Hk]. rewrite lookup_insert_ne by (by eapply fresh_ne). split; [split_and!; by eauto|by eauto].
  - destruct (decide (c0 = c)) as [->|Hne]; [|rewrite lookup_insert_ne by done; split; [split_and!|]; by eauto].
    rewrite lookup_insert_eq. split; [split_and!; by eauto|]. intros k' [= <-]. eexists. split; [done|].
    match goal with Hb : buf _ = _ |- _ => rewrite Hb end. by eexists [_].
Qed.

Lemma quiet_run c es : forall s s',
  quiet c s -> run es s = Some s' -> Forall (fun e => subscribes_to c e -> False) es -> drained c s s'.
Proof.
  induction es as [|e es IH]; intros s s' Hq Hr He.
  { simplify_eq/=. intros k Hk. by eauto. }
  apply Forall_cons in He as [He Hes]. cbn [run] in Hr.
  destruct (step e s) as [s1|] eqn:Hs; [|done]. destruct (quiet_step _ _ _ _ Hq Hs He) as [Hq1 Hd1].
  intros k' Hk'. destruct (IH s1 s' Hq1 Hr Hes k' Hk') as (k1 & Hk1 & Hsuf).
  destruct (Hd1 k1 Hk1) as (k & Hk & Hsuf'). exists k. split; [done|]. by etrans.
Qed.

(** After a subscriber has unsubscribed, when no delivery to its channel was under
    way, nothing more ever gets into the channel: whatever happens later, it holds only
    what it held and what has not been taken out. (The subscription must be the only
    one to the channel, and nobody subscribes to that channel again.) *)
Theorem unsubscribed_channel_drains s id sub es s' :
  reachable s -> subscriptions s !! id = Some sub ->
  (forall id' sub', subscriptions s !! id' = Some sub' -> ch sub' = ch sub -> id' = id) ->
  (forall t p, threads s !! t = Some p -> delivers (ch sub) p -> False) ->
  Forall (fun e => subscribes_to (ch sub) e -> False) es ->
  run (EUnsubscribe id :: es) s = Some s' ->
  drained (ch sub) s s'.
Proof.
  intros Hr Hid Hone Hno Hes Hrun. cbn [run] in Hrun. unfold step in Hrun.
  unfold UnsubscribeFromPacketReceived in Hrun. rewrite Hid in Hrun. cbn [mbind option_bind] in Hrun.
  eapply quiet_run in Hrun; [|clear Hrun|done].
  - intros k' Hk'. by destruct (Hrun k' Hk') as (k & Hk & Hsuf); eauto.
  - destruct (delivery_ok_reachable s Hr) as [Hm Hc _ _ _]. split_and!; u_simpl.
    + intros id' sub' Hid' Hch. lookup_cases Hid'. by eapply Hone in Hid'; [congruence|].
    + intros t p Ht Hp. lookup_cases Ht; [done|by eauto].
    + apply Hc. by eapply Hm.
Qed.

(** ** A concrete run *)

Definition peer : UDPAddr := mkUDPAddr [Byte.x0a; Byte.x00; Byte.x00; Byte.x01] 9000 [].

(** A subscriber of packets from [peer]: the listener is started, a packet is read and
    delivered. *)
Definition delivered : list event :=
  [EMakeChan 1; ESubscribe (Some (fun a _ => Port a =? 9000)) (Some 0%nat); EStart BindOk;
   ERun 1 true None; ERun 2 true None; ERun 2 true (Some (peer, [Byte.x61])); ERun 2 true None;
   ERun 3 true None; ERun 3 true None].

Definition state_after (es : list event) : UDPListener := default NewUDPListener (run es NewUDPListener).

Lemma udp_state_after_reachable es : reachable (state_after es).
Proof.
  unfold state_after. destruct (run es NewUDPListener) as [s|] eqn:Hs; [|constructor].
  eapply udp_run_reachable; [constructor|done].
Qed.

Lemma channel_packets_accepted_witness :
  chans (state_after delivered) !! 0%nat = Some (mkChan 1 [[Byte.x61]]) /\
  zlen [Byte.x61] <= 65535.
Proof.
  split; [vm_compute; reflexivity|].
  apply (channel_packets_accepted (state_after delivered) 0 (mkChan 1 [[Byte.x61]])).
  - apply udp_state_after_reachable.
  - vm_compute. reflexivity.
  - by left.
Defined.

Lemma open_socket_is_current_witness :
  isListening (state_after delivered) = true /\ conn (state_after delivered) = Some 0%nat.
Proof.
  apply (open_socket_is_current (state_after delivered) 0); [apply udp_state_after_reachable|].
  vm_compute. reflexivity.
Defined.

Lemma stopped_loop_ends_witness :
  exists n s', (n <= 3)%nat /\
    run (replicate n (ERun 2 true None)) (state_after (delivered ++ [EStop])) = Some s' /\
    threads s' !! 2%nat = None.
Proof.
  destruct (stopped_loop_ends (state_after (delivered ++ [EStop])) 2 (ULoopTop 0 0) 0 0 true None)
    as (n & s' & Hn & Hr & Ht & _).
  - apply udp_state_after_reachable.
  - vm_compute. reflexivity.
  - reflexivity.
  - reflexivity.
  - vm_compute. reflexivity.
  - exists n, s'. split; [exact Hn|]. split; [exact Hr|exact Ht].
Defined.

(** The context of [StartListener] is cancelled and the read loop has ended. *)
Lemma only_stop_releases_witness :
  exists s', run [ECancelParent 0; ERun 2 true None] (state_after delivered) = Some s' /\
    wg s' = 0 /\ sockets s' !! 0%nat = Some false.
Proof.
  destruct (run [ECancelParent 0; ERun 2 true None] (state_after delivered)) as [s'|] eqn:Hrun;
    [|vm_compute in Hrun; discriminate Hrun].
  exists s'. split; [reflexivity|]. split.
  - vm_compute in Hrun. injection Hrun as <-. reflexivity.
  - apply (only_stop_releases [ECancelParent 0; ERun 2 true None] (state_after delivered) s' 0).
    + apply udp_state_after_reachable.
    + vm_compute. reflexivity.
    + vm_compute. reflexivity.
    + intros [?|[?|?%elem_of_nil]%elem_of_cons]%elem_of_cons; done.
    + exact Hrun.
Defined.

Lemma StopListener_can_return_witness :
  exists es s', run es (state_after (delivered ++ [EStop])) = Some s' /\
    threads s' !! 3%nat = Some (UReturned None).
Proof.
  destruct (StopListener_can_return (state_after (delivered ++ [EStop])) 3) as (es & s' & _ & Hrun & Ht).
  - apply udp_state_after_reachable.
  - vm_compute. reflexivity.
  - vm_compute. reflexivity.
  - exists es, s'. split; [exact Hrun|exact Ht].
Defined.

Lemma StopListener_waits_witness :
  exists s', step (ERun 3 true None) (state_after (delivered ++ [EStop; ERun 2 true None])) = Some s' /\
    threads s' !! 3%nat = Some (UReturned None).
Proof.
  eexists. split; [vm_compute; reflexivity|].
  eapply (StopListener_waits (state_after (delivered ++ [EStop; ERun 2 true None])) 3 true None).
  - apply udp_state_after_reachable.
  - vm_compute. reflexivity.
  - vm_compute. reflexivity.
Defined.

Lemma subscribe_keeps_others_witness :
  exists s' id, SubscribeToPacketReceived (Some (fun _ _ => true)) (Some 0%nat) (state_after delivered)
      = (s', inr id) /\ 1 <= id.
Proof.
  destruct (subscribe_keeps_others (state_after delivered) (fun _ _ => true) 0) as (s' & id & Hs & Hid & _).
  - apply udp_state_after_reachable.
  - vm_compute. reflexivity.
  - exists s', id. split; [exact Hs|exact Hid].
Defined.

Lemma unsubscribed_channel_drains_witness :
  exists s', run [EUnsubscribe 1; ERun 2 true None; ERun 2 true (Some (peer, [Byte.x62])); ERun 2 true None]
      (state_after delivered) = Some s' /\ drained 0 (state_after delivered) s'.
Proof.
  eexists. split; [vm_compute; reflexivity|].
  eapply (unsubscribed_channel_drains (state_after delivered) 1
    (mkSubscription (fun a _ => Port a =? 9000) 0)
    [ERun 2 true None; ERun 2 true (Some (peer, [Byte.x62])); ERun 2 true None]).
  - apply udp_state_after_reachable.
  - vm_compute. reflexivity.
  - intros id' sub' Hid _. revert Hid.
    replace (subscriptions (state_after delivered))
      with ({[ 1 := mkSubscription (fun a _ => Port a =? 9000) 0 ]} : gmap Z subscription)
      by (vm_compute; reflexivity).
    intros Hid. apply lookup_singleton_Some in Hid as [<- _]. reflexivity.
  - intros t p Ht. revert Ht.
    replace (threads (state_after delivered))
      with (<[0%nat := USubscribed 1]> (<[1%nat := UReturned None]> {[ 2%nat := ULoopTop 0 0 ]}) : gmap nat pc)
      by (vm_compute; reflexivity).
    intros Ht. repeat lookup_cases Ht; [intros []|intros []|].
    apply lookup_singleton_Some in Ht as [_ <-]. intros [].
  - repeat constructor; simpl; intros [].
  - vm_compute. reflexivity.
Defined.
End UdpInvariant.
