(* ===== verification/UdpShutdown.v ===== *)
(** * UdpShutdown: the UDP listener comes down

    Once the listener is stopped its goroutines come to an end under every scheduler:
    the read loops find their context done or their socket closed, packets that were
    read are still delivered, and then [StopListener] returns. *)

From stdpp Require Import relations.
From S2P Require Import Prelude Threads Schedules Identity UdpListener UdpInvariant.

Module UdpShutdown.
Import UdpListener UdpInvariant.

Implicit Types (s : UDPListener) (t u : nat).

Definition goes s s' : Prop := exists u ok input, step (ERun u ok input) s = Some s'.

(** The goroutine reads from an open socket. *)
Definition blocks (u : nat) s : bool :=
  match threads s !! u with
  | Some (ULoopRead sock _) => bool_decide (sockets s !! sock = Some false)
  | _ => false
  end.

(** A goroutine moves without a packet from the network. *)
Definition free s s' : Prop :=
  exists u ok input, blocks u s = false /\ step (ERun u ok input) s = Some s'.

(** ** The measure *)

(** How many goroutines a packet starts depends on the subscriptions. *)
Definition unknown (c : pc) : nat := match c with ULoopPacket _ _ _ _ => 1 | _ => 0 end.

Definition work (c : pc) : nat :=
  match c with
  | UStartSpawn _ _ => 4
  | ULoopTop _ _ => 3
  | ULoopRead _ _ | UDeliver _ _ _ => 2
  | ULoopError _ _ | USendWrite _ _ _ | UPush _ _ _ | UStopWait => 1
  | _ => 0
  end.

Definition stopped s : Prop := reachable s /\ isListening s = false.

Lemma stopped_closed s sock : stopped s -> sockets s !! sock <> Some false.
Proof.
  intros [Hr Hi] Hk. destruct (so_open s (sockets_ok_reachable s Hr) _ Hk). congruence.
Qed.

Lemma stopped_goes s s' : stopped s -> goes s s' -> stopped s'.
Proof.
  intros [Hr Hi] (u & ok & input & Hs). split; [by eapply reachable_step|].
  remember (ERun u ok input) as e. u_cases Hs; u_simpl; done.
Qed.

Lemma delivering_weight f s subs addr data :
  (forall sub, f (UDeliver sub addr data) = 0%nat) ->
  weight f (threads (delivering s subs addr data)) = weight f (threads s).
Proof. intros Hf. induction subs as [|sub subs IH]; [done|]. simpl. rewrite weight_spawn, Hf. lia. Qed.

Lemma udp_goes_decreases s s' :
  stopped s -> goes s s' ->
  (weight unknown (threads s') < weight unknown (threads s) \/
   weight unknown (threads s') = weight unknown (threads s) /\
   weight work (threads s') < weight work (threads s))%nat.
Proof.
  intros Hst (u & ok & input & Hs). pose proof (stopped_closed s) as Hcl.
  pose proof Hst as [_ Hi]. remember (ERun u ok input) as e.
  u_cases Hs; u_simpl; try congruence; try (by destruct (Hcl _ Hst ltac:(eassumption))).
  all: weigh; cbn [unknown work] in *; try lia.
  left. match goal with |- context [delivering s ?subs addr data] =>
    pose proof (weight_move unknown _ u _ (ULoopTop sock ctx) (delivering_old s subs addr data _ _ Ht)) as Hw end.
  rewrite delivering_weight in Hw by done. cbn [unknown] in Hw. lia.
Qed.

Lemma stopped_terminates s : stopped s -> sn goes s.
Proof.
  apply (sn_lex goes stopped (fun s => weight unknown (threads s)) (fun s => weight work (threads s))).
  - apply stopped_goes.
  - apply udp_goes_decreases.
Qed.

(** ** Where the goroutines stop *)

Definition finished (c : pc) : bool :=
  match c with UReturned _ | USubscribed _ => true | _ => false end.

(** A goroutine that has not finished moves, or is a [StopListener] that waits. *)
Lemma udp_moves s u c :
  threads s !! u = Some c -> finished c = false -> c <> UStopWait \/ wg s = 0 ->
  exists s', step (ERun u true None) s = Some s'.
Proof.
  intros Hu Hf Hw. rewrite (step_loop s u c true None Hu). destruct c; try done; try (by eexists).
  cbn [run_thread]. destruct Hw as [?| ->]; [done|by eexists].
Qed.

Lemma stopped_free s u s' : stopped s -> step (ERun u true None) s = Some s' -> free s s'.
Proof.
  intros Hst Hs. exists u, true, None. split; [|done]. unfold blocks.
  destruct (threads s !! u) as [[]|]; try done. apply bool_decide_eq_false. by apply stopped_closed.
Qed.

Lemma stopped_settled s u c :
  stopped s -> settled free s -> threads s !! u = Some c -> finished c = true /\ wg s = 0.
Proof.
  intros Hst Hq. assert (forall v d, threads s !! v = Some d -> finished d = false ->
    d <> UStopWait \/ wg s = 0 -> False) as Hstop.
  { intros v d Hv Hf Hw. destruct (udp_moves s v d Hv Hf Hw) as [s' Hs]. by eapply Hq, stopped_free. }
  assert (wg s = 0) as Hwg.
  { pose proof (udp_wg_ok_reachable s (proj1 Hst)) as Hok. unfold wg_ok in Hok.
    destruct (decide (wg s = 0)) as [|Hne]; [done|].
    destruct (count_some owes (threads s)) as (v & d & Hv & Hd); [congruence|].
    destruct (Hstop v d Hv); [by destruct d|left; by destruct d]. }
  intros Hu. split; [|done]. destruct (finished c) eqn:Hf; [done|]. by destruct (Hstop u c Hu Hf (or_intror Hwg)).
Qed.

(** Whether somebody can move. *)
Lemma settled_or_free s : stopped s -> settled free s \/ exists s', free s s'.
Proof.
  intros Hst. set (moves := fun u => is_Some (step (ERun u true None) s)).
  destruct (decide (Exists moves (elements (dom (threads s))))) as [He|Hne].
  - right. apply Exists_exists in He as (u & _ & [s' Hs]). exists s'. by eapply stopped_free.
  - left. intros s' (u & ok & input & _ & Hs). apply Hne, Exists_exists. exists u.
    cbn [step] in Hs. destruct (threads s !! u) as [c|] eqn:Hu; [|done].
    split; [by apply elem_of_elements, elem_of_dom|]. apply (udp_moves s u c Hu).
    + by destruct c.
    + cbn [mbind option_bind] in Hs. destruct c; try (by left). right.
      cbn [run_thread] in Hs. by destruct (Z.eqb_spec (wg s) 0).
Qed.

(** A call of [StopListener] that waits, or has returned. *)
Definition stopping (c : pc) : Prop := c = UStopWait \/ c = UReturned None.

Lemma stopping_goes s s' t c :
  goes s s' -> threads s !! t = Some c -> stopping c ->
  exists c', threads s' !! t = Some c' /\ stopping c'.
Proof.
  intros (u & ok & input & Hs) Ht Hc. destruct (decide (t = u)) as [<-|Hne].
  - rewrite (step_loop s t c ok input Ht) in Hs. destruct Hc as [->| ->]; [|done].
    cbn [run_thread] in Hs. case_match; [|done]. simplify_eq. eexists.
    split; [apply lookup_insert_eq|by right].
  - exists c. split; [|done]. rename Ht into Hold. remember (ERun u ok input) as e.
    u_cases Hs; u_simpl; rewrite ?lookup_insert_ne, ?lookup_delete_ne by done; try done.
    all: try (by apply lookup_spawn). by apply delivering_old.
Qed.



End UdpShutdown.
