(* ===== verification/PacketBuffers.v ===== *)
(** * PacketBuffers: the memory behind received packets

    [UdpListener] has packets as values. In [src/network/udp_listener.go] a packet is a
    slice: the read loop reads into one buffer, copies what it has read into a new
    array, and gives that array to all subscribers, which get it in their callbacks and
    from their channels. Here arrays live in a memory, and callbacks and receivers may
    write to what they were given. Starting, stopping and contexts do not touch packets
    and are left to [UdpListener].

    As long as nobody writes, what a subscriber has is what was read, however much is
    read into the buffer later. A subscriber that writes changes the packet for the
    others. *)

From S2P Require Import Prelude Threads Identity UdpListener.

Module PacketBuffers.

Abbreviation ref := nat.

(** A callback: its verdict, and what it leaves in the array. *)
Definition Callback : Type := UDPAddr -> list byte -> bool * list byte.

Record subscription := mkSubscription { callback : Callback; ch : ref }.

(** A goroutine per subscription and packet: before the callback, before the send. *)
Inductive pc :=
| BDeliver (sub : subscription) (addr : UDPAddr) (d : ref)
| BPush (sub : subscription) (addr : UDPAddr) (d : ref).

Record Chan := mkChan { cap : nat; queue : list ref }.

(** [buf] is the array of the read loop, [held] what receivers have got. The history
    [origin] says which packet of the network an array was made for. *)
Record Memory := mkMemory {
  mem : gmap ref (list byte);
  buf : ref;
  subs : gmap Z subscription;
  chans : gmap ref Chan;
  threads : gmap nat pc;
  held : list ref;
  origin : gmap ref (UDPAddr * list byte);
}.

(** [buf := make([]byte, size)]; the code has [UdpListener.bufSize], 65535. *)
Definition start (size : nat) (chans : gmap ref Chan) (subs : gmap Z subscription) : Memory :=
  mkMemory {[ 0%nat := replicate size Byte.x00 ]} 0 subs chans ∅ [] ∅.

Definition content (m : gmap ref (list byte)) (d : ref) : list byte := default [] (m !! d).

(** [ReadFromUDP(buf)]: the packet, cut to the buffer, overwrites its beginning. *)
Definition read_into (old packet : list byte) : list byte * nat :=
  let n := Nat.min (length packet) (length old) in
  (take n packet ++ drop n old, n).

(** [data := make([]byte, n)], [copy(data, buf[:n])], and a goroutine per subscription. *)
Definition do_read (addr : UDPAddr) (packet : list byte) (s : Memory) : Memory :=
  let '(bytes, n) := read_into (content (mem s) (buf s)) packet in
  let m := <[buf s := bytes]> (mem s) in
  let d := fresh (dom m) in
  let data := take n (content m (buf s)) in
  mkMemory (<[d := data]> m) (buf s) (subs s) (chans s)
    (foldr (fun sub ts => <[fresh (dom ts) := BDeliver sub addr d]> ts) (threads s)
       (map_to_list (subs s)).*2)
    (held s) (<[d := (addr, packet)]> (origin s)).

Definition do_deliver (t : nat) (sub : subscription) (addr : UDPAddr) (d : ref) (s : Memory) : Memory :=
  let '(ok, bytes) := callback sub addr (content (mem s) d) in
  mkMemory (<[d := bytes]> (mem s)) (buf s) (subs s) (chans s)
    (if ok then <[t := BPush sub addr d]> (threads s) else delete t (threads s)) (held s) (origin s).

(** The packet is dropped when the channel is full. *)
Definition do_push (t : nat) (sub : subscription) (d : ref) (s : Memory) : Memory :=
  let chans := match chans s !! ch sub with
               | Some k => if (length (queue k) <? cap k)%nat
                           then <[ch sub := mkChan (cap k) (queue k ++ [d])]> (chans s) else chans s
               | None => chans s
               end in
  mkMemory (mem s) (buf s) (subs s) chans (delete t (threads s)) (held s) (origin s).

(** A packet is read, a goroutine moves, somebody receives from a channel, or writes a
    byte of a packet that was received. *)
Inductive event :=
| ERead (addr : UDPAddr) (packet : list byte)
| ERun (t : nat)
| EReceive (c : ref)
| EWrite (d : ref) (i : nat) (b : byte).

Definition step (e : event) (s : Memory) : option Memory :=
  match e with
  | ERead addr packet => Some (do_read addr packet s)
  | ERun t =>
      c ← threads s !! t;
      Some (match c with
            | BDeliver sub addr d => do_deliver t sub addr d s
            | BPush sub _ d => do_push t sub d s
            end)
  | EReceive c =>
      k ← chans s !! c;
      match queue k with
      | d :: q => Some (mkMemory (mem s) (buf s) (subs s) (<[c := mkChan (cap k) q]> (chans s))
                          (threads s) (held s ++ [d]) (origin s))
      | [] => None
      end
  | EWrite d i b =>
      if decide (d ∈ held s) then
        Some (mkMemory (<[d := <[i := b]> (content (mem s) d)]> (mem s)) (buf s) (subs s) (chans s)
                (threads s) (held s) (origin s))
      else None
  end.

Fixpoint run (es : list event) (s : Memory) : option Memory :=
  match es with
  | [] => Some s
  | e :: es => s' ← step e s; run es s'
  end.

(** ** Nobody writes *)

Definition read_only (sub : subscription) : Prop := forall addr data, (callback sub addr data).2 = data.

Definition no_write (e : event) : Prop := match e with EWrite _ _ _ => False | _ => True end.

Section intact.
Variable size : nat.

(** What is read of a packet of the network. *)
Definition cut (packet : list byte) : list byte := take size packet.

(** A subscription to the channel accepts the packet that the array was made for. *)
Definition wanted (s : Memory) (c d : ref) : Prop :=
  exists id sub addr packet, subs s !! id = Some sub /\ ch sub = c /\
    origin s !! d = Some (addr, packet) /\ (callback sub addr (cut packet)).1 = true.

Definition pc_ok (s : Memory) (c : pc) : Prop :=
  match c with
  | BDeliver sub addr d => (exists id, subs s !! id = Some sub) /\
      exists packet, origin s !! d = Some (addr, packet)
  | BPush sub addr d => wanted s (ch sub) d
  end.

Record intact (s : Memory) : Prop := {
  in_mem d addr packet : origin s !! d = Some (addr, packet) -> mem s !! d = Some (cut packet);
  in_buf : origin s !! buf s = None;
  in_size : exists old, mem s !! buf s = Some old /\ length old = size;
  in_subs : map_Forall (fun _ sub => read_only sub) (subs s);
  in_threads : map_Forall (fun _ c => pc_ok s c) (threads s);
  in_chans c k d : chans s !! c = Some k -> d ∈ queue k -> wanted s c d;
  in_held d : d ∈ held s -> exists c, wanted s c d;
}.

(** More packets do not hurt. *)
Lemma delivery_mono s s' c :
  subs s' = subs s -> origin s ⊆ origin s' -> pc_ok s c -> pc_ok s' c.
Proof.
  intros Hs Ho. destruct c; simpl; unfold wanted; rewrite Hs.
  - intros [? (packet & Hp)]. split; [done|]. exists packet. by eapply lookup_weaken.
  - intros (id & sub' & a & packet & ? & ? & Hp & ?). exists id, sub', a, packet.
    split_and!; try done. by eapply lookup_weaken.
Qed.

Lemma wanted_mono s s' c d :
  subs s' = subs s -> origin s ⊆ origin s' -> wanted s c d -> wanted s' c d.
Proof.
  intros Hs Ho (id & sub & addr & packet & ? & ? & Hp & ?). exists id, sub, addr, packet.
  rewrite Hs. split_and!; try done. by eapply lookup_weaken.
Qed.

(** The copy is what was read of the packet. *)
Lemma read_into_copy old packet :
  length old = size ->
  let '(bytes, n) := read_into old packet in take n bytes = cut packet /\ length bytes = size.
Proof.
  intros Hlen. unfold read_into, cut. rewrite Hlen. split.
  - rewrite take_app_le by (rewrite length_take; lia). rewrite take_take, Nat.min_id.
    destruct (Nat.le_ge_cases (length packet) size).
    + rewrite Nat.min_l, !take_ge by lia. done.
    + by rewrite Nat.min_r by lia.
  - rewrite length_app, length_take, length_drop. lia.
Qed.

(** The goroutines that a packet starts. *)
Lemma spawned_ok (P : pc -> Prop) addr d l : forall ts : gmap nat pc,
  map_Forall (fun _ c => P c) ts -> (forall sub, sub ∈ l -> P (BDeliver sub addr d)) ->
  map_Forall (fun _ c => P c) (foldr (fun sub ts => <[fresh (dom ts) := BDeliver sub addr d]> ts) ts l).
Proof.
  induction l as [|sub l IH]; intros ts Hts Hl; [done|]. simpl.
  apply map_Forall_insert_2; [apply Hl; by left|]. apply IH; [done|]. intros. apply Hl. by right.
Qed.

Lemma intact_read addr packet s : intact s -> intact (do_read addr packet s).
Proof.
  intros [H1 H2 (old & H3 & H3l) H4 H5 H6 H7]. unfold do_read, content. rewrite H3. cbn [default from_option id].
  pose proof (read_into_copy old packet H3l) as Hcopy. destruct (read_into old packet) as [bytes n].
  destruct Hcopy as [Hcut Hlen]. rewrite lookup_insert_eq. cbn [default from_option id]. rewrite Hcut.
  set (m := <[buf s := bytes]> (mem s)). set (d := fresh (dom m)).
  assert (d <> buf s) as Hd by (apply (fresh_ne m _ bytes), lookup_insert_eq).
  assert (origin s !! d = None) as Hnew.
  { destruct (origin s !! d) as [[a p]|] eqn:E; [|done]. apply H1 in E.
    assert (m !! d = Some (cut p)) as Hm by (unfold m; by rewrite lookup_insert_ne).
    by destruct (fresh_ne m d _ Hm). }
  set (s' := mkMemory _ _ _ _ _ _ _).
  assert (origin s ⊆ origin s') as Hsub by (by apply insert_subseteq).
  constructor; cbn [mem buf subs chans threads held origin s'].
  - intros e a p He. destruct (decide (d = e)) as [<-|Hne].
    + rewrite lookup_insert_eq in He. simplify_eq. apply lookup_insert_eq.
    + rewrite lookup_insert_ne in He by done. rewrite lookup_insert_ne by done. unfold m.
      rewrite lookup_insert_ne; [by eapply H1|]. intros <-. congruence.
  - by rewrite lookup_insert_ne.
  - exists bytes. unfold m. by rewrite lookup_insert_ne, lookup_insert_eq.
  - done.
  - apply spawned_ok.
    + eapply map_Forall_impl; [done|]. intros t c. by apply (delivery_mono s s').
    + intros sub Hin. apply list_elem_of_fmap in Hin as ([id sub'] & -> & Hin).
      apply elem_of_map_to_list in Hin. split; [by exists id|]. exists packet. apply lookup_insert_eq.
  - intros c k e Hc He. apply (wanted_mono s s'); [done..|]. by eapply H6.
  - intros e He. destruct (H7 e He) as [c Hc]. exists c. by apply (wanted_mono s s').
Qed.

Lemma intact_deliver t sub addr d s :
  threads s !! t = Some (BDeliver sub addr d) -> intact s -> intact (do_deliver t sub addr d s).
Proof.
  intros Ht [H1 H2 H3 H4 H5 H6 H7]. destruct (H5 _ _ Ht) as [[j Hid] (packet & Hp)].
  pose proof (H1 _ _ _ Hp) as Hm. unfold do_deliver, content. rewrite Hm. cbn [default from_option id].
  pose proof (H4 _ _ Hid addr (cut packet)) as Hro.
  destruct (callback sub addr (cut packet)) as [ok bytes] eqn:Hcb. simpl in Hro. subst bytes.
  rewrite (insert_id (mem s)) by done.
  constructor; cbn [mem buf subs chans threads held origin]; try done.
  destruct ok; [apply map_Forall_insert_2|apply map_Forall_delete]; try done.
  exists j, sub, addr, packet. split_and!; try done. by rewrite Hcb.
Qed.

Lemma intact_push t sub addr d s :
  threads s !! t = Some (BPush sub addr d) -> intact s -> intact (do_push t sub d s).
Proof.
  intros Ht [H1 H2 H3 H4 H5 H6 H7]. pose proof (H5 _ _ Ht) as Hw.
  constructor; cbn [do_push mem buf subs chans threads held origin]; try done.
  { by apply map_Forall_delete. }
  intros c k e. destruct (chans s !! ch sub) as [k'|] eqn:Hk; [|by apply H6].
  case_match; [|by apply H6]. intros Hc He. lookup_cases Hc; [|by eapply H6].
  apply elem_of_app in He as [He|He%list_elem_of_singleton]; [by eapply H6|]. by subst e.
Qed.

Lemma intact_step e s s' : intact s -> no_write e -> step e s = Some s' -> intact s'.
Proof.
  intros Hok He Hs. destruct e as [addr packet|t|c|d i b]; simpl in Hs.
  - simplify_eq. by apply intact_read.
  - destruct (threads s !! t) as [[sub addr d|sub addr d]|] eqn:Ht; simplify_eq/=.
    + by apply intact_deliver.
    + by eapply intact_push.
  - destruct (chans s !! c) as [k|] eqn:Hk; [|done]. simpl in Hs.
    destruct (queue k) as [|d q] eqn:Hq; simplify_eq. destruct Hok as [H1 H2 H3 H4 H5 H6 H7].
    constructor; cbn [mem buf subs chans threads held origin]; try done.
    + intros c' k' e Hc He'. lookup_cases Hc; [|by eapply H6].
      apply (H6 c' k); [done|]. rewrite Hq. by right.
    + intros e [He'|He'%list_elem_of_singleton]%elem_of_app; [by apply H7|]. subst e.
      exists c. apply (H6 c k); [done|]. rewrite Hq. by left.
  - done.
Qed.

(** The packets that arrays were made for were read. *)
Lemma origin_run es : forall s s' d addr packet,
  run es s = Some s' -> origin s' !! d = Some (addr, packet) ->
  origin s !! d = Some (addr, packet) \/ ERead addr packet ∈ es.
Proof.
  induction es as [|e es IH]; intros s s' d addr packet Hr Hd; [simplify_eq/=; by left|].
  cbn [run] in Hr. destruct (step e s) as [s1|] eqn:Hs; [|done].
  destruct (IH _ _ _ _ _ Hr Hd) as [Ho|Hin]; [|right; by right].
  destruct e as [a p|t|c|d' i b]; simpl in Hs; repeat case_match; simplify_eq/=; try (by left).
  - lookup_cases Ho; [|by left].
    right. by left.
  - left. destruct (threads s !! t) as [[]|]; simplify_eq/=; [|done].
    unfold do_deliver in Ho. by destruct (callback _ _ _).
  - left. destruct (chans s !! c) as [k|]; simpl in Hs; [|done]. by destruct (queue k); simplify_eq.
Qed.

Lemma intact_run es : forall s s', intact s -> Forall no_write es -> run es s = Some s' -> intact s'.
Proof.
  induction es as [|e es IH]; intros s s' Hok Hes Hr; [by simplify_eq/=|].
  apply Forall_cons in Hes as [He Hes]. cbn [run] in Hr. destruct (step e s) as [s1|] eqn:Hs; [|done].
  eapply IH; [|done..]. by eapply intact_step.
Qed.

(** C28. Packets are not overwritten. With callbacks and receivers that only read, a
    packet that waits in a channel, or that a receiver has got, holds the bytes of one
    packet of the network, cut to the size of the buffer, which a subscription to the
    channel has accepted, however many packets the loop has read into its buffer since. *)
Theorem packets_intact channels subscriptions es s d :
  map_Forall (fun _ k => queue k = []) channels -> map_Forall (fun _ sub => read_only sub) subscriptions ->
  Forall no_write es -> run es (start size channels subscriptions) = Some s ->
  (exists c k, chans s !! c = Some k /\ d ∈ queue k) \/ d ∈ held s ->
  exists c id sub addr packet, subs s !! id = Some sub /\ ch sub = c /\ ERead addr packet ∈ es /\
    mem s !! d = Some (cut packet) /\ (callback sub addr (cut packet)).1 = true.
Proof.
  intros Hch Hsub Hes Hr Hd. assert (intact (start size channels subscriptions)) as Hok.
  { constructor; cbn [start mem buf subs chans threads held origin]; try done.
    - eexists. split; [apply lookup_insert_eq|apply length_replicate].
    - intros c k e Hc He. rewrite (Hch _ _ Hc) in He. by apply elem_of_nil in He.
    - intros e He. by apply elem_of_nil in He. }
  pose proof (intact_run _ _ _ Hok Hes Hr) as [H1 _ _ _ _ H6 H7].
  assert (exists c, wanted s c d) as (c & id & sub & addr & packet & Hid & Hc & Ho & Hcb).
  { destruct Hd as [(c & k & Hk & Hin)|Hin]; [exists c; by eapply H6|by apply H7]. }
  exists c, id, sub, addr, packet. split_and!; try done; [|by eapply H1].
  destruct (origin_run _ _ _ _ _ _ Hr Ho) as [Hold|]; [|done].
  cbn [start origin] in Hold. by rewrite lookup_empty in Hold.
Qed.

End intact.

(** ** Two subscribers *)

Definition peer : UDPAddr := mkUDPAddr [Byte.x0a; Byte.x00; Byte.x00; Byte.x01] 9000 [].

(** Two subscribers, with a channel each, that take every packet. *)
Definition everything (c : ref) : subscription := mkSubscription (fun _ data => (true, data)) c.
Definition channels0 : gmap ref Chan := <[0%nat := mkChan 4 []]> {[ 1%nat := mkChan 4 [] ]}.
Definition subs0 : gmap Z subscription := <[1 := everything 0]> {[ 2 := everything 1 ]}.

(** A packet is delivered to both, and the first receives it. *)
Definition both : list event :=
  [ERead peer [Byte.x61; Byte.x62]; ERun 0; ERun 0; ERun 1; ERun 1; EReceive 0].

Lemma packets_intact_witness :
  exists s d, run (both ++ [ERead peer [Byte.x63]]) (start 4 channels0 subs0) = Some s /\ d ∈ held s /\
    exists addr packet, ERead addr packet ∈ both ++ [ERead peer [Byte.x63]] /\
      mem s !! d = Some (cut 4 packet).
Proof.
  assert (held <$> run (both ++ [ERead peer [Byte.x63]]) (start 4 channels0 subs0) = Some [1%nat]) as Hheld
    by (vm_compute; reflexivity).
  destruct (run (both ++ [ERead peer [Byte.x63]]) (start 4 channels0 subs0)) as [s|] eqn:Hs;
    [|discriminate Hheld]. injection Hheld as Hheld.
  exists s, 1%nat. split; [reflexivity|]. split; [rewrite Hheld; by left|].
  destruct (packets_intact 4 channels0 subs0 (both ++ [ERead peer [Byte.x63]]) s 1%nat)
    as (c & id & sub & addr & packet & _ & _ & Hin & Hm & _).
  - intros c k Hk. unfold channels0 in Hk. lookup_cases Hk; [reflexivity|].
    apply lookup_singleton_Some in Hk as [_ <-]. reflexivity.
  - intros id sub Hsub. unfold subs0 in Hsub. lookup_cases Hsub; [done|].
    apply lookup_singleton_Some in Hsub as [_ <-]. done.
  - repeat constructor.
  - exact Hs.
  - right. rewrite Hheld. by left.
  - exists addr, packet. split; [exact Hin|exact Hm].
Defined.

(** Subscribers share the array: what the first writes to its packet changes the packet
    that waits for the second. *)
Theorem packet_shared :
  exists s, run (both ++ [EWrite 1 0 Byte.x7a; EReceive 1]) (start 4 channels0 subs0) = Some s /\
    held s = [1; 1]%nat /\ mem s !! 1%nat = Some [Byte.x7a; Byte.x62].
Proof.
  assert ((fun s => (held s, mem s !! 1%nat)) <$>
    run (both ++ [EWrite 1 0 Byte.x7a; EReceive 1]) (start 4 channels0 subs0) =
    Some ([1; 1]%nat, Some [Byte.x7a; Byte.x62])) as Hend by (vm_compute; reflexivity).
  destruct (run _ _) as [s|]; [|done]. exists s. by simplify_eq/=.
Qed.

End PacketBuffers.
