(* ===== verification/PortListener.v ===== *)
(** * PortListener: the interface of the UDP port

    [src/interfaces/udp_port_listener.go] as a class: the operations that a subscriber
    uses and what it may rely on. A subscriber subscribes with a callback and a channel
    of its own, sends, waits on the channel while everybody else moves, and
    unsubscribes. The UDP listener of [UdpListener] is an instance, by the invariants
    of [UdpInvariant]. *)

From S2P Require Import Prelude Threads Identity UdpListener UdpInvariant.

Definition PacketCallback : Type := UDPAddr -> list byte -> bool.

(** The operations. [callbackOf] is the callback of an active subscription to a
    channel that its subscriber made for it; [await] is a receive on that channel after
    other goroutines have moved as [sched] says, [None] when nothing has arrived. The
    flag of [SendPacketTo] is whether the network takes the packet. [arrived] is the
    history of the packets that were read from the port. *)
Class IUdpPortListener (L : Type) := {
  sched : Type;
  listener_ok : L -> Prop;
  arrived : L -> list (UDPAddr * list byte);
  callbackOf : L -> Z -> option PacketCallback;
  Subscribe : L -> PacketCallback -> L * option Z;
  SendPacketTo : L -> bool -> UDPAddr -> list byte -> L * bool;
  await : L -> Z -> sched -> L * option (list byte);
  Unsubscribe : L -> Z -> L;
}.

(** What a subscriber relies on: packets come from the port and only through its
    callback, and fit in the read buffer; after unsubscribing the subscription is gone. *)
Class PortListenerLaws (L : Type) `{IUdpPortListener L} : Prop := {
  Subscribe_ok l cb l' r :
    listener_ok l -> Subscribe l cb = (l', r) ->
    listener_ok l' /\ arrived l `prefix_of` arrived l' /\
    forall id, r = Some id -> callbackOf l' id = Some cb;
  SendPacketTo_ok l ok target data l' b :
    listener_ok l -> SendPacketTo l ok target data = (l', b) ->
    listener_ok l' /\ arrived l `prefix_of` arrived l' /\ forall id, callbackOf l' id = callbackOf l id;
  await_ok l id cb sch l' r :
    listener_ok l -> callbackOf l id = Some cb -> await l id sch = (l', r) ->
    listener_ok l' /\ arrived l `prefix_of` arrived l' /\
    forall data, r = Some data -> zlen data <= 65535 /\
      exists src, (src, data) ∈ arrived l' /\ cb src data = true;
  Unsubscribe_ok l id :
    listener_ok l -> listener_ok (Unsubscribe l id) /\ arrived l `prefix_of` arrived (Unsubscribe l id) /\
    callbackOf (Unsubscribe l id) id = None;
}.

Module UdpPort.
Import UdpListener UdpInvariant.

(** A listener, and the channels that belong to one subscription each. *)
Record Port := mkPort { udp : UDPListener; private : gset ref }.

(** A private channel is the channel of one subscription only. *)
Definition port_ok (l : Port) : Prop :=
  reachable (udp l) /\
  forall c i j sub sub', c ∈ private l ->
    made (udp l) !! i = Some sub -> made (udp l) !! j = Some sub' ->
    ch sub = c -> ch sub' = c -> i = j.

Definition port_callback (l : Port) (id : Z) : option PacketCallback :=
  match subscriptions (udp l) !! id with
  | Some sub => if decide (ch sub ∈ private l) then Some (callback sub) else None
  | None => None
  end.

(** [make(chan []byte, 1)] and [SubscribeToPacketReceived]. *)
Definition port_subscribe (l : Port) (cb : PacketCallback) : Port * option Z :=
  let c := fresh (dom (chans (udp l))) in
  match s1 ← step (EMakeChan 1) (udp l); step (ESubscribe (Some cb) (Some c)) s1 with
  | Some s2 => (mkPort s2 (private l ∪ {[ c ]}), Some (nextSubID s2))
  | None => (l, None)
  end.

(** [SendPacketTo]: the call and, when the listener runs, its write, which may fail. *)
Definition port_send (l : Port) (ok : bool) (target : UDPAddr) (data : list byte) : Port * bool :=
  let t := fresh (dom (threads (udp l))) in
  match step (ESend target data) (udp l) with
  | None => (l, false)
  | Some s1 =>
      match step (ERun t ok None) s1 with
      | None => (mkPort s1 (private l), false)
      | Some s2 => (mkPort s2 (private l),
                    match threads s2 !! t with Some (UReturned None) => true | _ => false end)
      end
  end.

(** Nobody else subscribes to a private channel. *)
Definition respects (l : Port) (e : event) : bool :=
  match e with ESubscribe _ (Some c) => bool_decide (c ∉ private l) | _ => true end.

Definition port_await (l : Port) (id : Z) (es : list event) : Port * option (list byte) :=
  match subscriptions (udp l) !! id with
  | None => (l, None)
  | Some sub =>
      if forallb (respects l) es then
        match run es (udp l) with
        | None => (l, None)
        | Some s =>
            match chans s !! ch sub ≫= fun k => head (buf k) with
            | Some data =>
                match step (EReceive (ch sub)) s with
                | Some s' => (mkPort s' (private l), Some data)
                | None => (mkPort s (private l), None)
                end
            | None => (mkPort s (private l), None)
            end
        end
      else (l, None)
  end.

Definition port_unsubscribe (l : Port) (id : Z) : Port :=
  match step (EUnsubscribe id) (udp l) with
  | Some s => mkPort s (private l)
  | None => l
  end.

(** ** The UDP listener keeps the promise *)

(** Only a subscription adds to the subscriptions that were made, and only
    subscribing and unsubscribing change the active ones. *)
Lemma made_step s e s' :
  step e s = Some s' ->
  (made s' = made s /\ subscriptions s' = subscriptions s) \/
  (exists id, e = EUnsubscribe id /\ made s' = made s /\ subscriptions s' = delete id (subscriptions s)) \/
  (exists cb c, e = ESubscribe (Some cb) (Some c) /\ is_Some (chans s !! c) /\
     made s' = made s ++ [mkSubscription cb c] /\
     subscriptions s' = <[nextSubID s' := mkSubscription cb c]> (subscriptions s)).
Proof.
  intros Hs. u_cases Hs; u_simpl; try (by left).
  - right; right. eexists _, _. split_and!; [done| |done..].
    by match goal with Hb : bool_decide _ = true |- _ => apply bool_decide_eq_true in Hb end.
  - right; left. by eexists.
Qed.

Lemma port_ok_step l e s' :
  port_ok l -> respects l e = true -> step e (udp l) = Some s' -> port_ok (mkPort s' (private l)).
Proof.
  intros [Hr Hp] He Hs. split; [by eapply reachable_step|]. cbn [udp private].
  destruct (made_step _ _ _ Hs) as [[-> _]|[(id & -> & -> & _)|(cb & c & -> & _ & -> & _)]]; [done..|].
  cbn in He. apply bool_decide_eq_true in He.
  intros x i j sub sub' Hx Hi Hj <- Hch.
  apply lookup_app_Some in Hi as [Hi|[_ Hi]], Hj as [Hj|[_ Hj]]; [by eauto|..];
    try (apply list_lookup_singleton_Some in Hi as [_ <-]); try (apply list_lookup_singleton_Some in Hj as [_ <-]);
    simpl in *; congruence.
Qed.

Lemma port_ok_run es : forall l s',
  port_ok l -> forallb (respects l) es = true -> run es (udp l) = Some s' ->
  port_ok (mkPort s' (private l)).
Proof.
  induction es as [|e es IH]; intros l s' Hok Hes Hr.
  { simplify_eq/=. by destruct l. }
  cbn [forallb] in Hes. apply andb_true_iff in Hes as [He Hes]. cbn [run] in Hr.
  destruct (step e (udp l)) as [s1|] eqn:Hs; [|done].
  apply (IH (mkPort s1 (private l))); [by eapply port_ok_step|exact Hes|done].
Qed.

Lemma made_run es : forall s s', run es s = Some s' -> made s `prefix_of` made s'.
Proof.
  induction es as [|e es IH]; intros s s' Hr; [by simplify_eq/=|]. cbn [run] in Hr.
  destruct (step e s) as [s1|] eqn:Hs; [|done]. etrans; [|by eapply IH].
  destruct (made_step _ _ _ Hs) as [[-> _]|[(id & _ & -> & _)|(cb & c & _ & _ & -> & _)]]; [done..|].
  by apply prefix_app_r.
Qed.

(** Packets that were read stay read. *)
Lemma received_step s e s' : step e s = Some s' -> received s `prefix_of` received s'.
Proof. intros Hs. u_cases Hs; u_simpl; done || by eexists. Qed.

Lemma received_run es : forall s s', run es s = Some s' -> received s `prefix_of` received s'.
Proof.
  induction es as [|e es IH]; intros s s' Hr; [by simplify_eq/=|]. cbn [run] in Hr.
  destruct (step e s) as [s1|] eqn:Hs; [|done]. etrans; [by eapply received_step|by eapply IH].
Qed.

Definition port_arrived (l : Port) : list (UDPAddr * list byte) := received (udp l).

Lemma port_subscribe_ok l cb l' r :
  port_ok l -> port_subscribe l cb = (l', r) ->
  port_ok l' /\ port_arrived l `prefix_of` port_arrived l' /\
  forall id, r = Some id -> port_callback l' id = Some cb.
Proof.
  intros [Hr Hp] Hs. unfold port_subscribe in Hs. set (c := fresh (dom (chans (udp l)))) in *.
  set (s1 := set_chan c (mkChan 1 []) (udp l)).
  assert (step (EMakeChan 1) (udp l) = Some s1) as Hs1 by done.
  rewrite Hs1 in Hs. cbn [mbind option_bind] in Hs.
  destruct (step (ESubscribe (Some cb) (Some c)) s1) as [s2|] eqn:Hs2; [|by simplify_eq].
  injection Hs as <- <-.
  assert (reachable s1) as Hr1 by (by eapply reachable_step).
  assert (forall i sub, made (udp l) !! i = Some sub -> ch sub <> c) as Hnew.
  { intros i sub Hi Hc. destruct (do_chan _ (delivery_ok_reachable _ Hr) sub) as [k Hk];
      [by eapply list_elem_of_lookup_2|]. rewrite Hc in Hk. by apply fresh_ne in Hk. }
  destruct (made_step _ _ _ Hs2) as [[Hm Hsub]|[(? & ? & _)|(cb' & c' & He & _ & Hm & Hsub)]]; [|done|].
  { exfalso. unfold step in Hs2. destruct (chan_known _ _); [|done]. simplify_eq/=.
    apply (f_equal length) in Hm. rewrite length_app in Hm. simpl in Hm. lia. }
  simplify_eq. split; [|split].
  - split; [by eapply reachable_step|]. cbn [udp private]. rewrite Hm.
    intros x i j sub sub' Hx Hi Hj <- Hch.
    apply lookup_app_Some in Hi as [Hi|[Hi' Hi]], Hj as [Hj|[Hj' Hj]].
    + apply elem_of_union in Hx as [Hx|Hx%elem_of_singleton]; [by eapply Hp|]. by destruct (Hnew _ _ Hi).
    + apply list_lookup_singleton_Some in Hj as [_ <-]. by destruct (Hnew _ _ Hi).
    + apply list_lookup_singleton_Some in Hi as [_ <-]. by destruct (Hnew _ _ Hj).
    + apply list_lookup_singleton_Some in Hi as [Hi _], Hj as [Hj _]. lia.
  - apply received_step in Hs1, Hs2. by etrans.
  - intros id [= <-]. unfold port_callback. cbn [udp private]. rewrite Hsub, lookup_insert_eq.
    cbn [ch callback]. rewrite decide_True; [done|set_solver].
Qed.

Lemma port_send_ok l ok target data l' b :
  port_ok l -> port_send l ok target data = (l', b) ->
  port_ok l' /\ port_arrived l `prefix_of` port_arrived l' /\
  forall id, port_callback l' id = port_callback l id.
Proof.
  intros Hok Hs. unfold port_send in Hs.
  destruct (step (ESend target data) (udp l)) as [s1|] eqn:Hs1; [|by simplify_eq].
  assert (port_ok (mkPort s1 (private l))) as Hok1
    by (by apply (port_ok_step l (ESend target data))).
  assert (forall s e s', step e s = Some s' -> (forall id, e <> EUnsubscribe id) ->
    (forall cb c, e <> ESubscribe cb c) -> subscriptions s' = subscriptions s) as Hsub.
  { intros s e s' He H1 H2.
    destruct (made_step _ _ _ He) as [[_ ->]|[(id & -> & _)|(cb & c & -> & _)]]; [done|..];
      [by destruct (H1 id)|by destruct (H2 (Some cb) (Some c))]. }
  destruct (step (ERun _ ok None) s1) as [s2|] eqn:Hs2; simplify_eq; unfold port_callback; cbn [udp private].
  - split; [by eapply (port_ok_step (mkPort s1 (private l)) (ERun _ ok None))|].
    split; [etrans; by eapply received_step|]. intros id.
    by rewrite (Hsub _ _ _ Hs2), (Hsub _ _ _ Hs1).
  - split; [done|]. split; [by eapply received_step|]. intros id. by rewrite (Hsub _ _ _ Hs1).
Qed.

Lemma port_await_ok l id cb es l' r :
  port_ok l -> port_callback l id = Some cb -> port_await l id es = (l', r) ->
  port_ok l' /\ port_arrived l `prefix_of` port_arrived l' /\
  forall data, r = Some data -> zlen data <= 65535 /\
    exists src, (src, data) ∈ port_arrived l' /\ cb src data = true.
Proof.
  intros Hok Hcb Ha. unfold port_await in Ha. unfold port_callback in Hcb.
  destruct (subscriptions (udp l) !! id) as [sub|] eqn:Hid; [|done].
  destruct (decide (ch sub ∈ private l)) as [Hpriv|]; [|done]. injection Hcb as <-.
  destruct (forallb (respects l) es) eqn:Hes; [|by simplify_eq].
  destruct (run es (udp l)) as [s|] eqn:Hrun; [|by simplify_eq].
  pose proof (port_ok_run es l s Hok Hes Hrun) as Hok1.
  pose proof (received_run _ _ _ Hrun) as Hpre.
  destruct (chans s !! ch sub) as [k|] eqn:Hk; cbn [mbind option_bind] in Ha;
    [|simplify_eq; by split_and!].
  destruct (head (buf k)) as [data|] eqn:Hh; [|simplify_eq; by split_and!].
  assert (zlen data <= 65535 /\ exists src, (src, data) ∈ received s /\ callback sub src data = true) as Hgood.
  { destruct (delivery_ok_reachable s (proj1 Hok1)) as [_ _ _ Hch Hsz].
    destruct (Hch _ _ Hk) as [_ Hp]. destruct (Hp data) as (sub' & src & Hm & Hc & Hrec & Hacc).
    { destruct (buf k) as [|d q]; [done|]. simplify_eq/=. by left. }
    rewrite Forall_forall in Hsz. split; [by apply (Hsz (src, data))|]. exists src.
    split; [done|]. pose proof (do_made _ (delivery_ok_reachable _ (proj1 Hok)) id sub Hid) as Hin.
    apply list_elem_of_lookup_1 in Hin as [i Hi], Hm as [j Hj].
    apply (prefix_lookup_Some _ (made s)) in Hi; [|by eapply made_run].
    assert (i = j) as -> by (by eapply (proj2 Hok1)). cbn [udp] in *. congruence. }
  destruct (step (EReceive (ch sub)) s) as [s'|] eqn:Hrecv; simplify_eq.
  - pose proof (received_step _ _ _ Hrecv) as Hrec. unfold port_arrived. cbn [udp].
    split; [by apply (port_ok_step (mkPort s (private l)) (EReceive (ch sub)))|].
    split; [by etrans|]. intros ? [= <-]. destruct Hgood as (Hsz & src & Hsrc & Hcb). split; [done|].
    exists src. split; [|done]. destruct Hrec as [q ->]. apply elem_of_app. by left.
  - split; [done|]. by split.
Qed.

Lemma port_unsubscribe_ok l id :
  port_ok l -> port_ok (port_unsubscribe l id) /\
  port_arrived l `prefix_of` port_arrived (port_unsubscribe l id) /\
  port_callback (port_unsubscribe l id) id = None.
Proof.
  intros Hok. unfold port_unsubscribe.
  destruct (step (EUnsubscribe id) (udp l)) as [s|] eqn:Hs.
  - split; [by apply (port_ok_step l (EUnsubscribe id))|].
    split; [by eapply received_step|]. unfold port_callback. cbn [udp private].
    unfold step, UnsubscribeFromPacketReceived in Hs.
    destruct (subscriptions (udp l) !! id) as [sub|] eqn:Hid; simplify_eq/=; [|by rewrite Hid].
    by rewrite lookup_delete_eq.
  - unfold step, UnsubscribeFromPacketReceived in Hs. by destruct (subscriptions (udp l) !! id).
Qed.

#[export] Instance udp_port : IUdpPortListener Port := {|
  sched := list event;
  listener_ok := port_ok;
  arrived := port_arrived;
  callbackOf := port_callback;
  Subscribe := port_subscribe;
  SendPacketTo := port_send;
  await := port_await;
  Unsubscribe := port_unsubscribe;
|}.

#[export] Instance udp_port_laws : PortListenerLaws Port.
Proof.
  constructor.
  - apply port_subscribe_ok.
  - apply port_send_ok.
  - apply port_await_ok.
  - apply port_unsubscribe_ok.
Qed.

End UdpPort.
