(* ===== verification/Discoverer.v ===== *)
(** * Discoverer: discovery of the public address

    Models [src/stun/stun_discoverer.go] above the parser: one query of a server, the
    round over all configured servers, and the background loop with [Start] and [Stop].
    The queries are written against the interface [IUdpPortListener], so that they hold
    for every listener that keeps its laws, the UDP listener among them. What the
    outside world does during a query (name resolution, randomness, the network, time)
    is a record of choices. *)

From S2P Require Import Prelude Threads InviteKey Identity StunParse UdpListener UdpInvariant PortListener.
From Stdlib Require Import Strings.Byte.

Module Discoverer.
Import Identity StunParse.

(** ** [net.IP.String] *)

(** [ip.To4()]. *)
Definition to4 (ip : list byte) : option (list byte) :=
  if zlen ip =? 4 then Some ip
  else if (zlen ip =? 16) && bool_decide (take 12 ip = replicate 10 x00 ++ [xff; xff])
  then Some (drop 12 ip)
  else None.

(** What the text of an address depends on: an IPv4 address prints the same in both of
    its forms. *)
Definition ipKey (ip : list byte) : list byte := default ip (to4 ip).

Definition sameIPString (a b : list byte) : bool := bool_decide (ipKey a = ipKey b).

(** ** One query *)

Inductive QueryError :=
| ErrResolveServer
| ErrRandom
| ErrSubscribe
| ErrSendRequest
| ErrContext
| ErrTimedOut
| ErrResponse (e : StunError).

(** The binding request. *)
Definition bindingRequest (txID : list byte) : list byte :=
  putUint16 0x0001 ++ putUint16 0x0000 ++ putUint32 magicCookie ++ txID.

(** The callback: packets of the server with the cookie and the transaction id. *)
Definition matchResponse (serverAddr : UDPAddr) (txID : list byte) (sourceAddr : UDPAddr)
    (data : list byte) : outcome StunError bool :=
  if negb (sameIPString (IP sourceAddr) (IP serverAddr)) || negb (Port sourceAddr =? Port serverAddr)
  then Ret false else
  if zlen data <? 20 then Ret false else
  cookie ← u32_at data 4;
  if negb (cookie =? magicCookie) then Ret false else
  msgTxID ← go_slice data 8 20;
  Ret (bool_decide (msgTxID = txID)).

Definition responseFilter (serverAddr : UDPAddr) (txID : list byte) : PacketCallback :=
  fun sourceAddr data =>
    match matchResponse serverAddr txID sourceAddr data with Ret b => b | _ => false end.

Section discoverer.
Context {L : Type} `{!IUdpPortListener L}.

(** What ends the wait of a query: the context, two seconds, or a receive on the
    channel after others have moved. *)
Inductive waiting := WaitContext | WaitTimeout | WaitPacket (s : sched).

Record QueryEnv := mkQueryEnv {
  q_resolve : list byte -> option UDPAddr;
  q_random : option (list byte);
  q_send : bool;
  q_wait : waiting;
}.

(** The select of [queryServer]; a receive that finds nothing goes on until the
    timeout. *)
Definition awaitResponse (env : QueryEnv) (txID : list byte) (id : Z) (l : L)
    : L * outcome QueryError UDPAddr :=
  match q_wait env with
  | WaitContext => (l, Fail ErrContext)
  | WaitTimeout => (l, Fail ErrTimedOut)
  | WaitPacket s =>
      match await l id s with
      | (l, Some packet) => (l, wrap_err ErrResponse (parseSTUNResponse packet txID))
      | (l, None) => (l, Fail ErrTimedOut)
      end
  end.

Definition queryServer (env : QueryEnv) (server : list byte) (l : L)
    : L * outcome QueryError UDPAddr :=
  match q_resolve env server with
  | None => (l, Fail ErrResolveServer)
  | Some serverAddr =>
      match q_random env with
      | None => (l, Fail ErrRandom)
      | Some txID =>
          match Subscribe l (responseFilter serverAddr txID) with
          | (l, None) => (l, Fail ErrSubscribe)
          | (l, Some subID) =>
              match SendPacketTo l (q_send env) serverAddr (bindingRequest txID) with
              | (l, false) => (Unsubscribe l subID, Fail ErrSendRequest)
              | (l, true) =>
                  let '(l, res) := awaitResponse env txID subID l in
                  (Unsubscribe l subID, res)
              end
          end
      end
  end.

(** ** A round over the servers *)

Section round.
Context {ecdhPrivateKey : Type}.

(** The address that the parser returns is a new object. *)
Definition allocAddr (st : Store) (a : UDPAddr) : Store * ref :=
  let '(st, arr) := newArray st (IP a) in
  newAddr st (mkAddrObj (Some arr) (Port a) (Zone a)).

(** [queryAll]: [env i] says whether the context is done before the query of the
    [i]-th server, and what happens during it. *)
Fixpoint queryAll (env : nat -> bool * QueryEnv) (i : nat) (servers : list (list byte))
    (l : L) (st : Store) (id : @Identity ecdhPrivateKey)
    : outcome QueryError (L * Store * @Identity ecdhPrivateKey) :=
  match servers with
  | [] => Ret (l, st, id)
  | server :: servers =>
      if (env i).1 then Ret (l, st, id) else
      match queryServer (env i).2 server l with
      | (l, Ret addr) =>
          let '(st, p) := allocAddr st addr in
          let '(st, id) := SetPublicAddr st id (Some p) in
          Ret (l, st, id)
      | (l, Fail _) => queryAll env (S i) servers l st id
      | (_, Panic) => Panic
      | (_, Diverge) => Diverge
      end
  end.

(** The answer of the first server that gives one before the context is done. *)
Fixpoint firstAnswer (env : nat -> bool * QueryEnv) (i : nat) (servers : list (list byte)) (l : L)
    : option UDPAddr :=
  match servers with
  | [] => None
  | server :: servers =>
      if (env i).1 then None else
      match queryServer (env i).2 server l with
      | (_, Ret addr) => Some addr
      | (l, _) => firstAnswer env (S i) servers l
      end
  end.

End round.

(** ** Properties *)

Context `{!PortListenerLaws L}.

(** The callback never panics. *)
Lemma matchResponse_returns server txID src data : returns (matchResponse server txID src data).
Proof.
  unfold matchResponse. destruct (_ || _); [done|].
  destruct (Z.ltb_spec (zlen data) 20); [done|].
  destruct (@u32_at_ok StunError data 4) as (c & -> & _); [lia..|]. go_bind.
  destruct (negb _); [done|]. apply returns_bind; [auto with go|]. done.
Qed.

(** A packet that passes the callback is the server's. *)
Lemma responseFilter_true server txID src data :
  responseFilter server txID src data = true ->
  ipKey (IP src) = ipKey (IP server) /\ Port src = Port server.
Proof.
  unfold responseFilter, matchResponse. destruct (negb _ || negb _) eqn:E; [done|].
  apply orb_false_iff in E as [E1 E2]. apply negb_false_iff in E1, E2. intros _.
  split; [by apply bool_decide_eq_true in E1|by apply Z.eqb_eq in E2].
Qed.

(** An address that was learnt: a packet has arrived from the address of the server, no
    longer than the read buffer, that parses as the response to the transaction. *)
Definition learnt (l : L) (env : QueryEnv) (server : list byte) (a : UDPAddr) : Prop :=
  exists serverAddr txID src data,
    q_resolve env server = Some serverAddr /\ q_random env = Some txID /\ (src, data) ∈ arrived l /\
    ipKey (IP src) = ipKey (IP serverAddr) /\ Port src = Port serverAddr /\
    zlen data <= 65535 /\ parseSTUNResponse data txID = Ret a.

(** What was learnt stays learnt. *)
Lemma learnt_later l l' env server a :
  arrived l `prefix_of` arrived l' -> learnt l env server a -> learnt l' env server a.
Proof.
  intros [q Hq] (serverAddr & txID & src & data & H1 & H2 & Hin & Hrest).
  exists serverAddr, txID, src, data. split_and!; try done; [|tauto..]. rewrite Hq.
  apply elem_of_app. by left.
Qed.

Lemma awaitResponse_spec env server serverAddr txID id l l' res :
  q_resolve env server = Some serverAddr -> q_random env = Some txID ->
  listener_ok l -> callbackOf l id = Some (responseFilter serverAddr txID) ->
  awaitResponse env txID id l = (l', res) ->
  listener_ok l' /\ arrived l `prefix_of` arrived l' /\ returns res /\
  forall a, res = Ret a -> learnt l' env server a.
Proof.
  intros Hres Hrnd Hok Hcb Ha. unfold awaitResponse in Ha.
  destruct (q_wait env) as [| |s]; [by simplify_eq|by simplify_eq|].
  destruct (await l id s) as [l1 r] eqn:Hw.
  destruct (await_ok _ _ _ _ _ _ Hok Hcb Hw) as (Hok1 & Hpre & Hgood).
  destruct r as [packet|]; simplify_eq; [|by split_and!].
  destruct (Hgood packet eq_refl) as (Hsz & src & Hsrc & Hf). split_and!; [done|done| |].
  - auto using parse_returns with go.
  - intros a Hp. apply wrap_err_Ret_inv in Hp. destruct (responseFilter_true _ _ _ _ Hf) as [H1 H2].
    by exists serverAddr, txID, src, packet.
Qed.

Lemma queryServer_spec env server l l' res :
  listener_ok l -> queryServer env server l = (l', res) ->
  listener_ok l' /\ arrived l `prefix_of` arrived l' /\ returns res /\
  forall a, res = Ret a -> learnt l' env server a.
Proof.
  intros Hok Hq. unfold queryServer in Hq.
  destruct (q_resolve env server) as [serverAddr|] eqn:Hres; [|by simplify_eq].
  destruct (q_random env) as [txID|] eqn:Hrnd; [|by simplify_eq].
  destruct (Subscribe l (responseFilter serverAddr txID)) as [l1 [subID|]] eqn:Hsub;
    destruct (Subscribe_ok _ _ _ _ Hok Hsub) as (Hok1 & Hpre1 & Hcb1); [|by simplify_eq].
  destruct (SendPacketTo l1 (q_send env) serverAddr (bindingRequest txID)) as [l2 [|]] eqn:Hsend;
    destruct (SendPacketTo_ok _ _ _ _ _ _ Hok1 Hsend) as (Hok2 & Hpre2 & Hcb2).
  - destruct (awaitResponse env txID subID l2) as [l3 r] eqn:Hw. simplify_eq.
    eapply (awaitResponse_spec env server) in Hw as (Hok3 & Hpre3 & Hr & Hl); try done.
    + destruct (Unsubscribe_ok l3 subID Hok3) as (Hok4 & Hpre4 & _).
      split_and!; [done| |done|intros a Ha; by eapply learnt_later, Hl].
      by repeat (etrans; [eassumption|]).
    + rewrite Hcb2. by apply Hcb1.
  - simplify_eq. destruct (Unsubscribe_ok l2 subID Hok2) as (Hok4 & Hpre4 & _).
    split_and!; [done| |done|done]. by repeat (etrans; [eassumption|]).
Qed.

(** C25. A query of a STUN server always comes back, without a panic, and returns an
    address only if a packet has arrived from the address and port that the server's name
    resolved to and parses as the response to this query's random transaction id. *)
Theorem queryServer_sound env server l l' res :
  listener_ok l -> queryServer env server l = (l', res) ->
  returns res /\ forall a, res = Ret a -> learnt l' env server a.
Proof. intros Hok Hq. by apply queryServer_spec in Hq as (_ & _ & ? & ?). Qed.

(** A query leaves no subscription behind: on every path after the subscription,
    errors included, the subscription it made is gone when it returns. *)
Theorem queryServer_unsubscribes env server serverAddr txID l l1 id l' res :
  listener_ok l -> q_resolve env server = Some serverAddr -> q_random env = Some txID ->
  Subscribe l (responseFilter serverAddr txID) = (l1, Some id) ->
  queryServer env server l = (l', res) ->
  callbackOf l' id = None.
Proof.
  intros Hok Hres Hrnd Hsub Hq. unfold queryServer in Hq. rewrite Hres, Hrnd, Hsub in Hq.
  destruct (Subscribe_ok _ _ _ _ Hok Hsub) as (Hok1 & Hpre1 & Hcb1).
  destruct (SendPacketTo l1 (q_send env) serverAddr (bindingRequest txID)) as [l2 [|]] eqn:Hsend;
    destruct (SendPacketTo_ok _ _ _ _ _ _ Hok1 Hsend) as (Hok2 & Hpre2 & Hcb2).
  - destruct (awaitResponse env txID id l2) as [l3 r] eqn:Hw. simplify_eq.
    eapply (awaitResponse_spec env server) in Hw as (Hok3 & _); try done; [by apply Unsubscribe_ok|].
    rewrite Hcb2. by apply Hcb1.
  - simplify_eq. by apply Unsubscribe_ok.
Qed.

Section publish.
Context {ecdhPrivateKey : Type}.
Implicit Types (id : @Identity ecdhPrivateKey).

(** The identity is well formed in the store. *)
Definition identity_ok (st : Store) id : Prop := isolated (mkSys st id ∅ ∅).

(** Setting a new address. *)
Lemma publish_spec st id a st1 p st2 id' :
  identity_ok st id -> allocAddr st a = (st1, p) -> SetPublicAddr st1 id (Some p) = (st2, id') ->
  identity_ok st2 id' /\ publicAddrValue st2 id' = Some a.
Proof.
  intros Hok Ha Hs. unfold allocAddr, newArray, newAddr in Ha. simplify_eq/=.
  set (st1 := mkStore _ _) in Hs.
  assert (identity_ok st1 id) as Hok1.
  { destruct Hok as (_ & _ & Hp). split_and!; [set_solver|set_solver|].
    cbn [ident store] in *. destruct (publicAddr id) as [q|]; [|done].
    destruct Hp as [_ (o & Ho & Hip)]. split; [set_solver|]. exists o. split.
    - simpl. rewrite lookup_insert_ne; [done|]. by eapply fresh_ne.
    - intros arr Harr. destruct (Hip arr Harr). simpl. set_solver. }
  destruct (SetPublicAddr_refines _ _ _ _ Hok1 Hs) as [Hok2 Hv]. split; [exact Hok2|].
  rewrite Hv. unfold deref. cbn [store mbind option_bind]. simpl. rewrite lookup_insert_eq. simpl.
  unfold valueOf, readSlice. simpl. rewrite lookup_insert_eq. by destruct a.
Qed.

Lemma queryAll_spec servers env st id : forall k l,
  listener_ok l -> identity_ok st id ->
  exists l' st' id', queryAll env k servers l st id = Ret (l', st', id') /\
    listener_ok l' /\ arrived l `prefix_of` arrived l' /\ identity_ok st' id' /\
    match firstAnswer env k servers l with
    | Some a => publicAddrValue st' id' = Some a /\
        exists i server, servers !! i = Some server /\ learnt l' (env (k + i)%nat).2 server a
    | None => st' = st /\ id' = id
    end.
Proof.
  induction servers as [|server servers IH]; intros k l Hok Hid; cbn [queryAll firstAnswer].
  { exists l, st, id. by split_and!. }
  destruct (env k).1; [exists l, st, id; by split_and!|].
  destruct (queryServer (env k).2 server l) as [l1 res] eqn:Hq.
  destruct (queryServer_spec _ _ _ _ _ Hok Hq) as (Hok1 & Hpre1 & Hret & Hl).
  destruct res as [a|e| |]; try done.
  - destruct (allocAddr st a) as [st1 p] eqn:Ha.
    destruct (SetPublicAddr st1 id (Some p)) as [st2 id'] eqn:Hs.
    destruct (publish_spec _ _ _ _ _ _ _ Hid Ha Hs) as [Hid' Hv].
    exists l1, st2, id'. split_and!; try done. exists 0%nat, server. rewrite Nat.add_0_r. auto.
  - destruct (IH (S k) l1 Hok1 Hid) as (l' & st' & id' & -> & Hok' & Hpre' & Hid' & Hv).
    exists l', st', id'. split_and!; try done; [by etrans|].
    destruct (firstAnswer env (S k) servers l1) as [a|]; [|done].
    destruct Hv as (Hv & i & sv & Hi & Hle). split; [done|]. exists (S i), sv.
    rewrite Nat.add_succ_r. auto.
Qed.

(** C26. A round of discovery ends. It publishes the address of the first server that
    answers before the context is done, and that address was learnt from a packet of
    that configured server; when no server answers, the identity is left as it was. *)
Theorem queryAll_publishes servers env l st id :
  listener_ok l -> identity_ok st id ->
  exists l' st' id', queryAll env 0 servers l st id = Ret (l', st', id') /\
    match firstAnswer env 0 servers l with
    | Some a => publicAddrValue st' id' = Some a /\
        exists i server, servers !! i = Some server /\ learnt l' (env i).2 server a
    | None => st' = st /\ id' = id
    end.
Proof.
  intros Hok Hid. destruct (queryAll_spec servers env st id 0 l Hok Hid) as (l' & st' & id' & Hq & _ & _ & _ & Hv).
  by exists l', st', id'.
Qed.

End publish.
End discoverer.
End Discoverer.

(** ** Start, Stop and the background loop *)

Module DiscoveryLoop.

(** The loop is in its first round of [queryAll], before the ticker is made, in a later
    round, or at its select. *)
Inductive pc :=
| DFirst (ctx : nat)
| DRound (ctx : nat)
| DSelect (ctx : nat)
| DStopWait
| DReturned (err : bool).

Record Discoverer := mkDiscoverer {
  servers : list (list byte);
  interval : Z;                        (* in nanoseconds *)
  isRunning : bool;
  cancel : option nat;
  wg : Z;
  ctxs : gmap nat bool;                (* whether the context is done *)
  threads : gmap nat pc;
  panicked : bool;
}.

Definition NewDiscoverer (servers : list (list byte)) (interval : Z) : Discoverer :=
  mkDiscoverer servers interval false None 0 ∅ ∅ false.

Definition set_thread (t : nat) (c : pc) (s : Discoverer) : Discoverer :=
  mkDiscoverer (servers s) (interval s) (isRunning s) (cancel s) (wg s) (ctxs s)
    (<[t := c]> (threads s)) (panicked s).

Definition set_panicked (s : Discoverer) : Discoverer :=
  mkDiscoverer (servers s) (interval s) (isRunning s) (cancel s) (wg s) (ctxs s) (threads s) true.

Definition spawn (c : pc) (s : Discoverer) : Discoverer := set_thread (fresh (dom (threads s))) c s.

(** [Start], under the lock. *)
Definition do_start (s : Discoverer) : Discoverer :=
  if isRunning s then spawn (DReturned true) s else
  if (length (servers s) =? 0)%nat then spawn (DReturned true) s else
  let ctx := fresh (dom (ctxs s)) in
  let s := mkDiscoverer (servers s) (interval s) true (Some ctx) (wg s + 1)
             (<[ctx := false]> (ctxs s)) (threads s) (panicked s) in
  spawn (DReturned false) (spawn (DFirst ctx) s).

(** The section of [Stop] under the lock. *)
Definition do_stop (s : Discoverer) : Discoverer :=
  if negb (isRunning s) then spawn (DReturned false) s else
  let ctxs := match cancel s with Some ctx => <[ctx := true]> (ctxs s) | None => ctxs s end in
  spawn DStopWait (mkDiscoverer (servers s) (interval s) false (cancel s) (wg s) ctxs (threads s)
                     (panicked s)).

(** The end of the first round: [time.NewTicker] panics on an interval that is not
    positive. *)
Definition do_ticker (t ctx : nat) (s : Discoverer) : Discoverer :=
  if interval s <=? 0 then set_panicked s else set_thread t (DSelect ctx) s.

(** The select of [discoveryLoop]: either ready case may be chosen; the ticker is
    ready from time to time. *)
Definition do_select (t ctx : nat) (tick : bool) (s : Discoverer) : option Discoverer :=
  if tick then Some (set_thread t (DRound ctx) s) else
  match ctxs s !! ctx with
  | Some true => Some (mkDiscoverer (servers s) (interval s) (isRunning s) (cancel s) (wg s - 1)
                         (ctxs s) (delete t (threads s)) (panicked s))
  | _ => None
  end.

Inductive event := EStart | EStop | ERun (t : nat) (tick : bool) | ECancelParent (ctx : nat).

Definition step (e : event) (s : Discoverer) : option Discoverer :=
  if panicked s then None else
  match e with
  | EStart => Some (do_start s)
  | EStop => Some (do_stop s)
  | ERun t tick =>
      match threads s !! t with
      | Some (DFirst ctx) => Some (do_ticker t ctx s)
      | Some (DRound ctx) => Some (set_thread t (DSelect ctx) s)
      | Some (DSelect ctx) => do_select t ctx tick s
      | Some DStopWait => if wg s =? 0 then Some (set_thread t (DReturned false) s) else None
      | _ => None
      end
  | ECancelParent ctx =>
      match ctxs s !! ctx with
      | Some _ => Some (mkDiscoverer (servers s) (interval s) (isRunning s) (cancel s) (wg s)
                          (<[ctx := true]> (ctxs s)) (threads s) (panicked s))
      | None => None
      end
  end.

Inductive reachable (svs : list (list byte)) (iv : Z) : Discoverer -> Prop :=
| reachable_new : reachable svs iv (NewDiscoverer svs iv)
| reachable_step s e s' : reachable svs iv s -> step e s = Some s' -> reachable svs iv s'.

Fixpoint run (es : list event) (s : Discoverer) : option Discoverer :=
  match es with
  | [] => Some s
  | e :: es => s' ← step e s; run es s'
  end.

Lemma loop_run_reachable svs iv es : forall s s',
  reachable svs iv s -> run es s = Some s' -> reachable svs iv s'.
Proof.
  induction es as [|e es IH]; intros s s' Hs Hr; simpl in Hr; [by simplify_eq|].
  destruct (step e s) as [s1|] eqn:He; [|done]. eapply IH; [|done]. by eapply reachable_step.
Qed.

Definition in_loop (c : pc) : bool := match c with DFirst _ | DRound _ | DSelect _ => true | _ => false end.

(** The loop of a context. *)
Definition loop_of (ctx : nat) (c : pc) : Prop :=
  match c with DFirst x | DRound x | DSelect x => x = ctx | _ => False end.

(** The wait group counts the loops; a context has at most one loop, and it exists; a
    context that is not done is the current one of a discoverer that runs. *)
Record loop_ok s : Prop := {
  lk_wg : wg s = count_threads in_loop (threads s);
  lk_one ctx : one_thread (loop_of ctx) (threads s);
  lk_ctx t c ctx : threads s !! t = Some c -> loop_of ctx c -> is_Some (ctxs s !! ctx);
  lk_live ctx : ctxs s !! ctx = Some false -> isRunning s = true /\ cancel s = Some ctx;
  lk_run : isRunning s = true -> is_Some (cancel s);
  lk_cancel ctx : cancel s = Some ctx -> is_Some (ctxs s !! ctx);
}.

Ltac d_simpl := cbn [servers interval isRunning cancel wg ctxs threads panicked spawn set_thread set_panicked] in *.

Lemma loop_ok_move s t c c' :
  loop_ok s -> threads s !! t = Some c -> in_loop c' = in_loop c ->
  (forall ctx, loop_of ctx c' -> loop_of ctx c) -> loop_ok (set_thread t c' s).
Proof.
  intros [H1 H2 H3 H4 H5 H6] Ht Hin Hof. constructor; d_simpl; try done.
  - rewrite (count_move in_loop (threads s) t c c' Ht), Hin. lia.
  - intros ctx. eapply one_thread_move; [done|auto|done].
  - intros u d ctx Hu Hd. lookup_cases Hu; eauto.
Qed.

Lemma loop_ok_spawn s c : loop_ok s -> in_loop c = false -> loop_ok (spawn c s).
Proof.
  intros [H1 H2 H3 H4 H5 H6] Hc. assert (forall ctx, loop_of ctx c -> False) as Hno by (by destruct c).
  constructor; d_simpl; try done.
  - rewrite count_spawn, Hc. lia.
  - intros ctx. apply one_thread_spawn; [by eauto|done].
  - intros u d ctx Hu Hd. lookup_cases Hu; [by destruct (Hno ctx)|eauto].
Qed.

(** Cancelling a context. *)
Lemma loop_ok_cancel s ctx b :
  loop_ok s -> is_Some (ctxs s !! ctx) -> (b = isRunning s \/ b = false /\ cancel s = Some ctx) ->
  loop_ok (mkDiscoverer (servers s) (interval s) b (cancel s) (wg s) (<[ctx := true]> (ctxs s))
             (threads s) (panicked s)).
Proof.
  intros [H1 H2 H3 H4 H5 H6] Hx Hb. constructor; d_simpl; try done.
  - intros t c x Ht Hc. apply lookup_insert_is_Some'. right. eauto.
  - intros x Hl. lookup_cases Hl. destruct (H4 x Hl) as [Hr Hc].
    destruct Hb as [->|[-> Hcn]]; [done|]. congruence.
  - intros Hr. destruct Hb as [->|[-> _]]; [by auto|done].
  - intros x Hc. apply lookup_insert_is_Some'. right. auto.
Qed.

Lemma loop_ok_start s :
  loop_ok s -> isRunning s = false ->
  let ctx := fresh (dom (ctxs s)) in
  loop_ok (spawn (DFirst ctx)
    (mkDiscoverer (servers s) (interval s) true (Some ctx) (wg s + 1) (<[ctx := false]> (ctxs s))
       (threads s) (panicked s))).
Proof.
  intros [H1 H2 H3 H4 H5 H6] Hoff ctx. constructor; d_simpl.
  - rewrite count_spawn. simpl. lia.
  - intros x. destruct (decide (x = ctx)) as [->|Hne].
    + apply one_thread_enter. intros (u & c & Hu & Hc). destruct (H3 _ _ _ Hu Hc) as [b Hb].
      by apply fresh_ne in Hb.
    + apply one_thread_spawn; [simpl; congruence|done].
  - intros t c x Ht Hc. lookup_cases Ht; [simpl in Hc; subst; rewrite lookup_insert_eq; by eauto|].
    apply lookup_insert_is_Some'. right. eauto.
  - intros x Hl. lookup_cases Hl; [done|]. destruct (H4 x Hl). congruence.
  - by eauto.
  - intros x [= <-]. rewrite lookup_insert_eq. by eauto.
Qed.

Lemma loop_ok_step s e s' : loop_ok s -> step e s = Some s' -> loop_ok s'.
Proof.
  intros Hok Hs. unfold step in Hs. destruct (panicked s) eqn:Hp; [done|]. destruct e as [| |t tick|ctx].
  - injection Hs as <-. unfold do_start. destruct (isRunning s) eqn:Hr; [by apply loop_ok_spawn|].
    destruct (_ =? 0)%nat; [by apply loop_ok_spawn|]. apply loop_ok_spawn; [|done]. by apply loop_ok_start.
  - injection Hs as <-. unfold do_stop. destruct (isRunning s) eqn:Hr; [|by apply loop_ok_spawn].
    destruct (lk_run s Hok Hr) as [ctx Hc]. cbn [negb].
    replace (match cancel s with Some x => <[x := true]> (ctxs s) | None => ctxs s end)
      with (<[ctx := true]> (ctxs s)) by (by rewrite Hc).
    apply loop_ok_spawn; [|done]. apply loop_ok_cancel; [done|by apply (lk_cancel s Hok)|by right].
  - destruct (threads s !! t) as [c|] eqn:Ht; [|done]. destruct c; simplify_eq.
    + unfold do_ticker. destruct (interval s <=? 0); [|by eapply loop_ok_move].
      destruct Hok. by constructor.
    + by eapply loop_ok_move.
    + unfold do_select in Hs. destruct tick; [simplify_eq; by eapply loop_ok_move|].
      destruct (ctxs s !! ctx) as [[]|]; simplify_eq. destruct Hok as [H1 H2 H3 H4 H5 H6].
      constructor; d_simpl; try done.
      * erewrite count_delete by done. simpl. lia.
      * intros x. by apply one_thread_delete.
      * intros u d x Hu Hd. lookup_cases Hu. eauto.
    + destruct (wg s =? 0); simplify_eq. by eapply loop_ok_move.
  - destruct (ctxs s !! ctx) eqn:Hx; [|done]. injection Hs as <-. rewrite <- Hp. apply loop_ok_cancel; [done|by eauto|by left].
Qed.

Lemma loop_ok_reachable svs iv s : reachable svs iv s -> loop_ok s.
Proof.
  induction 1; [|by eapply loop_ok_step]. by constructor.
Qed.


(** When the parent context is cancelled the loop ends but the discoverer still
    counts as running: [Start] then reports that it is already running although no
    loop is left. *)
Theorem start_after_cancel_fails sv :
  exists s s', run [EStart; ECancelParent 0; ERun 0 false; ERun 0 false] (NewDiscoverer [sv] 1) = Some s /\
    wg s = 0 /\ step EStart s = Some s' /\ wg s' = 0 /\ threads s' !! 2%nat = Some (DReturned true).
Proof. eexists _, _. split_and!; vm_compute; reflexivity. Qed.

(** ** Stop returns *)

Lemma discovery_run_app es1 es2 : forall s, run (es1 ++ es2) s = run es1 s ≫= run es2.
Proof.
  induction es1 as [|e es1 IH]; intros s; [done|]. cbn [run app].
  destruct (step e s); [|done]. apply IH.
Qed.

(** A loop moves to its select and ends there. *)
Definition loop_ended s s' (t : nat) : Prop :=
  threads s' = delete t (threads s) /\ wg s' = wg s - 1 /\ isRunning s' = isRunning s /\
  panicked s' = panicked s.

Lemma select_ends s t ctx :
  panicked s = false -> threads s !! t = Some (DSelect ctx) -> ctxs s !! ctx = Some true ->
  exists s', run [ERun t false] s = Some s' /\ loop_ended s s' t.
Proof.
  intros Hp Ht Hx. eexists. split; [cbn [run]; unfold step, do_select; by rewrite Hp, Ht, Hx|].
  by split_and!.
Qed.

Lemma servers_reachable svs iv s : reachable svs iv s -> servers s = svs.
Proof.
  induction 1 as [|s e s' _ IH Hs]; [done|]. rewrite <- IH. unfold step in Hs.
  destruct (panicked s); [done|].
  destruct e as [| |t tick|ctx]; unfold do_select in Hs; repeat case_match; simplify_eq; try done.
  - unfold do_start. by repeat case_match.
  - unfold do_stop. by repeat case_match.
  - unfold do_ticker. by case_match.
Qed.

(** The interval does not change, and only a bad one makes the discoverer panic. *)
Definition interval_ok (iv : Z) s : Prop := interval s = iv /\ (panicked s = true -> iv <= 0).

Lemma interval_ok_reachable svs iv s : reachable svs iv s -> interval_ok iv s.
Proof.
  unfold interval_ok. induction 1 as [|s e s' _ [IH1 IH2] Hs]; [done|].
  unfold step in Hs. destruct (panicked s) eqn:Hp; [done|].
  destruct e as [| |t tick|ctx]; repeat case_match; simplify_eq; d_simpl; try done.
  - unfold do_start. repeat case_match; d_simpl; by rewrite ?Hp.
  - unfold do_stop. repeat case_match; d_simpl; by rewrite ?Hp.
  - unfold do_ticker. destruct (Z.leb_spec (interval s) 0); d_simpl; [done|by rewrite Hp].
  - by rewrite Hp.
  - unfold do_select in Hs. repeat case_match; simplify_eq; d_simpl; by rewrite Hp.
  - by rewrite Hp.
Qed.

Section stop.
Context (svs : list (list byte)) (iv : Z) (Hpos : 0 < iv).

Lemma no_panic s : reachable svs iv s -> panicked s = false /\ interval s = iv.
Proof.
  intros Hr. destruct (interval_ok_reachable _ _ _ Hr) as [Hiv Hp]. split; [|done].
  destruct (panicked s); [|done]. specialize (Hp eq_refl). lia.
Qed.

Lemma cancelled_loop_ends s t c ctx :
  reachable svs iv s -> threads s !! t = Some c -> loop_of ctx c -> ctxs s !! ctx = Some true ->
  exists n s', (n <= 2)%nat /\ run (replicate n (ERun t false)) s = Some s' /\ loop_ended s s' t.
Proof.
  intros Hr Ht Hc Hx. destruct (no_panic s Hr) as [Hp Hiv].
  assert (step (ERun t false) s = Some (set_thread t (DSelect ctx) s) ->
    exists n s', (n <= 2)%nat /\ run (replicate n (ERun t false)) s = Some s' /\ loop_ended s s' t) as Hround.
  { intros Hs. destruct (select_ends (set_thread t (DSelect ctx) s) t ctx) as (s' & Hs' & He);
      [done|apply lookup_insert_eq|done|].
    exists 2%nat, s'. split; [lia|]. cbn [replicate run]. rewrite Hs. split; [done|].
    destruct He as (Hth & ?). split; [|done]. rewrite Hth. d_simpl. apply delete_insert_eq. }
  destruct c as [x|x|x| |]; simpl in Hc; try done; subst x.
  - apply Hround. unfold step, do_ticker. rewrite Hp, Ht.
    by rewrite (proj2 (Z.leb_gt (interval s) 0)) by lia.
  - apply Hround. unfold step. by rewrite Hp, Ht.
  - destruct (select_ends s t ctx Hp Ht Hx) as (s' & ?). by exists 1%nat, s'; split; [lia|].
Qed.

(** All the loops of a discoverer that does not run end. *)
Lemma discovery_loops_end n : forall s,
  reachable svs iv s -> isRunning s = false -> count_threads in_loop (threads s) = Z.of_nat n ->
  exists es s', Forall (fun e => exists u, e = ERun u false) es /\ run es s = Some s' /\
    reachable svs iv s' /\ wg s' = 0 /\
    forall u, threads s !! u = Some DStopWait -> threads s' !! u = Some DStopWait.
Proof.
  induction n as [|n IH]; intros s Hr Hi Hn; pose proof (loop_ok_reachable _ _ s Hr) as Hok.
  { exists [], s. split_and!; [constructor|done|done|by rewrite (lk_wg s Hok)|done]. }
  destruct (count_some in_loop (threads s)) as (u & c & Hu & Hc); [lia|].
  assert (exists ctx, loop_of ctx c) as [ctx Hl] by (destruct c; try done; by eexists).
  destruct (lk_ctx s Hok u c ctx Hu Hl) as [b Hb].
  assert (b = true) as -> by (destruct b; [done|]; by destruct (lk_live s Hok ctx Hb); congruence).
  destruct (cancelled_loop_ends s u c ctx Hr Hu Hl Hb) as (k & s1 & _ & Hrun & Hth & Hw1 & Hi1 & _).
  assert (reachable svs iv s1) as Hr1 by (by eapply loop_run_reachable).
  destruct (IH s1) as (es & s' & Hes & Hrun' & Hr' & Hw' & Hkeep); [done|congruence| |].
  { rewrite <- (lk_wg s1 (loop_ok_reachable _ _ s1 Hr1)), Hw1, (lk_wg s Hok). lia. }
  exists (replicate k (ERun u false) ++ es), s'.
  split_and!; [|by rewrite discovery_run_app, Hrun|done|done|].
  - apply Forall_app. split; [|done]. apply Forall_replicate. eauto.
  - intros v Hv. apply Hkeep. rewrite Hth, lookup_delete_ne; [done|]. intros ->. simplify_eq.
Qed.

End stop.

(** C32. With a positive interval [Stop] returns: from every reachable state in which
    the discoverer was not started again, a call of [Stop] that waits can return, by
    steps of the discovery loops alone. *)
Theorem Stop_can_return svs iv s t :
  0 < iv -> reachable svs iv s -> isRunning s = false -> threads s !! t = Some DStopWait ->
  exists es s', Forall (fun e => exists u, e = ERun u false) es /\ run es s = Some s' /\
    threads s' !! t = Some (DReturned false).
Proof.
  intros Hpos Hr Hi Ht. pose proof (count_nonneg in_loop (threads s)).
  destruct (discovery_loops_end svs iv Hpos (Z.to_nat (count_threads in_loop (threads s))) s Hr Hi)
    as (es & s1 & Hes & Hrun & Hr1 & Hw & Hkeep); [lia|].
  exists (es ++ [ERun t false]), (set_thread t (DReturned false) s1). split_and!.
  - apply Forall_app. split; [done|]. apply Forall_singleton. eauto.
  - rewrite discovery_run_app, Hrun. cbn [mbind option_bind run]. unfold step.
    by rewrite (proj1 (no_panic svs iv Hpos s1 Hr1)), (Hkeep t Ht), Hw.
  - apply lookup_insert_eq.
Qed.

(** The interval decides whether the discoverer can bring the daemon down: with a
    positive one no state is a panic; with any other a started discoverer panics at the
    end of its first round, because neither [NewDiscoverer] nor [Start] checks it. *)
Theorem interval_panics svs iv :
  (0 < iv -> forall s, reachable svs iv s -> panicked s = false) /\
  (iv <= 0 -> svs <> [] ->
   exists s, run [EStart; ERun 0 false] (NewDiscoverer svs iv) = Some s /\ panicked s = true).
Proof.
  split; [intros Hpos s Hr; by apply (no_panic svs iv)|]. intros Hneg Hsv.
  destruct svs as [|sv svs]; [done|]. set (s1 := do_start (NewDiscoverer (sv :: svs) iv)).
  assert (threads s1 !! 0%nat = Some (DFirst 0)) as Ht by (vm_compute; reflexivity).
  exists (set_panicked s1). split; [|done].
  change (step (ERun 0 false) s1 ≫= run [] = Some (set_panicked s1)).
  unfold step. rewrite Ht. change (panicked s1) with false. cbn [mbind option_bind run].
  unfold do_ticker. change (interval s1) with iv. by rewrite (proj2 (Z.leb_le iv 0) Hneg).
Qed.

End DiscoveryLoop.

(** ** Concrete runs *)

Module DiscovererWitness.
Import Identity StunParse StunWitness UdpListener UdpPort Discoverer.

Definition port0 : Port := mkPort (UdpInvariant.state_after [EStart BindOk; ERun 0 true None]) ∅.

Lemma port0_ok : port_ok port0.
Proof. split; [apply UdpInvariant.udp_state_after_reachable|]. intros c i j sub sub' Hc. set_solver. Qed.

Definition serverAddr0 : UDPAddr := mkUDPAddr [xc0; x00; x02; x01] 3478 [].
Definition server0 : list byte := bstr "stun.example.org:3478".

(** The response to the request: the read loop reads it and delivers it. *)
Definition response0 : list byte := encodeResponse tx0 [mkAttr 0x0020 (encodeXORMapped addr0 tx0) []].

Definition env0 : @QueryEnv Port udp_port :=
  @mkQueryEnv Port udp_port (fun _ => Some serverAddr0) (Some tx0) true
    (@WaitPacket Port udp_port
      [ERun 1 true None; ERun 1 true (Some (serverAddr0, response0)); ERun 1 true None;
       ERun 4 true None; ERun 4 true None]).

Lemma queryServer_sound_witness :
  (queryServer env0 server0 port0).2 = Ret addr0 /\
  learnt (queryServer env0 server0 port0).1 env0 server0 addr0.
Proof.
  assert ((queryServer env0 server0 port0).2 = Ret addr0) as Hq by (vm_compute; reflexivity).
  split; [exact Hq|].
  apply (queryServer_sound env0 server0 port0 (queryServer env0 server0 port0).1
           (queryServer env0 server0 port0).2); [apply port0_ok|apply surjective_pairing|exact Hq].
Defined.

Lemma queryServer_unsubscribes_witness :
  callbackOf (queryServer env0 server0 port0).1 1 = None.
Proof.
  apply (queryServer_unsubscribes env0 server0 serverAddr0 tx0 port0
           (Subscribe port0 (responseFilter serverAddr0 tx0)).1 1
           (queryServer env0 server0 port0).1 (queryServer env0 server0 port0).2).
  - apply port0_ok.
  - reflexivity.
  - reflexivity.
  - vm_compute. reflexivity.
  - apply surjective_pairing.
Defined.

Definition st0 : Store := mkStore ∅ ∅.
Definition ident0 : @Identity unit := mkIdentity None tt (mkPublicKey X25519 []) None None.

Lemma queryAll_publishes_witness :
  firstAnswer (fun _ => (false, env0)) 0 [server0] port0 = Some addr0 /\
  exists l' st' id', queryAll (fun _ => (false, env0)) 0 [server0] port0 st0 ident0 = Ret (l', st', id').
Proof.
  split; [vm_compute; reflexivity|].
  destruct (queryAll_publishes [server0] (fun _ => (false, env0)) port0 st0 ident0)
    as (l' & st' & id' & Hq & _).
  - apply port0_ok.
  - split; [set_solver|]. split; [set_solver|]. exact I.
  - exists l', st', id'. exact Hq.
Defined.


(** Started and stopped; the loop is goroutine 0, [Stop] goroutine 2. *)
Definition stopping : DiscoveryLoop.Discoverer :=
  default (DiscoveryLoop.NewDiscoverer [server0] 1)
    (DiscoveryLoop.run [DiscoveryLoop.EStart; DiscoveryLoop.EStop] (DiscoveryLoop.NewDiscoverer [server0] 1)).

Lemma Stop_can_return_witness :
  exists es s', DiscoveryLoop.run es stopping = Some s' /\
    DiscoveryLoop.threads s' !! 2%nat = Some (DiscoveryLoop.DReturned false).
Proof.
  destruct (DiscoveryLoop.Stop_can_return [server0] 1 stopping 2) as (es & s' & _ & Hrun & Ht).
  - reflexivity.
  - eapply DiscoveryLoop.loop_run_reachable with (es := [DiscoveryLoop.EStart; DiscoveryLoop.EStop]);
      [apply DiscoveryLoop.reachable_new|vm_compute; reflexivity].
  - vm_compute. reflexivity.
  - vm_compute. reflexivity.
  - exists es, s'. split; [exact Hrun|exact Ht].
Defined.

Lemma interval_panics_witness :
  exists s, DiscoveryLoop.run [DiscoveryLoop.EStart; DiscoveryLoop.ERun 0 false]
      (DiscoveryLoop.NewDiscoverer [server0] 0) = Some s /\ DiscoveryLoop.panicked s = true.
Proof. apply (DiscoveryLoop.interval_panics [server0] 0); [lia|discriminate]. Defined.

End DiscovererWitness.
