(* ===== verification/Discovery.v ===== *)
(** * Discovery: the discoverer as a whole

    Puts the parts of [Discoverer] together: the background loop of
    [src/stun/stun_discoverer.go], whose rounds query the servers over the UDP port and
    publish what they learn in the identity, while everybody else uses the port. *)

From S2P Require Import Prelude Threads Identity StunParse UdpListener UdpInvariant PortListener Discoverer.

Module Discovery.
Import Identity StunParse Discoverer.

Section discovery.
Context {L : Type} `{!IUdpPortListener L} `{!PortListenerLaws L} {ecdhPrivateKey : Type}.

Record System := mkSystem {
  loop : DiscoveryLoop.Discoverer;
  port : L;
  store : Store;
  ident : @Identity ecdhPrivateKey;
}.

(** The context of the round that the step runs. *)
Definition in_round (e : DiscoveryLoop.event) (d : DiscoveryLoop.Discoverer) : option nat :=
  match e with
  | DiscoveryLoop.ERun t _ =>
      match DiscoveryLoop.threads d !! t with
      | Some (DiscoveryLoop.DFirst ctx) | Some (DiscoveryLoop.DRound ctx) => Some ctx
      | _ => None
      end
  | _ => None
  end.

(** What the round meets: a context that is done stays done. *)
Definition round_env (d : DiscoveryLoop.Discoverer) (ctx : nat) (env : nat -> bool * QueryEnv)
    : nat -> bool * QueryEnv :=
  match DiscoveryLoop.ctxs d !! ctx with
  | Some true => fun i => (true, (env i).2)
  | _ => env
  end.

(** A step of the loop, of [Start] or of [Stop]; [env] is what a round meets. *)
Definition step (e : DiscoveryLoop.event) (env : nat -> bool * QueryEnv) (s : System) : option System :=
  d ← DiscoveryLoop.step e (loop s);
  match in_round e (loop s) with
  | None => Some (mkSystem d (port s) (store s) (ident s))
  | Some ctx =>
      match queryAll (round_env (loop s) ctx env) 0 (DiscoveryLoop.servers (loop s)) (port s)
              (store s) (ident s) with
      | Ret (l, st, id) => Some (mkSystem d l st id)
      | Fail _ | Panic => Some (mkSystem (DiscoveryLoop.set_panicked (loop s)) (port s) (store s) (ident s))
      | Diverge => None
      end
  end.

(** The states of a discoverer; [reachable_port] is what others do to the port. *)
Inductive reachable (s0 : System) : System -> Prop :=
| reachable_start : reachable s0 s0
| reachable_step s e env s' : reachable s0 s -> step e env s = Some s' -> reachable s0 s'
| reachable_port s l : reachable s0 s -> listener_ok l -> arrived (port s) `prefix_of` arrived l ->
    reachable s0 (mkSystem (loop s) l (store s) (ident s)).

(** A new discoverer. *)
Definition start_ok (servers : list (list byte)) (interval : Z) (s : System) : Prop :=
  loop s = DiscoveryLoop.NewDiscoverer servers interval /\ listener_ok (port s) /\
  identity_ok (store s) (ident s).

(** The address in the identity is the one that it had, or was learnt from one of the
    servers. *)
Definition address_ok (servers : list (list byte)) (s0 s : System) : Prop :=
  publicAddrValue (store s) (ident s) = publicAddrValue (store s0) (ident s0) \/
  exists env server a, server ∈ servers /\ learnt (port s) env server a /\
    publicAddrValue (store s) (ident s) = Some a.

Record system_ok servers interval s0 s : Prop := {
  so_loop : DiscoveryLoop.reachable servers interval (loop s);
  so_port : listener_ok (port s);
  so_ident : identity_ok (store s) (ident s);
  so_address : address_ok servers s0 s;
}.

Lemma address_later servers s0 s d l :
  arrived (port s) `prefix_of` arrived l -> address_ok servers s0 s ->
  address_ok servers s0 (mkSystem d l (store s) (ident s)).
Proof.
  intros Hp [H|(env & server & a & Hin & Hl & Ha)]; [by left|right].
  exists env, server, a. split_and!; [done|by eapply learnt_later|done].
Qed.

Lemma system_ok_step servers interval s0 s e env s' :
  system_ok servers interval s0 s -> step e env s = Some s' -> system_ok servers interval s0 s'.
Proof.
  intros [H1 H2 H3 H4] Hs. unfold step in Hs.
  destruct (DiscoveryLoop.step e (loop s)) as [d|] eqn:Hd; [|done]. cbn [mbind option_bind] in Hs.
  assert (DiscoveryLoop.reachable servers interval d) as Hr by (by eapply DiscoveryLoop.reachable_step).
  destruct (in_round e (loop s)) as [ctx|]; [|by simplify_eq].
  destruct (queryAll_spec (DiscoveryLoop.servers (loop s)) (round_env (loop s) ctx env)
    (store s) (ident s) 0 (port s) H2 H3) as (l & st & id & Hq & Hl & Hpre & Hid & Hv).
  rewrite Hq in Hs. injection Hs as <-. constructor; [done..|]. cbn [port store ident].
  destruct (firstAnswer _ _ _ _) as [a|].
  - destruct Hv as (Hv & i & server & Hi & Hle). right.
    exists (round_env (loop s) ctx env (0 + i)%nat).2, server, a. split_and!; [|done..].
    eapply list_elem_of_lookup_2. by rewrite <- (DiscoveryLoop.servers_reachable servers interval (loop s) H1).
  - destruct Hv as [-> ->]. by eapply (address_later servers s0 s d l).
Qed.

Lemma system_ok_reachable servers interval s0 s :
  start_ok servers interval s0 -> reachable s0 s -> system_ok servers interval s0 s.
Proof.
  intros (Hd & Hl & Hi). induction 1 as [|s e env s' _ IH Hs|s l _ [H1 H2 H3 H4] Hok Hpre].
  - constructor; [rewrite Hd; constructor|done..|by left].
  - by eapply system_ok_step.
  - constructor; [done..|]. by apply address_later.
Qed.


End discovery.
End Discovery.

(** ** A concrete run *)

Module DiscoveryWitness.
Import Identity StunParse StunWitness UdpListener UdpPort Discoverer DiscovererWitness Discovery.

Definition system0 : @System Port unit :=
  mkSystem (DiscoveryLoop.NewDiscoverer [server0] 1) port0 st0 ident0.

Lemma system0_ok : start_ok [server0] 1 system0.
Proof.
  split; [reflexivity|]. split; [apply port0_ok|]. split; [set_solver|]. split; [set_solver|]. exact I.
Qed.

(** The discoverer is started, and its first round gets an answer. *)
Definition started0 : option (@System Port unit) :=
  s ← step DiscoveryLoop.EStart (fun _ => (false, env0)) system0;
  step (DiscoveryLoop.ERun 0 false) (fun _ => (false, env0)) s.


End DiscoveryWitness.
