(* ===== verification/SessionManager.v ===== *)
(** * SessionManager: local application sessions

    Models [src/ipc/session_manager.go] as an interleaving of goroutines. Every
    goroutine is at a program point ([pc]); one step runs it to the next point at
    which another goroutine can observe or change what it depends on: a lock that
    is taken or released, a channel operation, an operation on the connection, or a
    callback. The critical sections of [sm.mu] and of [sess.writeMu] are one step
    each, as the locks make them. A callback may call the session manager again; the
    calls run in its goroutine, and [role] says who goes on when they return. A session is a shared object, so sessions live
    in a heap and the table holds references; so do connections.

    Panics of the runtime (a send on a closed channel, a close of a closed channel)
    set [panicked]. *)

From S2P Require Import Prelude Framing.

Module SessionManager.
Import Framing.

(** [interfaces.DID]. *)
Abbreviation DID := Z.
Abbreviation ref := nat.

Definition sessionQueueSize : nat := 1024.

Record outboundPacket := mkPacket { p_opcode : Z; p_statusCode : Z; p_data : list byte }.

(** The bytes of a packet on the wire. *)
Definition packetFrame (pkt : outboundPacket) : list byte :=
  responseFrame (p_opcode pkt) (p_statusCode pkt) (p_data pkt).

(** [sync.Once]: not called, running, or done. *)
Inductive Once := OnceIdle | OnceRunning | OnceDone.

(** [SessionState]. The outbound channel is its buffer and whether it is closed.
    [accepted] and [taken] are ghost history: the packets that went into the
    channel, and those that came out of it. *)
Record SessionState := mkSession {
  s_DID : DID;
  s_Conn : ref;
  outbound : list outboundPacket;
  chanClosed : bool;
  isClosed : bool;
  closeOnce : Once;
  accepted : list outboundPacket;
  taken : list outboundPacket;
}.

(** A connection: what its peer sends, what it has been sent, and whether this
    side has closed it. *)
Record Conn := mkConn { c_reader : Reader; c_writer : Writer; c_closed : bool }.

(** Results of the calls. *)
Inductive SmError :=
| ErrNilConnection
| ErrCloseFailed (did : DID)
| ErrNotFound (did : DID)
| ErrClosed (did : DID)
| ErrSessionBlocked.

(** What a callback may ask of the session manager. *)
Inductive call :=
| CSend (did : DID) (pkt : outboundPacket)
| CUnregister (did : DID)
| CClose.

(** Who has made a call, and goes on when it returns: a loop of a session in its
    deferred call, the background goroutine of [SendToLocal], an outside caller, the
    control callback in the read loop of a session, or the close callback of a session,
    which runs in an [UnregisterSession] that has a caller of its own. A callback has
    calls that it has still to make. *)
Inductive role :=
| ByReadLoop (p : ref)
| ByWriteLoop (p : ref)
| ByBackground
| ByCaller
| ByControl (p : ref) (more : list call)
| ByClose (r : role) (did : DID) (p : ref) (closeErr : bool) (more : list call).

Section model.
(** The state behind the callbacks. A callback changes it and makes a sequence of calls
    of the session manager; the control callback is given a frame, the close callback the
    identifier of the session. *)
Context {W : Type}.

Definition ControlCallback : Type := W -> DID -> Z -> list byte -> W * list call.
Definition CloseCallback : Type := W -> DID -> W * list call.

Inductive pc :=
(* RegisterSession *)
| PRegister (conn : ref)
(* UnregisterSession: before the table lock; before the once; inside the once,
   before Conn.Close; inside the once, before the callback; the calls of the callback *)
| PUnreg (r : role) (did : DID)
| PUnregOnce (r : role) (did : DID) (p : ref) (cb : option CloseCallback)
| PUnregConn (r : role) (did : DID) (p : ref) (cb : option CloseCallback)
| PUnregCallback (r : role) (did : DID) (p : ref) (cb : option CloseCallback) (closeErr : bool)
| PUnregCalls (r : role) (did : DID) (p : ref) (closeErr : bool) (calls : list call)
(* SendToLocal: before the table lock; before the write lock *)
| PSend (r : role) (did : DID) (pkt : outboundPacket)
| PSendLocked (r : role) (did : DID) (p : ref) (pkt : outboundPacket)
(* readLoop: the select; the read; the callback; the calls of the callback *)
| PReadTop (p : ref)
| PReadPacket (p : ref)
| PReadControl (p : ref) (opcode : Z) (payload : list byte)
| PReadCalls (p : ref) (calls : list call)
(* writeLoop: the select; the write *)
| PWriteTop (p : ref)
| PWritePacket (p : ref) (pkt : outboundPacket)
(* Close *)
| PCloseCancel (r : role)
| PCloseSwap (r : role)
| PCloseConns (r : role) (active : list ref)
| PCloseWait (r : role)
(* returned *)
| PReturned (err : option SmError)
| PRegistered (did : DID).

Record SM := mkSM {
  sessions : gmap DID ref;
  heap : gmap ref SessionState;
  conns : gmap ref Conn;
  nextDID : Z;
  registrations : Z;                 (* ghost: how many sessions were registered *)
  ctxDone : bool;
  wg : Z;
  onClose : option CloseCallback;
  onControl : option ControlCallback;
  world : W;
  threads : gmap nat pc;
  closeLog : list ref;               (* ghost: sessions whose onClose was called *)
  panicked : bool;
}.

Definition NewSessionManager (w : W) : SM :=
  {| sessions := ∅; heap := ∅; conns := ∅; nextDID := 0; registrations := 0;
     ctxDone := false; wg := 0; onClose := None; onControl := None; world := w;
     threads := ∅; closeLog := []; panicked := false |}.

(** ** Updates *)

Definition set_thread (t : nat) (c : pc) (s : SM) : SM :=
  {| sessions := sessions s; heap := heap s; conns := conns s; nextDID := nextDID s;
     registrations := registrations s; ctxDone := ctxDone s; wg := wg s;
     onClose := onClose s; onControl := onControl s; world := world s;
     threads := <[t := c]> (threads s); closeLog := closeLog s; panicked := panicked s |}.

(** [go f()]. *)
Definition spawn (c : pc) (s : SM) : SM := set_thread (fresh (dom (threads s))) c s.

(** The goroutine ends. *)
Definition kill_thread (t : nat) (s : SM) : SM :=
  {| sessions := sessions s; heap := heap s; conns := conns s; nextDID := nextDID s;
     registrations := registrations s; ctxDone := ctxDone s; wg := wg s;
     onClose := onClose s; onControl := onControl s; world := world s;
     threads := delete t (threads s); closeLog := closeLog s; panicked := panicked s |}.

Definition set_session (p : ref) (o : SessionState) (s : SM) : SM :=
  {| sessions := sessions s; heap := <[p := o]> (heap s); conns := conns s;
     nextDID := nextDID s; registrations := registrations s; ctxDone := ctxDone s; wg := wg s;
     onClose := onClose s; onControl := onControl s; world := world s;
     threads := threads s; closeLog := closeLog s; panicked := panicked s |}.

Definition set_sessions (m : gmap DID ref) (s : SM) : SM :=
  {| sessions := m; heap := heap s; conns := conns s; nextDID := nextDID s;
     registrations := registrations s; ctxDone := ctxDone s; wg := wg s;
     onClose := onClose s; onControl := onControl s; world := world s;
     threads := threads s; closeLog := closeLog s; panicked := panicked s |}.

Definition set_conn (c : ref) (o : Conn) (s : SM) : SM :=
  {| sessions := sessions s; heap := heap s; conns := <[c := o]> (conns s);
     nextDID := nextDID s; registrations := registrations s; ctxDone := ctxDone s; wg := wg s;
     onClose := onClose s; onControl := onControl s; world := world s;
     threads := threads s; closeLog := closeLog s; panicked := panicked s |}.

Definition set_wg (n : Z) (s : SM) : SM :=
  {| sessions := sessions s; heap := heap s; conns := conns s; nextDID := nextDID s;
     registrations := registrations s; ctxDone := ctxDone s; wg := n;
     onClose := onClose s; onControl := onControl s; world := world s;
     threads := threads s; closeLog := closeLog s; panicked := panicked s |}.

Definition set_counters (next regs : Z) (s : SM) : SM :=
  {| sessions := sessions s; heap := heap s; conns := conns s; nextDID := next;
     registrations := regs; ctxDone := ctxDone s; wg := wg s;
     onClose := onClose s; onControl := onControl s; world := world s;
     threads := threads s; closeLog := closeLog s; panicked := panicked s |}.

Definition set_ctxDone (s : SM) : SM :=
  {| sessions := sessions s; heap := heap s; conns := conns s; nextDID := nextDID s;
     registrations := registrations s; ctxDone := true; wg := wg s;
     onClose := onClose s; onControl := onControl s; world := world s;
     threads := threads s; closeLog := closeLog s; panicked := panicked s |}.

Definition set_callbacks (closed : option CloseCallback) (cb : option ControlCallback) (s : SM) : SM :=
  {| sessions := sessions s; heap := heap s; conns := conns s; nextDID := nextDID s;
     registrations := registrations s; ctxDone := ctxDone s; wg := wg s;
     onClose := closed; onControl := cb; world := world s;
     threads := threads s; closeLog := closeLog s; panicked := panicked s |}.

Definition set_world (w : W) (s : SM) : SM :=
  {| sessions := sessions s; heap := heap s; conns := conns s; nextDID := nextDID s;
     registrations := registrations s; ctxDone := ctxDone s; wg := wg s;
     onClose := onClose s; onControl := onControl s; world := w;
     threads := threads s; closeLog := closeLog s; panicked := panicked s |}.

Definition log_close (p : ref) (s : SM) : SM :=
  {| sessions := sessions s; heap := heap s; conns := conns s; nextDID := nextDID s;
     registrations := registrations s; ctxDone := ctxDone s; wg := wg s;
     onClose := onClose s; onControl := onControl s; world := world s;
     threads := threads s; closeLog := closeLog s ++ [p]; panicked := panicked s |}.

Definition set_panicked (s : SM) : SM :=
  {| sessions := sessions s; heap := heap s; conns := conns s; nextDID := nextDID s;
     registrations := registrations s; ctxDone := ctxDone s; wg := wg s;
     onClose := onClose s; onControl := onControl s; world := world s;
     threads := threads s; closeLog := closeLog s; panicked := true |}.

Definition with_queue (o : SessionState) (q acc tk : list outboundPacket) : SessionState :=
  mkSession (s_DID o) (s_Conn o) q (chanClosed o) (isClosed o) (closeOnce o) acc tk.

(** [sess.isClosed = true] and [close(sess.outbound)]. *)
Definition closed_chan (o : SessionState) : SessionState :=
  mkSession (s_DID o) (s_Conn o) (outbound o) true true (closeOnce o) (accepted o) (taken o).

Definition with_once (o : SessionState) (x : Once) : SessionState :=
  mkSession (s_DID o) (s_Conn o) (outbound o) (chanClosed o) (isClosed o) x (accepted o) (taken o).

(** [conn.Close()]. *)
Definition close_conn (c : ref) (s : SM) : SM :=
  match conns s !! c with
  | Some k => set_conn c (mkConn (c_reader k) (c_writer k) true) s
  | None => s
  end.

(** ** Calls and returns *)

(** The goroutine makes a call of a callback. *)
Definition start_call (t : nat) (r : role) (c : call) (s : SM) : SM :=
  match c with
  | CSend did pkt => set_thread t (PSend r did pkt) s
  | CUnregister did => set_thread t (PUnreg r did) s
  | CClose => set_thread t (PCloseCancel r) s
  end.

(** A call returns: the deferred functions of a loop go on to [wg.Done], the background
    goroutine ends, an outside caller gets the result, a callback makes its next call. *)
Definition finish (t : nat) (r : role) (err : option SmError) (s : SM) : SM :=
  match r with
  | ByReadLoop _ | ByWriteLoop _ => kill_thread t (set_wg (wg s - 1) s)
  | ByBackground => kill_thread t s
  | ByCaller => set_thread t (PReturned err) s
  | ByControl p more => set_thread t (PReadCalls p more) s
  | ByClose r did p closeErr more => set_thread t (PUnregCalls r did p closeErr more) s
  end.

(** ** RegisterSession *)

(** The section under [sm.mu]: the next identifier (an atomic 32-bit increment),
    the session, the table entry, and the two loops. *)
Definition do_register (t : nat) (conn : ref) (s : SM) : SM :=
  let did := u32 (nextDID s + 1) in
  let p := fresh (dom (heap s)) in
  let sess := mkSession did conn [] false false OnceIdle [] [] in
  let s := set_counters did (registrations s + 1) s in
  let s := set_session p sess s in
  let s := set_sessions (<[did := p]> (sessions s)) s in
  let s := set_wg (wg s + 2) s in
  let s := spawn (PReadTop p) s in
  let s := spawn (PWriteTop p) s in
  set_thread t (PRegistered did) s.

(** ** UnregisterSession *)

(** The section under [sm.mu]. *)
Definition do_unregister (t : nat) (r : role) (did : DID) (s : SM) : SM :=
  match sessions s !! did with
  | None => finish t r (Some (ErrNotFound did)) s
  | Some p =>
      set_thread t (PUnregOnce r did p (onClose s)) (set_sessions (delete did (sessions s)) s)
  end.

(** Entering [closeOnce.Do]: a second caller waits for a running one and then
    skips; the first runs the section under [writeMu]. *)
Definition do_unregister_once (t : nat) (r : role) (did : DID) (p : ref)
    (cb : option CloseCallback) (s : SM) : option SM :=
  match heap s !! p with
  | None => None
  | Some o =>
      match closeOnce o with
      | OnceRunning => None
      | OnceDone => Some (finish t r None s)
      | OnceIdle =>
          let o := with_once o OnceRunning in
          if isClosed o then Some (set_thread t (PUnregConn r did p cb) (set_session p o s))
          else if chanClosed o then Some (set_panicked s)
          else Some (set_thread t (PUnregConn r did p cb) (set_session p (closed_chan o) s))
      end
  end.

(** [sess.Conn.Close()], which may report an error. *)
Definition do_unregister_conn (t : nat) (r : role) (did : DID) (p : ref)
    (cb : option CloseCallback) (closeErr : bool) (s : SM) : option SM :=
  match heap s !! p with
  | None => None
  | Some o => Some (set_thread t (PUnregCallback r did p cb closeErr) (close_conn (s_Conn o) s))
  end.

(** The once is done and the call returns the close error. *)
Definition do_unregister_done (t : nat) (r : role) (did : DID) (p : ref) (closeErr : bool) (s : SM)
    : option SM :=
  match heap s !! p with
  | None => None
  | Some o =>
      let err := if closeErr then Some (ErrCloseFailed did) else None in
      Some (finish t r err (set_session p (with_once o OnceDone) s))
  end.

(** [onClose(did)], inside the once, if there is a callback. *)
Definition do_unregister_callback (t : nat) (r : role) (did : DID) (p : ref)
    (cb : option CloseCallback) (closeErr : bool) (s : SM) : option SM :=
  match cb with
  | None => do_unregister_done t r did p closeErr s
  | Some f =>
      let '(w, calls) := f (world s) did in
      Some (set_thread t (PUnregCalls r did p closeErr calls) (log_close p (set_world w s)))
  end.

Definition do_unregister_calls (t : nat) (r : role) (did : DID) (p : ref) (closeErr : bool)
    (calls : list call) (s : SM) : option SM :=
  match calls with
  | [] => do_unregister_done t r did p closeErr s
  | c :: more => Some (start_call t (ByClose r did p closeErr more) c s)
  end.

(** ** SendToLocal *)

(** The lookup under [sm.mu]. *)
Definition do_send (t : nat) (r : role) (did : DID) (pkt : outboundPacket) (s : SM) : SM :=
  match sessions s !! did with
  | None => finish t r (Some (ErrNotFound did)) s
  | Some p => set_thread t (PSendLocked r did p pkt) s
  end.

(** The section under [writeMu]: refuse a closed session; put the packet in the
    channel if there is room; otherwise close the session and start its
    unregistration. *)
Definition do_send_locked (t : nat) (r : role) (did : DID) (p : ref) (pkt : outboundPacket)
    (s : SM) : option SM :=
  match heap s !! p with
  | None => None
  | Some o =>
      if isClosed o then Some (finish t r (Some (ErrClosed did)) s)
      else if chanClosed o then Some (set_panicked s)
      else if (length (outbound o) <? sessionQueueSize)%nat then
        Some (finish t r None
                (set_session p
                   (with_queue o (outbound o ++ [pkt]) (accepted o ++ [pkt]) (taken o)) s))
      else
        Some (finish t r (Some ErrSessionBlocked)
                (spawn (PUnreg ByBackground did) (set_session p (closed_chan o) s)))
  end.

(** ** readLoop *)

(** The deferred calls of a loop start. *)
Definition exit_read (t : nat) (p : ref) (o : SessionState) (s : SM) : SM :=
  set_thread t (PUnreg (ByReadLoop p) (s_DID o)) s.
Definition exit_write (t : nat) (p : ref) (o : SessionState) (s : SM) : SM :=
  set_thread t (PUnreg (ByWriteLoop p) (s_DID o)) s.

Definition do_read_top (t : nat) (p : ref) (s : SM) : option SM :=
  match heap s !! p with
  | None => None
  | Some o =>
      if ctxDone s then Some (exit_read t p o s) else Some (set_thread t (PReadPacket p) s)
  end.

(** [readPacket] on the connection, which fails once it is closed. *)
Definition do_read_packet (t : nat) (p : ref) (s : SM) : option SM :=
  match heap s !! p with
  | None => None
  | Some o =>
      match conns s !! s_Conn o with
      | None => None
      | Some k =>
          if c_closed k then Some (exit_read t p o s) else
          let '(res, reader) := readPacket (c_reader k) in
          let s := set_conn (s_Conn o) (mkConn reader (c_writer k) (c_closed k)) s in
          match res with
          | Ret (opcode, payload) => Some (set_thread t (PReadControl p opcode payload) s)
          | Fail _ => Some (exit_read t p o s)
          | Panic | Diverge => Some (set_panicked s)
          end
      end
  end.

Definition do_read_control (t : nat) (p : ref) (opcode : Z) (payload : list byte) (s : SM)
    : option SM :=
  match heap s !! p with
  | None => None
  | Some o =>
      match onControl s with
      | None => Some (set_thread t (PReadTop p) s)
      | Some cb =>
          let '(w, calls) := cb (world s) (s_DID o) opcode payload in
          Some (set_thread t (PReadCalls p calls) (set_world w s))
      end
  end.

Definition do_read_calls (t : nat) (p : ref) (calls : list call) (s : SM) : SM :=
  match calls with
  | [] => set_thread t (PReadTop p) s
  | c :: more => start_call t (ByControl p more) c s
  end.

(** ** writeLoop *)

(** The select: either ready case may be chosen when both are ready. *)
Definition do_write_top (t : nat) (p : ref) (takeDone : bool) (s : SM) : option SM :=
  match heap s !! p with
  | None => None
  | Some o =>
      if ctxDone s && takeDone then Some (exit_write t p o s) else
      match outbound o with
      | pkt :: q =>
          Some (set_thread t (PWritePacket p pkt)
                  (set_session p (with_queue o q (accepted o) (taken o ++ [pkt])) s))
      | [] => if chanClosed o then Some (exit_write t p o s) else None
      end
  end.

(** [writePacket] on the connection, which fails once it is closed. *)
Definition do_write_packet (t : nat) (p : ref) (pkt : outboundPacket) (s : SM) : option SM :=
  match heap s !! p with
  | None => None
  | Some o =>
      match conns s !! s_Conn o with
      | None => None
      | Some k =>
          if c_closed k then Some (exit_write t p o s) else
          let '(writer, err) :=
            writePacket (c_writer k) (p_opcode pkt) (p_statusCode pkt) (p_data pkt) in
          let s := set_conn (s_Conn o) (mkConn (c_reader k) writer (c_closed k)) s in
          match err with
          | Some _ => Some (exit_write t p o s)
          | None => Some (set_thread t (PWriteTop p) s)
          end
      end
  end.

(** ** Close *)

Definition do_close_swap (t : nat) (r : role) (s : SM) : SM :=
  let active := (map_to_list (sessions s)).*2 in
  set_thread t (PCloseConns r active) (set_sessions ∅ s).

Definition do_close_conns (t : nat) (r : role) (active : list ref) (s : SM) : option SM :=
  match active with
  | [] => Some (set_thread t (PCloseWait r) s)
  | p :: active =>
      match heap s !! p with
      | None => None
      | Some o => Some (set_thread t (PCloseConns r active) (close_conn (s_Conn o) s))
      end
  end.

(** [sm.wg.Wait()]. *)
Definition do_close_wait (t : nat) (r : role) (s : SM) : option SM :=
  if wg s =? 0 then Some (finish t r None s) else None.

(** ** Steps *)

(** What happens next: a goroutine moves (with the choice of its select, or whether
    its [Close] reports an error), an outside caller hands a new connection, or nil,
    to [RegisterSession], starts another call or sets a callback, or the parent
    context is cancelled. *)
Inductive event :=
| ERun (t : nat) (choice : bool)
| ERegister (conn : option (Reader * option nat))
| ECancelParent
| EUnregister (did : DID)
| ESend (did : DID) (pkt : outboundPacket)
| EClose
| ESetOnClose (closed : option CloseCallback)
| ESetControlCallback (cb : option ControlCallback).

Definition run_thread (t : nat) (choice : bool) (c : pc) (s : SM) : option SM :=
  match c with
  | PRegister conn => Some (do_register t conn s)
  | PUnreg r did => Some (do_unregister t r did s)
  | PUnregOnce r did p cb => do_unregister_once t r did p cb s
  | PUnregConn r did p cb => do_unregister_conn t r did p cb choice s
  | PUnregCallback r did p cb closeErr => do_unregister_callback t r did p cb closeErr s
  | PUnregCalls r did p closeErr calls => do_unregister_calls t r did p closeErr calls s
  | PSend r did pkt => Some (do_send t r did pkt s)
  | PSendLocked r did p pkt => do_send_locked t r did p pkt s
  | PReadTop p => do_read_top t p s
  | PReadPacket p => do_read_packet t p s
  | PReadControl p opcode payload => do_read_control t p opcode payload s
  | PReadCalls p calls => Some (do_read_calls t p calls s)
  | PWriteTop p => do_write_top t p choice s
  | PWritePacket p pkt => do_write_packet t p pkt s
  | PCloseCancel r => Some (set_thread t (PCloseSwap r) (set_ctxDone s))
  | PCloseSwap r => Some (do_close_swap t r s)
  | PCloseConns r active => do_close_conns t r active s
  | PCloseWait r => do_close_wait t r s
  | PReturned _ | PRegistered _ => None
  end.

Definition step (e : event) (s : SM) : option SM :=
  if panicked s then None else
  match e with
  | ERun t choice => c ← threads s !! t; run_thread t choice c s
  | ERegister None => Some (spawn (PReturned (Some ErrNilConnection)) s)
  | ECancelParent => Some (set_ctxDone s)
  | ERegister (Some (r, room)) =>
      let c := fresh (dom (conns s)) in
      Some (spawn (PRegister c) (set_conn c (mkConn r (mkWriter [] room) false) s))
  | EUnregister did => Some (spawn (PUnreg ByCaller did) s)
  | ESend did pkt => Some (spawn (PSend ByCaller did pkt) s)
  | EClose => Some (spawn (PCloseCancel ByCaller) s)
  | ESetOnClose closed => Some (set_callbacks closed (onControl s) s)
  | ESetControlCallback cb => Some (set_callbacks (onClose s) cb s)
  end.

(** The states that the program can be in. *)
Inductive reachable (w : W) : SM -> Prop :=
| reachable_new : reachable w (NewSessionManager w)
| reachable_step s e s' : reachable w s -> step e s = Some s' -> reachable w s'.

Fixpoint run (es : list event) (s : SM) : option SM :=
  match es with
  | [] => Some s
  | e :: es => s' ← step e s; run es s'
  end.

Lemma run_reachable w es : forall s s', reachable w s -> run es s = Some s' -> reachable w s'.
Proof.
  induction es as [|e es IH]; intros s s' Hs Hr; simpl in Hr; [by simplify_eq|].
  destruct (step e s) as [s1|] eqn:He; [|done]. eapply IH; [|done]. by eapply reachable_step.
Qed.

End model.
Arguments SM : clear implicits.
Arguments event : clear implicits.
Arguments ControlCallback : clear implicits.
Arguments CloseCallback : clear implicits.
Arguments pc : clear implicits.
End SessionManager.
