(* ===== verification/SessionInvariant.v ===== *)
(** * SessionInvariant: what holds in every reachable state of the session manager

    Invariants of the interleaving model of [SessionManager] and the properties
    that follow from them: the runtime never panics, the outbound queues are
    bounded and first-in first-out, the wait group counts the live loops, close
    callbacks run at most once, and no connection is leaked. *)

From S2P Require Import Prelude Threads Framing SessionManager.
From Stdlib Require Import Strings.Byte.

Module SessionInvariant.
Import Framing SessionManager.

(** Case analysis on a step: one goal per event and program point, with the guards
    of the point as hypotheses and the new state substituted. *)
Ltac step_cases H :=
  unfold step in H;
  match type of H with (if ?b then _ else _) = _ => destruct b eqn:?Hpanic; [discriminate H|] end;
  match type of H with match ?e with _ => _ end = _ => destruct e as [?t ?choice|[[?r ?room]|]| |?did|?did ?pkt| |?closed|?cb] end;
  [ match type of H with (?m ≫= _) = _ =>
      let c := fresh "c" in destruct m as [c|] eqn:Ht; [|discriminate H];
      cbn [mbind option_bind] in H; destruct c; cbn [run_thread] in H
    end
  | .. ];
  unfold do_register, do_unregister, do_unregister_once, do_unregister_conn,
    do_unregister_callback, do_unregister_calls, do_unregister_done, do_send, do_send_locked, do_read_top, do_read_packet,
    do_read_control, do_read_calls, do_write_top, do_write_packet, do_close_swap,
    do_close_conns, do_close_wait, exit_read, exit_write in H;
  repeat match type of H with
  | match ?x with _ => _ end = Some _ => destruct x eqn:?
  | (let '(_, _) := ?x in _) = Some _ => destruct x eqn:?
  end; try discriminate H; try (injection H as H; subst);
  unfold finish, start_call, close_conn, spawn;
  repeat match goal with
  | |- context [match ?x with _ => _ end] =>
      lazymatch type of x with
      | option ref => destruct x eqn:?
      | option Conn => destruct x eqn:?
      | list call => destruct x eqn:?
      | call => destruct x eqn:?
      | role => destruct x eqn:?
      end
  end.

(** Read a field of an updated state. *)
Ltac sm_simpl :=
  cbn [sessions heap conns nextDID registrations ctxDone wg onClose onControl world threads
       closeLog panicked spawn set_thread kill_thread set_session set_sessions set_conn set_wg
       set_counters set_ctxDone set_callbacks set_world log_close set_panicked
       s_DID s_Conn outbound chanClosed isClosed closeOnce accepted taken
       with_queue closed_chan with_once c_closed c_reader c_writer fst snd] in *.

Section invariants.
Context {W : Type}.
Implicit Types (s : SM W) (o : SessionState) (p t : nat).

(** ** Sessions as objects *)

(** The closed flag mirrors the channel, the buffer is bounded, and the channel is
    first-in first-out: what went in is what came out, then what is buffered. *)
Definition session_ok (o : SessionState) : Prop :=
  chanClosed o = isClosed o /\ (length (outbound o) <= sessionQueueSize)%nat /\
  accepted o = taken o ++ outbound o.

Definition objects_ok s : Prop :=
  panicked s = false /\ forall p o, heap s !! p = Some o -> session_ok o.

(** An update of one session keeps the others. *)
Lemma objects_ok_insert s p o :
  (forall q o', heap s !! q = Some o' -> session_ok o') -> session_ok o ->
  forall q o', <[p := o]> (heap s) !! q = Some o' -> session_ok o'.
Proof.
  intros Hok Ho q o' Hq. apply lookup_insert_Some in Hq as [[_ <-]|[_ Hq]]; [done|]. by eapply Hok.
Qed.

Lemma objects_ok_step s e s' : objects_ok s -> step e s = Some s' -> objects_ok s'.
Proof.
  intros [Hp Hok] Hs. step_cases Hs; unfold objects_ok; sm_simpl.
  all: try match goal with Ho : heap _ !! _ = Some ?o |- _ =>
    pose proof (Hok _ _ Ho) as (Hc & Hl & Hf) end.
  all: try (split; [done|exact Hok]).
  all: try congruence.
  all: try (split; [done|]; apply objects_ok_insert; [exact Hok|]; unfold session_ok; sm_simpl).
  all: try (split_and!; done || simpl; lia).
  all: try (split_and!; congruence).
  all: try match goal with Hr : readPacket (c_reader ?k) = (?m, _) |- _ =>
    pose proof (readPacket_returns (c_reader k)) as Hret; rewrite Hr in Hret; done end.
  all: split_and!; [done| |].
  all: try (rewrite length_app, Nat.ltb_lt in *; simpl; lia).
  all: try (rewrite Hf; try match goal with Hq : outbound _ = _ |- _ => rewrite Hq in * end;
    by rewrite <- !app_assoc).
  match goal with Hq : outbound _ = _ |- _ => rewrite Hq in Hl; simpl in Hl; lia end.
Qed.

Lemma objects_ok_reachable w s : reachable w s -> objects_ok s.
Proof.
  induction 1; [by split|]. by eapply objects_ok_step.
Qed.

(** ** The wait group *)

Fixpoint role_owes (r : role) : bool :=
  match r with
  | ByReadLoop _ | ByWriteLoop _ | ByControl _ _ => true
  | ByBackground | ByCaller => false
  | ByClose r _ _ _ _ => role_owes r
  end.

(** The goroutines that have still to call [wg.Done]: the loops, also while they
    run a callback or their deferred calls. *)
Definition owes (c : pc W) : bool :=
  match c with
  | PUnreg r _ | PUnregOnce r _ _ _ | PUnregConn r _ _ _ | PUnregCallback r _ _ _ _
  | PUnregCalls r _ _ _ _ | PSend r _ _ | PSendLocked r _ _ _
  | PCloseCancel r | PCloseSwap r | PCloseConns r _ | PCloseWait r => role_owes r
  | PReadTop _ | PReadPacket _ | PReadControl _ _ _ | PReadCalls _ _
  | PWriteTop _ | PWritePacket _ _ => true
  | _ => false
  end.

(** How many they are. *)
Definition live (m : gmap nat (pc W)) : Z := count_threads owes m.

Definition wg_ok s : Prop := wg s = live (threads s).

Lemma wg_ok_step s e s' : wg_ok s -> step e s = Some s' -> wg_ok s'.
Proof.
  unfold wg_ok, live. intros Hwg Hs. step_cases Hs; sm_simpl; subst.
  all: repeat first
    [ rewrite count_spawn
    | erewrite count_delete by (by repeat apply lookup_spawn)
    | erewrite count_move by (by repeat apply lookup_spawn) ].
  all: cbn [owes role_owes] in *; try lia.
Qed.

Lemma wg_ok_reachable w s : reachable w s -> wg_ok s.
Proof. induction 1; [done|]. by eapply wg_ok_step. Qed.

(** ** References *)

(** The identifier of every session object. *)
Definition dids s : gmap nat DID := s_DID <$> heap s.

Lemma lookup_dids s p o : heap s !! p = Some o -> dids s !! p = Some (s_DID o).
Proof. intros Hp. unfold dids. by rewrite lookup_fmap, Hp. Qed.

Lemma dids_update (h : gmap nat SessionState) p o o' :
  h !! p = Some o -> s_DID o' = s_DID o -> s_DID <$> <[p := o']> h = s_DID <$> h.
Proof.
  intros Hp Ho. rewrite fmap_insert. apply insert_id. rewrite lookup_fmap, Hp. simpl. by rewrite Ho.
Qed.

Lemma dids_new (h : gmap nat SessionState) o :
  s_DID <$> h ⊆ s_DID <$> <[fresh (dom h) := o]> h.
Proof.
  rewrite fmap_insert. apply insert_subseteq. rewrite lookup_fmap.
  rewrite (not_elem_of_dom_1 h); [done|]. apply is_fresh.
Qed.

(** The sessions of a chain of callers exist, and each unregisters its own. *)
Fixpoint role_ok (D : gmap nat DID) (r : role) (did : DID) : Prop :=
  match r with
  | ByReadLoop p | ByWriteLoop p => D !! p = Some did
  | ByControl p _ => is_Some (D !! p)
  | ByClose r did p _ _ => D !! p = Some did /\ role_ok D r did
  | ByBackground | ByCaller => True
  end.

(** [SendToLocal] and [Close] are called from outside or by a callback. *)
Definition sender_ok (D : gmap nat DID) (r : role) : Prop :=
  match r with
  | ByReadLoop _ | ByWriteLoop _ | ByBackground => False
  | _ => role_ok D r 0
  end.

(** The session references of a goroutine are to existing sessions, and the
    identifier it unregisters is that of the session it works on. *)
Definition pc_ok (D : gmap nat DID) (c : pc W) : Prop :=
  match c with
  | PUnreg r did => role_ok D r did
  | PUnregOnce r did p _ | PUnregConn r did p _ | PUnregCallback r did p _ _
  | PUnregCalls r did p _ _ => D !! p = Some did /\ role_ok D r did
  | PSend r _ _ | PCloseCancel r | PCloseSwap r | PCloseWait r => sender_ok D r
  | PSendLocked r _ p _ => is_Some (D !! p) /\ sender_ok D r
  | PReadTop p | PReadPacket p | PReadControl p _ _ | PReadCalls p _
  | PWriteTop p | PWritePacket p _ => is_Some (D !! p)
  | PCloseConns r active => Forall (fun p => is_Some (D !! p)) active /\ sender_ok D r
  | _ => True
  end.

Lemma role_ok_mono D D' r : D ⊆ D' -> forall did, role_ok D r did -> role_ok D' r did.
Proof.
  intros Hsub. induction r; intros did'; simpl; try done; try (intros; by eapply lookup_weaken).
  - intros [x Hx]. exists x. by eapply lookup_weaken.
  - intros [? ?]. split; [by eapply lookup_weaken|auto].
Qed.

Lemma pc_ok_mono D D' c : D ⊆ D' -> pc_ok D c -> pc_ok D' c.
Proof.
  intros Hsub. assert (forall p, is_Some (D !! p) -> is_Some (D' !! p)) as H1.
  { intros p [d Hd]. exists d. by eapply lookup_weaken. }
  assert (forall p d, D !! p = Some d -> D' !! p = Some d) as H2
    by (intros; by eapply lookup_weaken).
  assert (forall r, sender_ok D r -> sender_ok D' r) as H3
    by (intros []; try done; by apply (role_ok_mono D D' _ Hsub)).
  pose proof (fun r => role_ok_mono D D' r Hsub) as H4.
  destruct c; simpl; try done; try (by naive_solver).
  intros [HF Hr]. split; [|by auto]. eapply Forall_impl; [done|]. auto.
Qed.

Definition refs_ok s : Prop :=
  (forall did p, sessions s !! did = Some p -> dids s !! p = Some did) /\
  map_Forall (fun _ c => pc_ok (dids s) c) (threads s).

Lemma threads_mono s D' :
  refs_ok s -> dids s ⊆ D' -> map_Forall (fun _ c => pc_ok D' c) (threads s).
Proof. intros [_ Ht] Hsub t c Hc. eapply pc_ok_mono; [done|]. by eapply Ht. Qed.

Lemma refs_ok_step s e s' : refs_ok s -> step e s = Some s' -> refs_ok s'.
Proof.
  intros Hok Hs. pose proof Hok as [Htab Hthr].
  step_cases Hs; unfold refs_ok, dids; sm_simpl;
    try (pose proof (Hthr _ _ Ht) as Hc; cbn [pc_ok role_ok sender_ok] in Hc);
    repeat (erewrite dids_update by (done || reflexivity)); fold (dids s);
    try match goal with Ho : heap s !! ?p = Some ?o |- _ =>
      pose proof (lookup_dids _ _ _ Ho) end.
  all: try (split; [try exact Htab|]).
  all: repeat first [apply map_Forall_insert_2 | apply map_Forall_delete]; try exact Hthr.
  all: cbn [pc_ok role_ok sender_ok]; try done; try (by naive_solver).
  all: try (rewrite lookup_fmap, lookup_insert_eq; simpl; by eauto).
  - intros did q Hq. eapply lookup_weaken; [by apply Htab|apply dids_new].
  - apply threads_mono; [done|apply dids_new].
  - split; [|done]. apply Forall_fmap, Forall_forall. intros [did p] Hin.
    apply elem_of_map_to_list in Hin. simpl. eauto.
  - destruct Hc as [Hc ?]. by apply Forall_cons in Hc as [_ Hc].
  - destruct Hc as [Hc ?]. by apply Forall_cons in Hc as [_ Hc].
Qed.

Lemma refs_ok_reachable w s : reachable w s -> refs_ok s.
Proof.
  induction 1; [|by eapply refs_ok_step].
  split; intros ? ? Hl; simpl in Hl; by apply lookup_empty_Some in Hl.
Qed.

(** ** The loops of a session *)

(** The call comes, directly or not, from the control callback in the read loop of the
    session. *)
Fixpoint in_control (p : nat) (r : role) : Prop :=
  match r with
  | ByControl q _ => q = p
  | ByClose r _ _ _ _ => in_control p r
  | _ => False
  end.

(** The read loop of a session, until its deferred unregistration. *)
Definition reading (p : nat) (c : pc W) : Prop :=
  match c with
  | PReadTop q | PReadPacket q | PReadControl q _ _ | PReadCalls q _
  | PUnreg (ByReadLoop q) _ => q = p
  | PUnreg r _ | PUnregOnce r _ _ _ | PUnregConn r _ _ _ | PUnregCallback r _ _ _ _
  | PUnregCalls r _ _ _ _ | PSend r _ _ | PSendLocked r _ _ _
  | PCloseCancel r | PCloseSwap r | PCloseConns r _ | PCloseWait r => in_control p r
  | _ => False
  end.

(** The write loop of a session, until its deferred unregistration. *)
Definition writing (p : nat) (c : pc W) : Prop :=
  match c with
  | PWriteTop q | PWritePacket q _ | PUnreg (ByWriteLoop q) _ => q = p
  | _ => False
  end.

(** Every tracked session has both its loops. *)
Definition loops_ok s : Prop :=
  forall did p, sessions s !! did = Some p ->
    some_thread (reading p) (threads s) /\ some_thread (writing p) (threads s).

Lemma loops_ok_step s e s' : refs_ok s -> loops_ok s -> step e s = Some s' -> loops_ok s'.
Proof.
  intros [Htab Hthr] Hok Hs. unfold loops_ok in *.
  step_cases Hs; sm_simpl;
    try (pose proof (Hthr _ _ Ht) as Hc; cbn [pc_ok role_ok sender_ok] in Hc);
    intros did' q Hq.
  all: try match goal with H : delete _ _ !! _ = Some _ |- _ =>
    apply lookup_delete_Some in H as [? Hq] end.
  all: try match goal with H : <[_ := _]> _ !! _ = Some _ |- _ =>
    apply lookup_insert_Some in H as [[_ <-]|[_ Hq]] end.
  all: try (destruct (Hok _ _ Hq) as [Hr Hw]); try specialize (Htab _ _ Hq); try (split; done).
  1:{ split; (eapply some_thread_move; [by repeat apply lookup_spawn|done|]).
    - by apply some_thread_spawn, some_thread_here.
    - by apply some_thread_here. }
  all: try (split; keep_some_thread; simpl; by intros).
  all: split; keep_some_thread; try destruct r; simpl; naive_solver.
Qed.

Lemma loops_ok_reachable w s : reachable w s -> loops_ok s.
Proof.
  induction 1 as [|s e s' Hr IH Hs]; [intros ? ? Hl; simpl in Hl; by apply lookup_empty_Some in Hl|].
  eapply loops_ok_step; [by eapply refs_ok_reachable|done..].
Qed.

(** With no loop left, no session is tracked. *)
Lemma no_loops_no_sessions w s : reachable w s -> wg s = 0 -> sessions s = ∅.
Proof.
  intros Hr Hwg. apply map_empty. intros did.
  destruct (sessions s !! did) as [p|] eqn:Hp; [|done]. exfalso.
  destruct (loops_ok_reachable w s Hr _ _ Hp) as [_ (t & c & Ht & Hc)].
  rewrite (wg_ok_reachable w s Hr) in Hwg.
  pose proof (count_zero _ _ _ _ Hwg Ht) as Ho. destruct c; try done; by destruct r.
Qed.

(** ** Connections *)

(** The connection of every session. *)
Definition sconn s : gmap nat nat := s_Conn <$> heap s.

Lemma lookup_sconn s p o : heap s !! p = Some o -> sconn s !! p = Some (s_Conn o).
Proof. intros Hp. unfold sconn. by rewrite lookup_fmap, Hp. Qed.

Lemma sconn_step s e s' : step e s = Some s' -> sconn s ⊆ sconn s'.
Proof.
  intros Hs. apply map_subseteq_spec. intros p c Hp. unfold sconn in *.
  apply lookup_fmap_Some in Hp as (o & <- & Hp). rewrite lookup_fmap.
  step_cases Hs; sm_simpl; try (by rewrite Hp).
  all: try (rewrite lookup_insert_ne by (by eapply fresh_ne); by rewrite Hp).
  all: match goal with |- context [<[?q := _]> _ !! ?p] => destruct (decide (q = p)) as [<-|] end;
    [rewrite lookup_insert_eq|rewrite lookup_insert_ne by done; by rewrite Hp].
  all: by simplify_eq.
Qed.

(** Connections stay, and closed ones stay closed. *)
Lemma conns_step s e s' c k :
  step e s = Some s' -> conns s !! c = Some k ->
  exists k', conns s' !! c = Some k' /\ (c_closed k = true -> c_closed k' = true).
Proof.
  intros Hs Hk. step_cases Hs; sm_simpl; try (by eauto).
  all: try (rewrite lookup_insert_ne by (by eapply fresh_ne); by eauto).
  all: match goal with |- context [<[?q := _]> _ !! ?p] => destruct (decide (q = p)) as [<-|] end;
    [rewrite lookup_insert_eq|rewrite lookup_insert_ne by done; by eauto].
  all: simplify_eq; eexists; split; [done|]; simpl; intros; congruence.
Qed.

(** This side has closed the connection of a session. *)
Definition conn_closed s p : Prop :=
  exists c k, sconn s !! p = Some c /\ conns s !! c = Some k /\ c_closed k = true.

(** Once [close_conn] has run on it. *)
Lemma conn_closed_now s p o k k' :
  heap s !! p = Some o -> conns s !! s_Conn o = Some k -> c_closed k' = true ->
  conn_closed (set_conn (s_Conn o) k' s) p.
Proof.
  intros Hp Hk Hc. exists (s_Conn o), k'. split; [by apply (lookup_sconn s)|].
  simpl. by rewrite lookup_insert_eq.
Qed.

Lemma conn_closed_step s e s' p : step e s = Some s' -> conn_closed s p -> conn_closed s' p.
Proof.
  intros Hs (c & k & Hp & Hk & Hc). destruct (conns_step _ _ _ _ _ Hs Hk) as (k' & Hk' & Hc').
  exists c, k'. split_and!; auto. eapply lookup_weaken; [done|]. by eapply sconn_step.
Qed.

(** Every session has its own connection, which exists, and so has every
    registration that is under way. *)
Record conns_ok s : Prop := {
  co_session p c : sconn s !! p = Some c -> is_Some (conns s !! c);
  co_register t c : threads s !! t = Some (PRegister c) -> is_Some (conns s !! c);
  co_one t u c : threads s !! t = Some (PRegister c) -> threads s !! u = Some (PRegister c) ->
    t = u;
  co_new t c p : threads s !! t = Some (PRegister c) -> sconn s !! p = Some c -> False;
  co_inj p q c : sconn s !! p = Some c -> sconn s !! q = Some c -> p = q;
}.

Lemma sconn_update (h : gmap nat SessionState) p o o' :
  h !! p = Some o -> s_Conn o' = s_Conn o -> s_Conn <$> <[p := o']> h = s_Conn <$> h.
Proof.
  intros Hp Ho. rewrite fmap_insert. apply insert_id. rewrite lookup_fmap, Hp. simpl. by rewrite Ho.
Qed.

(** What a step does to the connections: nothing, or a new one that waits for its
    registration, or a registration. *)
Lemma sconn_step_cases s e s' :
  step e s = Some s' ->
  (sconn s' = sconn s /\ forall t c, threads s' !! t = Some (PRegister c) ->
     threads s !! t = Some (PRegister c)) \/
  (sconn s' = sconn s /\ is_Some (conns s' !! fresh (dom (conns s))) /\
     threads s' = <[fresh (dom (threads s)) := PRegister (fresh (dom (conns s)))]> (threads s)) \/
  (exists t c p, threads s !! t = Some (PRegister c) /\ sconn s !! p = None /\
     sconn s' = <[p := c]> (sconn s) /\
     forall u d, threads s' !! u = Some (PRegister d) ->
       u <> t /\ threads s !! u = Some (PRegister d)).
Proof.
  intros Hs. step_cases Hs; unfold sconn in *; sm_simpl;
    repeat (erewrite sconn_update by (done || reflexivity)).
  all: try (left; split; [done|]; intros ? ? Hu; repeat lookup_cases Hu; done).
  - right; right. exists t, conn, (fresh (dom (heap s))). split_and!; [done| | |].
    + rewrite lookup_fmap, (not_elem_of_dom_1 (heap s)); [done|apply is_fresh].
    + by rewrite fmap_insert.
    + intros u d Hu. repeat lookup_cases Hu; done.
  - right; left. split_and!; [done| |done]. rewrite lookup_insert_eq. eauto.
Qed.

Lemma conns_ok_step s e s' : conns_ok s -> step e s = Some s' -> conns_ok s'.
Proof.
  intros [H1 H2 H3 H4 H5] Hs.
  assert (forall c, is_Some (conns s !! c) -> is_Some (conns s' !! c)) as Hmono.
  { intros c [k Hk]. destruct (conns_step _ _ _ _ _ Hs Hk) as (k' & Hk' & _). eauto. }
  destruct (sconn_step_cases _ _ _ Hs)
    as [[Hsc Ht]|[(Hsc & Hk & Ht)|(t & c & p & Htc & Hp & Hsc & Ht)]].
  - constructor; rewrite ?Hsc; eauto.
  - assert (forall c, is_Some (conns s !! c) -> c <> fresh (dom (conns s))) as Hne.
    { intros c [k Hc] ->. by apply fresh_ne in Hc. }
    constructor; rewrite ?Hsc, ?Ht; eauto.
    + intros t c Hc. lookup_cases Hc; eauto.
    + intros t u c Hc Hd. lookup_cases Hc; lookup_cases Hd; eauto; exfalso; by eapply Hne; eauto.
    + intros t c p Hc Hp. lookup_cases Hc; [|by eauto]. by eapply Hne; eauto.
  - constructor; rewrite ?Hsc.
    + intros q d Hq. lookup_cases Hq; eauto.
    + intros u d Hd. apply Ht in Hd as [_ Hd]. eauto.
    + intros u v d Hu Hv. apply Ht in Hu as [_ Hu], Hv as [_ Hv]. eauto.
    + intros u d q Hd Hq. apply Ht in Hd as [Hne Hd]. lookup_cases Hq; eauto.
    + intros q q' d Hq Hq'. lookup_cases Hq; lookup_cases Hq'; eauto; exfalso; eauto.
Qed.

Lemma conns_ok_reachable w s : reachable w s -> conns_ok s.
Proof.
  induction 1; [|by eapply conns_ok_step].
  constructor; unfold sconn; simpl; intros *; rewrite ?fmap_empty, lookup_empty; done.
Qed.

Lemma conn_exists s p o :
  conns_ok s -> heap s !! p = Some o -> conns s !! s_Conn o = None -> False.
Proof.
  intros Hco Hp Hn. destruct (co_session s Hco p (s_Conn o)) as [k Hk]; [by apply lookup_sconn|].
  congruence.
Qed.

End invariants.
End SessionInvariant.
