(* ===== verification/SessionOnce.v ===== *)
(** * SessionOnce: the close once of a session

    Who is inside the [closeOnce] of a session. A close callback runs inside it and may
    call the session manager again, so that a goroutine can be inside the onces of several
    sessions, one in the callback of the other. *)

From S2P Require Import Prelude Threads Framing SessionManager SessionInvariant.

Module SessionOnce.
Import Framing SessionManager SessionInvariant.

Section once.
Context {W : Type}.
Implicit Types (s : SM W) (o : SessionState) (p t : nat).

(** The sessions in whose close callback a caller is, the innermost first. *)
Fixpoint inside (r : role) : list nat :=
  match r with ByClose r _ p _ _ => p :: inside r | _ => [] end.

(** The caller of the call that a goroutine is in. *)
Definition role_of (c : pc W) : role :=
  match c with
  | PUnreg r _ | PUnregOnce r _ _ _ | PUnregConn r _ _ _ | PUnregCallback r _ _ _ _
  | PUnregCalls r _ _ _ _ | PSend r _ _ | PSendLocked r _ _ _
  | PCloseCancel r | PCloseSwap r | PCloseConns r _ | PCloseWait r => r
  | _ => ByCaller
  end.

(** The sessions in whose once a goroutine is; those of them whose connection it has
    closed; the one whose callback it has still to call. *)
Definition entered (c : pc W) : list nat :=
  match c with
  | PUnregConn _ _ p _ | PUnregCallback _ _ p _ _ | PUnregCalls _ _ p _ _ => [p]
  | _ => []
  end ++ inside (role_of c).
Definition within (c : pc W) : list nat :=
  match c with PUnregCallback _ _ p _ _ | PUnregCalls _ _ p _ _ => [p] | _ => [] end
  ++ inside (role_of c).
Definition pending (c : pc W) : list nat :=
  match c with PUnregConn _ _ p _ | PUnregCallback _ _ p _ _ => [p] | _ => [] end.

Definition onces s : gmap nat Once := closeOnce <$> heap s.

(** Who is inside the once of a session is alone there, and there once, and the once is
    running; the connection is closed before the callback runs; the callback runs at most
    once for a session. *)
Record once_ok s : Prop := {
  oo_one p t u : p ∈ of_thread entered (threads s) t -> p ∈ of_thread entered (threads s) u -> t = u;
  oo_nested t : NoDup (of_thread entered (threads s) t);
  oo_running p t : p ∈ of_thread entered (threads s) t -> onces s !! p = Some OnceRunning;
  oo_closed p t : p ∈ of_thread within (threads s) t -> conn_closed s p;
  oo_done p : onces s !! p = Some OnceDone -> conn_closed s p;
  oo_log p : p ∈ closeLog s -> conn_closed s p /\ onces s !! p <> Some OnceIdle;
  oo_pending p t : p ∈ of_thread pending (threads s) t -> p ∉ closeLog s;
  oo_nodup : NoDup (closeLog s);
}.

Lemma onces_update (h : gmap nat SessionState) p o o' :
  h !! p = Some o -> closeOnce o' = closeOnce o -> closeOnce <$> <[p := o']> h = closeOnce <$> h.
Proof.
  intros Hp Ho. rewrite fmap_insert. apply insert_id. rewrite lookup_fmap, Hp. simpl. by rewrite Ho.
Qed.

(** A goroutine is where it was, as far as the onces go. *)
Definition stays s s' (u : nat) : Prop :=
  of_thread entered (threads s') u = of_thread entered (threads s) u /\
  of_thread within (threads s') u = of_thread within (threads s) u /\
  of_thread pending (threads s') u = of_thread pending (threads s) u.

(** What a goroutine that moves holds of the onces, before and after. *)
Definition holds s (t : nat) (e w d : list nat) : Prop :=
  of_thread entered (threads s) t = e /\ of_thread within (threads s) t = w /\
  of_thread pending (threads s) t = d.

(** What a step does to the onces: nothing; a new session; entering; closing the
    connection; calling the callback; leaving. *)
Inductive once_step s s' : Prop :=
| os_same (Ho : onces s' = onces s) (Hl : closeLog s' = closeLog s) (Ht : forall u, stays s s' u)
| os_new p (Hp : onces s !! p = None) (Ho : onces s' = <[p := OnceIdle]> (onces s))
    (Hl : closeLog s' = closeLog s) (Ht : forall u, stays s s' u)
| os_enter t p l (Hp : onces s !! p = Some OnceIdle) (Ho : onces s' = <[p := OnceRunning]> (onces s))
    (Hl : closeLog s' = closeLog s) (Hh : holds s t l l []) (Hh' : holds s' t (p :: l) l [p])
    (Ht : forall u, u <> t -> stays s s' u)
| os_close t p l (Hl : closeLog s' = closeLog s) (Ho : onces s' = onces s) (Hc : conn_closed s' p)
    (Hh : holds s t (p :: l) l [p]) (Hh' : holds s' t (p :: l) (p :: l) [p])
    (Ht : forall u, u <> t -> stays s s' u)
| os_call t p l (Hl : closeLog s' = closeLog s ++ [p]) (Ho : onces s' = onces s)
    (Hh : holds s t (p :: l) (p :: l) [p]) (Hh' : holds s' t (p :: l) (p :: l) [])
    (Ht : forall u, u <> t -> stays s s' u)
| os_leave t p l d (Hl : closeLog s' = closeLog s) (Ho : onces s' = <[p := OnceDone]> (onces s))
    (Hh : holds s t (p :: l) (p :: l) d) (Hh' : holds s' t l l [])
    (Ht : forall u, u <> t -> stays s s' u).

Ltac once_held := unfold stays, holds; sm_simpl; split_and!; by held.

Lemma lookup_onces s p o : heap s !! p = Some o -> onces s !! p = Some (closeOnce o).
Proof. intros Hp. unfold onces. by rewrite lookup_fmap, Hp. Qed.

Lemma once_step_cases s e s' : conns_ok s -> step e s = Some s' -> once_step s s'.
Proof.
  intros Hco Hs. step_cases Hs; unfold onces, sconn in *; sm_simpl.
  all: try (exfalso; by eapply conn_exists).
  all: try (apply os_same; unfold onces; sm_simpl;
    [by repeat (erewrite onces_update by (done || reflexivity))|done|];
    intros u; unfold stays; sm_simpl; split_and!; by held).
  all: try match goal with H : heap _ !! _ = Some _ |- _ => pose proof (lookup_onces _ _ _ H) end.
  all: try (eapply os_leave with (t := t) (p := p); unfold onces; sm_simpl;
    [done|by rewrite fmap_insert|once_held|once_held|intros u Hu; once_held]).
  - apply os_new with (fresh (dom (heap s))); unfold onces; sm_simpl; [| |done|].
    + rewrite lookup_fmap, (not_elem_of_dom_1 (heap s)); [done|apply is_fresh].
    + by rewrite fmap_insert.
    + intros u; once_held.
  - eapply os_enter with (t := t) (p := p); [congruence|unfold onces; sm_simpl; by rewrite fmap_insert|
      done|once_held|once_held|intros u Hu; once_held].
  - eapply os_enter with (t := t) (p := p); [congruence|unfold onces; sm_simpl; by rewrite fmap_insert|
      done|once_held|once_held|intros u Hu; once_held].
  - eapply os_close with (t := t) (p := p); [done|done| |once_held|once_held|intros u Hu; once_held].
    eexists _, _. sm_simpl. split_and!; [by apply lookup_sconn|by rewrite lookup_insert_eq|done].
  - eapply os_call with (t := t) (p := p); [done|done|once_held|once_held|intros u Hu; once_held].
Qed.

(** When no goroutine gets into or out of a once. *)
Lemma once_ok_keep s s' :
  once_ok s -> (forall p, conn_closed s p -> conn_closed s' p) ->
  (forall p x, x <> OnceIdle -> onces s !! p = Some x -> onces s' !! p = Some x) ->
  (forall p, onces s' !! p = Some OnceDone -> onces s !! p = Some OnceDone) ->
  (forall p, p ∈ closeLog s -> onces s' !! p = onces s !! p) ->
  closeLog s' = closeLog s -> (forall u, stays s s' u) -> once_ok s'.
Proof.
  intros [H1 H2 H3 H4 H5 H6 H7 H8] Hmono Ho Hd Hid Hl Ht.
  assert (forall u, of_thread entered (threads s') u = of_thread entered (threads s) u) as He by apply Ht.
  assert (forall u, of_thread within (threads s') u = of_thread within (threads s) u) as Hw by apply Ht.
  assert (forall u, of_thread pending (threads s') u = of_thread pending (threads s) u) as Hp by apply Ht.
  constructor; rewrite ?Hl; try done.
  - intros p t u. rewrite !He. apply H1.
  - intros t. rewrite He. apply H2.
  - intros p t. rewrite He. intros Hin. apply Ho; eauto.
  - intros p t. rewrite Hw. eauto.
  - intros p Hin%Hd. eauto.
  - intros p Hin. rewrite (Hid p Hin). destruct (H6 p Hin). auto.
  - intros p t. rewrite Hp. apply H7.
Qed.

(** After a move of [t]: what [t] holds, and what the others hold still. *)
Lemma after_move s s' t e w d :
  holds s' t e w d -> (forall u, u <> t -> stays s s' u) ->
  (forall p u, p ∈ of_thread entered (threads s') u ->
     u = t /\ p ∈ e \/ u <> t /\ p ∈ of_thread entered (threads s) u) /\
  (forall p u, p ∈ of_thread within (threads s') u ->
     u = t /\ p ∈ w \/ u <> t /\ p ∈ of_thread within (threads s) u) /\
  (forall p u, p ∈ of_thread pending (threads s') u ->
     u = t /\ p ∈ d \/ u <> t /\ p ∈ of_thread pending (threads s) u) /\
  (forall u, of_thread entered (threads s') u = if decide (u = t) then e else of_thread entered (threads s) u).
Proof.
  intros (He & Hw & Hd) Ht.
  assert (forall u, u <> t -> of_thread entered (threads s') u = of_thread entered (threads s) u) as H1
    by apply Ht.
  split_and!; intros *; destruct (decide (u = t)) as [->|Hu]; rewrite ?He, ?Hw, ?Hd, ?H1 by done; auto.
  - destruct (Ht u Hu) as (_ & -> & _). auto.
  - destruct (Ht u Hu) as (_ & _ & ->). auto.
Qed.

Section once_moves.
Context s s' (Hok : once_ok s) (Hmono : forall p, conn_closed s p -> conn_closed s' p).
Context t (Ht : forall u, u <> t -> stays s s' u).

Lemma once_ok_enter p l :
  onces s !! p = Some OnceIdle -> onces s' = <[p := OnceRunning]> (onces s) ->
  closeLog s' = closeLog s -> holds s t l l [] -> holds s' t (p :: l) l [p] -> once_ok s'.
Proof.
  intros Hp Ho Hl (He & Hw & _) Hh'. destruct Hok as [H1 H2 H3 H4 H5 H6 H7 H8].
  destruct (after_move s s' t _ _ _ Hh' Ht) as (Ae & Aw & Ap & Aeq).
  assert (forall u, p ∉ of_thread entered (threads s) u) as Hno.
  { intros u Hu. apply H3 in Hu. congruence. }
  constructor; rewrite ?Hl, ?Ho; try done.
  - intros q a b [[-> Ha]|[Ha Ha']]%Ae [[-> Hb]|[Hb Hb']]%Ae; try done; [| |by eapply H1].
    + apply elem_of_cons in Ha as [->|Ha]; [by destruct (Hno b)|]. rewrite <- He in Ha. by eapply H1.
    + apply elem_of_cons in Hb as [->|Hb]; [by destruct (Hno a)|]. rewrite <- He in Hb. by eapply H1.
  - intros u. rewrite Aeq. case_decide; [|done]. subst u. constructor; rewrite <- He; auto.
  - intros q u Hu. destruct (decide (p = q)) as [<-|Hne]; [by rewrite lookup_insert_eq|].
    rewrite lookup_insert_ne by done. apply Ae in Hu as [[-> Hu]|[_ Hu]]; [|by eauto].
    apply elem_of_cons in Hu as [->|Hu]; [done|]. rewrite <- He in Hu. eauto.
  - intros q u [[-> Hu]|[_ Hu]]%Aw; [rewrite <- Hw in Hu|]; eauto.
  - intros q Hq. lookup_cases Hq. eauto.
  - intros q Hq. destruct (H6 q Hq) as [Hc Hi]. split; [auto|]. intros Hq'. by lookup_cases Hq'.
  - intros q u [[-> Hu]|[_ Hu]]%Ap; [|by eauto]. apply list_elem_of_singleton in Hu as ->.
    intros Hin. by destruct (H6 p Hin).
Qed.

Lemma once_ok_close p l :
  closeLog s' = closeLog s -> onces s' = onces s -> conn_closed s' p ->
  holds s t (p :: l) l [p] -> holds s' t (p :: l) (p :: l) [p] -> once_ok s'.
Proof.
  intros Hl Ho Hc (He & Hw & Hp) Hh'. destruct Hok as [H1 H2 H3 H4 H5 H6 H7 H8].
  destruct (after_move s s' t _ _ _ Hh' Ht) as (_ & Aw & Ap & Aeq).
  assert (forall u, of_thread entered (threads s') u = of_thread entered (threads s) u) as Hsame.
  { intros u. rewrite Aeq. case_decide; [|done]. congruence. }
  constructor; rewrite ?Hl, ?Ho; try done.
  - intros q a b. rewrite !Hsame. apply H1.
  - intros u. by rewrite Hsame.
  - intros q u. rewrite Hsame. apply H3.
  - intros q u [[-> Hu]|[_ Hu]]%Aw; [|by eauto]. apply elem_of_cons in Hu as [->|Hu]; [done|].
    rewrite <- Hw in Hu. eauto.
  - auto.
  - intros q Hq. destruct (H6 q Hq). auto.
  - intros q u [[-> Hu]|[_ Hu]]%Ap; [rewrite <- Hp in Hu|]; eauto.
Qed.

Lemma once_ok_call p l :
  closeLog s' = closeLog s ++ [p] -> onces s' = onces s ->
  holds s t (p :: l) (p :: l) [p] -> holds s' t (p :: l) (p :: l) [] -> once_ok s'.
Proof.
  intros Hl Ho (He & Hw & Hp) Hh'. destruct Hok as [H1 H2 H3 H4 H5 H6 H7 H8].
  destruct (after_move s s' t _ _ _ Hh' Ht) as (_ & Aw & Ap & Aeq).
  assert (forall u, of_thread entered (threads s') u = of_thread entered (threads s) u) as Hsame.
  { intros u. rewrite Aeq. case_decide; [|done]. congruence. }
  assert (p ∈ of_thread entered (threads s) t) as Hin by (rewrite He; set_solver).
  assert (p ∉ closeLog s) as Hfresh by (apply (H7 p t); rewrite Hp; set_solver).
  constructor; rewrite ?Hl, ?Ho; try done.
  - intros q a b. rewrite !Hsame. apply H1.
  - intros u. by rewrite Hsame.
  - intros q u. rewrite Hsame. apply H3.
  - intros q u [[-> Hu]|[_ Hu]]%Aw; [rewrite <- Hw in Hu|]; eauto.
  - auto.
  - intros q [Hq|Hq]%elem_of_app; [destruct (H6 q Hq); auto|]. apply list_elem_of_singleton in Hq as ->.
    split; [apply Hmono, (H4 p t); rewrite Hw; set_solver|]. rewrite (H3 p t Hin). done.
  - intros q u [[_ Hu]|[Hu Hu']]%Ap; [by apply elem_of_nil in Hu|].
    intros [Hq|Hq]%elem_of_app; [by apply (H7 q u)|]. apply list_elem_of_singleton in Hq as ->.
    apply Hu, (H1 p); [|done]. revert Hu'. unfold of_thread. destruct (threads s !! u) as [c|]; [|done].
    destruct c; simpl; set_solver.
  - apply NoDup_app. split_and!; [done|set_solver|apply NoDup_singleton].
Qed.

Lemma once_ok_leave p l d :
  closeLog s' = closeLog s -> onces s' = <[p := OnceDone]> (onces s) ->
  holds s t (p :: l) (p :: l) d -> holds s' t l l [] -> once_ok s'.
Proof.
  intros Hl Ho (He & Hw & _) Hh'. destruct Hok as [H1 H2 H3 H4 H5 H6 H7 H8].
  destruct (after_move s s' t _ _ _ Hh' Ht) as (Ae & Aw & Ap & Aeq).
  assert (forall q, q ∈ l -> q ∈ of_thread entered (threads s) t /\ q ∈ of_thread within (threads s) t) as Hold
    by (rewrite He, Hw; set_solver).
  pose proof (H2 t) as Hnd. rewrite He in Hnd. apply NoDup_cons in Hnd as [Hpl Hnd].
  assert (p ∈ of_thread entered (threads s) t) as Hin by (rewrite He; set_solver).
  constructor; rewrite ?Hl, ?Ho; try done.
  - intros q a b [[-> Ha]|[Ha Ha']]%Ae [[-> Hb]|[Hb Hb']]%Ae; try done; eapply (H1 q); try done;
      by apply Hold.
  - intros u. rewrite Aeq. by case_decide.
  - intros q u [[-> Hu]|[Hne Hu]]%Ae.
    + rewrite lookup_insert_ne by set_solver. by apply (H3 q t), Hold.
    + rewrite lookup_insert_ne; [by eauto|]. intros <-. by apply Hne, (H1 p).
  - intros q u [[-> Hu]|[_ Hu]]%Aw; [apply Hold in Hu as [_ Hu]|]; eauto.
  - intros q Hq. lookup_cases Hq; [|by eauto]. apply Hmono, (H4 q t). rewrite Hw. set_solver.
  - intros q Hq. destruct (H6 q Hq) as [Hc Hi]. split; [auto|]. intros Hq'. by lookup_cases Hq'.
  - intros q u [[_ Hu]|[_ Hu]]%Ap; [by apply elem_of_nil in Hu|]. by eapply H7.
Qed.

End once_moves.

Lemma once_ok_step s e s' : conns_ok s -> once_ok s -> step e s = Some s' -> once_ok s'.
Proof.
  intros Hco Hok Hs. pose proof (fun p => conn_closed_step _ _ _ p Hs) as Hmono.
  destruct (once_step_cases _ _ _ Hco Hs).
  - apply (once_ok_keep s s'); rewrite ?Ho; try done; auto.
  - assert (p ∉ closeLog s) as Hno.
    { intros Hin. destruct (oo_log s Hok p Hin) as [(c & k & Hc & _) _]. unfold sconn in Hc. unfold onces in Hp.
      rewrite lookup_fmap in Hc. rewrite lookup_fmap in Hp. by destruct (heap s !! p). }
    apply (once_ok_keep s s'); rewrite ?Ho; try done.
    + intros q x Hx Hq. rewrite lookup_insert_ne; [done|]. intros <-. congruence.
    + intros q Hq. by lookup_cases Hq.
    + intros q Hq. rewrite lookup_insert_ne; [done|]. by intros <-.
  - by eapply once_ok_enter.
  - by eapply once_ok_close.
  - by eapply once_ok_call.
  - by eapply once_ok_leave.
Qed.

Lemma once_ok_reachable w s : reachable w s -> once_ok s.
Proof.
  induction 1; [|eapply once_ok_step; [by eapply conns_ok_reachable|done..]].
  constructor; unfold of_thread, onces; simpl; intros *;
    rewrite ?fmap_empty, ?lookup_empty; try done; try (intros ?%elem_of_nil; done); constructor.
Qed.

End once.
End SessionOnce.
