(* ===== verification/SessionTable.v ===== *)
(** * SessionTable: identifiers, and who closes a connection

    Two more invariants of the session manager. While fewer than 2^32 sessions have
    been registered, identifiers are unique and not zero; and then every session is
    either closed, or in the table, or in the hands of a goroutine that is about to
    close its connection, so that no connection is leaked. Past 2^32 registrations
    the 32-bit counter wraps and identifiers repeat. *)

From S2P Require Import Prelude Threads Framing SessionManager SessionInvariant SessionOnce.

Module SessionTable.
Import Framing SessionManager SessionInvariant SessionOnce.

Section table.
Context {W : Type}.
Implicit Types (s : SM W) (p t : nat).

(** ** Identifiers *)

(** What a step does to the identifiers: nothing, or it registers a session under
    the next one. *)
Lemma dids_step_cases s e s' :
  step e s = Some s' ->
  (dids s' = dids s /\ nextDID s' = nextDID s /\ registrations s' = registrations s) \/
  (exists p, dids s !! p = None /\ dids s' = <[p := u32 (nextDID s + 1)]> (dids s) /\
     sessions s' = <[u32 (nextDID s + 1) := p]> (sessions s) /\
     nextDID s' = u32 (nextDID s + 1) /\ registrations s' = registrations s + 1).
Proof.
  intros Hs. step_cases Hs; unfold dids in *; sm_simpl;
    repeat (erewrite dids_update by (done || reflexivity)); try (by left).
  right. exists (fresh (dom (heap s))). split_and!; try done.
  - rewrite lookup_fmap, (not_elem_of_dom_1 (heap s)); [done|apply is_fresh].
  - by rewrite fmap_insert.
Qed.

(** The counter is the number of registrations, at 32 bits. *)
Definition counter_ok s : Prop := 0 <= registrations s /\ nextDID s = u32 (registrations s).

Lemma counter_ok_reachable w s : reachable w s -> counter_ok s.
Proof.
  unfold counter_ok. induction 1 as [|s e s' Hr [IH1 IH2] Hs]; [done|].
  destruct (dids_step_cases _ _ _ Hs) as [(_ & -> & ->)|(p & _ & _ & _ & -> & ->)]; [done|].
  split; [lia|]. rewrite IH2. unfold u32. by rewrite Zplus_mod_idemp_l.
Qed.

Definition ids_ok s : Prop :=
  (forall p d, dids s !! p = Some d -> 1 <= d <= registrations s) /\
  (forall p q d, dids s !! p = Some d -> dids s !! q = Some d -> p = q).

(** The registrations never go down. *)
Lemma registrations_step s e s' : step e s = Some s' -> registrations s <= registrations s'.
Proof.
  intros Hs. destruct (dids_step_cases _ _ _ Hs) as [(_ & _ & ->)|(p & _ & _ & _ & _ & ->)]; lia.
Qed.

(** The identifier of the next session, while the counter has not wrapped. *)
Lemma next_did w s :
  reachable w s -> registrations s + 1 < 2 ^ 32 -> u32 (nextDID s + 1) = registrations s + 1.
Proof.
  intros Hr Hn. destruct (counter_ok_reachable w s Hr) as [H0 ->]. unfold u32.
  rewrite Zplus_mod_idemp_l. apply Z.mod_small. lia.
Qed.

Lemma ids_ok_reachable w s : reachable w s -> registrations s < 2 ^ 32 -> ids_ok s.
Proof.
  induction 1 as [|s e s' Hr IH Hs]; intros Hn.
  { split; unfold dids; simpl; intros *; rewrite fmap_empty, lookup_empty; done. }
  pose proof (registrations_step _ _ _ Hs). unfold ids_ok.
  destruct (dids_step_cases _ _ _ Hs) as [(-> & _ & ->)|(p & Hp & -> & _ & _ & Hreg)];
    [apply IH; lia|].
  rewrite Hreg in *. rewrite (next_did w) by (done || lia).
  destruct IH as [H1 H2]; [lia|]. destruct (counter_ok_reachable w s Hr) as [H0 _].
  split.
  - intros q d Hq. lookup_cases Hq; [lia|]. apply H1 in Hq. lia.
  - intros q q' d Hq Hq'. lookup_cases Hq; lookup_cases Hq'; try done; [| |by eauto];
      match goal with H : dids _ !! _ = Some _ |- _ => apply H1 in H; lia end.
Qed.

(** ** No connection is leaked *)

Definition tracked s p : Prop := exists did, sessions s !! did = Some p.

(** The goroutine is about to close the connection of the session. *)
Definition will_close (p : nat) (c : pc W) : Prop :=
  match c with
  | PUnregOnce _ _ q _ | PUnregConn _ _ q _ => q = p
  | PCloseConns _ active => p ∈ active
  | _ => False
  end.

Definition owned s p : Prop :=
  conn_closed s p \/ tracked s p \/ some_thread (will_close p) (threads s).

Lemma owned_step w s e s' p :
  reachable w s -> registrations s' < 2 ^ 32 -> step e s = Some s' -> owned s p -> owned s' p.
Proof.
  intros Hr Hn Hs [Hcl|Hown]; [left; by eapply conn_closed_step|].
  pose proof (once_ok_reachable w s Hr) as Hoo. pose proof (conns_ok_reachable w s Hr) as Hco.
  pose proof (refs_ok_reachable w s Hr) as [Htab Hthr].
  step_cases Hs; try (exfalso; by eapply conn_exists); unfold owned, tracked in *; sm_simpl.
  all: try (destruct Hown as [Htr|Hth]; [right; left; exact Htr|right; right];
    keep_some_thread; simpl; by naive_solver).
  1: { destruct Hown as [[did Hd]|Hth]; right; [left|right; keep_some_thread; done].
    exists did. rewrite lookup_insert_ne; [done|]. intros <-. apply Htab in Hd.
    rewrite (next_did w) in Hd by done.
    destruct (ids_ok_reachable w s Hr) as [Hid _]; [lia|]. apply Hid in Hd. lia. }
  1: { destruct Hown as [[did' Hd]|Hth]; right; [|right; keep_some_thread; done].
    destruct (decide (did = did')) as [<-|]; [right|left].
    + apply some_thread_here. simpl. congruence.
    + exists did'. by rewrite lookup_delete_ne. }
  all: destruct Hown as [Htr|Hth]; [try (by right; left)|
    destruct (some_thread_split _ _ _ _ Ht Hth) as [Hw|[Hdel Hins]]; [|by eauto]].
  all: try (simpl in Hw; subst; left; match goal with Ho : heap _ !! _ = Some _ |- _ =>
    first [ by eapply (conn_closed_now s)
          | apply (oo_done s Hoo); unfold onces; rewrite lookup_fmap, Ho; simpl; congruence ] end).
  - destruct Htr as [did Hd]. right; right. apply some_thread_here. simpl.
    apply list_elem_of_fmap. exists (did, p). split; [done|]. by apply elem_of_map_to_list.
  - done.
  - by apply elem_of_nil in Hw.
  - apply elem_of_cons in Hw as [->|Hw]; [left; by eapply (conn_closed_now s)|].
    right; right. by apply some_thread_here.
Qed.

(** A session keeps its object. *)
Lemma dids_step s e s' : step e s = Some s' -> dids s ⊆ dids s'.
Proof.
  intros Hs. destruct (dids_step_cases _ _ _ Hs) as [(-> & _)|(p & Hp & -> & _)]; [done|].
  by apply insert_subseteq.
Qed.

(** A step that creates a session puts it in the table. *)
Lemma owned_reachable w s p :
  reachable w s -> registrations s < 2 ^ 32 -> is_Some (dids s !! p) -> owned s p.
Proof.
  induction 1 as [|s e s' Hr IH Hs]; intros Hn [d Hd].
  { unfold dids in Hd; simpl in Hd. by rewrite fmap_empty, lookup_empty in Hd. }
  pose proof (registrations_step _ _ _ Hs).
  destruct (dids_step_cases _ _ _ Hs) as [(He & _)|(q & Hq & He & Hs' & _)].
  - eapply owned_step; [done..|]. apply IH; [lia|]. rewrite <- He. eauto.
  - rewrite He in Hd. lookup_cases Hd.
    + right; left. exists (u32 (nextDID s + 1)). by rewrite Hs', lookup_insert_eq.
    + eapply owned_step; [done..|]. apply IH; [lia|eauto].
Qed.

(** ** Sessions that are being unregistered are out of the table *)

Definition leaves (c : pc W) : list nat :=
  match c with PUnregOnce r _ p _ => p :: inside r | _ => entered c end.

Ltac leaves_simpl := cbn [leaves entered role_of inside app] in *.

(** A goroutine gets to unregister a session by taking it out of the table. *)
Lemma leaves_step s e s' u p :
  step e s = Some s' -> p ∈ of_thread leaves (threads s') u ->
  p ∈ of_thread leaves (threads s) u \/
  (exists did, sessions s !! did = Some p /\ sessions s' = delete did (sessions s)) /\
  forall v, v <> u -> of_thread leaves (threads s') v = of_thread leaves (threads s) v.
Proof.
  intros Hs. destruct (decide (p ∈ of_thread leaves (threads s) u)) as [|Hno]; [by left|].
  step_cases Hs; sm_simpl; intros Hp; right.
  all: try (exfalso; apply Hno; revert Hp; clear Hno; held; leaves_simpl; by (tauto || set_solver)).
  assert (u = t) as ->.
  { destruct (decide (t = u)) as [|Hne]; [done|]. rewrite of_thread_insert, decide_False in Hp by done. done. }
  rewrite of_thread_insert, decide_True in Hp by done. rewrite (of_thread_at _ _ _ _ Ht) in Hno.
  leaves_simpl. apply elem_of_cons in Hp as [->|]; [|done]. split; [by eauto|].
  intros v Hv. by rewrite of_thread_insert, decide_False.
Qed.

(** What enters the table is new. *)
Lemma table_step s e s' did p :
  step e s = Some s' -> sessions s' !! did = Some p -> sessions s !! did = Some p \/ heap s !! p = None.
Proof.
  intros Hs. step_cases Hs; sm_simpl; intros Hp; try (by left); try (lookup_cases Hp; by left).
  lookup_cases Hp; [right|by left]. apply not_elem_of_dom, is_fresh.
Qed.

Lemma inside_exists D r did p : role_ok D r did -> p ∈ inside r -> is_Some (D !! p).
Proof.
  revert did. induction r; intros did'; simpl; try (intros _ Hin; by apply elem_of_nil in Hin).
  intros [Hp Hr] [->|Hin]%elem_of_cons; eauto.
Qed.

Lemma leaves_exist s t p :
  refs_ok s -> p ∈ of_thread leaves (threads s) t -> heap s !! p = None -> False.
Proof.
  intros [_ Hthr] Hp Hn. unfold of_thread in Hp. destruct (threads s !! t) as [c|] eqn:Ht; [|by apply elem_of_nil in Hp].
  specialize (Hthr _ _ Ht).
  assert (is_Some (dids s !! p)) as [x Hx].
  { assert (forall r, sender_ok (dids s) r -> role_ok (dids s) r 0) as Hsend by (by intros []).
    destruct c; leaves_simpl; simpl in Hthr; try (by apply elem_of_nil in Hp);
      try apply elem_of_cons in Hp as [->|Hp]; naive_solver eauto using inside_exists. }
  unfold dids in Hx. by rewrite lookup_fmap, Hn in Hx.
Qed.

(** A session that a goroutine unregisters, or whose once was entered, is out of the
    table; one whose once was entered refuses packets. *)
Record left_ok s : Prop := {
  lo_leaving t p did : p ∈ of_thread leaves (threads s) t -> sessions s !! did <> Some p;
  lo_once p o did : heap s !! p = Some o -> closeOnce o <> OnceIdle ->
    sessions s !! did <> Some p /\ isClosed o = true;
}.

(** What a step does to a session that exists: its once is entered when the session is
    out of the table, and then it is closed. *)
Lemma entry_step s e s' p o o' :
  left_ok s -> once_ok s -> step e s = Some s' -> heap s !! p = Some o -> heap s' !! p = Some o' ->
  closeOnce o' <> OnceIdle ->
  isClosed o' = true /\ (closeOnce o <> OnceIdle \/ exists t, p ∈ of_thread leaves (threads s) t).
Proof.
  intros [H1 H2] Hoo Hs Hp.
  assert (closeOnce o <> OnceIdle -> isClosed o = true) as Hcl by (intros Hne; by apply (H2 p o 0)).
  assert (forall t c, threads s !! t = Some c -> p ∈ entered c -> closeOnce o <> OnceIdle) as Hin.
  { intros t c Ht Hc. pose proof (oo_running s Hoo p t) as Hrun. rewrite (of_thread_at _ _ _ _ Ht) in Hrun.
    specialize (Hrun Hc). rewrite (lookup_onces _ _ _ Hp) in Hrun. congruence. }
  step_cases Hs; sm_simpl; intros Hp' Ho; try (simplify_eq; by auto).
  all: lookup_cases Hp'; try (simplify_eq; by auto); try (by apply fresh_ne in Hp); simpl in *.
  all: try (pose proof (Hin t _ Ht ltac:(leaves_simpl; by constructor)); by auto).
  all: try (split; [done|right; exists t; rewrite (of_thread_at _ _ _ _ Ht); leaves_simpl; by constructor]).
Qed.

(** A new session's once is idle. *)
Lemma new_session s e s' p o :
  step e s = Some s' -> heap s !! p = None -> heap s' !! p = Some o -> closeOnce o = OnceIdle.
Proof.
  intros Hs Hn. step_cases Hs; sm_simpl; intros Hp; try congruence; lookup_cases Hp; first [done|congruence].
Qed.

Lemma left_ok_step s e s' :
  refs_ok s -> once_ok s -> left_ok s -> step e s = Some s' -> left_ok s'.
Proof.
  intros Hrefs Hoo Hlo Hs. pose proof Hlo as [H1 H2]. constructor.
  - intros t p did Hp Hd. destruct (leaves_step _ _ _ _ _ Hs Hp) as [Hp'|[(did' & Hd' & Htab') _]].
    + destruct (table_step _ _ _ _ _ Hs Hd) as [Hd'|Hn]; [by apply (H1 t p did)|by eapply leaves_exist].
    + rewrite Htab' in Hd. lookup_cases Hd. destruct Hrefs as [Htab _]. apply Htab in Hd, Hd'. congruence.
  - intros p o' did Hp Ho. destruct (heap s !! p) as [o|] eqn:Hold.
    + destruct (entry_step _ _ _ _ _ _ Hlo Hoo Hs Hold Hp Ho) as [Hcl Hout]. split; [|done].
      intros Hd. destruct (table_step _ _ _ _ _ Hs Hd) as [Hd'|]; [|congruence].
      destruct Hout as [Hne|[t Ht]]; [by destruct (H2 p o did Hold Hne)|by apply (H1 t p did)].
    + exfalso. apply Ho. by eapply new_session.
Qed.

Lemma left_ok_reachable w s : reachable w s -> left_ok s.
Proof.
  induction 1; [|eapply left_ok_step; [by eapply refs_ok_reachable|by eapply once_ok_reachable|done..]].
  constructor; unfold of_thread; simpl; intros *; rewrite lookup_empty; [intros ?%elem_of_nil|]; done.
Qed.

(** Only one goroutine ever unregisters a session, so that the once is idle when it
    gets there. *)
Record sole_ok s : Prop := {
  so_one p t u : p ∈ of_thread leaves (threads s) t -> p ∈ of_thread leaves (threads s) u -> t = u;
  so_idle t r did p cb o : threads s !! t = Some (PUnregOnce r did p cb) ->
    heap s !! p = Some o -> closeOnce o = OnceIdle;
}.

Lemma sole_ok_step s e s' :
  refs_ok s -> once_ok s -> left_ok s -> sole_ok s -> step e s = Some s' -> sole_ok s'.
Proof.
  intros Hrefs Hoo [H1 H2] [H3 H4] Hs. constructor.
  - intros p t u Ht Hu.
    destruct (leaves_step _ _ _ _ _ Hs Ht) as [Ht'|[(did & Hd & _) Hv]],
      (leaves_step _ _ _ _ _ Hs Hu) as [Hu'|[(did' & Hd' & _) Hv']].
    + by eapply H3.
    + by destruct (H1 t p did' Ht').
    + by destruct (H1 u p did Hu').
    + destruct (decide (t = u)) as [|Hne]; [done|]. rewrite Hv in Hu by done. by destruct (H1 u p did Hu).
  - assert (forall t u c d q, threads s !! t = Some c -> threads s !! u = Some d ->
      q ∈ leaves c -> q ∈ leaves d -> t <> u -> False) as Hother.
    { intros t u c d q Ht Hu Hc Hd Hne. apply Hne, (H3 q); [by rewrite (of_thread_at _ _ _ _ Ht)|].
      by rewrite (of_thread_at _ _ _ _ Hu). }
    step_cases Hs; sm_simpl; intros u r' did' q cb' o' Hu Hq.
    all: try (repeat lookup_cases Hu; by eauto).
    all: try (repeat lookup_cases Hu; lookup_cases Hq; simpl;
      [first [by eauto|exfalso; eapply (Hother t u); [done|done| | |done]; leaves_simpl; by constructor]|by eauto]).
    lookup_cases Hu; [|by eauto]. destruct (closeOnce o') eqn:Ho; [done|..]; exfalso;
      match goal with H : sessions _ !! ?d = Some _ |- _ => by destruct (H2 _ _ d Hq); [congruence|] end.
Qed.

Lemma sole_ok_reachable w s : reachable w s -> sole_ok s.
Proof.
  induction 1; [|eapply sole_ok_step; [by eapply refs_ok_reachable|by eapply once_ok_reachable|
    by eapply left_ok_reachable|done..]].
  constructor; unfold of_thread; simpl; intros *; rewrite lookup_empty; [intros ?%elem_of_nil|]; done.
Qed.

End table.
End SessionTable.
