(* ===== verification/SessionWire.v ===== *)
(** * SessionWire: what a peer receives

    The bytes that a connection carries are the frames of the packets that
    [SendToLocal] accepted for its session, in that order and each at most once: a
    prefix of their concatenation, whatever the goroutines and the connection do. *)

From S2P Require Import Prelude Threads Framing SessionManager SessionInvariant SessionOnce.

Module SessionWire.
Import Framing SessionManager SessionInvariant SessionOnce.

Section wire.
Context {W : Type}.
Implicit Types (s : SM W) (p t : nat).

(** ** One writer for each session *)

Definition writers_ok s : Prop := forall p, one_thread (writing p) (threads s).

(** Nobody writes for a session that does not exist yet. *)
Lemma nobody_writes s p :
  refs_ok s -> heap s !! p = None -> some_thread (writing p) (threads s) -> False.
Proof.
  intros [_ Hthr] Hp (t & c & Ht & Hc). specialize (Hthr _ _ Ht).
  assert (is_Some (dids s !! p)) as [d Hd].
  { destruct c; simpl in *; try done; try destruct r; simpl in *; try done; subst; eauto. }
  unfold dids in Hd. by rewrite lookup_fmap, Hp in Hd.
Qed.

Lemma writers_ok_step s e s' :
  refs_ok s -> writers_ok s -> step e s = Some s' -> writers_ok s'.
Proof.
  intros Hrefs Hok Hs q. specialize (Hok q). step_cases Hs; sm_simpl.
  all: try done.
  all: try (by apply one_thread_delete).
  all: try (repeat first
    [ done
    | apply one_thread_delete
    | eapply one_thread_move; [by repeat apply lookup_spawn|..]
    | apply one_thread_spawn ]; simpl; by (tauto || naive_solver)).
  eapply one_thread_move; [by repeat apply lookup_spawn|done|].
  destruct (decide (q = fresh (dom (heap s)))) as [->|Hne].
  - apply one_thread_enter. intros (u & c & Hu & Hc). lookup_cases Hu; [done|].
    eapply nobody_writes; [done| |by eexists _, _]. apply not_elem_of_dom, is_fresh.
  - apply one_thread_spawn; [simpl; congruence|]. by apply one_thread_spawn.
Qed.

Lemma writers_ok_reachable w s : reachable w s -> writers_ok s.
Proof.
  induction 1; [|eapply writers_ok_step; [by eapply refs_ok_reachable|done..]].
  intros p t u c d Ht. simpl in Ht. by rewrite lookup_empty in Ht.
Qed.

(** ** The bytes on the wire *)

Definition frames (l : list outboundPacket) : list byte := concat (packetFrame <$> l).

Lemma frames_app l k : frames (l ++ k) = frames l ++ frames k.
Proof. unfold frames. by rewrite fmap_app, concat_app. Qed.

(** What each connection has carried, and what the write loop of each session has
    taken from the channel, with the connection it is for. *)
Definition wires s : gmap nat (list byte) := (fun k => written (c_writer k)) <$> conns s.
Definition takens s : gmap nat (nat * list outboundPacket) :=
  (fun o => (s_Conn o, taken o)) <$> heap s.

(** The program points that the invariant speaks of. *)
Definition wire_point (c : pc W) : Prop :=
  match c with PRegister _ | PWriteTop _ | PWritePacket _ _ => True | _ => False end.

Lemma wires_update (m : gmap nat Conn) c k k' :
  m !! c = Some k -> written (c_writer k') = written (c_writer k) ->
  (fun k => written (c_writer k)) <$> <[c := k']> m = (fun k => written (c_writer k)) <$> m.
Proof.
  intros Hc Hw. rewrite fmap_insert. apply insert_id. rewrite lookup_fmap, Hc. simpl. by rewrite Hw.
Qed.

Lemma takens_update (h : gmap nat SessionState) p o o' :
  h !! p = Some o -> s_Conn o' = s_Conn o -> taken o' = taken o ->
  (fun o => (s_Conn o, taken o)) <$> <[p := o']> h = (fun o => (s_Conn o, taken o)) <$> h.
Proof.
  intros Hp Hc Ht. rewrite fmap_insert. apply insert_id. rewrite lookup_fmap, Hp. simpl.
  by rewrite Hc, Ht.
Qed.

(** What a step does to the wires: nothing; a new connection; a registration; the
    write loop takes a packet; the write loop writes some of it, all of it if it goes
    on. *)
Inductive wire_step s s' : Prop :=
| ws_same (Hw : wires s' = wires s) (Hk : takens s' = takens s)
    (Ht : forall t c, threads s' !! t = Some c -> wire_point c -> threads s !! t = Some c)
| ws_conn c (Hc : wires s !! c = None) (Hw : wires s' = <[c := []]> (wires s))
    (Hk : takens s' = takens s)
    (Ht : forall t d, threads s' !! t = Some d -> wire_point d ->
       d = PRegister c \/ threads s !! t = Some d)
| ws_register t c p (Hp : takens s !! p = None) (Htc : threads s !! t = Some (PRegister c))
    (Hw : wires s' = wires s) (Hk : takens s' = <[p := (c, [])]> (takens s))
    (Ht : forall u d, threads s' !! u = Some d -> wire_point d ->
       d = PWriteTop p \/ u <> t /\ threads s !! u = Some d)
| ws_take t p c l pkt (Hp : takens s !! p = Some (c, l)) (Htp : threads s !! t = Some (PWriteTop p))
    (Hw : wires s' = wires s) (Hk : takens s' = <[p := (c, l ++ [pkt])]> (takens s))
    (Ht : threads s' = <[t := PWritePacket p pkt]> (threads s))
| ws_write t p c l pkt bs n (Hp : takens s !! p = Some (c, l))
    (Htp : threads s !! t = Some (PWritePacket p pkt)) (Hc : wires s !! c = Some bs)
    (Hw : wires s' = <[c := bs ++ take n (packetFrame pkt)]> (wires s))
    (Hk : takens s' = takens s)
    (Ht : forall u d, threads s' !! u = Some d -> wire_point d ->
       u <> t /\ threads s !! u = Some d \/
       d = PWriteTop p /\ (length (packetFrame pkt) <= n)%nat).

Lemma writePacket_appends w pkt w' err :
  writePacket w (p_opcode pkt) (p_statusCode pkt) (p_data pkt) = (w', err) ->
  exists n, written w' = written w ++ take n (packetFrame pkt) /\
    (err = None -> (length (packetFrame pkt) <= n)%nat).
Proof.
  intros Hw. destruct (Z.leb_spec (zlen (p_data pkt)) maxPacketSize) as [Hd|Hd].
  - destruct (writePacket_spec w (p_opcode pkt) (p_statusCode pkt) (p_data pkt) Hd) as [n Hn].
    rewrite Hw in Hn. by exists n.
  - unfold writePacket in Hw. rewrite (proj2 (Z.ltb_lt _ _)) in Hw by done. simplify_eq.
    exists 0%nat. by rewrite app_nil_r.
Qed.

Lemma write_step s s' t p o k pkt w err b :
  threads s !! t = Some (PWritePacket p pkt) -> heap s !! p = Some o ->
  conns s !! s_Conn o = Some k ->
  writePacket (c_writer k) (p_opcode pkt) (p_statusCode pkt) (p_data pkt) = (w, err) ->
  heap s' = heap s -> conns s' = <[s_Conn o := mkConn (c_reader k) w b]> (conns s) ->
  (forall u d, threads s' !! u = Some d -> wire_point d ->
     u <> t /\ threads s !! u = Some d \/ d = PWriteTop p /\ err = None) ->
  wire_step s s'.
Proof.
  intros Htp Hp Hk Hw Hh Hc Ht. destruct (writePacket_appends _ _ _ _ Hw) as (n & Hn & He).
  apply ws_write with t p (s_Conn o) (taken o) pkt (written (c_writer k)) n; try done.
  - unfold takens. by rewrite lookup_fmap, Hp.
  - unfold wires. by rewrite lookup_fmap, Hk.
  - unfold wires. rewrite Hc, fmap_insert. simpl. by rewrite Hn.
  - unfold takens. by rewrite Hh.
  - intros u d Hu Hi. destruct (Ht u d Hu Hi) as [|[? ?]]; auto.
Qed.

Lemma wire_step_cases s e s' : conns_ok s -> step e s = Some s' -> wire_step s s'.
Proof.
  intros Hco Hs. step_cases Hs; try (exfalso; by eapply conn_exists).
  all: try (apply ws_same; unfold wires, takens; sm_simpl;
    [by repeat (erewrite wires_update by (done || reflexivity))
    |by repeat (erewrite takens_update by (done || reflexivity))
    |]; intros ? ? Hu Hi; repeat lookup_cases Hu; done).
  - apply ws_register with t conn (fresh (dom (heap s))); unfold takens; sm_simpl; try done.
    + rewrite lookup_fmap, (not_elem_of_dom_1 (heap s)); [done|apply is_fresh].
    + by rewrite fmap_insert.
    + intros u d Hu Hi. repeat lookup_cases Hu; try done; auto.
  - eapply ws_take with (p := p); [|done|done|unfold takens; sm_simpl; by rewrite fmap_insert|done].
    unfold takens. rewrite lookup_fmap. match goal with H : heap _ !! _ = _ |- _ => by rewrite H end.
  - eapply write_step; [done..|]. sm_simpl. intros u d Hu Hi. lookup_cases Hu; [done|auto].
  - eapply write_step; [done..|]. sm_simpl. intros u d Hu Hi. lookup_cases Hu; [auto|auto].
  - apply ws_conn with (fresh (dom (conns s))); unfold wires; sm_simpl; try done.
    + rewrite lookup_fmap, (not_elem_of_dom_1 (conns s)); [done|apply is_fresh].
    + by rewrite fmap_insert.
    + intros u d Hu Hi. lookup_cases Hu; auto.
Qed.

(** The write loop is where it was, everything it has taken is on the wire before it
    takes more, and the wire never has more than what was taken. *)
Record wire_ok s : Prop := {
  wo_new t c : threads s !! t = Some (PRegister c) -> wires s !! c = Some [];
  wo_prefix p c l bs : takens s !! p = Some (c, l) -> wires s !! c = Some bs ->
    bs `prefix_of` frames l;
  wo_top t p c l bs : threads s !! t = Some (PWriteTop p) -> takens s !! p = Some (c, l) ->
    wires s !! c = Some bs -> bs = frames l;
  wo_packet t p pkt c l bs : threads s !! t = Some (PWritePacket p pkt) ->
    takens s !! p = Some (c, l) -> wires s !! c = Some bs ->
    exists l', l = l' ++ [pkt] /\ bs = frames l';
}.

Lemma takens_sconn s p c l : takens s !! p = Some (c, l) -> sconn s !! p = Some c.
Proof.
  unfold takens, sconn. rewrite !lookup_fmap. destruct (heap s !! p); simpl; [congruence|done].
Qed.

Lemma takens_None s p : takens s !! p = None -> heap s !! p = None.
Proof. unfold takens. rewrite lookup_fmap. by destruct (heap s !! p). Qed.

(** A registration: the new session has taken nothing, and nothing was written. *)
Lemma wire_ok_register s s' t c p :
  refs_ok s -> wire_ok s -> takens s !! p = None -> threads s !! t = Some (PRegister c) ->
  wires s' = wires s -> takens s' = <[p := (c, [])]> (takens s) ->
  (forall u d, threads s' !! u = Some d -> wire_point d ->
     d = PWriteTop p \/ u <> t /\ threads s !! u = Some d) ->
  wire_ok s'.
Proof.
  intros Hrefs [H1 H2 H3 H4] Hp Htc Hw Hk Ht. pose proof (H1 _ _ Htc) as Hc.
  constructor; rewrite ?Hw, ?Hk.
  - intros u d Hu. destruct (Ht u _ Hu I) as [|[_ Hu']]; [done|]. eauto.
  - intros q d l bs Hq Hd. lookup_cases Hq; [apply prefix_nil|by eauto].
  - intros u q d l bs Hu Hq Hd. lookup_cases Hq; [done|].
    destruct (Ht u _ Hu I) as [|[_ Hu']]; [congruence|]. eauto.
  - intros u q pkt d l bs Hu Hq Hd. destruct (Ht u _ Hu I) as [|[_ Hu']]; [done|].
    lookup_cases Hq; [|by eauto]. exfalso.
    eapply nobody_writes; [done|by apply takens_None|by eexists _, _].
Qed.

(** The write loop takes a packet: until then all was on the wire. *)
Lemma wire_ok_take s s' t p c l pkt :
  writers_ok s -> wire_ok s -> takens s !! p = Some (c, l) ->
  threads s !! t = Some (PWriteTop p) -> wires s' = wires s ->
  takens s' = <[p := (c, l ++ [pkt])]> (takens s) ->
  threads s' = <[t := PWritePacket p pkt]> (threads s) -> wire_ok s'.
Proof.
  intros Hone [H1 H2 H3 H4] Hp Htp Hw Hk Ht.
  assert (forall u d, u <> t -> threads s !! u = Some d -> writing p d -> False) as Hno.
  { intros u d Hne Hu Hd. by apply Hne, (Hone p u t d _ Hu Htp). }
  constructor; rewrite ?Hw, ?Hk, ?Ht.
  - intros u d Hu. lookup_cases Hu. eauto.
  - intros q d l' bs Hq Hd. lookup_cases Hq; [|by eauto]. rewrite frames_app.
    apply prefix_app_r. eauto.
  - intros u q d l' bs Hu Hq Hd. lookup_cases Hu. lookup_cases Hq; [|by eauto].
    exfalso. by eapply Hno.
  - intros u q pkt' d l' bs Hu Hq Hd. lookup_cases Hu; lookup_cases Hq; try done.
    + eauto.
    + exfalso. by eapply Hno.
    + eauto.
Qed.

(** The write loop writes some of the packet that it has taken. *)
Lemma wire_ok_write s s' t p c l pkt bs n :
  conns_ok s -> writers_ok s -> wire_ok s -> takens s !! p = Some (c, l) ->
  threads s !! t = Some (PWritePacket p pkt) -> wires s !! c = Some bs ->
  wires s' = <[c := bs ++ take n (packetFrame pkt)]> (wires s) -> takens s' = takens s ->
  (forall u d, threads s' !! u = Some d -> wire_point d ->
     u <> t /\ threads s !! u = Some d \/
     d = PWriteTop p /\ (length (packetFrame pkt) <= n)%nat) ->
  wire_ok s'.
Proof.
  intros Hco Hone [H1 H2 H3 H4] Hp Htp Hc Hw Hk Ht.
  assert (forall q d l', takens s !! q = Some (d, l') -> d = c -> q = p) as Hinj.
  { intros q d l' Hq ->. apply takens_sconn in Hq, Hp. by eapply co_inj. }
  destruct (H4 _ _ _ _ _ _ Htp Hp Hc) as (l0 & -> & ->).
  constructor; rewrite ?Hw, ?Hk.
  - intros u d Hu. destruct (Ht u _ Hu I) as [[_ Hu']|[? _]]; [|done].
    rewrite lookup_insert_ne; [by eauto|]. intros <-.
    apply takens_sconn in Hp. by eapply co_new.
  - intros q d l' bs Hq Hd. lookup_cases Hd; [|by eauto].
    apply Hinj in Hq as Heq; [|done]. subst q. rewrite Hp in Hq. simplify_eq.
    rewrite frames_app. apply prefix_app. unfold frames. simpl. rewrite app_nil_r.
    apply prefix_take.
  - intros u q d l' bs Hu Hq Hd. destruct (Ht u _ Hu I) as [[Hne Hu']|[Heq Hn]].
    + lookup_cases Hd; [|by eauto]. exfalso. apply Hne, (Hone p u t _ _ Hu' Htp); [|done].
      by eapply Hinj.
    + simplify_eq. rewrite lookup_insert_eq in Hd. simplify_eq. rewrite take_ge by done.
      rewrite frames_app. unfold frames at 3. simpl. by rewrite app_nil_r.
  - intros u q pkt' d l' bs Hu Hq Hd. destruct (Ht u _ Hu I) as [[Hne Hu']|[? _]]; [|done].
    lookup_cases Hd; [|by eauto]. exfalso. apply Hne, (Hone p u t _ _ Hu' Htp); [|done].
    by eapply Hinj.
Qed.

Lemma wire_ok_step s e s' :
  refs_ok s -> conns_ok s -> writers_ok s -> wire_ok s -> step e s = Some s' -> wire_ok s'.
Proof.
  intros Hrefs Hco Hone Hok Hs. destruct (wire_step_cases _ _ _ Hco Hs).
  - destruct Hok as [H1 H2 H3 H4]. constructor; rewrite ?Hw, ?Hk.
    + intros t c Htc. apply Ht in Htc; [|done]. eauto.
    + eauto.
    + intros t p c l bs Htc. apply Ht in Htc; [|done]. eauto.
    + intros t p pkt c l bs Htc. apply Ht in Htc; [|done]. eauto.
  - destruct Hok as [H1 H2 H3 H4].
    assert (forall p d l, takens s !! p = Some (d, l) -> c <> d) as Hne.
    { intros p d l Hp <-. apply takens_sconn in Hp. destruct (co_session _ Hco _ _ Hp) as [k Hk'].
      unfold wires in Hc. by rewrite lookup_fmap, Hk' in Hc. }
    constructor; rewrite ?Hw, ?Hk.
    + intros t d Htd. destruct (Ht _ _ Htd I) as [|Htd']; [simplify_eq; by rewrite lookup_insert_eq|].
      rewrite lookup_insert_ne; [by eauto|]. intros <-. apply H1 in Htd'. congruence.
    + intros p d l bs Hp. rewrite lookup_insert_ne by eauto. eauto.
    + intros t p d l bs Htd Hp. rewrite lookup_insert_ne by eauto.
      destruct (Ht _ _ Htd I) as [|Htd']; [done|]. eauto.
    + intros t p pkt d l bs Htd Hp. rewrite lookup_insert_ne by eauto.
      destruct (Ht _ _ Htd I) as [|Htd']; [done|]. eauto.
  - by eapply wire_ok_register.
  - by eapply wire_ok_take.
  - by eapply wire_ok_write.
Qed.

Lemma wire_ok_reachable w s : reachable w s -> wire_ok s.
Proof.
  induction 1; [|eapply wire_ok_step; [by eapply refs_ok_reachable|by eapply conns_ok_reachable|
    by eapply writers_ok_reachable|done..]].
  constructor; unfold takens, wires; simpl; intros *; rewrite ?fmap_empty, lookup_empty; done.
Qed.

End wire.
End SessionWire.
