(* ===== verification/SessionCalls.v ===== *)
(** * SessionCalls: the results of the calls

    The calls of the session manager as functions: what a call returns and what it
    changes when no other goroutine moves in between, from every state that the
    program can be in. *)

From S2P Require Import Prelude Threads Framing SessionManager SessionInvariant SessionOnce SessionTable.

Module SessionCalls.
Import Framing SessionManager SessionInvariant SessionOnce SessionTable.

Section calls.
Context {W : Type}.
Implicit Types (s : SM W) (p t : nat).

(** ** Calls that are not interrupted *)

(** Run a goroutine until it returns. *)
Fixpoint run_call (fuel : nat) (choice : bool) (t : nat) (s : SM W) : option (SM W) :=
  match threads s !! t with
  | Some (PReturned _) | Some (PRegistered _) => Some s
  | _ => match fuel with
         | O => None
         | S fuel => s' ← step (ERun t choice) s; run_call fuel choice t s'
         end
  end.

(** A call by an outside goroutine [t]: its state afterwards. *)
Definition do_call (e : event W) (fuel : nat) (choice : bool) (s : SM W) : option (SM W) :=
  s1 ← step e s; run_call fuel choice (fresh (dom (threads s))) s1.

Definition RegisterSession (conn : option (Reader * option nat)) (s : SM W) : option (SM W) :=
  do_call (ERegister conn) 1 false s.

(** The close callback decides how long this takes. *)
Definition UnregisterSession (fuel : nat) (did : DID) (closeErr : bool) (s : SM W)
    : option (SM W) :=
  do_call (EUnregister did) fuel closeErr s.

Definition SendToLocal (did : DID) (pkt : outboundPacket) (s : SM W) : option (SM W) :=
  do_call (ESend did pkt) 2 false s.

(** What the call returned. *)
Definition returned (t : nat) (s : SM W) : option (option SmError) :=
  match threads s !! t with Some (PReturned err) => Some err | _ => None end.

Lemma step_run s t b c :
  panicked s = false -> threads s !! t = Some c -> step (ERun t b) s = run_thread t b c s.
Proof. intros Hp Ht. unfold step. by rewrite Hp, Ht. Qed.

(** Runs of more than one step. *)
Lemma run_app es1 es2 : forall s, run (es1 ++ es2) s = (run es1 s ≫= run es2 : option (SM W)).
Proof.
  induction es1 as [|e es1 IH]; intros s; [done|]. cbn [run app].
  destruct (step e s); [|done]. apply IH.
Qed.

Lemma run_step t b c es s s' :
  panicked s = false -> threads s !! t = Some c -> run_thread t b c s = Some s' ->
  run (ERun t b :: es) s = run es s'.
Proof. intros Hp Ht Hr. cbn [run]. unfold step. rewrite Hp, Ht. cbn [mbind option_bind]. by rewrite Hr. Qed.

(** One step of a call that has not returned yet. *)
Lemma run_call_step fuel b t s c s' :
  panicked s = false -> threads s !! t = Some c ->
  (forall e, c <> PReturned e) -> (forall d, c <> PRegistered d) ->
  run_thread t b c s = Some s' -> run_call (S fuel) b t s = run_call fuel b t s'.
Proof.
  intros Hp Ht H1 H2 Hr. cbn [run_call]. rewrite (step_run s t b c), Hr, Ht by done.
  destruct c; by (done || naive_solver).
Qed.

Lemma run_call_done fuel b t s e :
  threads s !! t = Some (PReturned e) -> run_call fuel b t s = Some s.
Proof. intros Ht. destruct fuel; cbn [run_call]; by rewrite Ht. Qed.

Lemma call_reachable w e fuel b s s' : reachable w s -> do_call e fuel b s = Some s' -> reachable w s'.
Proof.
  unfold do_call. intros Hr. destruct (step e s) as [s1|] eqn:Hs; [|done]. simpl.
  assert (reachable w s1) as Hr1 by (by eapply reachable_step). clear Hs Hr. revert s1 Hr1.
  induction fuel as [|fuel IH]; intros s1 Hr1; cbn [run_call].
  - destruct (threads s1 !! _) as [[]|]; congruence.
  - assert (forall o, o = Some s1 \/ o = (step (ERun (fresh (dom (threads s))) b) s1 ≫=
      run_call fuel b (fresh (dom (threads s)))) -> o = Some s' -> reachable w s') as H.
    { intros o [->| ->]; [congruence|]. destruct (step _ s1) as [s2|] eqn:Hs2; [|done].
      apply IH. by eapply reachable_step. }
    destruct (threads s1 !! _) as [[]|]; apply H; auto.
Qed.

(** C13. [SendToLocal] returns, and on every branch does what it says: an unknown
    identifier and a closed session are refused and nothing changes; with room in the
    queue the packet goes to its end; a full queue closes the session, reports
    [ErrSessionBlocked] and leaves its unregistration to a background goroutine. The
    table, the connections and the wait group stay as they are. *)
Theorem SendToLocal_result w s did pkt :
  reachable w s ->
  let t := fresh (dom (threads s)) in
  exists s', SendToLocal did pkt s = Some s' /\
    (sessions s' = sessions s /\ conns s' = conns s /\ wg s' = wg s) /\
    match sessions s !! did with
    | None => returned t s' = Some (Some (ErrNotFound did)) /\ heap s' = heap s
    | Some p => exists o, heap s !! p = Some o /\
        if isClosed o then
          returned t s' = Some (Some (ErrClosed did)) /\ heap s' = heap s
        else if (length (outbound o) <? sessionQueueSize)%nat then
          returned t s' = Some None /\
          heap s' = <[p := with_queue o (outbound o ++ [pkt]) (accepted o ++ [pkt]) (taken o)]> (heap s)
        else
          returned t s' = Some (Some ErrSessionBlocked) /\
          heap s' = <[p := closed_chan o]> (heap s) /\
          exists u, threads s' !! u = Some (PUnreg ByBackground did)
    end.
Proof.
  intros Hr t. destruct (objects_ok_reachable w s Hr) as [Hp Hobj].
  destruct (refs_ok_reachable w s Hr) as [Htab _].
  unfold SendToLocal, do_call, step. rewrite Hp. cbn [mbind option_bind]. fold t.
  set (s1 := spawn _ s).
  assert (threads s1 !! t = Some (PSend ByCaller did pkt)) as Ht1 by (by apply lookup_insert_eq).
  erewrite run_call_step by done. unfold do_send.
  change (sessions s1) with (sessions s). destruct (sessions s !! did) as [p|] eqn:Hd.
  2:{ eexists. split; [eapply run_call_done, lookup_insert_eq|]. split; [done|].
      unfold returned. cbn [finish]. sm_simpl. by rewrite lookup_insert_eq. }
  destruct (heap s !! p) as [o|] eqn:Ho;
    [|apply Htab in Hd; unfold dids in Hd; by rewrite lookup_fmap, Ho in Hd].
  destruct (Hobj _ _ Ho) as [Hcc _].
  set (s2 := set_thread t _ s1).
  assert (threads s2 !! t = Some (PSendLocked ByCaller did p pkt)) as Ht2
    by (by apply lookup_insert_eq).
  cbn [run_call]. rewrite (step_run s2 t _ _ Hp Ht2), Ht2. cbn [run_thread]. unfold do_send_locked.
  change (heap s2) with (heap s). rewrite Ho, Hcc.
  destruct (isClosed o) eqn:Hc; [|destruct (_ <? _)%nat eqn:Hl].
  all: cbn [mbind option_bind finish]; unfold returned; sm_simpl; rewrite lookup_insert_eq.
  all: eexists; split; [done|]; split; [done|]; exists o; split; [done|]; rewrite ?Hc, ?Hl; sm_simpl;
    rewrite lookup_insert_eq; split; [done|]; try done.
  split; [done|]. eexists. rewrite lookup_insert_ne; [apply lookup_insert_eq|].
  apply not_eq_sym. by eapply fresh_ne.
Qed.

(** The first to enter the once: the session refuses packets, also when a full queue
    had closed it before. *)
Lemma once_enter s t b r did p cb o :
  heap s !! p = Some o -> closeOnce o = OnceIdle -> chanClosed o = isClosed o ->
  run_thread t b (PUnregOnce r did p cb) s =
    Some (set_thread t (PUnregConn r did p cb)
      (set_session p (closed_chan (with_once o OnceRunning)) s)).
Proof.
  intros Ho Hi Hc. cbn [run_thread]. unfold do_unregister_once. rewrite Ho, Hi. sm_simpl.
  rewrite Hc. destruct (isClosed o) eqn:E; [|done]. unfold closed_chan. sm_simpl.
  unfold with_once. by rewrite E, Hc.
Qed.

Ltac call_step :=
  match goal with |- context [run_call (S _) _ ?t ?s] =>
    erewrite (run_call_step _ _ t s) by (done || apply lookup_insert_eq)
  end.

(** ** Calls that callbacks make *)

(** What is left to do when a call has returned to its caller. *)
Fixpoint back (r : role) : nat :=
  match r with
  | ByControl _ more => 6 + 7 * length more
  | ByClose r _ _ _ more => 1 + 7 * length more + back r
  | _ => 0
  end.

(** The steps that a goroutine has still to make and the work that it makes for others,
    when the context is done: a registration starts two loops, a packet that is sent is
    taken and written, and a full queue starts an unregistration. *)
Definition work (c : pc W) : nat :=
  match c with
  | PRegister _ => 11
  | PUnregCalls r _ _ _ calls => 1 + 7 * length calls + back r
  | PUnregCallback r _ _ _ _ => 1 + back r
  | PUnregConn r _ _ _ => 2 + back r
  | PUnregOnce r _ _ _ => 3 + back r
  | PUnreg r _ => 4 + back r
  | PSendLocked r _ _ _ => 5 + back r
  | PSend r _ _ => 6 + back r
  | PReadTop _ | PReadPacket _ | PWriteTop _ => 5
  | PWritePacket _ _ => 6
  | PReadCalls _ calls => 6 + 7 * length calls
  | PCloseWait r => 1 + back r
  | PCloseConns r active => 2 + length active + back r
  | _ => 0
  end.

(** *** Callbacks that do not call [Close]

    [Close] waits for the loops that callbacks run in. What follows is about callbacks that
    leave it alone, those that are installed and those that are under way. *)

Definition tame_calls (calls : list call) : Prop := Forall (fun c => c <> CClose) calls.

Definition tame_close (cb : option (CloseCallback W)) : Prop :=
  forall f, cb = Some f -> forall w did, tame_calls (f w did).2.

Fixpoint tame_role (r : role) : Prop :=
  match r with
  | ByControl _ more => tame_calls more
  | ByClose r _ _ _ more => tame_role r /\ tame_calls more
  | _ => True
  end.

Definition tame (c : pc W) : Prop :=
  match c with
  | PUnreg r _ | PSend r _ _ | PSendLocked r _ _ _ => tame_role r
  | PUnregOnce r _ _ cb | PUnregConn r _ _ cb | PUnregCallback r _ _ cb _ => tame_role r /\ tame_close cb
  | PUnregCalls r _ _ _ calls => tame_role r /\ tame_calls calls
  | PReadCalls _ calls => tame_calls calls
  | PCloseCancel r | PCloseSwap r | PCloseConns r _ | PCloseWait r => r = ByCaller
  | _ => True
  end.

Record no_close s : Prop := {
  nc_control f : onControl s = Some f -> forall w did opcode payload, tame_calls (f w did opcode payload).2;
  nc_close : tame_close (onClose s);
  nc_threads : map_Forall (fun _ c => tame c) (threads s);
}.

Lemma no_close_run s e t b s' : e = ERun t b -> no_close s -> step e s = Some s' -> no_close s'.
Proof.
  intros He [H1 H2 H3] Hs. step_cases Hs; try discriminate He; constructor; sm_simpl; try done.
  all: try (intros f Hf; apply (H1 f); congruence).
  all: pose proof (H3 _ _ Ht) as Hc; cbn [tame tame_role] in Hc; try discriminate Hc.
  all: repeat first [apply map_Forall_insert_2 | apply map_Forall_delete]; try exact H3.
  all: cbn [tame tame_role]; try exact Hc; try done; try (by destruct Hc).
  all: try (destruct Hc as [Hr Hc]); try (apply Forall_cons in Hc as [Hc1 Hc2]; try (by destruct Hc1)); try done.
  - split; [done|]. specialize (Hc _ eq_refl (world s) did). by rewrite Heqp0 in Hc.
  - specialize (H1 _ eq_refl (world s) (s_DID s0) opcode payload). by rewrite Heqp0 in H1.
Qed.

(** The close callback of this call has still to run. *)
Definition unseen (c : pc W) : nat :=
  match c with PUnregOnce _ _ _ _ | PUnregConn _ _ _ _ | PUnregCallback _ _ _ _ _ => 1 | _ => 0 end.

(** The goroutine is in [UnregisterSession] or [SendToLocal]. *)
Definition calling (c : pc W) : bool :=
  match c with
  | PUnreg _ _ | PUnregOnce _ _ _ _ | PUnregConn _ _ _ _ | PUnregCallback _ _ _ _ _
  | PUnregCalls _ _ _ _ _ | PSend _ _ _ | PSendLocked _ _ _ _ => true
  | _ => false
  end.

(** What those calls keep: the table only shrinks, a session that refuses packets does so
    with the same queue, and the close callbacks that have run have run. *)
Record kept s s' : Prop := {
  ke_table : sessions s' ⊆ sessions s;
  ke_closed p o : heap s !! p = Some o -> isClosed o = true ->
    exists o', heap s' !! p = Some o' /\ isClosed o' = true /\ outbound o' = outbound o;
  ke_log : closeLog s `prefix_of` closeLog s';
  ke_conn p : conn_closed s p -> conn_closed s' p;
}.

Lemma kept_refl s : kept s s.
Proof. constructor; eauto. Qed.

Lemma kept_trans s1 s2 s3 : kept s1 s2 -> kept s2 s3 -> kept s1 s3.
Proof.
  intros [A1 A2 A3 A4] [B1 B2 B3 B4]. constructor; [by etrans| |by etrans|by auto].
  intros p o Hp Ho. destruct (A2 p o Hp Ho) as (o1 & H1 & Hc1 & <-).
  destruct (B2 p o1 H1 Hc1) as (o2 & H2 & Hc2 & <-). eauto.
Qed.

Lemma calling_kept s t b c s' :
  threads s !! t = Some c -> calling c = true -> step (ERun t b) s = Some s' -> kept s s'.
Proof.
  intros Htc Hc Hs. pose proof (fun p => conn_closed_step _ _ _ p Hs) as Hconn.
  revert Hconn. remember (ERun t b) as e. step_cases Hs; intros Hconn; simplify_eq; try done;
    constructor; try exact Hconn; sm_simpl; try done; try (by eauto).
  all: try apply delete_subseteq; try (by apply prefix_app_r).
  all: intros q o' Hq Ho; match goal with |- context [<[?r := _]> _ !! _] =>
    destruct (decide (r = q)) as [<-|Hne]; [rewrite lookup_insert_eq|rewrite lookup_insert_ne by done; by eauto] end.
  all: simplify_eq; try congruence; eexists; (split; [done|by simpl]).
Qed.

(** The close callback that an outside caller's [UnregisterSession] runs, when the
    goroutine is in it: for which session, and whether [Conn.Close] has failed. *)
Fixpoint bottom (r : role) : option (DID * bool) :=
  match r with
  | ByClose ByCaller did _ closeErr _ => Some (did, closeErr)
  | ByClose r _ _ _ _ => bottom r
  | _ => None
  end.

Definition stack (c : pc W) : role :=
  match c with PUnregCalls r did p closeErr calls => ByClose r did p closeErr calls | _ => role_of c end.

Definition close_error (x : DID * bool) : option SmError :=
  if x.2 then Some (ErrCloseFailed x.1) else None.

Lemma bottom_close r x :
  bottom r = Some x -> exists r' did p closeErr more, r = ByClose r' did p closeErr more.
Proof. destruct r; try done. eauto 10. Qed.

Lemma session_of s p : is_Some (dids s !! p) -> exists o, heap s !! p = Some o.
Proof.
  intros [d Hd]. unfold dids in Hd. rewrite lookup_fmap in Hd. destruct (heap s !! p); [by eauto|done].
Qed.

Ltac here :=
  eexists; split; [done|]; right; eexists; split; [sm_simpl; apply lookup_insert_eq|]; split; [done|];
  sm_simpl; simpl; lia.

(** A goroutine in such a callback can move, if no callback calls [Close], towards the return to the outside caller:
    sessions leave the table, callbacks run, and between that calls return. *)
Lemma frame_moves w s t b c x :
  reachable w s -> no_close s -> threads s !! t = Some c -> bottom (stack c) = Some x ->
  exists s', step (ERun t b) s = Some s' /\
    (threads s' !! t = Some (PReturned (close_error x)) \/
     exists c', threads s' !! t = Some c' /\ bottom (stack c') = Some x /\
       (size (sessions s') + unseen c' < size (sessions s) + unseen c \/
        size (sessions s') + unseen c' = size (sessions s) + unseen c /\ work c' < work c)%nat).
Proof.
  intros Hr Hnc Ht Hx. destruct (objects_ok_reachable w s Hr) as [Hp Hobj].
  destruct (refs_ok_reachable w s Hr) as [_ Hthr]. specialize (Hthr _ _ Ht).
  pose proof (nc_threads s Hnc _ _ Ht) as Htame.
  rewrite (step_run s t b c Hp Ht).
  assert (forall r err s1, bottom r = Some x -> sessions s1 = sessions s -> (back r < work c)%nat ->
    unseen c = 0%nat \/ unseen c = 1%nat ->
    exists c', threads (finish t r err s1) !! t = Some c' /\ bottom (stack c') = Some x /\
       (size (sessions (finish t r err s1)) + unseen c' < size (sessions s) + unseen c \/
        size (sessions (finish t r err s1)) + unseen c' = size (sessions s) + unseen c /\ work c' < work c)%nat) as Hfin.
  { intros r err s1 Hr1 Hs1 Hb Hu. destruct (bottom_close r x Hr1) as (r' & did & p & e & more & ->).
    cbn [finish]. sm_simpl. eexists. split; [apply lookup_insert_eq|]. split; [done|].
    cbn [unseen work back] in *. rewrite Hs1. lia. }
  destruct c; try done; cbn [run_thread stack role_of pc_ok tame] in *; try (by subst r).
  - unfold do_unregister. destruct (sessions s !! did) as [p|] eqn:Hd.
    + eexists. split; [done|]. right. eexists. split; [apply lookup_insert_eq|]. split; [done|].
      sm_simpl. rewrite (map_size_delete_Some did (sessions s)) by eauto.
      cbn [unseen work]. right. assert (size (sessions s) <> 0%nat); [|lia].
      intros Hz%map_size_empty_inv. by rewrite Hz, lookup_empty in Hd.
    + eexists. split; [done|]. right. apply Hfin; [done..|simpl; lia|by left].
  - destruct Hthr as [Hd _]. destruct (session_of s p) as [o Ho]; [by eauto|].
    destruct (Hobj _ _ Ho) as [Hcc _].
    pose proof (so_idle s (sole_ok_reachable w s Hr) _ _ _ _ _ _ Ht Ho) as Hidle.
    pose proof (once_enter s t b r did p cb o Ho Hidle Hcc) as He. cbn [run_thread] in He. rewrite He. here.
  - destruct Hthr as [Hd _]. destruct (session_of s p) as [o Ho]; [by eauto|].
    unfold do_unregister_conn, close_conn. rewrite Ho. destruct (conns s !! s_Conn o); here.
  - destruct Hthr as [Hd _]. destruct (session_of s p) as [o Ho]; [by eauto|].
    destruct cb as [f|]; cbn [do_unregister_callback].
    + destruct (f (world s) did) as [w1 calls]. destruct (bottom_close r x Hx) as (? & ? & ? & ? & ? & ->). here.
    + unfold do_unregister_done. rewrite Ho. eexists. split; [done|]. right.
      apply Hfin; [done..|simpl; lia|by right].
  - destruct Hthr as [Hd _]. destruct (session_of s p) as [o Ho]; [by eauto|].
    destruct Htame as [_ Htame].
    destruct calls as [|[did' pkt|did'|] more]; cbn [do_unregister_calls start_call]; [|here|here|].
    2:{ by apply Forall_cons in Htame as [[] _]. }
    unfold do_unregister_done. rewrite Ho. eexists. split; [done|].
    destruct r; try done; [left|right].
    + cbn [finish]. sm_simpl. rewrite lookup_insert_eq. simpl in Hx. by simplify_eq.
    + apply Hfin; [done..|simpl; lia|by left].
  - unfold do_send. destruct (sessions s !! did) as [p|]; [here|].
    eexists. split; [done|]. right. apply Hfin; [done..|simpl; lia|by left].
  - destruct Hthr as [Hd _]. destruct (session_of s p Hd) as [o Ho]. destruct (Hobj _ _ Ho) as [Hcc _].
    unfold do_send_locked. rewrite Ho, Hcc.
    destruct (isClosed o); [|destruct (_ <? _)%nat]; eexists; (split; [done|]); right;
      (apply Hfin; [done..|simpl; lia|by left]).
Qed.

Lemma frame_calling s t c x :
  no_close s -> threads s !! t = Some c -> bottom (stack c) = Some x -> calling c = true.
Proof.
  intros Hnc Ht Hx. pose proof (nc_threads s Hnc _ _ Ht) as Htame.
  destruct c; try done; cbn [tame stack role_of] in *; by subst.
Qed.

(** More fuel does not change the result. *)
Lemma run_call_more b t s' : forall n s fuel,
  run_call n b t s = Some s' -> (n <= fuel)%nat -> run_call fuel b t s = Some s'.
Proof.
  induction n as [|n IH]; intros s fuel Hn Hle.
  - destruct fuel; [done|]. cbn [run_call] in *. destruct (threads s !! t) as [[]|]; done.
  - destruct fuel as [|fuel]; [lia|]. cbn [run_call] in *.
    assert ((step (ERun t b) s ≫= run_call n b t) = Some s' ->
      (step (ERun t b) s ≫= run_call fuel b t) = Some s') as H.
    { destruct (step (ERun t b) s) as [s1|]; [|done]. cbn [mbind option_bind].
      intros H1. apply IH; [done|lia]. }
    destruct (threads s !! t) as [[]|]; auto.
Qed.

(** The goroutine, left alone, comes back to the outside caller. *)
Lemma frame_returns w t b x : forall n m s c,
  reachable w s -> no_close s -> threads s !! t = Some c -> bottom (stack c) = Some x ->
  (size (sessions s) + unseen c <= n)%nat -> (work c <= m)%nat ->
  exists fuel s', run_call fuel b t s = Some s' /\ returned t s' = Some (close_error x) /\ kept s s'.
Proof.
  induction n as [n IHn] using lt_wf_ind. induction m as [m IHm] using lt_wf_ind.
  intros s c Hr Hnc Ht Hx Hn Hm. destruct (objects_ok_reachable w s Hr) as [Hp _].
  destruct (frame_moves w s t b c x Hr Hnc Ht Hx) as (s1 & Hs1 & Hnext).
  assert (kept s s1) as Hk by (eapply calling_kept; [done| |done]; by eapply frame_calling).
  assert (exists fuel s', run_call fuel b t s1 = Some s' /\ returned t s' = Some (close_error x) /\ kept s1 s')
    as (fuel & s' & Hrun & Hret & Hk').
  { destruct Hnext as [Hdone|(c' & Ht' & Hx' & Hlt)].
    { exists 0%nat, s1. split_and!; [by eapply run_call_done|unfold returned; by rewrite Hdone|apply kept_refl]. }
    assert (reachable w s1) as Hr1 by (by eapply reachable_step).
    assert (no_close s1) as Hnc1 by (by eapply no_close_run). destruct Hlt as [Hlt|[Heq Hlt]].
    - eapply (IHn (size (sessions s1) + unseen c')%nat ltac:(lia) (work c')); done.
    - eapply (IHm (work c') ltac:(lia)); [done..|lia|done]. }
  exists (S fuel), s'. split_and!; [|done|by eapply kept_trans].
  rewrite (run_call_step fuel b t s c s1); [done|done|done|by intros ? ->|by intros ? ->|].
  by rewrite <- (step_run s t b c Hp Ht).
Qed.

(** ** UnregisterSession *)

(** Steps before the return. *)
Lemma run_call_run b t n s' : forall k s s1,
  run (replicate k (ERun t b)) s = Some s1 -> run_call n b t s1 = Some s' ->
  run_call (k + n) b t s = Some s'.
Proof.
  induction k as [|k IH]; intros s s1 Hrun Hn; cbn [replicate run Nat.add] in *; [by simplify_eq|].
  destruct (step (ERun t b) s) as [s2|] eqn:Hs; [|done]. cbn [mbind option_bind] in Hrun.
  assert (run_call (k + n) b t s2 = Some s') as Hk by (by eapply IH).
  unfold step in Hs. destruct (panicked s) eqn:Hp; [done|].
  destruct (threads s !! t) as [c|] eqn:Ht; [|done].
  rewrite (run_call_step (k + n) b t s c s2); [done..|by intros ? ->|by intros ? ->|done].
Qed.

Lemma no_close_replicate k t b : forall s s',
  no_close s -> run (replicate k (ERun t b)) s = Some s' -> no_close s'.
Proof.
  induction k as [|k IH]; intros s s' Hnc Hrun; cbn [replicate run] in Hrun; [by simplify_eq|].
  destruct (step (ERun t b) s) as [s1|] eqn:Hs; [|done]. eapply IH; [|done]. by eapply no_close_run.
Qed.

Lemma tracked_session w s did p :
  reachable w s -> sessions s !! did = Some p ->
  exists o k, heap s !! p = Some o /\ conns s !! s_Conn o = Some k /\ s_DID o = did /\
    chanClosed o = isClosed o /\ closeOnce o = OnceIdle.
Proof.
  intros Hr Hd. destruct (refs_ok_reachable w s Hr) as [Htab _].
  destruct (objects_ok_reachable w s Hr) as [_ Hobj]. pose proof (Htab _ _ Hd) as Hdid.
  destruct (session_of s p) as [o Ho]; [by eauto|]. rewrite (lookup_dids _ _ _ Ho) in Hdid. simplify_eq.
  destruct (conns s !! s_Conn o) as [k|] eqn:Hk;
    [|exfalso; by eapply (conn_exists s); [eapply conns_ok_reachable|..]].
  exists o, k. split_and!; try done; [by apply (Hobj p o)|].
  destruct (closeOnce o) eqn:E; [done|..];
    destruct (lo_once s (left_ok_reachable w s Hr) p o (s_DID o) Ho) as [Hn _]; congruence.
Qed.

(** [UnregisterSession] up to the callback: the session is out of the table, closed, and
    so is its connection. *)
Definition at_callback (s s' : SM W) (t : nat) (r : role) (did : DID) (p : nat) (o : SessionState)
    (k : Conn) (closeErr : bool) : Prop :=
  threads s' = <[t := PUnregCallback r did p (onClose s) closeErr]> (threads s) /\
  sessions s' = delete did (sessions s) /\
  heap s' = <[p := closed_chan (with_once o OnceRunning)]> (heap s) /\
  conns s' = <[s_Conn o := mkConn (c_reader k) (c_writer k) true]> (conns s) /\
  closeLog s' = closeLog s /\ world s' = world s.

Lemma unregister_to_callback w s t b r did p o k :
  reachable w s -> threads s !! t = Some (PUnreg r did) ->
  sessions s !! did = Some p -> heap s !! p = Some o -> conns s !! s_Conn o = Some k ->
  exists s', run (replicate 3 (ERun t b)) s = Some s' /\ at_callback s s' t r did p o k b.
Proof.
  intros Hr Ht Hd Ho Hk. destruct (objects_ok_reachable w s Hr) as [Hp _].
  destruct (tracked_session w s did p Hr Hd) as (o' & k' & Ho' & _ & _ & Hcc & Hidle). simplify_eq.
  cbn [replicate].
  erewrite run_step; [|done|done|cbn [run_thread]; unfold do_unregister; by rewrite Hd].
  erewrite run_step; [|done|apply lookup_insert_eq|by apply once_enter].
  erewrite run_step; [|done|apply lookup_insert_eq|cbn [run_thread]; unfold do_unregister_conn, close_conn;
    sm_simpl; rewrite lookup_insert_eq; sm_simpl; by rewrite Hk].
  cbn [run]. eexists. split; [done|]. unfold at_callback. sm_simpl.
  split_and!; try done. by rewrite !insert_insert_eq.
Qed.

Lemma at_callback_closed s s' t r did p o k b :
  at_callback s s' t r did p o k b -> conn_closed s' p.
Proof.
  intros (_ & _ & Hh & Hk & _). exists (s_Conn o), (mkConn (c_reader k) (c_writer k) true).
  unfold sconn. rewrite Hh, Hk, lookup_fmap, !lookup_insert_eq. by split_and!.
Qed.

(** The callback of the session makes no calls. *)
Definition quiet_close s did : Prop :=
  match onClose s with Some f => (f (world s) did).2 = [] | None => True end.

(** The sessions whose callback has been called: this one, if there is a callback. *)
Definition called s p : list nat := match onClose s with Some _ => [p] | None => [] end.

(** [UnregisterSession] from the callback on, in the state [s2]. *)
Definition after_callback s s2 s' did p (o : SessionState) : Prop :=
  sessions s' ⊆ sessions s2 /\ (closeLog s2 ++ called s p) `prefix_of` closeLog s' /\
  (forall q, conn_closed s2 q -> conn_closed s' q) /\
  exists o', heap s' !! p = Some o' /\ isClosed o' = true /\ outbound o' = outbound o /\
    (quiet_close s did -> sessions s' = sessions s2 /\ heap s' = <[p := o']> (heap s2) /\
       closeLog s' = closeLog s2 ++ called s p).

Lemma conn_closed_same s s' :
  sconn s' = sconn s -> conns s' = conns s -> forall q, conn_closed s q -> conn_closed s' q.
Proof. unfold conn_closed. by intros -> ->. Qed.

(** The end of the call, when there is no callback or it has made its calls. *)
Lemma unregister_done_returns s t b did p o c closeErr :
  panicked s = false -> threads s !! t = Some c ->
  run_thread t b c s = do_unregister_done t ByCaller did p closeErr s ->
  calling c = true -> heap s !! p = Some o ->
  run_call 1 b t s = Some (set_thread t (PReturned (close_error (did, closeErr)))
    (set_session p (with_once o OnceDone) s)).
Proof.
  intros Hp Ht Hrun Hc Ho. erewrite (run_call_step 0 b t s c); [|done|done|by intros ? ->|by intros ? ->|].
  - eapply run_call_done, lookup_insert_eq.
  - rewrite Hrun. unfold do_unregister_done. by rewrite Ho.
Qed.

Lemma callback_returns w s s2 t did p o k closeErr :
  reachable w s2 -> no_close s2 -> at_callback s s2 t ByCaller did p o k closeErr ->
  exists n s', run_call n closeErr t s2 = Some s' /\
    returned t s' = Some (close_error (did, closeErr)) /\ after_callback s s2 s' did p o.
Proof.
  intros Hr2 Hnc2 (Ht & Htab & Hh & Hk & Hl & Hw). destruct (objects_ok_reachable w s2 Hr2) as [Hp2 _].
  set (o2 := closed_chan (with_once o OnceRunning)) in Hh.
  assert (heap s2 !! p = Some o2) as Ho2 by (rewrite Hh; apply lookup_insert_eq).
  assert (threads s2 !! t = Some (PUnregCallback ByCaller did p (onClose s) closeErr)) as Ht2
    by (rewrite Ht; apply lookup_insert_eq).
  assert (forall s1, sconn (set_thread t (PReturned (close_error (did, closeErr)))
    (set_session p (with_once o2 OnceDone) s1)) = s_Conn <$> <[p := with_once o2 OnceDone]> (heap s1)) as Hsc by done.
  unfold after_callback, called, quiet_close. destruct (onClose s) as [f|] eqn:Hcb.
  2:{ exists 1%nat. eexists. split; [by eapply unregister_done_returns|].
      unfold returned. sm_simpl. rewrite lookup_insert_eq. split; [done|].
      rewrite app_nil_r. split_and!; [done..| |].
      - apply conn_closed_same; [|done]. rewrite Hsc. by apply (sconn_update _ _ o2).
      - eexists. rewrite lookup_insert_eq. by split_and!. }
  destruct (f (world s2) did) as [w1 calls] eqn:Hf.
  set (s3 := set_thread t (PUnregCalls ByCaller did p closeErr calls) (log_close p (set_world w1 s2))).
  assert (run_thread t closeErr (PUnregCallback ByCaller did p (Some f) closeErr) s2 = Some s3) as Hs3
    by (cbn [run_thread do_unregister_callback]; by rewrite Hf).
  assert (reachable w s3) as Hr3.
  { eapply (reachable_step w s2 (ERun t closeErr)); [done|]. by rewrite (step_run s2 t closeErr _ Hp2 Ht2). }
  assert (threads s3 !! t = Some (PUnregCalls ByCaller did p closeErr calls)) as Ht3 by (apply lookup_insert_eq).
  assert (no_close s3) as Hnc3.
  { eapply (no_close_run s2 (ERun t closeErr)); [done..|]. by rewrite (step_run s2 t closeErr _ Hp2 Ht2). }
  destruct (frame_returns w t closeErr (did, closeErr) _ _ s3 _ Hr3 Hnc3 Ht3 eq_refl (Nat.le_refl _) (Nat.le_refl _))
    as (n & s' & Hn & Hret & [K1 K2 K3 K4]).
  exists (S n), s'. split_and!; [by erewrite run_call_step|done|done|done|done|].
  destruct (K2 p o2 Ho2 eq_refl) as (o' & Ho' & Hc' & Hq'). exists o'. split_and!; [done..|].
  intros Hquiet. rewrite Hw in Hf. rewrite Hf in Hquiet. simpl in Hquiet. subst calls.
  assert (run_call 1 closeErr t s3 = Some s') as Hone.
  { destruct n as [|n]; [cbn [run_call] in Hn; by rewrite Ht3 in Hn|].
    rewrite (unregister_done_returns s3 t closeErr did p o2 _ closeErr Hp2 Ht3 eq_refl eq_refl Ho2).
    rewrite <- Hn. symmetry. eapply (run_call_more _ _ _ 1%nat); [|lia].
    by eapply unregister_done_returns. }
  rewrite (unregister_done_returns s3 t closeErr did p o2 _ closeErr Hp2 Ht3 eq_refl eq_refl Ho2) in Hone.
  injection Hone as <-. simpl in Ho'. rewrite lookup_insert_eq in Ho'. by simplify_eq.
Qed.


(** C17. [RegisterSession] returns. A nil connection is refused and nothing changes.
    Any other connection gets the next identifier, a 32-bit increment: the session enters
    the table under it with an empty open queue, and its two loops start and are counted
    by the wait group; no other session changes, and none leaves the table unless it had
    that identifier. *)
Theorem RegisterSession_result w s conn :
  reachable w s ->
  let t := fresh (dom (threads s)) in
  exists s', RegisterSession conn s = Some s' /\
    match conn with
    | None =>
        returned t s' = Some (Some ErrNilConnection) /\
        sessions s' = sessions s /\ heap s' = heap s /\ conns s' = conns s /\ wg s' = wg s
    | Some (r, room) =>
        let did := u32 (nextDID s + 1) in
        let c := fresh (dom (conns s)) in
        exists p, heap s !! p = None /\ threads s' !! t = Some (PRegistered did) /\
          sessions s' = <[did := p]> (sessions s) /\
          heap s' = <[p := mkSession did c [] false false OnceIdle [] []]> (heap s) /\
          conns s' = <[c := mkConn r (mkWriter [] room) false]> (conns s) /\
          wg s' = wg s + 2 /\ nextDID s' = did /\
          some_thread (eq (PReadTop p)) (threads s') /\ some_thread (eq (PWriteTop p)) (threads s')
    end.
Proof.
  intros Hr t. destruct (objects_ok_reachable w s Hr) as [Hp _].
  unfold RegisterSession, do_call, step. rewrite Hp. destruct conn as [[r room]|]; cbn [mbind option_bind]; fold t.
  - call_step. unfold do_register. eexists. split; [cbn [run_call]; sm_simpl; by rewrite lookup_insert_eq|].
    exists (fresh (dom (heap s))). sm_simpl.
    split_and!; [apply not_elem_of_dom, is_fresh|apply lookup_insert_eq|done..| |].
    + eapply some_thread_move; [by do 2 apply lookup_spawn; apply lookup_insert_eq|done|].
      by apply some_thread_spawn, some_thread_here.
    + eapply some_thread_move; [by do 2 apply lookup_spawn; apply lookup_insert_eq|done|].
      by apply some_thread_here.
  - eexists. split; [cbn [run_call]; sm_simpl; by rewrite lookup_insert_eq|].
    unfold returned. sm_simpl. by rewrite lookup_insert_eq.
Qed.

End calls.
End SessionCalls.
