(* ===== verification/SessionLiveness.v ===== *)
(** * SessionLiveness: the absence of deadlock

    From every state that the program can be in in which no callback calls [Close], a call
    of [Close] can run to its return by steps of the goroutines alone, without a read that needs a peer to
    send or to hang up: closing the connections is enough to end every loop. *)

From S2P Require Import Prelude Threads Framing SessionManager SessionInvariant SessionOnce SessionTable SessionCalls.

Module SessionLiveness.
Import Framing SessionManager SessionInvariant SessionOnce SessionTable SessionCalls.

Section liveness.
Context {W : Type}.
Implicit Types (s : SM W) (p t u : nat).

(** ** Steps that do not need a peer *)

(** The goroutine would read from a connection that is open. *)
Definition blocks (u : nat) (s : SM W) : bool :=
  match threads s !! u with
  | Some (PReadPacket p) =>
      match heap s !! p ≫= fun o => conns s !! s_Conn o with
      | Some k => negb (c_closed k)
      | None => false
      end
  | _ => false
  end.

(** Steps of goroutines that satisfy [P], none of which needs a peer. *)
Inductive unaided (P : nat -> Prop) : SM W -> SM W -> Prop :=
| unaided_refl s : unaided P s s
| unaided_step u b s s1 s' :
    P u -> blocks u s = false -> step (ERun u b) s = Some s1 -> unaided P s1 s' ->
    unaided P s s'.

Lemma unaided_one (P : nat -> Prop) u b s s1 :
  P u -> blocks u s = false -> step (ERun u b) s = Some s1 -> unaided P s s1.
Proof. intros. eapply unaided_step; [done..|constructor]. Qed.

Lemma unaided_trans (P : nat -> Prop) s1 s2 s3 :
  unaided P s1 s2 -> unaided P s2 s3 -> unaided P s1 s3.
Proof. induction 1; [done|]. intros. eapply unaided_step; eauto. Qed.

Lemma unaided_mono (P Q : nat -> Prop) s s' :
  (forall u, P u -> Q u) -> unaided P s s' -> unaided Q s s'.
Proof. intros HPQ. induction 1; [constructor|]. eapply unaided_step; eauto. Qed.

Lemma unaided_reachable (P : nat -> Prop) w s s' : reachable w s -> unaided P s s' -> reachable w s'.
Proof. intros Hr. induction 1; [done|]. apply IHunaided. by eapply reachable_step. Qed.

(** A step of one goroutine leaves the others where they are. *)
Lemma step_other s t e u b c s' :
  e = ERun u b -> step e s = Some s' -> t <> u -> threads s !! t = Some c ->
  threads s' !! t = Some c.
Proof.
  intros He Hs Hne Hc. step_cases Hs; try done; injection He as -> ->; sm_simpl; try done.
  all: repeat first
    [ rewrite lookup_insert_ne by done
    | rewrite lookup_delete_ne by done
    | by repeat apply lookup_spawn ].
Qed.

Lemma unaided_keep t c s s' :
  unaided (fun u => t <> u) s s' -> threads s !! t = Some c -> threads s' !! t = Some c.
Proof. induction 1; [done|]. intros Ht. apply IHunaided. by eapply step_other. Qed.

(** A step that is not a registration makes no session and no table entry. *)
Lemma step_no_register s e u b c s' :
  e = ERun u b -> step e s = Some s' -> threads s !! u = Some c ->
  (forall conn, c <> PRegister conn) ->
  dids s' = dids s /\ registrations s' = registrations s /\
  (sessions s = ∅ -> sessions s' = ∅) /\ (ctxDone s = true -> ctxDone s' = true).
Proof.
  intros He Hs Hu Hc. step_cases Hs; try done; injection He as -> ->; unfold dids; sm_simpl;
    repeat (erewrite dids_update by (done || reflexivity)); try done.
  - simplify_eq. by destruct (Hc conn).
  - split_and!; [done|done| |done]. intros ->. apply delete_empty.
Qed.

(** ** Every connection gets closed *)

Definition all_closed s : Prop := forall p, is_Some (dids s !! p) -> conn_closed s p.

Lemma conn_of w s p o : reachable w s -> heap s !! p = Some o -> exists k, conns s !! s_Conn o = Some k.
Proof.
  intros Hr Ho. destruct (conns s !! s_Conn o) eqn:E; [by eauto|exfalso].
  by eapply (conn_exists s); [eapply conns_ok_reachable|..].
Qed.

(** [conn.Close()] of a session. *)
Lemma close_conn_closed w s p o :
  reachable w s -> heap s !! p = Some o -> conn_closed (close_conn (s_Conn o) s) p.
Proof.
  intros Hr Ho. unfold close_conn. destruct (conn_of w s p o Hr Ho) as [k Hk]. rewrite Hk.
  by eapply conn_closed_now.
Qed.

Definition closer_rank (c : pc W) : nat :=
  match c with PUnregOnce _ _ _ _ => 1 | PCloseConns _ active => length active | _ => 0 end.

(** What the goroutine that is about to close the connection does next. *)
Lemma closer_moves w s u c p :
  reachable w s -> threads s !! u = Some c -> will_close p c ->
  exists s', step (ERun u false) s = Some s' /\
    (conn_closed s' p \/ exists c', threads s' !! u = Some c' /\ will_close p c' /\
       (closer_rank c' < closer_rank c)%nat).
Proof.
  intros Hr Hu Hw. destruct (objects_ok_reachable w s Hr) as [Hp Hobj].
  destruct (refs_ok_reachable w s Hr) as [_ Hthr]. specialize (Hthr _ _ Hu).
  rewrite (step_run s u false c Hp Hu).
  destruct c as [| |r did q cb|r did q cb| | | | | | | | | | | | |r active| | |]; try done; simpl in Hw.
  - subst q. destruct Hthr as [Hd _]. destruct (session_of s p) as [o Ho]; [by eauto|].
    destruct (Hobj _ _ Ho) as [Hcc _].
    pose proof (so_idle s (sole_ok_reachable w s Hr) _ _ _ _ _ _ Hu Ho) as Hidle.
    rewrite (once_enter s u false r did p cb o Ho Hidle Hcc).
    eexists. split; [done|]. right. eexists. split; [apply lookup_insert_eq|]. split; [done|]. simpl. lia.
  - subst q. destruct Hthr as [Hd _]. destruct (session_of s p) as [o Ho]; [by eauto|].
    cbn [run_thread]. unfold do_unregister_conn. rewrite Ho. eexists. split; [done|].
    left. by apply (close_conn_closed w s).
  - destruct active as [|q active]; [by apply elem_of_nil in Hw|].
    destruct Hthr as [Hthr _]. apply Forall_cons in Hthr as [Hq _]. destruct (session_of s q Hq) as [o Ho].
    cbn [run_thread do_close_conns]. rewrite Ho. eexists. split; [done|].
    apply elem_of_cons in Hw as [->|Hw]; [left; by apply (close_conn_closed w s)|].
    right. eexists. split; [apply lookup_insert_eq|]. split; [done|]. simpl. lia.
Qed.

(** The context is cancelled, the table is empty, the sessions are those of [D], the
    identifiers have not wrapped, and no callback calls [Close]. *)
Definition closing (D : gmap nat DID) s : Prop :=
  ctxDone s = true /\ sessions s = ∅ /\ dids s = D /\ registrations s < 2 ^ 32 /\ no_close s.

Lemma closing_step D s u b c s' :
  closing D s -> step (ERun u b) s = Some s' -> threads s !! u = Some c ->
  (forall conn, c <> PRegister conn) -> closing D s'.
Proof.
  intros (H1 & H2 & H3 & H4 & Hnc) Hs Hu Hc.
  destruct (step_no_register _ _ _ _ _ _ eq_refl Hs Hu Hc) as (H5 & H6 & H7 & H8).
  split_and!; [by auto|by auto|congruence|by rewrite H6|by eapply no_close_run].
Qed.

Lemma conn_closed_unaided (P : nat -> Prop) s s' p :
  unaided P s s' -> conn_closed s p -> conn_closed s' p.
Proof. induction 1; [done|]. intros. apply IHunaided. by eapply conn_closed_step. Qed.

Lemma closer_ends w t u p D : forall n s c,
  reachable w s -> closing D s -> t <> u -> threads s !! u = Some c -> will_close p c ->
  (closer_rank c < n)%nat ->
  exists s', unaided (fun u => t <> u) s s' /\ closing D s' /\ conn_closed s' p.
Proof.
  induction n as [|n IH]; [lia|]. intros s c Hr Hcl Hne Hu Hw Hn.
  destruct (closer_moves w s u c p Hr Hu Hw) as (s1 & Hs1 & Hnext).
  assert (blocks u s = false) as Hb by (unfold blocks; rewrite Hu; by destruct c).
  assert (closing D s1) as Hcl1 by (eapply closing_step; [done..|]; by destruct c).
  destruct Hnext as [Hdone|(c' & Hu' & Hw' & Hlt)].
  { exists s1. split_and!; [by eapply unaided_one|done|done]. }
  destruct (IH s1 c') as (s' & Hs' & Hend); [by eapply reachable_step|done..|lia|].
  exists s'. split; [by eapply unaided_step|done].
Qed.

Lemma session_closes w t c D s p :
  reachable w s -> closing D s -> threads s !! t = Some c -> (forall p, will_close p c -> False) ->
  is_Some (D !! p) ->
  exists s', unaided (fun u => t <> u) s s' /\ closing D s' /\ conn_closed s' p.
Proof.
  intros Hr Hcl Ht Hc Hp. pose proof Hcl as (Hctx & Htab & HD & Hn & _).
  destruct (owned_reachable w s p Hr Hn) as [Hclosed|[[did Hd]|(u & d & Hu & Hd)]].
  - by rewrite HD.
  - exists s. split_and!; [constructor|done|done].
  - by rewrite Htab, lookup_empty in Hd.
  - eapply (closer_ends w t u p D (S (closer_rank d))); try done; [|lia].
    intros <-. simplify_eq. by eapply Hc.
Qed.

(** One session after the other. *)
Lemma sessions_close w t c D : forall l s,
  reachable w s -> closing D s -> threads s !! t = Some c -> (forall p, will_close p c -> False) ->
  Forall (fun p => is_Some (D !! p)) l ->
  exists s', unaided (fun u => t <> u) s s' /\ closing D s' /\ Forall (conn_closed s') l.
Proof.
  induction l as [|p l IH]; intros s Hr Hcl Ht Hc Hl.
  { exists s. split_and!; [constructor|done|constructor]. }
  apply Forall_cons in Hl as [Hp Hl].
  destruct (session_closes w t c D s p Hr Hcl Ht Hc Hp) as (s1 & Hs1 & Hcl1 & Hp1).
  destruct (IH s1) as (s' & Hs' & Hcl' & Hl'); try done.
  { by eapply unaided_reachable. } { by eapply unaided_keep. }
  exists s'. split_and!; [by eapply unaided_trans|done|]. constructor; [|done].
  by eapply conn_closed_unaided.
Qed.

Lemma all_sessions_close w t c s :
  reachable w s -> closing (dids s) s -> threads s !! t = Some c ->
  (forall p, will_close p c -> False) ->
  exists s', unaided (fun u => t <> u) s s' /\ closing (dids s) s' /\ all_closed s'.
Proof.
  intros Hr Hcl Ht Hc.
  destruct (sessions_close w t c (dids s) (elements (dom (dids s))) s) as (s' & Hs' & Hcl' & Hl);
    try done.
  { apply Forall_forall. intros p Hp. by apply elem_of_elements, elem_of_dom in Hp. }
  exists s'. split_and!; [done|done|]. intros p Hp. destruct Hcl' as (_ & _ & Hd & _).
  rewrite Hd in Hp. rewrite Forall_forall in Hl. apply Hl, elem_of_elements, elem_of_dom, Hp.
Qed.

(** ** Every loop ends *)

(** How far a loop is from its end when its connection is closed and the table is empty.
    The number of calls of a callback is not known before it runs. *)
Definition stage (c : pc W) : nat :=
  match c with PReadControl _ _ _ => 1 | _ => unseen c end.

Definition nearer (c' c : pc W) : Prop :=
  (stage c' < stage c)%nat \/ (stage c' = stage c /\ work c' < work c)%nat.

Ltac moves :=
  eexists; split; [done|]; cbn [finish start_call exit_read exit_write]; sm_simpl;
  first
    [ left; done
    | right; split; [done|]; eexists; split; [apply lookup_insert_eq|]; split; [done|];
      unfold nearer; simpl; lia ].

(** A loop can always move towards its end. *)
Lemma loop_moves w D s t c :
  reachable w s -> closing D s -> all_closed s -> threads s !! t = Some c -> owes c = true ->
  exists s', step (ERun t true) s = Some s' /\
    (wg s' = wg s - 1 \/
     wg s' = wg s /\ exists c', threads s' !! t = Some c' /\ owes c' = true /\ nearer c' c).
Proof.
  intros Hr (Hctx & Htab & _ & _ & Hnc) Hcl Ht Howes. pose proof (nc_threads s Hnc _ _ Ht) as Htame. destruct (objects_ok_reachable w s Hr) as [Hp Hobj].
  destruct (refs_ok_reachable w s Hr) as [_ Hthr]. specialize (Hthr _ _ Ht).
  pose proof (session_of s) as Hheap. rewrite (step_run s t true c Hp Ht).
  destruct c; try done; cbn [run_thread]; cbn [pc_ok tame] in *; try (by subst r).
  - unfold do_unregister. rewrite Htab, lookup_empty. destruct r; try done; moves.
  - destruct Hthr as [Hd _]. destruct (Hheap p) as [o Ho]; [by eauto|].
    destruct (Hobj _ _ Ho) as [Hcc _].
    pose proof (so_idle s (sole_ok_reachable w s Hr) _ _ _ _ _ _ Ht Ho) as Hidle.
    pose proof (once_enter s t true r did p cb o Ho Hidle Hcc) as He. cbn [run_thread] in He.
    rewrite He. moves.
  - destruct Hthr as [Hd _]. destruct (Hheap p) as [o Ho]; [by eauto|].
    destruct (conn_of w s p o Hr Ho) as [k Hk].
    unfold do_unregister_conn, close_conn. rewrite Ho, Hk. moves.
  - destruct Hthr as [Hd _]. destruct (Hheap p) as [o Ho]; [by eauto|].
    destruct cb as [f|]; cbn [do_unregister_callback]; [destruct (f (world s) did); moves|].
    unfold do_unregister_done. rewrite Ho. destruct r; try done; moves.
  - destruct Hthr as [Hd _]. destruct (Hheap p) as [o Ho]; [by eauto|].
    destruct calls as [|[] more]; cbn [do_unregister_calls]; [|moves|moves|].
    2:{ destruct Htame as [_ Htame]. by apply Forall_cons in Htame as [[] _]. }
    unfold do_unregister_done. rewrite Ho. destruct r; try done; moves.
  - unfold do_send. rewrite Htab, lookup_empty. destruct r; try done; moves.
  - destruct Hthr as [Hd _]. destruct (Hheap p) as [o Ho]; [done|].
    destruct (Hobj _ _ Ho) as [Hcc _].
    unfold do_send_locked. rewrite Ho, Hcc.
    destruct (isClosed o); [|destruct (_ <? _)%nat]; destruct r; try done; moves.
  - destruct (Hheap p Hthr) as [o Ho]. unfold do_read_top. rewrite Ho, Hctx. moves.
  - destruct (Hheap p Hthr) as [o Ho]. destruct (Hcl p Hthr) as (c & k & Hc & Hk & Hkc).
    rewrite (lookup_sconn s p o Ho) in Hc. simplify_eq.
    unfold do_read_packet. rewrite Ho, Hk, Hkc. moves.
  - destruct (Hheap p Hthr) as [o Ho]. unfold do_read_control. rewrite Ho.
    destruct (onControl s) as [cb|]; [destruct (cb _ _ _ _)|]; moves.
  - destruct calls as [|[] more]; cbn [do_read_calls]; [moves..|]. by apply Forall_cons in Htame as [[] _].
  - destruct (Hheap p Hthr) as [o Ho]. unfold do_write_top. rewrite Ho, Hctx. moves.
  - destruct (Hheap p Hthr) as [o Ho]. destruct (conn_of w s p o Hr Ho) as [k Hk].
    unfold do_write_packet. rewrite Ho, Hk. destruct (c_closed k); [moves|].
    destruct (writePacket _ _ _ _) as [wr [e|]]; moves.
Qed.

(** When all connections are closed no read blocks. *)
Lemma all_closed_blocks w s u : reachable w s -> all_closed s -> blocks u s = false.
Proof.
  intros Hr Hcl. unfold blocks. destruct (threads s !! u) as [c|] eqn:Hu; [|done].
  destruct (refs_ok_reachable w s Hr) as [_ Hthr]. specialize (Hthr _ _ Hu).
  destruct c; try done. destruct (Hcl p Hthr) as (c & k & Hc & Hk & Hkc).
  destruct (session_of s p Hthr) as [o Ho]. rewrite (lookup_sconn s p o Ho) in Hc. simplify_eq.
  rewrite Ho. cbn [mbind option_bind]. by rewrite Hk, Hkc.
Qed.

Lemma all_closed_step D s e s' :
  all_closed s -> closing D s -> closing D s' -> step e s = Some s' -> all_closed s'.
Proof.
  intros Hcl (_ & _ & Hd & _) (_ & _ & Hd' & _) Hs p Hp. eapply conn_closed_step; [done|].
  apply Hcl. congruence.
Qed.

Lemma owes_not_register (c : pc W) : owes c = true -> forall conn, c <> PRegister conn.
Proof. by intros Hc conn ->. Qed.

(** A loop can run to its end. *)
Lemma loop_ends w t u D : forall n m s c,
  reachable w s -> closing D s -> all_closed s -> threads s !! u = Some c -> owes c = true ->
  t <> u -> (stage c < n)%nat -> (work c < m)%nat ->
  exists s', unaided (fun u => t <> u) s s' /\ closing D s' /\ all_closed s' /\ wg s' = wg s - 1.
Proof.
  induction n as [|n IHn]; [lia|]. intros m s c Hr Hcl Hall Hu Howes Hne Hst.
  revert s c Hr Hcl Hall Hu Howes Hst. induction m as [|m IHm]; [lia|].
  intros s c Hr Hcl Hall Hu Howes Hst Hrk.
  destruct (loop_moves w D s u c Hr Hcl Hall Hu Howes) as (s1 & Hs1 & Hnext).
  pose proof (all_closed_blocks w s u Hr Hall) as Hb.
  assert (closing D s1) as Hcl1 by (eapply closing_step; [done..|by apply owes_not_register]).
  assert (all_closed s1) as Hall1 by (by eapply (all_closed_step D s)).
  destruct Hnext as [Hwg|(Hwg & c1 & Hu1 & Hc1 & Hnear)].
  { exists s1. split_and!; [by eapply unaided_one|done..]. }
  assert (exists s', unaided (fun u => t <> u) s1 s' /\ closing D s' /\ all_closed s' /\
    wg s' = wg s1 - 1) as (s' & Hs' & Hcl' & Hall' & Hwg').
  { assert (reachable w s1) as Hr1 by (by eapply reachable_step).
    destruct Hnear as [Hlt|[Heq Hlt]].
    - eapply (IHn (S (work c1))); [done..|lia|lia].
    - eapply IHm; [done..|lia|lia]. }
  exists s'. split_and!; [by eapply unaided_step|done|done|lia].
Qed.

(** All the loops can run to their end while a goroutine waits. *)
Lemma loops_end w t c D : forall n s,
  reachable w s -> closing D s -> all_closed s -> threads s !! t = Some c -> owes c = false ->
  wg s = Z.of_nat n ->
  exists s', unaided (fun u => t <> u) s s' /\ wg s' = 0.
Proof.
  induction n as [|n IH]; intros s Hr Hcl Hall Ht Hc Hwg.
  { exists s. split; [constructor|by rewrite Hwg]. }
  pose proof (wg_ok_reachable w s Hr) as Hlive. unfold wg_ok, live in Hlive.
  destruct (count_some owes (threads s)) as (u & d & Hu & Hd); [lia|].
  assert (t <> u) as Hne by congruence.
  destruct (loop_ends w t u D (S (stage d)) (S (work d)) s d) as (s1 & Hs1 & Hcl1 & Hall1 & Hwg1);
    try done; [lia..|].
  destruct (IH s1) as (s' & Hs' & Hwg'); try done; [by eapply unaided_reachable|by eapply unaided_keep|lia|].
  exists s'. split; [by eapply unaided_trans|done].
Qed.

(** ** Close *)

(** [Close] gets to its wait. *)
Lemma close_waits w t D : forall active s,
  reachable w s -> closing D s -> threads s !! t = Some (PCloseConns ByCaller active) ->
  exists s', unaided (fun _ => True) s s' /\ closing D s' /\ threads s' !! t = Some (PCloseWait ByCaller).
Proof.
  induction active as [|p active IH]; intros s Hr Hcl Ht;
    destruct (objects_ok_reachable w s Hr) as [Hp _];
    (assert (blocks t s = false) as Hb by (unfold blocks; by rewrite Ht));
    pose proof (step_run s t false _ Hp Ht) as Hs; cbn in Hs.
  - eexists. split_and!; [by eapply unaided_one|by eapply closing_step|apply lookup_insert_eq].
  - destruct (refs_ok_reachable w s Hr) as [_ Hthr].
    specialize (Hthr _ _ Ht). destruct Hthr as [Hthr _]. apply Forall_cons in Hthr as [Hd _].
    destruct (session_of s p Hd) as [o Ho]. rewrite Ho in Hs.
    edestruct IH as (s' & Hs' & Hcl' & Ht');
      [by eapply reachable_step|by eapply closing_step|apply lookup_insert_eq|].
    exists s'. split; [by eapply unaided_step|done].
Qed.

Lemma close_starts w s :
  reachable w s -> registrations s < 2 ^ 32 -> no_close s ->
  let t := fresh (dom (threads s)) in
  exists s1 s', step EClose s = Some s1 /\ unaided (fun _ => True) s1 s' /\ closing (dids s) s' /\
    exists active, threads s' !! t = Some (PCloseConns ByCaller active).
Proof.
  intros Hr Hn Hnc t. destruct (objects_ok_reachable w s Hr) as [Hp _].
  exists (spawn (PCloseCancel ByCaller) s). eexists. split; [unfold step; by rewrite Hp|]. split_and!.
  - eapply unaided_step; [done| | |eapply unaided_one; [done| |]].
    + unfold blocks. simpl. by rewrite lookup_insert_eq.
    + erewrite (step_run _ t false) by (done || apply lookup_insert_eq). done.
    + unfold blocks. simpl. by rewrite lookup_insert_eq.
    + erewrite (step_run _ t false) by (done || apply lookup_insert_eq). done.
  - split_and!; try done. destruct Hnc as [H1 H2 H3]. constructor; [done..|].
    by do 3 (apply map_Forall_insert_2; [done|]).
  - eexists. apply lookup_insert_eq.
Qed.

(** [Close] cannot be deadlocked: in every state that the program can be in, with
    any number of sessions, calls and callbacks under way, a new call of [Close] can
    run to its return by steps of the goroutines alone, none of which is a read that
    has to wait for a peer (while fewer than 2^32 sessions have been registered, and when
    no callback calls [Close] itself). *)
Theorem Close_can_return w s :
  reachable w s -> registrations s < 2 ^ 32 -> no_close s ->
  exists s1 s', step EClose s = Some s1 /\ unaided (fun _ => True) s1 s' /\
    returned (fresh (dom (threads s))) s' = Some None.
Proof.
  intros Hr Hn Hnc. destruct (close_starts w s Hr Hn Hnc) as (s1 & s2 & Hs1 & Hs2 & Hcl2 & active & Ht2).
  set (t := fresh (dom (threads s))) in *.
  assert (reachable w s2) as Hr2 by (eapply unaided_reachable; [by eapply reachable_step|done]).
  destruct (close_waits w t (dids s) active s2 Hr2 Hcl2 Ht2) as (s3 & Hs3 & Hcl3 & Ht3).
  assert (reachable w s3) as Hr3 by (by eapply unaided_reachable).
  destruct (all_sessions_close w t (PCloseWait ByCaller) s3 Hr3) as (s4 & Hs4 & Hcl4 & Hall4); try done.
  { destruct Hcl3 as (? & ? & ? & ? & ?). by split_and!. }
  assert (reachable w s4) as Hr4 by (by eapply unaided_reachable).
  pose proof (unaided_keep t (PCloseWait ByCaller) _ _ Hs4 Ht3) as Ht4.
  destruct (loops_end w t (PCloseWait ByCaller) (dids s3) (Z.to_nat (wg s4)) s4) as (s5 & Hs5 & Hwg5); try done.
  { pose proof (wg_ok_reachable w s4 Hr4) as Hw. unfold wg_ok, live in Hw.
    pose proof (count_nonneg owes (threads s4)). lia. }
  pose proof (unaided_keep t (PCloseWait ByCaller) _ _ Hs5 Ht4) as Ht5.
  assert (reachable w s5) as Hr5 by (by eapply unaided_reachable).
  exists s1. eexists. split_and!; [done| |].
  - eapply unaided_trans; [done|]. eapply unaided_trans; [done|].
    eapply unaided_trans; [by eapply unaided_mono; [|done]|].
    eapply unaided_trans; [by eapply unaided_mono; [|done]|].
    eapply (unaided_one _ t false); [done|unfold blocks; by rewrite Ht5|].
    rewrite (step_run s5 t false (PCloseWait ByCaller)); [cbn; unfold do_close_wait; by rewrite Hwg5| |done].
    by eapply objects_ok_reachable.
  - unfold returned. cbn [finish]. sm_simpl. by rewrite lookup_insert_eq.
Qed.

End liveness.
End SessionLiveness.
