(* ===== verification/SessionShutdown.v ===== *)
(** * SessionShutdown: the session manager comes down

    Once the context is cancelled, by [Close] or by the owner of the parent context, the
    goroutines of the session manager come to an end under every scheduler: there is no
    infinite sequence of their steps, and when no step is possible that does not wait
    for a peer, everything has ended. No callback may call [Close], which would wait for
    the loop that it is called in. The measure is lexicographic, because the number
    of calls that a callback makes is not known before it runs. *)

From stdpp Require Import relations.
From S2P Require Import Prelude Threads Schedules Framing SessionManager SessionInvariant SessionOnce SessionTable SessionCalls SessionLiveness.

Module SessionShutdown.
Import Framing SessionManager SessionInvariant SessionOnce SessionTable SessionCalls SessionLiveness.

Section shutdown.
Context {W : Type}.
Implicit Types (s : SM W) (p t u : nat).

(** A goroutine moves. *)
Definition goes s s' : Prop := exists u b, step (ERun u b) s = Some s'.

(** A goroutine moves without a peer that sends something or hangs up. *)
Definition free s s' : Prop := exists u b, blocks u s = false /\ step (ERun u b) s = Some s'.

Definition quiet s : Prop := forall u b, blocks u s = false -> step (ERun u b) s = None.

Lemma settled_quiet s : settled free s -> quiet s.
Proof.
  intros Hs u b Hb. destruct (step (ERun u b) s) as [s'|] eqn:He; [|done].
  destruct (Hs s'). by exists u, b.
Qed.

(** ** The measure *)

(** Goroutines whose future work depends on what they will see: a callback that has
    still to run, and a table that [Close] has still to take. A session that has been
    registered, or will be, has a close callback to run until its once is entered. *)
Definition unknown (c : pc W) : nat :=
  match c with
  | PReadPacket _ | PCloseCancel _ => 2
  | PReadControl _ _ _ | PCloseSwap _ | PRegister _ => 1
  | PUnregConn _ _ _ _ | PUnregCallback _ _ _ _ _ => 1
  | _ => 0
  end.

Definition unclosed (o : SessionState) : nat :=
  match closeOnce o with OnceIdle => 1 | _ => 0 end.

Definition queued (o : SessionState) : nat := 2 * length (outbound o).

Definition to_do s : nat := (weight work (threads s) + weight queued (heap s))%nat.
Definition to_see s : nat := (weight unknown (threads s) + weight unclosed (heap s))%nat.

Lemma ctxDone_goes s s' : goes s s' -> ctxDone s = true -> ctxDone s' = true.
Proof. intros (u & b & Hs) Hc. remember (ERun u b) as e. step_cases Hs; by sm_simpl. Qed.

Lemma goes_decreases w s s' :
  reachable w s -> ctxDone s = true -> no_close s -> goes s s' ->
  (to_see s' < to_see s)%nat \/ (to_see s' = to_see s /\ to_do s' < to_do s)%nat.
Proof.
  intros Hr Hctx Hnc (u & b & Hs). destruct (objects_ok_reachable w s Hr) as [Hp Hobj].
  assert (panicked s' = false) as Hp' by (by eapply objects_ok_reachable, reachable_step).
  remember (ERun u b) as e. unfold to_see, to_do.
  step_cases Hs; try discriminate Heqe; sm_simpl; weigh.
  all: cbn [unknown work back length] in *.
  all: unfold queued, unclosed in *; sm_simpl; rewrite ?length_app in *; cbn [length] in *.
  all: try congruence.
  all: repeat match goal with
    | Hq : outbound _ = _ |- _ => rewrite Hq in *; clear Hq
    | Hq : closeOnce _ = _ |- _ => rewrite Hq in *; clear Hq
    end.
  all: cbn [length] in *; try lia.
  all: try (by destruct (proj2 (refs_ok_reachable w s Hr) _ _ Ht)).
  all: pose proof (nc_threads s Hnc _ _ Ht) as Htame; cbn [tame] in Htame;
    try (destruct Htame as [_ Htame]); by apply Forall_cons in Htame as [[] _].
Qed.

(** What the steps keep. *)
Definition closing_down w s : Prop := reachable w s /\ ctxDone s = true /\ no_close s.

Lemma closing_down_goes w s s' : closing_down w s -> goes s s' -> closing_down w s'.
Proof.
  intros (Hr & Hctx & Hnc) Hs. split_and!; [|by eapply ctxDone_goes|];
    destruct Hs as (u & b & Hs); [by eapply reachable_step|by eapply no_close_run].
Qed.

(** Steps of the goroutines cannot go on for ever. *)
Lemma goes_terminates w s : closing_down w s -> sn goes s.
Proof.
  apply (sn_lex goes (closing_down w) to_see to_do).
  - apply closing_down_goes.
  - intros s1 s2 (Hr & Hctx & Hnc). by apply (goes_decreases w).
Qed.

(** ** Where the goroutines stop *)

Definition finished (c : pc W) : bool :=
  match c with PReturned _ | PRegistered _ => true | _ => false end.

(** The points at which a goroutine can wait. *)
Definition waits (c : pc W) : bool :=
  match c with PReadPacket _ | PCloseWait _ => true | _ => false end.

Lemma can_move w s u c :
  reachable w s -> ctxDone s = true -> threads s !! u = Some c ->
  finished c = false -> waits c = false -> exists s', step (ERun u true) s = Some s'.
Proof.
  intros Hr Hctx Hu Hf Hw. destruct (objects_ok_reachable w s Hr) as [Hp Hobj].
  destruct (refs_ok_reachable w s Hr) as [_ Hthr]. specialize (Hthr _ _ Hu).
  rewrite (step_run s u true c Hp Hu).
  destruct c; try done; cbn [run_thread pc_ok] in *; try (by eexists).
  all: try match type of Hthr with _ /\ _ => destruct Hthr as [Hd _] end.
  all: try (destruct (session_of s p) as [o Ho]; [by eauto|]).
  - pose proof (so_idle s (sole_ok_reachable w s Hr) _ _ _ _ _ _ Hu Ho) as Hidle.
    destruct (Hobj _ _ Ho) as [Hcc _]. eexists. by apply (once_enter s u true r did p cb o Ho Hidle Hcc).
  - unfold do_unregister_conn. rewrite Ho. by eexists.
  - unfold do_unregister_callback, do_unregister_done. rewrite Ho. destruct cb as [f|]; [|by eexists].
    destruct (f (world s) did). by eexists.
  - unfold do_unregister_calls, do_unregister_done. rewrite Ho. destruct calls; by eexists.
  - unfold do_send_locked. rewrite Ho. by repeat case_match; eexists.
  - unfold do_read_top. rewrite Ho. by repeat case_match; eexists.
  - unfold do_read_control. rewrite Ho. by repeat case_match; eexists.
  - unfold do_write_top. rewrite Ho, Hctx. by eexists.
  - unfold do_write_packet. destruct (conn_of w s p o Hr Ho) as [k Hk]. rewrite Ho, Hk.
    by repeat case_match; eexists.
  - destruct active as [|p active]; [by eexists|]. apply Forall_cons in Hd as [Hp1 _].
    destruct (session_of s p Hp1) as [o Ho]. cbn [do_close_conns]. rewrite Ho. by eexists.
Qed.

(** In a quiet state a goroutine that has not finished waits. *)
Lemma quiet_waits w s u c :
  reachable w s -> ctxDone s = true -> quiet s -> threads s !! u = Some c ->
  finished c = true \/ waits c = true.
Proof.
  intros Hr Hctx Hq Hu. destruct (finished c) eqn:Hf; [by left|].
  destruct (waits c) eqn:Hw; [by right|].
  destruct (can_move w s u c Hr Hctx Hu Hf Hw) as [s' Hs].
  rewrite Hq in Hs; [done|]. unfold blocks. rewrite Hu. by destruct c.
Qed.

(** No session is left in the table, since its write loop has ended. *)
Lemma quiet_untracked w s p :
  reachable w s -> ctxDone s = true -> quiet s -> tracked s p -> False.
Proof.
  intros Hr Hctx Hq [did Hd].
  destruct (loops_ok_reachable w s Hr did p Hd) as [_ (u & c & Hu & Hc)].
  destruct (quiet_waits w s u c Hr Hctx Hq Hu) as [H|H]; by destruct c.
Qed.

Lemma quiet_closed w s :
  reachable w s -> ctxDone s = true -> registrations s < 2 ^ 32 -> quiet s -> all_closed s.
Proof.
  intros Hr Hctx Hn Hq p Hp.
  destruct (owned_reachable w s p Hr Hn Hp) as [Hc|[Ht|(u & c & Hu & Hc)]]; [done| |exfalso].
  - by destruct (quiet_untracked w s p Hr Hctx Hq Ht).
  - destruct (quiet_waits w s u c Hr Hctx Hq Hu) as [H|H]; by destruct c.
Qed.

(** With all connections closed no loop waits, and then nobody does. *)
Lemma quiet_finished w s u c :
  reachable w s -> ctxDone s = true -> registrations s < 2 ^ 32 -> no_close s -> quiet s ->
  threads s !! u = Some c -> finished c = true.
Proof.
  intros Hr Hctx Hn Hnc Hq. pose proof (quiet_closed w s Hr Hctx Hn Hq) as Hall.
  assert (forall v b, step (ERun v b) s = None) as Hstop
    by (intros v b; apply Hq; by eapply all_closed_blocks).
  destruct (objects_ok_reachable w s Hr) as [Hp _].
  assert (wg s = 0) as Hwg.
  { destruct (decide (wg s = 0)) as [|Hne]; [done|exfalso].
    pose proof (wg_ok_reachable w s Hr) as Hlive. unfold wg_ok, live in Hlive.
    destruct (count_some owes (threads s)) as (v & d & Hv & Hd); [congruence|].
    destruct (quiet_waits w s v d Hr Hctx Hq Hv) as [H|H]; destruct d; try done;
      [|pose proof (nc_threads s Hnc _ _ Hv) as Htame; cbn [tame] in Htame; by subst].
    destruct (refs_ok_reachable w s Hr) as [_ Hthr]. specialize (Hthr _ _ Hv). cbn [pc_ok] in Hthr.
    destruct (session_of s p Hthr) as [o Ho]. destruct (conn_of w s p o Hr Ho) as [k Hk].
    specialize (Hstop v true). rewrite (step_run s v true _ Hp Hv) in Hstop. cbn [run_thread] in Hstop.
    unfold do_read_packet in Hstop. rewrite Ho, Hk in Hstop.
    repeat case_match; done. }
  intros Hu. destruct (quiet_waits w s u c Hr Hctx Hq Hu) as [H|H]; [done|].
  destruct c; try done.
  - pose proof (wg_ok_reachable w s Hr) as Hlive. unfold wg_ok, live in Hlive.
    rewrite Hwg in Hlive. by pose proof (count_zero owes (threads s) u _ (eq_sym Hlive) Hu).
  - specialize (Hstop u true). rewrite (step_run s u true _ Hp Hu) in Hstop. cbn [run_thread] in Hstop.
    unfold do_close_wait in Hstop. by rewrite Hwg in Hstop.
Qed.

(** ** Calls of [Close] *)

Definition in_close (c : pc W) : bool :=
  match c with PCloseCancel _ | PCloseSwap _ | PCloseConns _ _ | PCloseWait _ => true | _ => false end.

Definition closing_call (c : pc W) : Prop :=
  in_close c = true /\ role_of c = ByCaller \/ c = PReturned None.

Lemma closing_call_goes s s' t c :
  goes s s' -> threads s !! t = Some c -> closing_call c ->
  exists c', threads s' !! t = Some c' /\ closing_call c'.
Proof.
  intros (u & b & Hs) Ht Hc. destruct (decide (t = u)) as [<-|Hne].
  2:{ exists c. split; [by eapply (step_other s)|done]. }
  unfold step in Hs. destruct (panicked s); [done|]. rewrite Ht in Hs. cbn [mbind option_bind] in Hs.
  destruct Hc as [[Hc Hrole]|Hc]; [|by subst c]. destruct c; try done; cbn [run_thread role_of] in *; subst r.
  all: unfold do_close_swap, do_close_conns, do_close_wait, finish, close_conn in Hs; repeat case_match; simplify_eq; sm_simpl.
  all: eexists; split; [apply lookup_insert_eq|]; by (left + right).
Qed.

(** ** Every schedule comes to an end *)

Lemma quiet_or_moves s :
  settled free s \/ exists s', free s s'.
Proof.
  set (moves := fun ub : nat * bool => blocks ub.1 s = false /\ is_Some (step (ERun ub.1 ub.2) s)).
  destruct (decide (Exists moves (u ← elements (dom (threads s)); [(u, true); (u, false)]))) as [He|Hne].
  - right. apply Exists_exists in He as ([u b] & _ & Hb & [s' Hs]). unfold free. eauto 10.
  - left. intros s' (u & b & Hb & Hs).
    apply Hne, Exists_exists. exists (u, b). split; [|by split; [|eexists]].
    apply list_elem_of_bind. exists u. split; [destruct b; set_solver|].
    apply elem_of_elements, elem_of_dom. unfold step in Hs. destruct (panicked s); [done|].
    by destruct (threads s !! u).
Qed.

(** Nothing is left of the manager's activity. *)
Record down s : Prop := {
  down_calls : forall t c, threads s !! t = Some c -> finished c = true;
  down_table : sessions s = ∅;
  down_wg : wg s = 0;
  down_conns : forall p o, heap s !! p = Some o -> conn_closed s p;
}.

Lemma quiet_down w s :
  reachable w s -> ctxDone s = true -> registrations s < 2 ^ 32 -> no_close s -> quiet s -> down s.
Proof.
  intros Hr Hctx Hn Hnc Hq. pose proof (fun u c => quiet_finished w s u c Hr Hctx Hn Hnc Hq) as Hf.
  assert (wg s = 0) as Hwg.
  { rewrite (wg_ok_reachable w s Hr). unfold live.
    destruct (decide (count_threads owes (threads s) = 0)) as [|Hne]; [done|].
    destruct (count_some owes (threads s) Hne) as (v & d & Hv & Hd).
    specialize (Hf _ _ Hv). by destruct d. }
  split; [done|by apply (no_loops_no_sessions w)|done|].
  intros p o Ho. apply (quiet_closed w s Hr Hctx Hn Hq). eexists. by apply lookup_dids.
Qed.

(** C5. The session manager comes down under every scheduler. Once the context is
    cancelled, with any number of sessions, calls and callbacks under way, and when no
    callback calls [Close], every sequence of steps of the goroutines is finite, and until
    all has ended some goroutine can move without waiting for a peer. At the end every call has returned, every [Close] without
    an error, no loop is left, the table is empty and every connection is closed (while
    fewer than 2^32 sessions have been registered). *)
Theorem shutdown_completes w s :
  reachable w s -> ctxDone s = true -> no_close s ->
  inevitable goes free (fun s' => registrations s' < 2 ^ 32 ->
    down s' /\ forall t c, threads s !! t = Some c -> in_close c = true -> returned t s' = Some None) s.
Proof.
  intros Hr Hctx Hnc. set (calls := fun s' => forall t c, threads s !! t = Some c -> in_close c = true ->
    exists c', threads s' !! t = Some c' /\ closing_call c').
  apply (inevitable_settled goes free (fun s' => closing_down w s' /\ calls s')).
  - intros s1 s2 [Hd HI] Hs. split; [by eapply closing_down_goes|]. intros t c Ht Hc.
    destruct (HI t c Ht Hc) as (c' & Ht' & Hc'). by eapply closing_call_goes.
  - intros s1 _. apply quiet_or_moves.
  - intros s' [(Hr' & Hctx' & Hnc') HI] Hq%settled_quiet Hn. pose proof (quiet_down w s' Hr' Hctx' Hn Hnc' Hq) as Hd.
    split; [done|]. intros t c Ht Hc. destruct (HI t c Ht Hc) as (c' & Ht' & [[Hc' _]|Hc']).
    + pose proof (down_calls s' Hd _ _ Ht'). by destruct c'.
    + unfold returned. by rewrite Ht', Hc'.
  - by apply (goes_terminates w).
  - split; [done|]. intros t c Ht Hc. exists c. split; [done|left]. split; [done|].
    pose proof (nc_threads s Hnc _ _ Ht) as Htame. by destruct c.
Qed.

End shutdown.
End SessionShutdown.
