(* ===== verification/SessionProperties.v ===== *)
(** * SessionProperties: what the session manager guarantees

    The properties that hold in every state that the program can be in, from the
    invariants of the files before, and two behaviours that differ from what the
    comments of the code say. The witnesses run the model on a concrete sequence of
    events. *)

From S2P Require Import Prelude Threads Framing SessionManager SessionInvariant SessionOnce SessionTable SessionWire.
From S2P Require Import Schedules SessionCalls SessionLiveness SessionShutdown.
From Stdlib Require Import Strings.Byte.

Module SessionProperties.
Import Framing SessionManager SessionInvariant SessionOnce SessionTable SessionWire SessionCalls SessionLiveness SessionShutdown.

Section properties.
Context {W : Type}.
Implicit Types (s : SM W) (p q t : nat) (o : SessionState) (k : Conn).

(** C10. The runtime never panics, whatever the goroutines do: there is no send on a
    closed channel and no second close of one, because the closed flag and the channel
    always agree. No outbound queue holds more than 1024 packets. *)
Theorem session_no_panic w s :
  reachable w s ->
  panicked s = false /\
  forall p o, heap s !! p = Some o ->
    chanClosed o = isClosed o /\ (length (outbound o) <= sessionQueueSize)%nat.
Proof.
  intros Hr. destruct (objects_ok_reachable w s Hr) as [Hp Hobj]. split; [done|].
  intros p o Ho. by destruct (Hobj p o Ho) as (H1 & H2 & _).
Qed.

(** C3. What a connection carries is a prefix of the frames of the packets that
    [SendToLocal] accepted for its session, in the order of acceptance: no packet is
    reordered, repeated, or mixed with another session's. *)
Theorem wire_prefix w s p o k :
  reachable w s -> heap s !! p = Some o -> conns s !! s_Conn o = Some k ->
  written (c_writer k) `prefix_of` concat (packetFrame <$> accepted o).
Proof.
  intros Hr Ho Hk. destruct (objects_ok_reachable w s Hr) as [_ Hobj].
  destruct (Hobj p o Ho) as (_ & _ & ->). rewrite fmap_app, concat_app. apply prefix_app_r.
  apply (wo_prefix s (wire_ok_reachable w s Hr) p (s_Conn o)).
  - unfold takens. by rewrite lookup_fmap, Ho.
  - unfold wires. by rewrite lookup_fmap, Hk.
Qed.

(** C14. [Close] returns only when every read and write loop has ended and no session
    is in the table, and then every connection is closed or a call that is still under
    way is about to close it (while fewer than 2^32 sessions have been registered). *)
Theorem Close_waits_for_loops w s t r b s' :
  reachable w s -> registrations s < 2 ^ 32 -> threads s !! t = Some (PCloseWait r) ->
  step (ERun t b) s = Some s' ->
  (forall u c, threads s' !! u = Some c -> owes c = false) /\ sessions s' = ∅ /\
  forall p o, heap s' !! p = Some o ->
    conn_closed s' p \/ some_thread (will_close p) (threads s').
Proof.
  intros Hr Hn Ht Hs. assert (reachable w s') as Hr' by (by eapply reachable_step).
  destruct (objects_ok_reachable w s Hr) as [Hp _]. rewrite (step_run s t b _ Hp Ht) in Hs.
  cbn [run_thread] in Hs. unfold do_close_wait in Hs. destruct (Z.eqb_spec (wg s) 0) as [Hwg|]; [|done].
  assert (wg s' = 0 /\ registrations s' = registrations s) as [Hwg' Hreg].
  { pose proof (proj2 (refs_ok_reachable w s Hr) _ _ Ht) as Hok. simplify_eq. by destruct r. }
  clear Hs. assert (sessions s' = ∅) as Htab by (by eapply no_loops_no_sessions).
  split_and!; [|done|].
  - intros u c Hu. pose proof (wg_ok_reachable w s' Hr') as Hw. unfold wg_ok in Hw.
    eapply count_zero; [by rewrite <- Hwg', Hw|done].
  - intros p o Ho. destruct (owned_reachable w s' p Hr') as [?|[[did Hd]|?]]; [lia| |by left| |by right].
    + rewrite (lookup_dids _ _ _ Ho). eauto.
    + by rewrite Htab, lookup_empty in Hd.
Qed.

(** The goroutine is in [Close]. *)
Definition close_of (c : pc W) : option role :=
  match c with
  | PCloseCancel r | PCloseSwap r | PCloseConns r _ | PCloseWait r => Some r
  | _ => None
  end.

(** A goroutine stays where it is when another one moves or a call starts. *)
Lemma step_elsewhere s e s' t c :
  step e s = Some s' -> (forall b, e <> ERun t b) -> threads s !! t = Some c ->
  threads s' !! t = Some c.
Proof.
  intros Hs He Ht. destruct e as [u b|[[]|]| | | | | |] eqn:Ee.
  { eapply (step_other s t (ERun u b)); [done..| |done]. by intros ->; destruct (He b). }
  all: unfold step in Hs; destruct (panicked s); [done|]; simplify_eq; sm_simpl; try done;
    by apply lookup_spawn.
Qed.

Lemma close_stuck w s e s' t c r :
  reachable w s -> step e s = Some s' -> threads s !! t = Some c -> close_of c = Some r ->
  role_owes r = true -> exists c', threads s' !! t = Some c' /\ close_of c' = Some r.
Proof.
  intros Hr Hs Ht Hc Howes. destruct (objects_ok_reachable w s Hr) as [Hp _].
  assert ((exists b, e = ERun t b) \/ forall b, e <> ERun t b) as [[b ->]|He].
  { destruct e as [u b| | | | | | |]; [|by right..]. destruct (decide (u = t)) as [->|]; [by eauto|].
    right. congruence. }
  2:{ exists c. split; [by eapply step_elsewhere|done]. }
  rewrite (step_run s t b c Hp Ht) in Hs.
  destruct c; try done; cbn [run_thread close_of] in *; simplify_eq.
  - eexists. split; [apply lookup_insert_eq|done].
  - eexists. split; [apply lookup_insert_eq|done].
  - destruct active as [|p active]; cbn [do_close_conns] in Hs; [simplify_eq|destruct (heap s !! p); simplify_eq];
      (eexists; split; [apply lookup_insert_eq|done]).
  - unfold do_close_wait in Hs. destruct (Z.eqb_spec (wg s) 0) as [Hwg|]; [|done].
    rewrite (wg_ok_reachable w s Hr) in Hwg. pose proof (count_zero owes _ _ _ Hwg Ht) as Ho.
    simpl in Ho. congruence.
Qed.

(** C15. A [Close] that is called from a callback in a loop never returns: neither from
    the control callback nor from the close callback that the deferred unregistration of a
    loop runs, however deep in callbacks. [Close] waits for the very loop that waits for
    it, whatever the other goroutines and callers do. *)
Theorem Close_in_callback_hangs w s t c r : forall es s',
  reachable w s -> threads s !! t = Some c -> close_of c = Some r -> role_owes r = true ->
  run es s = Some s' -> exists c', threads s' !! t = Some c' /\ close_of c' = Some r.
Proof.
  intros es. revert s c. induction es as [|e es IH]; intros s c s' Hr Ht Hc Ho Hrun; cbn [run] in Hrun.
  { simplify_eq. eauto. }
  destruct (step e s) as [s1|] eqn:Hs; [|done].
  destruct (close_stuck w s e s1 t c r Hr Hs Ht Hc Ho) as (c1 & Ht1 & Hc1).
  eapply (IH s1 c1); try done. by eapply reachable_step.
Qed.

(** C9. No connection is leaked: while fewer than 2^32 sessions have been registered,
    the connection of every session is closed, or its session is in the table (where
    [UnregisterSession] and [Close] find it), or a goroutine is about to close it. *)
Theorem no_connection_leak w s p o :
  reachable w s -> registrations s < 2 ^ 32 -> heap s !! p = Some o ->
  conn_closed s p \/ sessions s !! s_DID o = Some p \/ some_thread (will_close p) (threads s).
Proof.
  intros Hr Hn Ho. destruct (refs_ok_reachable w s Hr) as [Htab _].
  destruct (owned_reachable w s p Hr Hn) as [?|[[did Hd]|?]]; [|by left| |by right; right].
  - rewrite (lookup_dids _ _ _ Ho). eauto.
  - right; left. pose proof (Htab _ _ Hd) as Hd'. rewrite (lookup_dids _ _ _ Ho) in Hd'. congruence.
Qed.

Lemma in_control_owes p r : in_control p r -> role_owes r = true.
Proof. induction r; simpl; auto; done. Qed.

Lemma reading_owes p (c : pc W) : reading p c -> owes c = true.
Proof.
  destruct c; simpl; try done; try apply in_control_owes. destruct r; simpl; try done. apply in_control_owes.
Qed.

(** A session that is in the table has both its loops running, and the wait group
    counts exactly the loops that have not ended. *)
Theorem tracked_sessions_served w s did p :
  reachable w s -> sessions s !! did = Some p ->
  some_thread (reading p) (threads s) /\ some_thread (writing p) (threads s) /\
  wg s = live (threads s) /\ 2 <= wg s.
Proof.
  intros Hr Hd. destruct (loops_ok_reachable w s Hr did p Hd) as [Hrd Hwr].
  pose proof (wg_ok_reachable w s Hr) as Hw. unfold wg_ok in Hw. split_and!; try done.
  rewrite Hw. unfold live. destruct Hrd as (t & c & Ht & Hc), Hwr as (u & d & Hu & Hd').
  pose proof (count_delete owes _ _ _ Ht) as H1.
  assert (t <> u) as Hne.
  { intros <-. rewrite Ht in Hu. simplify_eq. destruct d; try done; by destruct r. }
  pose proof (count_delete owes (delete t (threads s)) u d) as H2.
  rewrite lookup_delete_ne in H2 by done. specialize (H2 Hu).
  pose proof (count_nonneg owes (delete u (delete t (threads s)))).
  assert (owes c = true /\ owes d = true) as [Hoc Hod].
  { split; [by eapply reading_owes|]. destruct d; try done. by destruct r. }
  rewrite Hoc in H1. rewrite Hod in H2. lia.
Qed.

(** C16. Identifiers are what the code says while fewer than 2^32 sessions have been
    registered: not zero, different for different sessions, and the key under which the
    table finds the session. *)
Theorem dids_unique w s :
  reachable w s -> registrations s < 2 ^ 32 ->
  (forall p o, heap s !! p = Some o -> 1 <= s_DID o <= registrations s) /\
  (forall p q o o', heap s !! p = Some o -> heap s !! q = Some o' -> s_DID o = s_DID o' -> p = q) /\
  (forall did p, sessions s !! did = Some p -> exists o, heap s !! p = Some o /\ s_DID o = did).
Proof.
  intros Hr Hn. destruct (ids_ok_reachable w s Hr Hn) as [H1 H2].
  destruct (refs_ok_reachable w s Hr) as [Htab _]. split_and!.
  - intros p o Ho. by apply (H1 p), lookup_dids.
  - intros p q o o' Ho Ho' He. apply (H2 p q (s_DID o)); [by apply lookup_dids|].
    rewrite He. by apply lookup_dids.
  - intros did p Hd. apply Htab in Hd. unfold dids in Hd. rewrite lookup_fmap in Hd.
    destruct (heap s !! p) as [o|]; [|done]. simplify_eq/=. eauto.
Qed.

(** C11. The close callback runs at most once for a session, and not before the session
    is out of the table, refuses packets, and has its connection closed. *)
Theorem onClose_at_most_once w s :
  reachable w s ->
  NoDup (closeLog s) /\
  forall p, p ∈ closeLog s -> conn_closed s p /\
    exists o, heap s !! p = Some o /\ isClosed o = true /\ forall did, sessions s !! did <> Some p.
Proof.
  intros Hr. pose proof (once_ok_reachable w s Hr) as Hoo. split; [apply Hoo|].
  intros p Hp. destruct (oo_log s Hoo p Hp) as [Hc Hd]. split; [done|].
  destruct Hc as (c & _ & Hc & _). unfold sconn in Hc. rewrite lookup_fmap in Hc.
  destruct (heap s !! p) as [o|] eqn:Ho; [|done]. exists o. rewrite (lookup_onces _ _ _ Ho) in Hd.
  pose proof (left_ok_reachable w s Hr) as Hlo. assert (closeOnce o <> OnceIdle) as Hne by congruence.
  split_and!; [done|by apply (lo_once s Hlo p o 0)|]. intros did. by apply (lo_once s Hlo p o did).
Qed.

(** ** The counter wraps *)

(** One more session, from any state. *)
Lemma register_one w s :
  reachable w s ->
  exists s' p o, reachable w s' /\ registrations s' = registrations s + 1 /\
    (forall q o, heap s !! q = Some o -> heap s' !! q = Some o) /\
    heap s !! p = None /\ heap s' !! p = Some o /\ s_DID o = u32 (registrations s + 1) /\
    isClosed o = false /\ sessions s' !! s_DID o = Some p.
Proof.
  intros Hr. destruct (objects_ok_reachable w s Hr) as [Hp _].
  destruct (counter_ok_reachable w s Hr) as [_ Hnext].
  set (t := fresh (dom (threads s))).
  set (s1 := spawn (PRegister (fresh (dom (conns s))))
    (set_conn (fresh (dom (conns s))) (mkConn (mkReader [] EOF) (mkWriter [] None) false) s)).
  assert (step (ERegister (Some (mkReader [] EOF, None))) s = Some s1) as Hs1
    by (unfold step; by rewrite Hp).
  assert (step (ERun t false) s1 = Some (do_register t (fresh (dom (conns s))) s1)) as Hs2.
  { rewrite (step_run s1 t false (PRegister (fresh (dom (conns s))))); [done|done|].
    apply lookup_insert_eq. }
  eexists _, (fresh (dom (heap s))), _. unfold do_register. split_and!.
  - eapply reachable_step; [|exact Hs2]. by eapply reachable_step.
  - done.
  - intros q o Ho. simpl. rewrite lookup_insert_ne; [done|]. by eapply fresh_ne.
  - apply not_elem_of_dom, is_fresh.
  - simpl. apply lookup_insert_eq.
  - simpl. rewrite Hnext. unfold u32. by rewrite Zplus_mod_idemp_l.
  - done.
  - simpl. apply lookup_insert_eq.
Qed.

(** Any number of sessions, the first of which stays open. *)
Lemma register_many w n :
  1 <= n ->
  exists s, reachable w s /\ registrations s = n /\
    exists p o, heap s !! p = Some o /\ s_DID o = 1 /\ isClosed o = false.
Proof.
  intros Hn. replace n with (1 + (n - 1)) by lia. assert (0 <= n - 1) as Hm by lia.
  revert Hm. generalize (n - 1). clear n Hn. apply natlike_ind.
  - destruct (register_one w (NewSessionManager w)) as (s & p & o & Hr & Hreg & _ & _ & Ho & Hd & Hc & _);
      [constructor|]. exists s. split_and!; [done|done|]. by exists p, o.
  - intros n Hn (s & Hr & Hreg & p & o & Ho & Hd & Hc).
    destruct (register_one w s Hr) as (s' & q & o' & Hr' & Hreg' & Hold & _).
    exists s'. split_and!; [done|lia|]. exists p, o. by auto.
Qed.

(** The 32-bit counter wraps: after 2^32 registrations a session gets the
    identifier 0, and the next one the identifier 1 while the first session with that
    identifier is still open; the table then knows only the later one. *)
Theorem dids_wrap w :
  exists s p q z o o' o0, reachable w s /\ p <> q /\
    heap s !! p = Some o /\ heap s !! q = Some o' /\ s_DID o = s_DID o' /\
    isClosed o = false /\ isClosed o' = false /\ sessions s !! s_DID o = Some q /\
    heap s !! z = Some o0 /\ s_DID o0 = 0.
Proof.
  destruct (register_many w (2 ^ 32 - 1)) as (s & Hr & Hreg & p & o & Ho & Hd & Hc); [lia|].
  destruct (register_one w s Hr) as (s1 & z & o0 & Hr1 & Hreg1 & Hold1 & _ & Hz & Hd0 & _).
  destruct (register_one w s1 Hr1) as (s2 & q & o' & Hr2 & Hreg2 & Hold2 & Hq & Ho' & Hd' & Hc' & Htab).
  rewrite Hreg1, Hreg in *. change (u32 _) with 1 in Hd'. change (u32 _) with 0 in Hd0.
  exists s2, p, q, z, o, o', o0. split_and!; auto; try congruence.
  intros ->. apply Hold1 in Ho. congruence.
Qed.

End properties.

(** ** Concrete runs *)

(** The state after a sequence of events. *)
Definition state_after (es : list (event unit)) : SM unit :=
  default (NewSessionManager tt) (run es (NewSessionManager tt)).

Lemma state_after_reachable es : reachable tt (state_after es).
Proof.
  unfold state_after. destruct (run es (NewSessionManager tt)) as [s|] eqn:Hs; [|constructor].
  eapply run_reachable; [constructor|done].
Qed.

(** A session is registered, sent a packet, and its write loop writes it. *)
Definition served : list (event unit) :=
  [ESetOnClose (Some (fun w _ => (w, []))); ERegister (Some (mkReader [requestFrame (7, [x61; x62])] EOF, None));
   ERun 0 false; ESend 1 (mkPacket 7 0 [x63]); ERun 3 false; ERun 3 false; ERun 2 false;
   ERun 2 false].

(** Then it is unregistered. *)
Definition unregistered : list (event unit) :=
  served ++ [EUnregister 1; ERun 4 false; ERun 4 false; ERun 4 false; ERun 4 false; ERun 4 false].

(** Or the manager is closed, and both loops end. *)
Definition all_ended : list (event unit) :=
  served ++ [EClose; ERun 4 false; ERun 4 false; ERun 4 false; ERun 4 false;
             ERun 1 false; ERun 1 false; ERun 2 true; ERun 2 false].

(** The packet of [served] as its peer sees it. *)
Definition served_frame : list byte := responseFrame 7 0 [x63].

Lemma session_no_panic_witness : panicked (state_after served) = false.
Proof. apply (session_no_panic tt (state_after served)), state_after_reachable. Defined.

Lemma wire_prefix_witness :
  exists o k, heap (state_after served) !! 0%nat = Some o /\
    conns (state_after served) !! s_Conn o = Some k /\
    written (c_writer k) = served_frame /\
    served_frame `prefix_of` concat (packetFrame <$> accepted o).
Proof.
  eexists _, _. split_and!; [vm_compute; reflexivity|vm_compute; reflexivity|reflexivity|].
  apply (wire_prefix tt (state_after served) 0%nat _ (mkConn
    (mkReader [requestFrame (7, [x61; x62])] EOF) (mkWriter served_frame None) false)).
  - apply state_after_reachable.
  - vm_compute. reflexivity.
  - vm_compute. reflexivity.
Defined.

Lemma Close_waits_for_loops_witness :
  exists s', step (ERun 4 false) (state_after all_ended) = Some s' /\ sessions s' = ∅.
Proof.
  eexists. split; [vm_compute; reflexivity|].
  eapply (Close_waits_for_loops tt (state_after all_ended) 4 ByCaller false).
  - apply state_after_reachable.
  - vm_compute. reflexivity.
  - vm_compute. reflexivity.
  - vm_compute. reflexivity.
Defined.

(** A control callback calls [Close]: its write loop ends, the read loop waits for itself. *)
Definition closing_callback : list (event unit) :=
  [ESetControlCallback (Some (fun w _ _ _ => (w, [CClose])));
   ERegister (Some (mkReader [requestFrame (7, [])] EOF, None));
   ERun 0 false; ERun 1 false; ERun 1 false; ERun 1 false; ERun 1 false].

Definition others_finish : list (event unit) :=
  [ERun 1 false; ERun 1 false; ERun 1 false; ERun 1 false; ERun 2 true; ERun 2 false].

Lemma Close_in_callback_hangs_witness :
  threads (state_after closing_callback) !! 1%nat = Some (PCloseCancel (ByControl 0 [])) /\
  exists s', run others_finish (state_after closing_callback) = Some s' /\ wg s' = 1 /\
    exists c', threads s' !! 1%nat = Some c' /\ close_of c' = Some (ByControl 0 []).
Proof.
  split; [vm_compute; reflexivity|]. eexists. split; [vm_compute; reflexivity|].
  split; [vm_compute; reflexivity|].
  apply (Close_in_callback_hangs tt (state_after closing_callback) 1 (PCloseCancel (ByControl 0 []))
    (ByControl 0 []) others_finish).
  - apply state_after_reachable.
  - vm_compute. reflexivity.
  - reflexivity.
  - reflexivity.
  - vm_compute. reflexivity.
Defined.

Lemma no_connection_leak_witness :
  exists o, heap (state_after served) !! 0%nat = Some o /\
    (conn_closed (state_after served) 0 \/ sessions (state_after served) !! s_DID o = Some 0%nat \/
     some_thread (will_close 0) (threads (state_after served))).
Proof.
  eexists. split; [vm_compute; reflexivity|].
  apply (no_connection_leak tt (state_after served)).
  - apply state_after_reachable.
  - vm_compute. reflexivity.
  - vm_compute. reflexivity.
Defined.

Lemma tracked_sessions_served_witness :
  sessions (state_after served) !! 1 = Some 0%nat /\ 2 <= wg (state_after served).
Proof.
  split; [vm_compute; reflexivity|].
  apply (tracked_sessions_served tt (state_after served) 1 0); [apply state_after_reachable|].
  vm_compute. reflexivity.
Defined.

Lemma dids_unique_witness :
  exists o, heap (state_after served) !! 0%nat = Some o /\ 1 <= s_DID o <= 1.
Proof.
  eexists. split; [vm_compute; reflexivity|].
  refine (proj1 (dids_unique tt (state_after served) _ _) 0%nat _ _).
  - apply state_after_reachable.
  - vm_compute. reflexivity.
  - vm_compute. reflexivity.
Defined.

Lemma onClose_at_most_once_witness :
  closeLog (state_after unregistered) = [0%nat] /\ conn_closed (state_after unregistered) 0.
Proof.
  split; [vm_compute; reflexivity|].
  apply (onClose_at_most_once tt (state_after unregistered)); [apply state_after_reachable|].
  replace (closeLog (state_after unregistered)) with [0%nat] by (vm_compute; reflexivity).
  by apply list_elem_of_singleton.
Defined.

Lemma SendToLocal_result_witness :
  sessions (state_after served) !! 1 = Some 0%nat /\
  exists s', SendToLocal 1 (mkPacket 7 0 [x64]) (state_after served) = Some s'.
Proof.
  split; [vm_compute; reflexivity|].
  destruct (SendToLocal_result tt (state_after served) 1 (mkPacket 7 0 [x64])) as (s' & Hs & _);
    [apply state_after_reachable|]. exists s'. exact Hs.
Defined.

Lemma RegisterSession_result_witness :
  sessions (state_after served) !! 1 = Some 0%nat /\
  exists s' p, RegisterSession (Some (mkReader [] EOF, None)) (state_after served) = Some s' /\
    sessions s' = <[2 := p]> (sessions (state_after served)).
Proof.
  split; [vm_compute; reflexivity|].
  destruct (RegisterSession_result tt (state_after served) (Some (mkReader [] EOF, None)))
    as (s' & Hs & p & _ & _ & Htab & _); [apply state_after_reachable|].
  exists s', p. split; [exact Hs|exact Htab].
Defined.

(** Two sessions, and a close callback that sends to the other session and unregisters
    it: unregistering the one runs the callback for both, the second time inside the
    first. *)
Definition paired : SM unit :=
  state_after [ESetOnClose (Some (fun w did => (w, [CSend (3 - did) (mkPacket 9 0 []); CUnregister (3 - did)])));
    ERegister (Some (mkReader [] EOF, None)); ERun 0 false;
    ERegister (Some (mkReader [] EOF, None)); ERun 3 false].

(** No callback set in a concrete state calls [Close]. *)
Ltac solve_no_close :=
  constructor;
  [intros f Hf; vm_compute in Hf; by simplify_eq
  |intros f Hf w did; vm_compute in Hf; injection Hf as <-; cbn; repeat first [apply Forall_nil_2 | apply Forall_cons_2]; done
  |let Ht := fresh in intros t c Ht; apply elem_of_map_to_list in Ht; vm_compute in Ht;
   repeat (apply elem_of_cons in Ht as [Ht|Ht]; [injection Ht as -> ->; done|]);
   by apply elem_of_nil in Ht].

Lemma paired_tame : no_close paired.
Proof. solve_no_close. Qed.

Lemma served_tame : no_close (state_after served).
Proof. solve_no_close. Qed.

Lemma served_closing_tame : no_close (state_after (served ++ [EClose; ERun 4 false])).
Proof. solve_no_close. Qed.


Lemma Close_can_return_witness :
  wg (state_after served) = 2 /\
  exists s1 s', step EClose (state_after served) = Some s1 /\ unaided (fun _ => True) s1 s' /\
    returned 4 s' = Some None.
Proof.
  split; [vm_compute; reflexivity|].
  apply (Close_can_return tt (state_after served)); [apply state_after_reachable| |].
  - vm_compute. reflexivity.
  - exact served_tame.
Defined.

(** [Close] has begun, and both loops are running. *)
Lemma shutdown_completes_witness :
  let s := state_after (served ++ [EClose; ERun 4 false]) in
  threads s !! 4%nat = Some (PCloseSwap ByCaller) /\ wg s = 2 /\
  inevitable goes free (fun s' => registrations s' < 2 ^ 32 ->
    down s' /\ forall t c, threads s !! t = Some c -> in_close c = true -> returned t s' = Some None) s.
Proof.
  cbv zeta. split; [vm_compute; reflexivity|]. split; [vm_compute; reflexivity|].
  apply (shutdown_completes tt (state_after (served ++ [EClose; ERun 4 false])));
    [apply state_after_reachable|vm_compute; reflexivity|].
  exact served_closing_tame.
Defined.

(** [Close] does not run the close callback: with a callback set and a session
    registered, [Close] closes the connection and both loops end, and the callback was
    never called. *)
Theorem Close_skips_onClose :
  exists s s', reachable tt s /\ is_Some (onClose s) /\ sessions s !! 1 = Some 0%nat /\
    run [EClose; ERun 4 false; ERun 4 false; ERun 4 false; ERun 4 false;
         ERun 1 false; ERun 1 false; ERun 2 true; ERun 2 false; ERun 4 false] s = Some s' /\
    returned 4 s' = Some None /\ conn_closed s' 0 /\ wg s' = 0 /\ closeLog s' = [].
Proof.
  exists (state_after served). eexists. split_and!.
  - apply state_after_reachable.
  - eexists. vm_compute. reflexivity.
  - vm_compute. reflexivity.
  - vm_compute. reflexivity.
  - vm_compute. reflexivity.
  - eexists _, _. split_and!; vm_compute; reflexivity.
  - reflexivity.
  - reflexivity.
Qed.
End SessionProperties.
