(* ===== verification/SessionErrors.v ===== *)
(** * SessionErrors: connections that fail

    What the session manager does when a connection or a packet is bad: the loop that
    meets the error ends, and its deferred call takes the session down. *)

From S2P Require Import Prelude Threads Framing SessionManager SessionInvariant SessionOnce SessionTable SessionWire SessionCalls SessionProperties.
From Stdlib Require Import Strings.Byte.

Module SessionErrors.
Import Framing SessionManager SessionInvariant SessionOnce SessionTable SessionWire SessionCalls.

Section errors.
Context {W : Type}.
Implicit Types (s : SM W) (p t : nat).

(** The session has left the table, takes no packets, and its connection is closed, with
    nothing more on it than before; the close callback has been called if there is one, and
    nothing else has touched the state behind the callbacks. *)
Definition taken_down s s' did p : Prop :=
  sessions s' = delete did (sessions s) /\ conn_closed s' p /\
  (exists o, heap s' !! p = Some o /\ isClosed o = true) /\
  wires s' = wires s /\ closeLog s' = closeLog s ++ called s p /\
  world s' = match onClose s with Some f => (f (world s) did).1 | None => world s end.

Lemma tracked_did w s did p o :
  reachable w s -> sessions s !! did = Some p -> heap s !! p = Some o -> s_DID o = did.
Proof. intros Hr Hd Ho. destruct (tracked_session w s did p Hr Hd) as (o' & k & Ho' & _ & Hdid & _). by simplify_eq. Qed.

Lemma finish_keeps t r err s :
  sessions (finish t r err s) = sessions s /\ heap (finish t r err s) = heap s /\
  conns (finish t r err s) = conns s /\ closeLog (finish t r err s) = closeLog s /\
  world (finish t r err s) = world s.
Proof. by destruct r. Qed.

(** The deferred [UnregisterSession] of a loop, when nothing interferes. The fourth step
    is the call of the callback, if there is one; what the callback asks of the session
    manager comes after. *)
Lemma deferred_unregister w s t r did p o k :
  reachable w s -> role_owes r = true -> threads s !! t = Some (PUnreg r did) ->
  sessions s !! did = Some p -> heap s !! p = Some o -> conns s !! s_Conn o = Some k ->
  exists s', run (replicate 4 (ERun t false)) s = Some s' /\ taken_down s s' did p.
Proof.
  intros Hr Hrole Ht Hd Ho Hk.
  destruct (unregister_to_callback w s t false r did p o k Hr Ht Hd Ho Hk) as (s3 & Hrun & Hat).
  assert (reachable w s3) as Hr3 by (by eapply run_reachable).
  pose proof (at_callback_closed _ _ _ _ _ _ _ _ _ Hat) as Hcl.
  destruct Hat as (Ht3 & Htab & Hh & Hc & Hl & Hw). destruct (objects_ok_reachable w s3 Hr3) as [Hp3 _].
  set (o2 := closed_chan (with_once o OnceRunning)) in Hh.
  assert (heap s3 !! p = Some o2) as Ho2 by (rewrite Hh; apply lookup_insert_eq).
  change (replicate 4 _) with (replicate 3 (@ERun W t false) ++ [ERun t false]).
  rewrite run_app, Hrun. cbn [mbind option_bind]. unfold taken_down, called.
  assert (wires s3 = wires s) as Hwire.
  { unfold wires. rewrite Hc. by erewrite wires_update by (done || reflexivity). }
  erewrite run_step; [|done|rewrite Ht3; apply lookup_insert_eq|].
  2:{ cbn [run_thread]. unfold do_unregister_callback, do_unregister_done. rewrite Ho2.
      instantiate (1 := match onClose s with
        | Some f => set_thread t (PUnregCalls r did p false (f (world s3) did).2)
                      (log_close p (set_world (f (world s3) did).1 s3))
        | None => finish t r None (set_session p (with_once o2 OnceDone) s3) end).
      destruct (onClose s) as [f|]; [by destruct (f (world s3) did)|done]. }
  cbn [run]. eexists. split; [done|]. destruct (onClose s) as [f|].
  - sm_simpl. rewrite Hl, Hw. split_and!; try done. exists o2. by split.
  - destruct (finish_keeps t r None (set_session p (with_once o2 OnceDone) s3)) as (-> & Hh' & Hc' & -> & ->).
    unfold wires. rewrite Hh', Hc'. sm_simpl. rewrite Hl, Hw, app_nil_r. split_and!; try done.
    + eapply conn_closed_same; [|done|done]. unfold sconn. rewrite Hh'. sm_simpl. by apply (sconn_update _ _ o2).
    + exists (with_once o2 OnceDone). by rewrite lookup_insert_eq.
Qed.

(** Steps that change nothing of this may come before. *)
Lemma taken_down_after s s2 s' did p :
  sessions s2 = sessions s -> wires s2 = wires s -> closeLog s2 = closeLog s ->
  onClose s2 = onClose s -> world s2 = world s -> taken_down s2 s' did p -> taken_down s s' did p.
Proof. unfold taken_down, called. by intros -> -> -> -> ->. Qed.

(** [SendToLocal] with room in the queue, step by step. *)
Lemma SendToLocal_accepts w s did p o pkt :
  reachable w s -> sessions s !! did = Some p -> heap s !! p = Some o -> isClosed o = false ->
  (length (outbound o) < sessionQueueSize)%nat ->
  let t := fresh (dom (threads s)) in
  SendToLocal did pkt s =
    Some (set_thread t (PReturned None)
      (set_session p (with_queue o (outbound o ++ [pkt]) (accepted o ++ [pkt]) (taken o))
        (set_thread t (PSendLocked ByCaller did p pkt) (spawn (PSend ByCaller did pkt) s)))).
Proof.
  intros Hr Hd Ho Hcl Hq t. destruct (objects_ok_reachable w s Hr) as [Hp Hobj].
  destruct (Hobj _ _ Ho) as [Hcc _]. unfold SendToLocal, do_call, step. rewrite Hp.
  cbn [mbind option_bind]. fold t.
  erewrite (run_call_step _ _ t); [|done|apply lookup_insert_eq|done|done|
    cbn [run_thread]; unfold do_send; sm_simpl; by rewrite Hd].
  erewrite (run_call_step _ _ t); [|done|apply lookup_insert_eq|done|done|
    cbn [run_thread]; unfold do_send_locked; sm_simpl; rewrite Ho, Hcl, Hcc, Hcl;
    by rewrite (proj2 (Nat.ltb_lt _ _) Hq)].
  by erewrite run_call_done by apply lookup_insert_eq.
Qed.

(** The write loop meets a packet that is too long. *)
Lemma oversized_write w s did p o k tw pkt q :
  reachable w s -> sessions s !! did = Some p -> heap s !! p = Some o -> outbound o = pkt :: q ->
  conns s !! s_Conn o = Some k -> c_closed k = false ->
  threads s !! tw = Some (PWriteTop p) -> maxPacketSize < zlen (p_data pkt) ->
  exists s', run (replicate 6 (ERun tw false)) s = Some s' /\ taken_down s s' did p.
Proof.
  intros Hr Hd Ho Hq Hk Hkc Htw Hlen. pose proof (tracked_did w s did p o Hr Hd Ho) as Hdid.
  destruct (objects_ok_reachable w s Hr) as [Hp _].
  change (replicate 6 _) with (replicate 2 (@ERun W tw false) ++ replicate 4 (ERun tw false)).
  rewrite run_app. cbn [replicate].
  assert (exists s2, run [ERun tw false; ERun tw false] s = Some s2 /\
    s2 = set_thread tw (PUnreg (ByWriteLoop p) did) (set_conn (s_Conn o)
      (mkConn (c_reader k) (c_writer k) false) (set_thread tw (PWritePacket p pkt)
        (set_session p (with_queue o q (accepted o) (taken o ++ [pkt])) s)))) as (s2 & Hrun & Hs2).
  { eexists. split; [|done].
    erewrite run_step; [|done|done|cbn [run_thread]; unfold do_write_top;
      by rewrite Ho, andb_false_r, Hq].
    erewrite run_step; [|done|apply lookup_insert_eq|cbn [run_thread]; unfold do_write_packet; sm_simpl;
      rewrite lookup_insert_eq; sm_simpl; rewrite Hk, Hkc; unfold writePacket;
      by rewrite (proj2 (Z.ltb_lt _ _) Hlen)].
    cbn [run]. unfold exit_write. sm_simpl. by rewrite Hdid. }
  rewrite Hrun. cbn [mbind option_bind].
  assert (reachable w s2) as Hr2 by (by eapply run_reachable).
  destruct (deferred_unregister w s2 tw (ByWriteLoop p) did p
    (with_queue o q (accepted o) (taken o ++ [pkt])) (mkConn (c_reader k) (c_writer k) false))
    as (s' & Hrun' & Hdown);
    [done|done|subst s2; sm_simpl; try done; apply lookup_insert_eq..|].
  exists s'. split; [done|]. eapply taken_down_after; [..|exact Hdown]; subst s2; try done.
  unfold wires. sm_simpl. by erewrite wires_update by (done || reflexivity).
Qed.

(** C19. A packet of more than 65535 bytes disconnects its receiver: [SendToLocal]
    reports success, since it only queues the packet, and the write loop, which finds the
    packet too long, takes the session down. Nothing of the packet is sent and the sender
    is not told. *)
Theorem oversized_packet_disconnects w s did p o k tw pkt :
  reachable w s -> sessions s !! did = Some p -> heap s !! p = Some o -> isClosed o = false ->
  outbound o = [] -> conns s !! s_Conn o = Some k -> c_closed k = false ->
  threads s !! tw = Some (PWriteTop p) -> maxPacketSize < zlen (p_data pkt) ->
  exists s1 s', SendToLocal did pkt s = Some s1 /\
    returned (fresh (dom (threads s))) s1 = Some None /\
    run (replicate 6 (ERun tw false)) s1 = Some s' /\ taken_down s s' did p.
Proof.
  intros Hr Hd Ho Hcl Hq Hk Hkc Htw Hlen.
  pose proof (SendToLocal_accepts w s did p o pkt Hr Hd Ho Hcl) as Hsend. cbv zeta in Hsend.
  rewrite Hq in Hsend. cbn [app length] in Hsend.
  specialize (Hsend ltac:(unfold sessionQueueSize; lia)).
  match type of Hsend with _ = Some ?x => set (s1 := x) in Hsend end.
  destruct (oversized_write w s1 did p (with_queue o [pkt] (accepted o ++ [pkt]) (taken o)) k tw pkt [])
    as (s' & Hrun & Hdown); try done.
  - by eapply call_reachable.
  - apply lookup_insert_eq.
  - unfold s1. sm_simpl. rewrite !lookup_insert_ne; [done|by eapply fresh_ne..].
  - exists s1, s'. split_and!; [done| |done|]; [|by eapply taken_down_after; [..|exact Hdown]].
    unfold returned, s1. sm_simpl. by rewrite lookup_insert_eq.
Qed.

(** C20. A peer that stops in the middle of a frame, or sends nothing more, is
    disconnected: the read loop takes the session down. The control callback is not called,
    the close callback is, if there is one. *)
Theorem broken_frame_disconnects w s did p o k tr :
  reachable w s -> sessions s !! did = Some p -> heap s !! p = Some o ->
  conns s !! s_Conn o = Some k -> c_closed k = false -> ctxDone s = false ->
  threads s !! tr = Some (PReadTop p) ->
  (forall req rest, frame_ok req -> stream (c_reader k) <> requestFrame req ++ rest) ->
  exists s', run (replicate 6 (ERun tr false)) s = Some s' /\ taken_down s s' did p.
Proof.
  intros Hr Hd Ho Hk Hkc Hctx Htr Hno.
  destruct (readPacket_cases (c_reader k)) as [(q & rest & Hq & Hs)|[_ [e He]]]; [by destruct (Hno q rest)|].
  destruct (objects_ok_reachable w s Hr) as [Hp Hobj].
  pose proof (tracked_did w s did p o Hr Hd Ho) as Hdid.
  change (replicate 6 _) with (replicate 2 (@ERun W tr false) ++ replicate 4 (ERun tr false)).
  rewrite run_app. cbn [replicate].
  assert (exists s2, run [ERun tr false; ERun tr false] s = Some s2 /\
    s2 = set_thread tr (PUnreg (ByReadLoop p) did)
      (set_conn (s_Conn o) (mkConn (mkReader [] (read_end (c_reader k))) (c_writer k) false)
        (set_thread tr (PReadPacket p) s))) as (s2 & Hrun & Hs2).
  { eexists. split; [|done].
    erewrite run_step; [|done|done|cbn [run_thread]; unfold do_read_top; by rewrite Ho, Hctx].
    erewrite run_step; [|done|apply lookup_insert_eq|cbn [run_thread]; unfold do_read_packet; sm_simpl;
      rewrite Ho, Hk, Hkc; by rewrite He].
    cbn [run]. unfold exit_read. by rewrite Hdid. }
  rewrite Hrun. cbn [mbind option_bind].
  assert (reachable w s2) as Hr2 by (by eapply run_reachable).
  destruct (deferred_unregister w s2 tr (ByReadLoop p) did p o
    (mkConn (mkReader [] (read_end (c_reader k))) (c_writer k) false)) as (s' & Hrun' & Hdown);
    [done|done|subst s2; sm_simpl; try done; apply lookup_insert_eq..|].
  exists s'. split; [done|]. eapply taken_down_after; [..|exact Hdown]; subst s2; try done.
  unfold wires. sm_simpl. by erewrite wires_update by (done || reflexivity).
Qed.

End errors.

(** ** Concrete runs *)

(** A connection whose peer sends half a header, registered as session 0 with the
    identifier 1; its read loop is goroutine 1 and its write loop goroutine 2. *)
Definition half_header : Reader := mkReader [[x00; x01]] EOF.
Definition joined : SM unit :=
  SessionProperties.state_after [ERegister (Some (half_header, None)); ERun 0 false].
Definition joined_session : SessionState := mkSession 1 0%nat [] false false OnceIdle [] [].
Definition joined_conn : Conn := mkConn half_header (mkWriter [] None) false.
Definition huge : outboundPacket := mkPacket 7 0 (replicate (Z.to_nat 65536) x00).

Lemma oversized_packet_disconnects_witness :
  exists s1 s', SendToLocal 1 huge joined = Some s1 /\
    run (replicate 6 (ERun 2 false)) s1 = Some s' /\ conn_closed s' 0.
Proof.
  destruct (oversized_packet_disconnects tt joined 1 0 joined_session joined_conn 2 huge)
    as (s1 & s' & Hsend & _ & Hrun & Hdown);
    [apply SessionProperties.state_after_reachable|vm_compute; reflexivity..| |].
  - unfold zlen, huge. cbn [p_data]. rewrite length_replicate, Z2Nat.id by lia. reflexivity.
  - exists s1, s'. split; [exact Hsend|]. split; [exact Hrun|]. apply Hdown.
Defined.

Lemma broken_frame_disconnects_witness :
  exists s', run (replicate 6 (ERun 1 false)) joined = Some s' /\ conn_closed s' 0.
Proof.
  destruct (broken_frame_disconnects tt joined 1 0 joined_session joined_conn 1)
    as (s' & Hrun & Hdown);
    [apply SessionProperties.state_after_reachable|vm_compute; reflexivity..| |].
  - intros req rest _ Heq. apply (f_equal length) in Heq. rewrite length_app in Heq.
    pose proof (requestFrame_length req). simpl in Heq. lia.
  - exists s'. split; [exact Hrun|]. apply Hdown.
Defined.

End SessionErrors.
