(* ===== verification/Daemon.v ===== *)
(** * Daemon: the session manager and the control center together

    The daemon installs one control callback in the session manager
    ([src/controlcenter/integration_test.go], TestIPC_ControlCenter_MultiAppIntegration,
    is where the repository puts the two together): the callback hands every frame to
    the dispatcher and sends the response back to the session that the frame came from.

    Other parts of the daemon may send to applications too, as data from the network
    arrives, and may set a close callback, which may send, unregister and close as well; it does
    not touch the services behind the dispatcher.

    The state is that of [SessionManager] with histories that no step depends on: [sent],
    all that the peer of a connection sends; [log], the requests that were dispatched for
    a session, with their responses; [flow], the packets that went into the queue of a
    session, with their origin; [offered], what others and close callbacks have given to
    [SendToLocal]. *)

From S2P Require Import Prelude Threads Framing Dispatcher SessionManager SessionInvariant SessionOnce.

Module Daemon.
Import Framing Abi Dispatcher SessionManager SessionInvariant SessionOnce.

(** A request, with its response. *)
Abbreviation entry := (Z * list byte * IpcResponse)%type.

(** Where a packet for an application comes from: it is the answer to a request, or
    another part of the daemon has sent it. *)
Inductive origin := Answer | Push.

Definition origin_of (r : role) : origin :=
  match r with ByControl _ _ => Answer | _ => Push end.

Section daemon.
Context {W : Type}.
Variable d : @Dispatcher.Dispatcher W.

(** Every request comes back from the dispatcher, as long as the services are in a
    state of [I], which the handlers keep. A handler that panics, or a nil handler, would
    bring the daemon down with the goroutine that runs the callback. *)
Definition dispatches (I : W -> Prop) : Prop :=
  forall w did opcode payload, I w ->
    match DispatchSysCall d w did opcode payload with Ret (w', _) => I w' | _ => False end.

(** What goes back to the application. *)
Definition answer (res : IpcResponse) : outboundPacket :=
  mkPacket (Opcode res) (StatusCode res) (Payload res).

(** The control callback: dispatch, then [SendToLocal] to the same session. A dispatch
    that does not come back is excluded by [dispatches]; here it gives no answer. *)
Definition controlCallback : ControlCallback W := fun w did opcode payload =>
  match DispatchSysCall d w did opcode payload with
  | Ret (w', res) => (w', [CSend did (answer res)])
  | _ => (w, [])
  end.

Record Daemon := mkDaemon {
  mgr : SM W;
  sent : gmap ref (list byte);
  log : gmap ref (list entry);
  flow : gmap ref (list (origin * outboundPacket));
  offered : list (DID * outboundPacket);
}.

Definition log_of {A} (L : gmap ref (list A)) (p : ref) : list A := default [] (L !! p).

(** A connection comes with all that its peer sends. *)
Definition observe_sent (e : event W) (s : SM W) (S : gmap ref (list byte))
    : gmap ref (list byte) :=
  match e with
  | ERegister (Some (r, _)) => <[fresh (dom (conns s)) := stream r]> S
  | _ => S
  end.

(** The callback runs for a session. *)
Definition observe_log (e : event W) (s : SM W) (L : gmap ref (list entry))
    : gmap ref (list entry) :=
  match e with
  | ERun t _ =>
      match threads s !! t with
      | Some (PReadControl p opcode payload) =>
          match s_DID <$> heap s !! p with
          | Some did =>
              match DispatchSysCall d (world s) did opcode payload with
              | Ret (_, res) => <[p := log_of L p ++ [(opcode, payload, res)]]> L
              | _ => L
              end
          | None => L
          end
      | _ => L
      end
  | _ => L
  end.

(** A packet goes into the queue of a session. *)
Definition observe_flow (e : event W) (s : SM W) (F : gmap ref (list (origin * outboundPacket)))
    : gmap ref (list (origin * outboundPacket)) :=
  match e with
  | ERun t _ =>
      match threads s !! t with
      | Some (PSendLocked r _ p pkt) =>
          match heap s !! p with
          | Some o =>
              if negb (isClosed o) && negb (chanClosed o) && (length (outbound o) <? sessionQueueSize)%nat
              then <[p := log_of F p ++ [(origin_of r, pkt)]]> F
              else F
          | None => F
          end
      | _ => F
      end
  | _ => F
  end.

(** Another part of the daemon, or a close callback, calls [SendToLocal]. *)
Definition observe_offered (e : event W) (s : SM W) (l : list (DID * outboundPacket))
    : list (DID * outboundPacket) :=
  match e with
  | ESend did pkt => l ++ [(did, pkt)]
  | ERun t _ =>
      match threads s !! t with
      | Some (PUnregCalls _ _ _ _ (CSend did pkt :: _)) => l ++ [(did, pkt)]
      | _ => l
      end
  | _ => l
  end.

(** A close callback that leaves the services as they are. *)
Definition leaves_services (f : CloseCallback W) : Prop := forall w did, (f w did).1 = w.

(** The control callback stays the one that the daemon has installed. *)
Definition daemon_event (e : event W) : Prop :=
  match e with
  | ESetControlCallback _ => False
  | ESetOnClose (Some f) => leaves_services f
  | _ => True
  end.

Definition NewDaemon (w : W) : Daemon :=
  mkDaemon (set_callbacks None (Some controlCallback) (NewSessionManager w)) ∅ ∅ ∅ [].

Definition daemon_step (e : event W) (D : Daemon) : option Daemon :=
  s ← step e (mgr D);
  Some (mkDaemon s (observe_sent e (mgr D) (sent D)) (observe_log e (mgr D) (log D))
          (observe_flow e (mgr D) (flow D)) (observe_offered e (mgr D) (offered D))).

Inductive daemon_reachable (w : W) : Daemon -> Prop :=
| daemon_new : daemon_reachable w (NewDaemon w)
| daemon_next D e D' : daemon_reachable w D -> daemon_event e -> daemon_step e D = Some D' ->
    daemon_reachable w D'.

Lemma daemon_step_mgr e D D' :
  daemon_step e D = Some D' ->
  step e (mgr D) = Some (mgr D') /\ sent D' = observe_sent e (mgr D) (sent D) /\
  log D' = observe_log e (mgr D) (log D) /\
  flow D' = observe_flow e (mgr D) (flow D) /\ offered D' = observe_offered e (mgr D) (offered D).
Proof.
  unfold daemon_step. destruct (step e (mgr D)); [|done]. by intros [= <-].
Qed.

(** The histories do not matter. *)
Lemma daemon_mgr_reachable w D : daemon_reachable w D -> reachable w (mgr D).
Proof.
  induction 1 as [|D e D' _ IH _ Hs].
  - by apply (reachable_step w (NewSessionManager w) (ESetControlCallback (Some controlCallback)));
      [apply reachable_new|].
  - apply daemon_step_mgr in Hs as [Hs _]. by eapply reachable_step.
Qed.

Lemma onControl_step e s s' :
  daemon_event e -> step e s = Some s' -> onControl s' = onControl s.
Proof. intros He Hs. step_cases Hs; sm_simpl; done. Qed.

Lemma daemon_callback w D : daemon_reachable w D -> onControl (mgr D) = Some controlCallback.
Proof.
  induction 1 as [|D e D' _ IH He Hs]; [done|]. apply daemon_step_mgr in Hs as [Hs _].
  by rewrite (onControl_step _ _ _ He Hs).
Qed.

(** The close callback that a goroutine has still to call. *)
Definition captured (c : pc W) : option (CloseCallback W) :=
  match c with
  | PUnregOnce _ _ _ cb | PUnregConn _ _ _ cb | PUnregCallback _ _ _ cb _ => cb
  | _ => None
  end.

Definition closers_ok (s : SM W) : Prop :=
  (forall f, onClose s = Some f -> leaves_services f) /\
  map_Forall (fun _ c => forall f, captured c = Some f -> leaves_services f) (threads s).

Lemma closers_ok_step e s s' : daemon_event e -> closers_ok s -> step e s = Some s' -> closers_ok s'.
Proof.
  intros He [H1 H2] Hs. step_cases Hs; unfold closers_ok; sm_simpl; (split; [try done|]).
  all: repeat first [apply map_Forall_insert_2 | apply map_Forall_delete]; try done.
  all: try (intros f Hf; by apply (H2 _ _ Ht f)).
  intros f Hf. cbn [daemon_event] in He. by subst.
Qed.

Lemma closers_ok_reachable w D : daemon_reachable w D -> closers_ok (mgr D).
Proof.
  induction 1 as [|D e D' HD IH He Hs].
  { split; [done|]. intros t c Ht. simpl in Ht. by rewrite lookup_empty in Ht. }
  apply daemon_step_mgr in Hs as [Hs _]. by eapply closers_ok_step.
Qed.

(** The services and the log change together, when the callback runs. *)
Lemma dispatch_step w e D D' :
  daemon_reachable w D -> daemon_step e D = Some D' ->
  world (mgr D') = world (mgr D) /\ log D' = log D \/
  exists t p opcode payload o w' res,
    threads (mgr D) !! t = Some (PReadControl p opcode payload) /\ heap (mgr D) !! p = Some o /\
    DispatchSysCall d (world (mgr D)) (s_DID o) opcode payload = Ret (w', res) /\
    world (mgr D') = w' /\
    log D' = <[p := log_of (log D) p ++ [(opcode, payload, res)]]> (log D).
Proof.
  intros HD Hs. pose proof (daemon_callback _ _ HD) as Hcb. pose proof (closers_ok_reachable _ _ HD) as [_ Hcl].
  apply daemon_step_mgr in Hs as (Hs & _ & -> & _). revert Hs. generalize (mgr D'). intros s' Hs.
  step_cases Hs; unfold observe_log; rewrite ?Ht; sm_simpl; try (by left).
  { left. split; [|done]. pose proof (Hcl _ _ Ht _ eq_refl (world (mgr D)) did) as Hw.
    match goal with H : _ = (_, _) |- _ => by rewrite H in Hw end. }
  injection Hcb as ->. unfold controlCallback in *.
  match goal with H : heap _ !! p = Some ?o |- _ =>
    rewrite H; cbn [fmap option_fmap option_map]; rename o into o0 end.
  destruct (DispatchSysCall d (world (mgr D)) (s_DID o0) opcode payload) as [[w' res]| | |] eqn:Hd;
    simplify_eq; try (by left).
  right. eexists _, _, _, _, _, _, _. by split_and!.
Qed.

Lemma world_ok I w D : dispatches I -> I w -> daemon_reachable w D -> I (world (mgr D)).
Proof.
  intros Hdisp Hw. induction 1 as [|D e D' HD IH _ Hs]; [done|].
  destruct (dispatch_step _ _ _ _ HD Hs)
    as [[-> _]|(t & p & opcode & payload & o & w' & res & _ & _ & Hd & -> & _)]; [done|].
  specialize (Hdisp _ (s_DID o) opcode payload IH). by rewrite Hd in Hdisp.
Qed.

(** A run of the daemon. *)
Fixpoint daemon_run (es : list (event W)) (D : Daemon) : option Daemon :=
  match es with
  | [] => Some D
  | e :: es => D' ← daemon_step e D; daemon_run es D'
  end.

Lemma daemon_run_reachable w es : forall D D',
  daemon_reachable w D -> Forall daemon_event es -> daemon_run es D = Some D' ->
  daemon_reachable w D'.
Proof.
  induction es as [|e es IH]; intros D D' HD Hes Hr; simpl in Hr; [by simplify_eq|].
  apply Forall_cons in Hes as [He Hes]. destruct (daemon_step e D) as [D1|] eqn:Hs; [|done].
  eapply IH; [|done..]. by eapply daemon_next.
Qed.

End daemon.
End Daemon.
