(* ===== verification/DaemonInvariant.v ===== *)
(** * DaemonInvariant: requests and answers

    What an application receives is the answers to the requests that it sent: the
    packets that its session accepts are the first answers of the session's log, in
    order, and the requests of the log are the first frames that the application sent. *)

From S2P Require Import Prelude Threads Framing Dispatcher SessionManager SessionInvariant SessionOnce SessionTable SessionWire Daemon.

Module DaemonInvariant.
Import Framing Dispatcher SessionManager SessionInvariant SessionOnce SessionTable SessionWire Daemon.

Section invariant.
Context {W : Type}.
Variable d : @Dispatcher.Dispatcher W.
Implicit Types (s : SM W) (p t : nat) (L : gmap ref (list entry))
  (F : gmap ref (list (origin * outboundPacket))).

Lemma dids_lookup s p did : dids s !! p = Some did -> exists o, heap s !! p = Some o /\ s_DID o = did.
Proof. intros Hp. unfold dids in Hp. apply lookup_fmap_Some in Hp as (o & <- & Ho). eauto. Qed.

(** Objects stay. *)
Lemma object_step e s s' p o :
  step e s = Some s' -> heap s !! p = Some o -> exists o', heap s' !! p = Some o' /\ s_DID o' = s_DID o.
Proof.
  intros Hs Hp. apply lookup_dids in Hp. apply dids_lookup.
  eapply lookup_weaken; [done|]. by eapply dids_step.
Qed.

(** ** One read loop for each session *)

Definition readers_ok s : Prop := forall p, one_thread (reading p) (threads s).

Lemma in_control_exists D r did p : role_ok D r did -> in_control p r -> is_Some (D !! p).
Proof.
  revert did. induction r; intros did'; simpl; try done; [by intros ? ->|]. intros [_ Hr]. eauto.
Qed.

Lemma nobody_reads s p :
  refs_ok s -> heap s !! p = None -> some_thread (reading p) (threads s) -> False.
Proof.
  intros [_ Hthr] Hp (t & c & Ht & Hc). specialize (Hthr _ _ Ht).
  assert (is_Some (dids s !! p)) as [x Hx].
  { assert (forall r, sender_ok (dids s) r -> role_ok (dids s) r 0) as Hsend by (by intros []).
    destruct c; simpl in Hc, Hthr; try done; try (by subst); try (destruct Hthr as [_ Hthr]);
      try (by eapply in_control_exists; [by (exact Hthr || apply Hsend, Hthr)|]).
    destruct r; simpl in Hc, Hthr; subst; eauto; try done. destruct Hthr as [_ Hthr].
    by eapply in_control_exists. }
  unfold dids in Hx. by rewrite lookup_fmap, Hp in Hx.
Qed.

Lemma readers_ok_step s e s' :
  refs_ok s -> readers_ok s -> step e s = Some s' -> readers_ok s'.
Proof.
  intros Hrefs Hok Hs q. specialize (Hok q). step_cases Hs; sm_simpl.
  all: try done.
  all: try (by apply one_thread_delete).
  all: try (repeat first
    [ done
    | apply one_thread_delete
    | eapply one_thread_move; [by repeat apply lookup_spawn|..]
    | apply one_thread_spawn ]; simpl; by (tauto || naive_solver)).
  2:{ eapply one_thread_move; [done| |done]. destruct r; simpl; tauto. }
  eapply one_thread_move; [by repeat apply lookup_spawn|done|].
  apply one_thread_spawn; [done|].
  destruct (decide (q = fresh (dom (heap s)))) as [->|Hne].
  - apply one_thread_enter. intros Hr.
    eapply nobody_reads; [done| |done]. apply not_elem_of_dom, is_fresh.
  - apply one_thread_spawn; [simpl; congruence|done].
Qed.

Lemma readers_ok_reachable w s : reachable w s -> readers_ok s.
Proof.
  induction 1; [|eapply readers_ok_step; [by eapply refs_ok_reachable|done..]].
  intros p t u c x Ht. simpl in Ht. by rewrite lookup_empty in Ht.
Qed.

(** ** What the callback still has to send *)

(** The call comes from a control callback. *)
Fixpoint controlled (r : role) : bool :=
  match r with ByControl _ _ => true | ByClose r _ _ _ _ => controlled r | _ => false end.

Lemma in_control_controlled p r : in_control p r -> controlled r = true.
Proof. by induction r. Qed.

Definition own_call (D : gmap nat DID) (p : nat) (c : call) : Prop :=
  match c with CSend did _ => D !! p = Some did | _ => False end.

(** The control callback sends to its own session, and does nothing else. *)
Definition own_ok (D : gmap nat DID) (c : pc W) : Prop :=
  match c with
  | PReadCalls p calls => Forall (own_call D p) calls
  | PSend (ByControl p more) did _ => D !! p = Some did /\ Forall (own_call D p) more
  | PSendLocked (ByControl p more) did q _ =>
      D !! p = Some did /\ q = p /\ Forall (own_call D p) more
  | PUnreg r _ | PUnregOnce r _ _ _ | PUnregConn r _ _ _ | PUnregCallback r _ _ _ _
  | PUnregCalls r _ _ _ _ | PSend r _ _ | PSendLocked r _ _ _
  | PCloseCancel r | PCloseSwap r | PCloseConns r _ | PCloseWait r => controlled r = false
  | _ => True
  end.

Definition owners_ok s : Prop := map_Forall (fun _ c => own_ok (dids s) c) (threads s).

Lemma own_ok_mono D D' c : D ⊆ D' -> own_ok D c -> own_ok D' c.
Proof.
  intros Hsub. assert (forall p x, D !! p = Some x -> D' !! p = Some x) as H2
    by (intros; by eapply lookup_weaken).
  assert (forall p l, Forall (own_call D p) l -> Forall (own_call D' p) l) as H3.
  { intros p l Hl. eapply Forall_impl; [exact Hl|]. intros []; simpl; eauto. }
  destruct c; simpl; try done; try destruct r; simpl; naive_solver.
Qed.

Lemma owners_ok_step w e s s' :
  reachable w s -> registrations s < 2 ^ 32 -> onControl s = Some (controlCallback d) ->
  daemon_event e -> owners_ok s -> step e s = Some s' -> owners_ok s'.
Proof.
  intros Hr Hn Hcb He Hok Hs. pose proof (refs_ok_reachable w s Hr) as [Htab _].
  destruct (ids_ok_reachable w s Hr Hn) as [_ Hinj].
  unfold owners_ok. assert (map_Forall (fun _ c => own_ok (dids s') c) (threads s)) as Hold.
  { intros t c Ht. eapply own_ok_mono; [by eapply dids_step|]. by eapply Hok. }
  pose proof (dids_step _ _ _ Hs) as Hsub. clear Hok. revert Hold Hsub. generalize (dids s').
  step_cases Hs; intros D Hold Hsub; sm_simpl;
    repeat first [apply map_Forall_insert_2 | apply map_Forall_delete]; try exact Hold; try done.
  all: pose proof (Hold _ _ Ht) as Hc; cbn [own_ok controlled] in Hc |- *; try (by (tauto || naive_solver)).
  - destruct r; try done. destruct Hc as [Hd Hm]. split_and!; [done| |done].
    apply (Hinj _ _ did); [by apply Htab|].
    destruct (proj2 (refs_ok_reachable w s Hr) _ _ Ht) as [x Hx]. rewrite Hx. f_equal.
    apply (lookup_weaken _ D) in Hx; [|done]. congruence.
  - injection Hcb as ->. unfold controlCallback in *.
    case_match; simplify_eq; [|done..]. destruct a as [w' res]. simplify_eq.
    apply Forall_singleton. eapply lookup_weaken; [by apply (lookup_dids s)|done].
  - by apply Forall_cons in Hc.
  - by apply Forall_cons in Hc as [[] _].
  - by apply Forall_cons in Hc as [[] _].
Qed.

Lemma owners_ok_reachable w D :
  daemon_reachable d w D -> registrations (mgr D) < 2 ^ 32 -> owners_ok (mgr D).
Proof.
  induction 1 as [|D e D' HD IH He Hs]; intros Hn.
  { intros t c Ht. simpl in Ht. by rewrite lookup_empty in Ht. }
  apply daemon_step_mgr in Hs as [Hs _]. pose proof (registrations_step _ _ _ Hs).
  eapply owners_ok_step; [by eapply daemon_mgr_reachable|lia|by eapply daemon_callback|done|
    apply IH; lia|done].
Qed.

(** ** Answers *)

Definition answers (l : list entry) : list outboundPacket := (fun x => answer x.2) <$> l.

(** The answers among the packets that a session has taken. *)
Definition replies (l : list (origin * outboundPacket)) : list outboundPacket :=
  omap (fun x => match x.1 with Answer => Some x.2 | Push => None end) l.

Definition replied F p : list outboundPacket := replies (log_of F p).

(** What the read loop has still to send. *)
Definition packets_of (calls : list call) : list outboundPacket :=
  omap (fun c => match c with CSend _ pkt => Some pkt | _ => None end) calls.

Definition unsent (c : pc W) : list outboundPacket :=
  match c with
  | PReadCalls _ calls => packets_of calls
  | PSend (ByControl _ more) _ pkt | PSendLocked (ByControl _ more) _ _ pkt => pkt :: packets_of more
  | _ => []
  end.

(** It has found its session in the table. *)
Definition locked (c : pc W) : Prop :=
  match c with PSendLocked _ _ _ _ => True | _ => False end.

(** The session takes no packet any more: it is closed, or out of the table and its
    read loop has not found it there before. *)
Definition refuses s o (c : pc W) : Prop :=
  isClosed o = true \/ sessions s !! s_DID o = None /\ (locked c -> False).

Record answers_ok s L F : Prop := {
  ao_new p : heap s !! p = None -> log_of L p = [] /\ log_of F p = [];
  ao_prefix p : replied F p `prefix_of` answers (log_of L p);
  ao_loop p o t c : heap s !! p = Some o -> threads s !! t = Some c -> reading p c ->
    replied F p ++ unsent c = answers (log_of L p) \/ refuses s o c;
}.

(** A closed session stays closed, and one that has left the table stays out of it. *)
Lemma closed_step s e s' p o o' :
  step e s = Some s' -> heap s !! p = Some o -> heap s' !! p = Some o' ->
  isClosed o = true -> isClosed o' = true.
Proof.
  intros Hs Hp. step_cases Hs; sm_simpl; intros Hp' Hc; try congruence.
  all: lookup_cases Hp'; simpl; try congruence.
  by apply fresh_ne in Hp.
Qed.

Lemma gone_step w s e s' p did :
  reachable w s -> registrations s' < 2 ^ 32 -> step e s = Some s' ->
  dids s !! p = Some did -> sessions s !! did = None -> sessions s' !! did = None.
Proof.
  intros Hr Hn Hs Hd Hg. pose proof (registrations_step _ _ _ Hs).
  destruct (ids_ok_reachable w s Hr) as [Hid _]; [lia|]. apply Hid in Hd.
  step_cases Hs; sm_simpl; try done.
  - rewrite lookup_insert_ne; [done|]. rewrite (next_did w); [lia|done..].
  - by rewrite lookup_delete_None; right.
Qed.

(** What a step does to answers: nothing, except that a read loop may find its session
    in the table; a new session; the callback; a refused packet; an accepted one. *)
Inductive answer_step s s' L L' F F' : Prop :=
| as_same (HL : L' = L) (HF : forall p, replied F' p = replied F p)
    (Ht : forall u c p, threads s' !! u = Some c -> reading p c ->
       exists c0, threads s !! u = Some c0 /\ reading p c0 /\ unsent c = unsent c0 /\
         (locked c -> locked c0 \/ exists did, dids s !! p = Some did /\ is_Some (sessions s !! did)))
| as_new p (Hp : heap s !! p = None) (HL : L' = L) (HF : F' = F)
    (Ht : forall u c q, threads s' !! u = Some c -> reading q c ->
       q = p /\ unsent c = [] \/ threads s !! u = Some c)
| as_control t p opcode payload res did
    (Htp : threads s !! t = Some (PReadControl p opcode payload)) (Hd : dids s !! p = Some did)
    (HL : L' = <[p := log_of L p ++ [(opcode, payload, res)]]> L) (HF : F' = F)
    (Ht : threads s' = <[t := PReadCalls p [CSend did (answer res)]]> (threads s))
| as_refuse t c p pkt more o' (Htp : threads s !! t = Some c) (Hc : reading p c)
    (Hun : unsent c = pkt :: packets_of more) (HL : L' = L) (HF : F' = F)
    (Ho : heap s' !! p = Some o')
    (Hr : isClosed o' = true \/ sessions s' !! s_DID o' = None)
    (Ht : forall u b q, threads s' !! u = Some b -> reading q b ->
       u = t /\ b = PReadCalls p more \/ u <> t /\ threads s !! u = Some b)
| as_accept t p did pkt more o (Htp : threads s !! t = Some (PSendLocked (ByControl p more) did p pkt))
    (Ho : heap s !! p = Some o) (Hc : isClosed o = false) (HL : L' = L)
    (HF : F' = <[p := log_of F p ++ [(Answer, pkt)]]> F)
    (Ht : threads s' = <[t := PReadCalls p more]> (threads s)).

Lemma replied_push F p pkt q : replied (<[p := log_of F p ++ [(Push, pkt)]]> F) q = replied F q.
Proof.
  unfold replied, replies, log_of. rewrite lookup_insert. case_decide; [subst q|done]. simpl.
  rewrite omap_app. apply app_nil_r.
Qed.

Lemma answer_step_cases I w D e s' (Hdisp : dispatches d I) (Hw : I w) :
  let s := mgr D in
  daemon_reachable d w D -> daemon_event e -> registrations s < 2 ^ 32 -> step e s = Some s' ->
  answer_step s s' (log D) (observe_log d e s (log D)) (flow D) (observe_flow e s (flow D)).
Proof.
  intros s HD He Hn Hs. pose proof (owners_ok_reachable w D HD Hn) as Hown. fold s in Hown.
  pose proof (daemon_callback _ _ _ HD) as Hcb. fold s in Hcb.
  pose proof (daemon_mgr_reachable _ _ _ HD) as Hr. fold s in Hr.
  pose proof (world_ok d I w D Hdisp Hw HD) as HI. fold s in HI.
  pose proof (objects_ok_step _ _ _ (objects_ok_reachable w s Hr) Hs) as [Hnp _].
  generalize (log D), (flow D). intros L F. clearbody s. clear HD D.
  step_cases Hs; try done;
    try (match goal with Ht : threads _ !! _ = Some _ |- _ => pose proof (Hown _ _ Ht) as Ho end);
    cbn [own_ok] in *; unfold observe_log, observe_flow; rewrite ?Ht; try done.
  all: repeat match goal with
    | H : heap _ !! _ = Some _ |- context [heap _ !! _] => rewrite H
    | H : isClosed _ = _ |- context [isClosed _] => rewrite H
    | H : chanClosed _ = _ |- context [chanClosed _] => rewrite H
    | H : (_ <? _)%nat = _ |- context [(_ <? _)%nat] => rewrite H
    end; cbn [negb andb origin_of].
  all: try (by apply as_same; [done|intros; by rewrite ?replied_push|sm_simpl;
     intros ? ? ? Hu Hc; repeat lookup_cases Hu; try done;
     eexists; split_and!; [done|simpl in *; by naive_solver..]]).
  - apply as_new with (fresh (dom (heap s))); sm_simpl; try done.
    + apply not_elem_of_dom, is_fresh.
    + intros u c q Hu Hc. repeat lookup_cases Hu; try done; auto.
  - apply as_same; [done..|sm_simpl]. intros u c q Hu Hc. lookup_cases Hu.
    + apply in_control_controlled in Hc. congruence.
    + eexists. split_and!; [done..|]. tauto.
  - apply as_same; [done..|sm_simpl]. intros u c q Hu Hc. lookup_cases Hu.
    + simpl in Hc. destruct r; try done; [|apply in_control_controlled in Hc; simpl in *; congruence].
      destruct Ho as [Hd Hm].
      pose proof (proj2 (refs_ok_reachable w s Hr) _ _ Ht) as [x Hx]. rewrite Hx in Hd.
      simpl in Hc. subst q. eexists. split_and!; [done..|]. intros _. right. naive_solver.
    + eexists. split_and!; [done..|]. tauto.
  - destruct Ho as [Hd _]. destruct (dids_lookup _ _ _ Hd) as (o & Ho & Hod).
    eapply as_refuse with (o' := o); [done|simpl; done..|sm_simpl; rewrite Hod; by right|].
    sm_simpl. intros u b q Hu Hb. lookup_cases Hu; auto.
  - destruct Ho as (Hd & -> & _).
    eapply as_refuse; [done|simpl; done..|by left|].
    sm_simpl. intros u b q Hu Hb. lookup_cases Hu; auto.
  - destruct Ho as (Hd & -> & _). by eapply as_accept.
  - destruct Ho as (Hd & -> & _).
    eapply as_refuse with (p := p0); [done..|sm_simpl; apply lookup_insert_eq|by left|].
    sm_simpl. intros u b q Hu Hb. repeat lookup_cases Hu; try done; auto.
  - injection Hcb as ->. unfold controlCallback in *. cbn [fmap option_fmap option_map].
    specialize (Hdisp (world s) (s_DID s0) opcode payload HI).
    destruct (DispatchSysCall d (world s) (s_DID s0) opcode payload) as [[w' res]| | |]; try done.
    simplify_eq. eapply as_control; [done|by apply (lookup_dids s)|done..].
  - by apply Forall_cons in Ho as [[] _].
  - by apply Forall_cons in Ho as [[] _].
Qed.

Lemma log_of_insert {A} (L : gmap ref (list A)) p l q : log_of (<[p := l]> L) q = if decide (p = q) then l else log_of L q.
Proof. unfold log_of. rewrite lookup_insert. by case_decide. Qed.

(** Refusing is for good, unless the read loop finds the session in the table. *)
Lemma refuses_step w s e s' p o o' c c' :
  reachable w s -> registrations s' < 2 ^ 32 -> step e s = Some s' ->
  heap s !! p = Some o -> heap s' !! p = Some o' -> s_DID o' = s_DID o ->
  (locked c' -> locked c \/ exists did, dids s !! p = Some did /\ is_Some (sessions s !! did)) ->
  refuses s o c -> refuses s' o' c'.
Proof.
  intros Hr Hn Hs Hp Hp' Hd Hc [Hcl|[Hg Hl]]; [left; by eapply closed_step|].
  right. rewrite Hd. pose proof (lookup_dids _ _ _ Hp) as Hdp. split; [by apply (gone_step w s e s' p)|].
  intros [Hl'|(did & Hd' & x & Hx)]%Hc; [by auto|].
  congruence.
Qed.

(** *** The invariant is kept, by each kind of step *)

Section answers_step.
Context w e s s' L F
  (Hr : reachable w s) (Hn : registrations s' < 2 ^ 32) (Hs : step e s = Some s')
  (Hok : answers_ok s L F).

Lemma object_old q : heap s' !! q = None -> heap s !! q = None.
Proof.
  intros Hq. destruct (heap s !! q) as [o|] eqn:Ho; [|done].
  destruct (object_step _ _ _ _ _ Hs Ho) as (? & ? & _). congruence.
Qed.

Lemma other_reader t u c b p q :
  threads s !! t = Some c -> threads s !! u = Some b -> reading p c -> reading q b -> t <> u -> p <> q.
Proof.
  intros Ht Hu Hc Hb Hne <-. by apply Hne, (readers_ok_reachable w s Hr p t u c b).
Qed.

(** A session that nothing happens to. *)
Lemma session_kept p o' u c c' :
  heap s' !! p = Some o' -> threads s !! u = Some c -> reading p c -> unsent c' = unsent c ->
  (locked c' -> locked c \/ exists did, dids s !! p = Some did /\ is_Some (sessions s !! did)) ->
  replied F p ++ unsent c' = answers (log_of L p) \/ refuses s' o' c'.
Proof.
  intros Hp Hu Hc -> Hl. destruct (heap s !! p) as [o|] eqn:Ho.
  2:{ exfalso. eapply nobody_reads; [by eapply refs_ok_reachable|done|by eexists _, _]. }
  destruct (ao_loop s L F Hok _ _ _ _ Ho Hu Hc) as [|Href]; [by left|right].
  destruct (object_step _ _ _ _ _ Hs Ho) as (o1 & Ho1 & Hd). simplify_eq. by eapply refuses_step.
Qed.

Lemma answers_ok_same F' :
  (forall p, replied F' p = replied F p) -> (forall p, heap s' !! p = None -> log_of F' p = []) ->
  (forall u c p, threads s' !! u = Some c -> reading p c ->
     exists c0, threads s !! u = Some c0 /\ reading p c0 /\ unsent c = unsent c0 /\
       (locked c -> locked c0 \/ exists did, dids s !! p = Some did /\ is_Some (sessions s !! did))) ->
  answers_ok s' L F'.
Proof.
  intros HF Hnew Ht. constructor.
  - intros p Hp. split; [by eapply ao_new, object_old|by auto].
  - intros p. rewrite HF. by eapply ao_prefix.
  - intros p o' u c Hp Hu Hc. rewrite HF. destruct (Ht _ _ _ Hu Hc) as (c0 & Hu0 & Hc0 & Hun & Hl).
    by eapply session_kept.
Qed.

Lemma answers_ok_new p :
  heap s !! p = None ->
  (forall u c q, threads s' !! u = Some c -> reading q c ->
     q = p /\ unsent c = [] \/ threads s !! u = Some c) ->
  answers_ok s' L F.
Proof.
  intros Hp Ht. constructor.
  - intros q Hq. by eapply ao_new, object_old.
  - by eapply ao_prefix.
  - intros q o' u c Hq Hu Hc. destruct (Ht _ _ _ Hu Hc) as [[-> ->]|Hu0].
    { left. unfold replied. by destruct (ao_new s L F Hok p Hp) as [-> ->]. }
    eapply session_kept; [done..|tauto].
Qed.

Lemma answers_ok_control t p opcode payload res did :
  threads s !! t = Some (PReadControl p opcode payload) -> dids s !! p = Some did ->
  threads s' = <[t := PReadCalls p [CSend did (answer res)]]> (threads s) ->
  answers_ok s' (<[p := log_of L p ++ [(opcode, payload, res)]]> L) F.
Proof.
  intros Htp Hd Ht. destruct (dids_lookup _ _ _ Hd) as (o & Ho & Hod). constructor.
  - intros q Hq. apply object_old in Hq. rewrite log_of_insert, decide_False; [by eapply ao_new|congruence].
  - intros q. rewrite log_of_insert. case_decide; [subst q|by eapply ao_prefix].
    unfold answers. rewrite fmap_app. by apply prefix_app_r, (ao_prefix s L F).
  - intros q o' u c Hq Hu Hc. rewrite Ht in Hu. rewrite log_of_insert. lookup_cases Hu.
    + simpl in Hc. subst q. rewrite decide_True by done.
      destruct (ao_loop s L F Hok _ _ _ _ Ho Htp eq_refl) as [Heq|Href].
      * left. simpl in Heq |- *. rewrite app_nil_r in Heq. unfold answers. rewrite fmap_app.
        by rewrite Heq.
      * right. destruct (object_step _ _ _ _ _ Hs Ho) as (o1 & Ho1 & Hd1). simplify_eq.
        eapply refuses_step; [done..| |exact Href]. simpl. tauto.
    + rewrite decide_False by (by eapply (other_reader t u _ c)). eapply session_kept; [done..|tauto].
Qed.

Lemma answers_ok_refuse t c p pkt more o' :
  threads s !! t = Some c -> reading p c -> unsent c = pkt :: packets_of more ->
  heap s' !! p = Some o' -> isClosed o' = true \/ sessions s' !! s_DID o' = None ->
  (forall u b q, threads s' !! u = Some b -> reading q b ->
     u = t /\ b = PReadCalls p more \/ u <> t /\ threads s !! u = Some b) ->
  answers_ok s' L F.
Proof.
  intros Htp Hc Hun Ho Href Ht. constructor.
  - intros q Hq. by eapply ao_new, object_old.
  - by eapply ao_prefix.
  - intros q b u c' Hq Hu Hc'. destruct (Ht _ _ _ Hu Hc') as [[-> ->]|[Hne Hu']].
    { right. simpl in Hc'. subst q. simplify_eq. destruct Href as [|Hg']; [by left|right; by split]. }
    eapply session_kept; [done..|tauto].
Qed.

Lemma answers_ok_accept t p did pkt more o :
  threads s !! t = Some (PSendLocked (ByControl p more) did p pkt) ->
  heap s !! p = Some o -> isClosed o = false ->
  threads s' = <[t := PReadCalls p more]> (threads s) ->
  answers_ok s' L (<[p := log_of F p ++ [(Answer, pkt)]]> F).
Proof.
  intros Htp Ho Hc Ht. set (F' := <[p := _]> F).
  destruct (ao_loop s L F Hok _ _ _ _ Ho Htp eq_refl) as [Heq|[|[_ []]]]; [|congruence|done].
  assert (forall q, replied F' q = if decide (p = q) then replied F p ++ [pkt] else replied F q) as HF.
  { intros q. unfold replied, F'. rewrite log_of_insert. case_decide; [subst q|done].
    unfold replies. by rewrite omap_app. }
  simpl in Heq. rewrite cons_middle, app_assoc in Heq. constructor.
  - intros q Hq. apply object_old in Hq. unfold F'. rewrite log_of_insert, decide_False; [by eapply ao_new|congruence].
  - intros q. rewrite HF. case_decide; [subst q; exists (packets_of more); by rewrite <- Heq|]. by eapply ao_prefix.
  - intros q b u c' Hq Hu Hc'. rewrite HF. rewrite Ht in Hu. lookup_cases Hu.
    { left. simpl in Hc'. subst q. by rewrite decide_True. }
    rewrite decide_False by (by eapply (other_reader t u _ c')). eapply session_kept; [done..|tauto].
Qed.

End answers_step.

(** A session that does not exist has taken nothing. *)
Lemma flow_step s e s' F p :
  step e s = Some s' -> heap s' !! p = None -> log_of F p = [] -> log_of (observe_flow e s F) p = [].
Proof.
  intros Hs Hp HF. unfold observe_flow. destruct e; try done. repeat case_match; try done.
  rewrite log_of_insert, decide_False; [done|]. intros <-.
  match goal with Ho : heap s !! _ = Some _ |- _ =>
    destruct (object_step _ _ _ _ _ Hs Ho) as (? & ? & _) end. congruence.
Qed.

Lemma answers_ok_reachable I w D :
  dispatches d I -> I w -> daemon_reachable d w D -> registrations (mgr D) < 2 ^ 32 ->
  answers_ok (mgr D) (log D) (flow D).
Proof.
  intros Hdisp Hw. induction 1 as [|D e D' HD IH He Hs]; intros Hn.
  { by constructor; simpl. }
  apply daemon_step_mgr in Hs as (Hs & _ & -> & -> & _). pose proof (registrations_step _ _ _ Hs).
  pose proof (daemon_mgr_reachable _ _ _ HD) as Hr. specialize (IH ltac:(lia)).
  assert (forall p, heap (mgr D') !! p = None -> log_of (observe_flow e (mgr D) (flow D)) p = []) as Hnew.
  { intros p Hp. eapply flow_step; [done..|]. by eapply ao_new, (object_old e (mgr D)). }
  destruct (answer_step_cases I w D e (mgr D') Hdisp Hw HD He) as [| | | |]; [lia|done| | | | |];
    rewrite HL, ?HF.
  - by eapply answers_ok_same.
  - by eapply answers_ok_new.
  - by eapply answers_ok_control.
  - by eapply answers_ok_refuse.
  - by eapply answers_ok_accept.
Qed.

(** ** What a session has taken *)

(** The packets of a session's history are those that went into its queue, and a packet
    that is not an answer was given to [SendToLocal] with the session's identifier. *)
Definition sends_ok (D : gmap nat DID) (off : list (DID * outboundPacket)) (c : pc W) : Prop :=
  match c with
  | PSend r did pkt => origin_of r = Push -> (did, pkt) ∈ off
  | PSendLocked r did p pkt => origin_of r = Push -> D !! p = Some did /\ (did, pkt) ∈ off
  | _ => True
  end.

Definition flow_ok s F (off : list (DID * outboundPacket)) (p : nat) : Prop :=
  match heap s !! p with
  | Some o => accepted o = (log_of F p).*2 /\
      Forall (fun x => x.1 = Push -> (s_DID o, x.2) ∈ off) (log_of F p)
  | None => log_of F p = []
  end.

Lemma sends_ok_mono D D' off off' c : D ⊆ D' -> off ⊆ off' -> sends_ok D off c -> sends_ok D' off' c.
Proof.
  intros HD Ho. destruct c; simpl; try done; [set_solver|].
  intros Hc Hr. destruct (Hc Hr). split; [by eapply lookup_weaken|set_solver].
Qed.

Lemma offered_grows e s off : off ⊆ observe_offered e s off.
Proof. unfold observe_offered. repeat case_match; set_solver. Qed.

Lemma flow_ok_mono s F off off' p : off ⊆ off' -> flow_ok s F off p -> flow_ok s F off' p.
Proof.
  unfold flow_ok. intros Hoff. destruct (heap s !! p); [|done]. intros [Ha HF]. split; [done|].
  eapply Forall_impl; [exact HF|]. auto.
Qed.

Lemma sends_ok_reachable w D :
  daemon_reachable d w D -> map_Forall (fun _ c => sends_ok (dids (mgr D)) (offered D) c) (threads (mgr D)).
Proof.
  induction 1 as [|D e D' HD IH He Hs].
  { intros t c Ht. simpl in Ht. by rewrite lookup_empty in Ht. }
  apply daemon_step_mgr in Hs as (Hs & _ & _ & _ & ->).
  pose proof (refs_ok_reachable w _ (daemon_mgr_reachable _ _ _ HD)) as [Htab _].
  pose proof (dids_step _ _ _ Hs) as Hsub.
  assert (map_Forall (fun _ c => sends_ok (dids (mgr D')) (observe_offered e (mgr D) (offered D)) c)
    (threads (mgr D))) as Hold.
  { intros t c Ht. eapply sends_ok_mono; [done|apply offered_grows|by eapply IH]. }
  clear IH. revert Hs Hold Hsub. generalize (dids (mgr D')). generalize (mgr D'). intros s' E Hs Hold Hsub.
  step_cases Hs; sm_simpl; repeat first [apply map_Forall_insert_2 | apply map_Forall_delete];
    try exact Hold; try done.
  - intros _. simpl. rewrite Ht. set_solver.
  - pose proof (Hold _ _ Ht) as Hc. intros Hpush. split; [|by apply Hc].
    eapply lookup_weaken; [by apply Htab|done].
  - simpl. set_solver.
Qed.

Lemma flow_ok_reachable w D p :
  daemon_reachable d w D -> flow_ok (mgr D) (flow D) (offered D) p.
Proof.
  induction 1 as [|D e D' HD IH He Hs]; [done|].
  pose proof (sends_ok_reachable w D HD) as Hsends.
  apply daemon_step_mgr in Hs as (Hs & _ & _ & -> & ->).
  pose proof (objects_ok_step _ _ _ (objects_ok_reachable w _ (daemon_mgr_reachable _ _ _ HD)) Hs) as [Hnp _].
  pose proof (offered_grows e (mgr D) (offered D)) as Hoff. eapply flow_ok_mono in IH; [|exact Hoff].
  pose proof (map_Forall_impl _ _ _ Hsends
    (fun t c => sends_ok_mono _ _ _ _ c (reflexivity (dids (mgr D))) Hoff)) as Hsends'.
  clear Hsends. rename Hsends' into Hsends.
  revert Hs IH Hsends Hnp. generalize (flow D), (observe_offered e (mgr D) (offered D)), (mgr D), (mgr D').
  clear. intros F off s s' Hs IH Hsends Hnp. unfold flow_ok in *.
  step_cases Hs; unfold observe_flow; rewrite ?Ht; sm_simpl; try done.
  all: repeat match goal with
    | H : heap _ !! ?q = Some _ |- context [match heap _ !! ?q with _ => _ end] => rewrite H
    | H : isClosed _ = _ |- context [isClosed _] => rewrite H
    | H : chanClosed _ = _ |- context [chanClosed _] => rewrite H
    | H : (_ <? _)%nat = _ |- context [(_ <? _)%nat] => rewrite H
    end; cbn [negb andb origin_of] in *.
  all: try (rewrite lookup_insert; case_decide; [subst; simplify_option_eq; by auto|done]).
  all: try done.
  all: rewrite lookup_insert, ?log_of_insert; case_decide; [subst|done].
  { rewrite (not_elem_of_dom_1 (heap s)) in IH by apply is_fresh. rewrite IH. by split. }
  all: simplify_option_eq; destruct IH as [-> HF]; rewrite fmap_app; (split; [done|]);
    (apply Forall_app; split; [done|]); apply Forall_singleton; try done; intros _; simpl;
    destruct (Hsends _ _ Ht eq_refl) as [Hd Hin]; unfold dids in Hd; rewrite lookup_fmap_Some in Hd; naive_solver.
Qed.

End invariant.
End DaemonInvariant.
