(* ===== verification/DaemonRequests.v ===== *)
(** * DaemonRequests: the requests of a session's log

    The requests that were dispatched for a session are the first frames that its
    application sent, in order: what is left to read is what follows them. *)

From S2P Require Import Prelude Threads Framing Dispatcher SessionManager SessionInvariant SessionOnce SessionTable SessionWire Daemon DaemonInvariant.

Module DaemonRequests.
Import Framing Dispatcher SessionManager SessionInvariant SessionOnce SessionTable SessionWire Daemon DaemonInvariant.

(** A packet that is read is the first frame of the stream. *)
Lemma readPacket_Ret r req r' :
  readPacket r = (Ret req, r') -> frame_ok req /\ stream r = requestFrame req ++ stream r'.
Proof.
  intros Hr. destruct (readPacket_cases r) as [(q & rest & Hq & Hs)|[_ [e He]]]; [|congruence].
  destruct (readPacket_frame r q rest Hq Hs) as (r1 & H1 & <- & _). rewrite Hr in H1.
  by simplify_eq.
Qed.

Section requests.
Context {W : Type}.
Variable d : @Dispatcher.Dispatcher W.
Implicit Types (s : SM W) (p t : nat) (L : gmap ref (list entry)) (S : gmap ref (list byte)).

(** The bytes of the requests of a log. *)
Definition requests (l : list entry) : list byte := concat (requestFrame <$> l.*1).

Lemma requests_app l k : requests (l ++ k) = requests l ++ requests k.
Proof. unfold requests. by rewrite !fmap_app, concat_app. Qed.

(** The request that has been read and not been dispatched yet. *)
Definition unhandled (c : pc W) : list byte :=
  match c with PReadControl _ opcode payload => requestFrame (opcode, payload) | _ => [] end.

(** The read loop of a session, while it reads. *)
Definition looping p (c : pc W) : Prop :=
  match c with PUnreg (ByReadLoop _) _ => False | _ => reading p c end.

(** What each connection has still to deliver. *)
Definition streams s : gmap nat (list byte) := (fun k => stream (c_reader k)) <$> conns s.

Record requests_ok s S L : Prop := {
  ro_new t c : threads s !! t = Some (PRegister c) -> S !! c = streams s !! c;
  ro_prefix p c : sconn s !! p = Some c ->
    exists bs, S !! c = Some bs /\ requests (log_of L p) `prefix_of` bs;
  ro_loop p c t x r : sconn s !! p = Some c -> threads s !! t = Some x -> looping p x ->
    streams s !! c = Some r ->
    S !! c = Some (requests (log_of L p) ++ unhandled x ++ r);
}.

Lemma streams_update (m : gmap nat Conn) c k k' :
  m !! c = Some k -> c_reader k' = c_reader k ->
  (fun k => stream (c_reader k)) <$> <[c := k']> m = (fun k => stream (c_reader k)) <$> m.
Proof.
  intros Hc Hw. rewrite fmap_insert. apply insert_id. rewrite lookup_fmap, Hc. simpl. by rewrite Hw.
Qed.

(** What a step does to requests: nothing; a new connection; a registration; a request
    is read; the read loop fails to read one and ends; a request is dispatched. *)
Inductive request_step s s' S S' L L' : Prop :=
| rq_same (Hst : streams s' = streams s) (Hsc : sconn s' = sconn s) (HS : S' = S) (HL : L' = L)
    (Hreg : forall t c, threads s' !! t = Some (PRegister c) -> threads s !! t = Some (PRegister c))
    (Ht : forall u x p, threads s' !! u = Some x -> looping p x ->
       exists x0, threads s !! u = Some x0 /\ looping p x0 /\ unhandled x = unhandled x0)
| rq_conn c r (Hc : streams s !! c = None) (Hst : streams s' = <[c := r]> (streams s))
    (Hsc : sconn s' = sconn s) (HS : S' = <[c := r]> S) (HL : L' = L)
    (Ht : threads s' = <[fresh (dom (threads s)) := PRegister c]> (threads s))
| rq_register t c p (Htc : threads s !! t = Some (PRegister c)) (Hp : sconn s !! p = None)
    (Hst : streams s' = streams s) (Hsc : sconn s' = <[p := c]> (sconn s))
    (HS : S' = S) (HL : L' = L)
    (Hreg : forall u b, threads s' !! u = Some (PRegister b) -> threads s !! u = Some (PRegister b))
    (Ht : forall u x q, threads s' !! u = Some x -> looping q x ->
       q = p /\ unhandled x = [] \/ threads s !! u = Some x)
| rq_read t p c req rest (Htp : threads s !! t = Some (PReadPacket p)) (Hp : sconn s !! p = Some c)
    (Hreq : frame_ok req)
    (Hc : streams s !! c = Some (requestFrame req ++ rest))
    (Hst : streams s' = <[c := rest]> (streams s)) (Hsc : sconn s' = sconn s)
    (HS : S' = S) (HL : L' = L)
    (Ht : threads s' = <[t := PReadControl p req.1 req.2]> (threads s))
| rq_fail t p c r (Htp : threads s !! t = Some (PReadPacket p)) (Hp : sconn s !! p = Some c)
    (Hst : streams s' = <[c := r]> (streams s)) (Hsc : sconn s' = sconn s)
    (HS : S' = S) (HL : L' = L)
    (Hreg : forall u b, threads s' !! u = Some (PRegister b) -> threads s !! u = Some (PRegister b))
    (Ht : forall u x q, threads s' !! u = Some x -> looping q x -> u <> t /\ threads s !! u = Some x)
| rq_control t p opcode payload res calls
    (Htp : threads s !! t = Some (PReadControl p opcode payload)) (Hst : streams s' = streams s)
    (Hsc : sconn s' = sconn s) (HS : S' = S)
    (HL : L' = <[p := log_of L p ++ [(opcode, payload, res)]]> L)
    (Ht : threads s' = <[t := PReadCalls p calls]> (threads s)).

Lemma request_step_cases I w e s s' S L (Hdisp : dispatches d I) (HI : I (world s)) :
  reachable w s -> onControl s = Some (controlCallback d) -> daemon_event e -> step e s = Some s' ->
  request_step s s' S (observe_sent e s S) L (observe_log d e s L).
Proof.
  intros Hr Hcb He Hs. pose proof (conns_ok_reachable w s Hr) as Hco.
  pose proof (objects_ok_step _ _ _ (objects_ok_reachable w s Hr) Hs) as [Hnp _].
  step_cases Hs; try done; try (exfalso; by eapply conn_exists);
    unfold observe_log, observe_sent; rewrite ?Ht.
  all: try (by apply rq_same; unfold streams, sconn; sm_simpl;
    [by repeat (erewrite streams_update by (done || reflexivity))
    |by repeat (erewrite sconn_update by (done || reflexivity))|done|done|..];
    [intros ? ? Hu; repeat lookup_cases Hu; done|];
    intros ? ? ? Hu Hx; repeat lookup_cases Hu; try done;
    eexists; split_and!; [done|simpl in *; by naive_solver..]).
  - apply rq_register with t conn (fresh (dom (heap s))); unfold sconn; sm_simpl; try done.
    + rewrite lookup_fmap, (not_elem_of_dom_1 (heap s)); [done|apply is_fresh].
    + by rewrite fmap_insert.
    + intros u b Hu. repeat lookup_cases Hu; done.
    + intros u x q Hu Hx. repeat lookup_cases Hu; try done; auto.
  - apply rq_same; try done; sm_simpl; [intros ? ? Hu; by lookup_cases Hu|].
    intros u x q Hu Hx. lookup_cases Hu; eexists; (split_and!; [done| |done]); [|done].
    by destruct r.
  - match goal with H : readPacket _ = _ |- _ => apply readPacket_Ret in H as [Hreq Hr'] end.
    eapply rq_read; [done|by apply lookup_sconn|done| | |done..].
    + unfold streams. rewrite lookup_fmap.
      match goal with H : conns _ !! _ = _ |- _ => rewrite H end. simpl. by rewrite Hr'.
    + unfold streams. sm_simpl. by rewrite fmap_insert.
  - eapply rq_fail; [done|by apply lookup_sconn| |done..| |].
    + unfold streams. sm_simpl. by rewrite fmap_insert.
    + sm_simpl. intros u b Hu. by lookup_cases Hu.
    + sm_simpl. intros u x q Hu Hx. lookup_cases Hu; [done|auto].
  - match goal with H : heap s !! p = Some ?o |- _ => rewrite H; cbn [fmap option_fmap option_map] end.
    specialize (Hdisp (world s) (s_DID s0) opcode payload HI).
    destruct (DispatchSysCall d (world s) (s_DID s0) opcode payload) as [[w' res]| | |]; try done.
    by eapply rq_control.
  - apply rq_conn with (fresh (dom (conns s))) (stream r); unfold streams; sm_simpl; try done.
    + rewrite lookup_fmap, (not_elem_of_dom_1 (conns s)); [done|apply is_fresh].
    + by rewrite fmap_insert.
Qed.

(** ** The invariant is kept *)

Section requests_step.
Context w s s' S L (Hr : reachable w s) (Hok : requests_ok s S L).

Lemma looping_reading p c : looping p c -> reading p c.
Proof. destruct c; try done. by destruct r. Qed.

Lemma other_loop t u c b p q :
  threads s !! t = Some c -> threads s !! u = Some b -> looping p c -> looping q b -> t <> u -> p <> q.
Proof. intros Ht Hu Hc%looping_reading Hb%looping_reading. by eapply (other_reader w s). Qed.

Lemma other_conn p q c : sconn s !! p = Some c -> q <> p -> sconn s !! q <> Some c.
Proof. intros Hp Hne Hq. by apply Hne, (co_inj s (conns_ok_reachable w s Hr) q p c). Qed.

Lemma requests_ok_same :
  streams s' = streams s -> sconn s' = sconn s ->
  (forall t c, threads s' !! t = Some (PRegister c) -> threads s !! t = Some (PRegister c)) ->
  (forall u x p, threads s' !! u = Some x -> looping p x ->
     exists x0, threads s !! u = Some x0 /\ looping p x0 /\ unhandled x = unhandled x0) ->
  requests_ok s' S L.
Proof.
  intros Hst Hsc Hreg Ht. destruct Hok as [H1 H2 H3]. constructor; rewrite ?Hst, ?Hsc; [by eauto..|].
  intros p c t x r Hp Hx Hl Hc. destruct (Ht _ _ _ Hx Hl) as (x0 & Hx0 & Hl0 & ->). by eapply H3.
Qed.

Lemma requests_ok_conn c r :
  streams s !! c = None -> streams s' = <[c := r]> (streams s) -> sconn s' = sconn s ->
  threads s' = <[fresh (dom (threads s)) := PRegister c]> (threads s) ->
  requests_ok s' (<[c := r]> S) L.
Proof.
  intros Hc Hst Hsc Ht. destruct Hok as [H1 H2 H3]. pose proof (conns_ok_reachable w s Hr) as Hco.
  assert (forall b, is_Some (conns s !! b) -> c <> b) as Hne.
  { intros b [k Hk] <-. unfold streams in Hc. by rewrite lookup_fmap, Hk in Hc. }
  constructor; rewrite ?Hst, ?Hsc, ?Ht.
  - intros t b Hb. lookup_cases Hb; [by rewrite !lookup_insert_eq|].
    rewrite !lookup_insert_ne; [by eauto|..]; by eapply Hne, co_register.
  - intros p b Hb. rewrite lookup_insert_ne; [by eauto|]. by eapply Hne, co_session.
  - intros p b t x r' Hb Hx Hl. lookup_cases Hx; [done|].
    rewrite !lookup_insert_ne; [by eauto|..]; by eapply Hne, co_session.
Qed.

Lemma requests_ok_register t c p :
  threads s !! t = Some (PRegister c) -> sconn s !! p = None -> log_of L p = [] ->
  streams s' = streams s -> sconn s' = <[p := c]> (sconn s) ->
  (forall u b, threads s' !! u = Some (PRegister b) -> threads s !! u = Some (PRegister b)) ->
  (forall u x q, threads s' !! u = Some x -> looping q x ->
     q = p /\ unhandled x = [] \/ threads s !! u = Some x) ->
  requests_ok s' S L.
Proof.
  intros Htc Hp Hlog Hst Hsc Hreg Ht. destruct Hok as [H1 H2 H3].
  destruct (co_register s (conns_ok_reachable w s Hr) _ _ Htc) as [k Hk].
  assert (streams s !! c = Some (stream (c_reader k))) as Hc
    by (unfold streams; by rewrite lookup_fmap, Hk).
  constructor; rewrite ?Hst, ?Hsc; [by eauto|..].
  - intros q b Hq. lookup_cases Hq; [|by eauto]. rewrite (H1 _ _ Htc), Hc, Hlog.
    eexists. split; [done|apply prefix_nil].
  - intros q b u x r Hq Hx Hl Hb. destruct (Ht _ _ _ Hx Hl) as [[-> ->]|Hx0].
    + rewrite lookup_insert_eq in Hq. simplify_eq. by rewrite Hlog, (H1 _ _ Htc).
    + lookup_cases Hq; [|by eauto]. exfalso.
      apply (nobody_reads s q); [by eapply refs_ok_reachable| |].
      * unfold sconn in Hp. rewrite lookup_fmap in Hp. by destruct (heap s !! q).
      * eexists _, _. split; [done|by apply looping_reading].
Qed.

(** The read loop of [p] reads from its connection and goes on with [x'], or ends. *)
Lemma requests_ok_read t p c r x' :
  threads s !! t = Some (PReadPacket p) -> sconn s !! p = Some c ->
  streams s' = <[c := r]> (streams s) -> sconn s' = sconn s ->
  (forall u b, threads s' !! u = Some (PRegister b) -> threads s !! u = Some (PRegister b)) ->
  (forall u x q, threads s' !! u = Some x -> looping q x ->
     u <> t /\ threads s !! u = Some x \/
     q = p /\ x = x' /\ streams s !! c = Some (unhandled x' ++ r)) ->
  requests_ok s' S L.
Proof.
  intros Htp Hp Hst Hsc Hreg Ht. destruct Hok as [H1 H2 H3]. constructor; rewrite ?Hst, ?Hsc.
  - intros u b Hu. apply Hreg in Hu. rewrite lookup_insert_ne; [by eauto|]. intros <-.
    by eapply (co_new s); [by eapply conns_ok_reachable|..].
  - done.
  - intros q b u x r' Hq Hx Hl Hb. destruct (Ht _ _ _ Hx Hl) as [[Hne Hx0]|(-> & -> & Hc)].
    + assert (q <> p) by (by eapply (other_loop u t)).
      rewrite lookup_insert_ne in Hb; [by eauto|]. intros <-. by eapply other_conn.
    + simplify_eq. rewrite lookup_insert_eq in Hb. simplify_eq.
      by rewrite (H3 _ _ _ _ _ Hp Htp eq_refl Hc).
Qed.

Lemma requests_ok_control t p opcode payload res calls :
  threads s !! t = Some (PReadControl p opcode payload) -> streams s' = streams s ->
  sconn s' = sconn s -> threads s' = <[t := PReadCalls p calls]> (threads s) ->
  requests_ok s' S (<[p := log_of L p ++ [(opcode, payload, res)]]> L).
Proof.
  intros Htp Hst Hsc Ht. destruct Hok as [H1 H2 H3].
  assert (requests [(opcode, payload, res)] = requestFrame (opcode, payload)) as Hone
    by (unfold requests; simpl; by rewrite app_nil_r).
  constructor; rewrite ?Hst, ?Hsc, ?Ht.
  - intros u b Hu. lookup_cases Hu. eauto.
  - intros q c Hq. rewrite log_of_insert. case_decide; [subst q|by eauto].
    destruct (co_session s (conns_ok_reachable w s Hr) p c Hq) as [k Hk].
    rewrite (H3 p c t _ (stream (c_reader k)) Hq Htp eq_refl) by (unfold streams; by rewrite lookup_fmap, Hk).
    eexists. split; [done|]. rewrite requests_app, Hone, app_assoc. by eexists.
  - intros q c u x r Hq Hx Hl Hc. rewrite log_of_insert. lookup_cases Hx.
    + simpl in Hl. subst q. rewrite decide_True by done.
      rewrite (H3 _ _ _ _ _ Hq Htp eq_refl Hc). simpl. by rewrite requests_app, Hone, <- app_assoc.
    + rewrite decide_False by (by eapply (other_loop t u _ x)). eauto.
Qed.

End requests_step.

Lemma requests_ok_reachable I w D :
  dispatches d I -> I w -> daemon_reachable d w D -> registrations (mgr D) < 2 ^ 32 ->
  requests_ok (mgr D) (sent D) (log D).
Proof.
  intros Hdisp Hw. induction 1 as [|D e D' HD IH He Hs]; intros Hn.
  { constructor; unfold sconn; simpl; intros *; rewrite ?fmap_empty, lookup_empty; done. }
  apply daemon_step_mgr in Hs as (Hs & -> & -> & _). pose proof (registrations_step _ _ _ Hs).
  pose proof (daemon_mgr_reachable _ _ _ HD) as Hr. pose proof (daemon_callback _ _ _ HD) as Hcb.
  assert (registrations (mgr D) < 2 ^ 32) as Hn0 by lia. specialize (IH Hn0).
  pose proof (world_ok d I w D Hdisp Hw HD) as HI.
  destruct (request_step_cases I w e (mgr D) (mgr D') (sent D) (log D) Hdisp HI Hr Hcb He Hs);
    rewrite HS, HL.
  - by eapply requests_ok_same.
  - by eapply requests_ok_conn.
  - eapply requests_ok_register; [done..| |done|done|done|done].
    eapply ao_new; [by apply (answers_ok_reachable d I w)|]. unfold sconn in Hp. rewrite lookup_fmap in Hp.
    by destruct (heap (mgr D) !! p).
  - eapply (requests_ok_read _ _ _ _ _ Hr IH t p c rest (PReadControl p req.1 req.2)); [done..| |].
    + rewrite Ht. intros u b Hu. by lookup_cases Hu.
    + rewrite Ht. intros u x q Hu Hx. lookup_cases Hu; [right|by left].
      simpl in Hx. subst q. split_and!; [done..|]. rewrite Hc. by destruct req.
  - eapply (requests_ok_read _ _ _ _ _ Hr IH t p c r (PReadTop p)); [done..|].
    intros u x q Hu Hx. left. by eapply Ht.
  - by eapply requests_ok_control.
Qed.

End requests.
End DaemonRequests.
