(* ===== verification/DaemonProperties.v ===== *)
(** * DaemonProperties: the daemon as a sequential server

    The daemon serves all its applications at once, and still answers as a server would
    that takes one request after the other; every application gets the answers to its
    own requests, in order; and a request that reaches an idle session is answered. *)

From S2P Require Import Prelude Threads Base64 InviteKey KeyManager Framing Dispatcher SessionManager SessionInvariant SessionOnce SessionTable SessionWire SessionCalls Daemon DaemonInvariant DaemonRequests.

Module DaemonProperties.
Import Framing Abi Dispatcher SessionManager SessionInvariant SessionOnce SessionTable SessionWire SessionCalls Daemon DaemonInvariant DaemonRequests.

Section properties.
Context {W : Type}.
Variable d : @Dispatcher.Dispatcher W.
Implicit Types (s : SM W) (p t : nat) (D : Daemon (W := W)).

(** ** Sequential server *)

(** A request with the session that it came from, and its response. *)
Record served := mkServed { by_session : ref; from_DID : DID; exchange : entry }.

(** A server that takes one request after the other. *)
Fixpoint serve (w : W) (reqs : list (DID * (Z * list byte)))
    : outcome never (W * list IpcResponse) :=
  match reqs with
  | [] => Ret (w, [])
  | (did, (opcode, payload)) :: reqs =>
      '(w, res) ← DispatchSysCall d w did opcode payload;
      '(w, rs) ← serve w reqs;
      Ret (w, res :: rs)
  end.

Lemma serve_snoc reqs : forall w did opcode payload w1 rs w2 res,
  serve w reqs = Ret (w1, rs) -> DispatchSysCall d w1 did opcode payload = Ret (w2, res) ->
  serve w (reqs ++ [(did, (opcode, payload))]) = Ret (w2, rs ++ [res]).
Proof.
  induction reqs as [|[did' [op' pl']] reqs IH]; intros w did opcode payload w1 rs w2 res Hs Hd.
  - simpl in *. simplify_eq. by rewrite Hd.
  - cbn [serve app] in *. destruct (DispatchSysCall d w did' op' pl') as [[w3 res3]| | |]; try done.
    cbn [mbind outcome_bind] in *. destruct (serve w3 reqs) as [[w4 rs4]| | |] eqn:E; try done.
    cbn [mbind outcome_bind] in *. simplify_eq. by rewrite (IH _ _ _ _ _ _ _ _ E Hd).
Qed.

(** The requests and the responses of a history, and what it has for one session. *)
Definition asked (h : list served) : list (DID * (Z * list byte)) :=
  (fun x => (from_DID x, (exchange x).1)) <$> h.
Definition given (h : list served) : list IpcResponse := (fun x => (exchange x).2) <$> h.
Definition of_session p (h : list served) : list entry :=
  exchange <$> filter (fun x => by_session x = p) h.

Lemma of_session_snoc p h x :
  of_session p (h ++ [x]) = of_session p h ++ (if decide (by_session x = p) then [exchange x] else []).
Proof.
  unfold of_session. rewrite filter_app, fmap_app. f_equal. rewrite filter_cons, filter_nil.
  by case_decide.
Qed.

(** What the requests of a log look like, and where a session's requests come from. *)
Record history_ok w D (h : list served) : Prop := {
  ho_serve : serve w (asked h) = Ret (world (mgr D), given h);
  ho_log p : log_of (log D) p = of_session p h;
  ho_from : Forall (fun x => dids (mgr D) !! by_session x = Some (from_DID x)) h;
}.

Lemma history_exists w D : daemon_reachable d w D -> exists h, history_ok w D h.
Proof.
  induction 1 as [|D e D' HD [h [H1 H2 H3]] He Hs]; [by exists []; constructor|].
  pose proof (daemon_step_mgr _ _ _ _ Hs) as [Hm _].
  assert (Forall (fun x => dids (mgr D') !! by_session x = Some (from_DID x)) h) as H3'.
  { eapply Forall_impl; [exact H3|]. intros x Hx. eapply lookup_weaken; [exact Hx|]. by eapply dids_step. }
  destruct (dispatch_step _ _ _ _ _ HD Hs)
    as [[Hw HL]|(t & p & opcode & payload & o & w' & res & _ & Ho & Hd & Hw & HL)].
  - exists h. constructor; [by rewrite Hw|by rewrite HL|done].
  - exists (h ++ [mkServed p (s_DID o) (opcode, payload, res)]). constructor.
    + rewrite Hw. unfold asked, given. rewrite !fmap_app. by apply serve_snoc with (world (mgr D)).
    + intros q. rewrite HL, log_of_insert, of_session_snoc. simpl.
      case_decide; [subst q; by rewrite H2|by rewrite app_nil_r].
    + apply Forall_app. split; [done|]. apply Forall_singleton. simpl.
      eapply lookup_weaken; [by apply (lookup_dids (mgr D))|]. by eapply dids_step.
Qed.


(** ** Requests and answers of one application *)

(** The read loop hands on well-formed requests only. *)
Definition controls_ok s : Prop :=
  map_Forall (fun _ c => match c with
    | PReadControl _ opcode payload => frame_ok (opcode, payload) | _ => True end) (threads s).

Lemma controls_ok_reachable w s : reachable w s -> controls_ok s.
Proof.
  induction 1 as [|s e s' _ IH Hs]; [intros t c Ht; simpl in Ht; by rewrite lookup_empty in Ht|].
  unfold controls_ok in *. step_cases Hs; sm_simpl;
    repeat first [apply map_Forall_insert_2 | apply map_Forall_delete]; try done.
  by match goal with H : readPacket _ = _ |- _ => apply readPacket_Ret in H as [? _] end.
Qed.

(** A request and the dispatcher's response to it, for a session. *)
Definition entry_ok (did : DID) (x : entry) : Prop :=
  frame_ok x.1 /\ Opcode x.2 = x.1.1 /\ resp_DID x.2 = did /\
  exists w w', DispatchSysCall d w did x.1.1 x.1.2 = Ret (w', x.2).

Lemma dispatch_names w did opcode payload w' res :
  DispatchSysCall d w did opcode payload = Ret (w', res) -> Opcode res = opcode /\ resp_DID res = did.
Proof.
  unfold DispatchSysCall. destruct (lookup_syscall d opcode) as [desc|]; [|by intros [= <- <-]].
  destruct (Handler desc) as [handler|]; [|done].
  destruct (handler w did payload) as [[[? ?] ?]| | |]; try done. by intros [= <- <-].
Qed.

Lemma entries_ok_reachable w D p o :
  daemon_reachable d w D -> heap (mgr D) !! p = Some o ->
  Forall (entry_ok (s_DID o)) (log_of (log D) p).
Proof.
  intros HD Ho. apply lookup_dids in Ho. revert Ho. generalize (s_DID o). clear o.
  assert (Forall (fun x => exists did, dids (mgr D) !! p = Some did /\ entry_ok did x)
    (log_of (log D) p)) as HF.
  2:{ intros did Hd. eapply Forall_impl; [exact HF|]. intros x (did' & Hd' & Hx). simpl in Hd'. congruence. }
  induction HD as [|D e D' HD IH He Hs]; [by constructor|].
  pose proof (daemon_step_mgr _ _ _ _ Hs) as [Hm _].
  assert (forall q did, dids (mgr D) !! q = Some did -> dids (mgr D') !! q = Some did) as Hmono.
  { intros q did Hq. eapply lookup_weaken; [exact Hq|]. by eapply dids_step. }
  assert (Forall (fun x => exists did, dids (mgr D') !! p = Some did /\ entry_ok did x)
    (log_of (log D) p)) as IH'.
  { eapply Forall_impl; [exact IH|]. intros x (did & Hd & Hx). eauto. }
  destruct (dispatch_step _ _ _ _ _ HD Hs)
    as [[_ ->]|(t & q & opcode & payload & o & w' & res & Ht & Ho & Hd & _ & ->)]; [done|].
  rewrite log_of_insert. case_decide; [subst q|done]. apply Forall_app. split; [done|].
  apply Forall_singleton. exists (s_DID o). split; [by apply Hmono, lookup_dids|].
  pose proof (controls_ok_reachable w _ (daemon_mgr_reachable _ _ _ HD) _ _ Ht).
  destruct (dispatch_names _ _ _ _ _ _ Hd). split_and!; eauto.
Qed.

(** C2. Every application gets the answers to its own requests, in order, and nothing
    that was not meant for it. In every interleaving there is a list of exchanges of the
    session such that its requests are the first frames that the application sent, and
    each response is the dispatcher's to its request under the session's own identifier
    and names the request's opcode. The bytes on the connection are a prefix of the frames
    of a list of packets; those that are answers are the first responses, in the order of
    the requests, and every other one was given to [SendToLocal] for this session. *)
Theorem answers_in_order I w D p o k :
  dispatches d I -> I w -> daemon_reachable d w D -> registrations (mgr D) < 2 ^ 32 ->
  heap (mgr D) !! p = Some o -> conns (mgr D) !! s_Conn o = Some k ->
  exists bytes exchanges (packets : list (origin * outboundPacket)),
    sent D !! s_Conn o = Some bytes /\
    concat (requestFrame <$> exchanges.*1) `prefix_of` bytes /\
    Forall (entry_ok (s_DID o)) exchanges /\
    written (c_writer k) `prefix_of` concat (packetFrame <$> packets.*2) /\
    replies packets `prefix_of`
      ((fun x => mkPacket x.1.1 (StatusCode x.2) (Payload x.2)) <$> exchanges) /\
    Forall (fun x => x.1 = Push -> (s_DID o, x.2) ∈ offered D) packets.
Proof.
  intros Hdisp Hw HD Hn Ho Hk. pose proof (daemon_mgr_reachable _ _ _ HD) as Hr.
  destruct (ro_prefix _ _ _ (requests_ok_reachable d I w D Hdisp Hw HD Hn) p (s_Conn o))
    as (bytes & Hb & Hreq); [by apply lookup_sconn|].
  pose proof (entries_ok_reachable w D p o HD Ho) as Hent.
  pose proof (flow_ok_reachable d w D p HD) as Hflow. unfold flow_ok in Hflow. rewrite Ho in Hflow.
  destruct Hflow as [Hacc Hpush].
  exists bytes, (log_of (log D) p), (log_of (flow D) p). split_and!; [done..| | |done].
  - rewrite <- Hacc. destruct (objects_ok_reachable w _ Hr) as [_ Hobj].
    destruct (Hobj _ _ Ho) as (_ & _ & ->). fold (frames (taken o ++ outbound o)). rewrite frames_app.
    eapply prefix_app_r, wo_prefix; [by eapply wire_ok_reachable|..].
    + unfold takens. by rewrite lookup_fmap, Ho.
    + unfold wires. by rewrite lookup_fmap, Hk.
  - replace (_ <$> _) with (answers (log_of (log D) p)).
    { by apply (ao_prefix (mgr D) (log D) (flow D)), (answers_ok_reachable d I w). }
    apply list_fmap_ext. intros i x Hx. rewrite Forall_lookup in Hent.
    destruct (Hent _ _ Hx) as (_ & <- & _). done.
Qed.

(** ** A request that arrives is answered *)

(** A session with nothing to do: both its loops are at their select, nothing is queued,
    and the connection is open and takes what is written. *)
Record idle s p (o : SessionState) (k : Conn) (tr tw : nat) : Prop := {
  id_callback : onControl s = Some (controlCallback d);
  id_running : panicked s = false /\ ctxDone s = false;
  id_table : sessions s !! s_DID o = Some p;
  id_object : heap s !! p = Some o;
  id_open : isClosed o = false /\ chanClosed o = false;
  id_queue : outbound o = [];
  id_conn : conns s !! s_Conn o = Some k;
  id_alive : c_closed k = false /\ room (c_writer k) = None;
  id_read : threads s !! tr = Some (PReadTop p);
  id_write : threads s !! tw = Some (PWriteTop p);
}.

(** The loops of the session, one after the other. *)
Definition turn (tr tw : nat) : list (event W) :=
  replicate 7 (ERun tr false) ++ replicate 2 (ERun tw false).

(** One request: it is read, dispatched, queued and written. *)
Lemma turn_answers s p o k tr tw req rest w' res :
  idle s p o k tr tw -> frame_ok req -> stream (c_reader k) = requestFrame req ++ rest ->
  DispatchSysCall d (world s) (s_DID o) req.1 req.2 = Ret (w', res) ->
  zlen (Payload res) <= maxPacketSize ->
  exists s' o' k', run (turn tr tw) s = Some s' /\ idle s' p o' k' tr tw /\ s_DID o' = s_DID o /\
    world s' = w' /\ stream (c_reader k') = rest /\
    written (c_writer k') = written (c_writer k) ++ packetFrame (answer res).
Proof.
  intros [Hcb [Hp Hctx] Htab Ho [Hcl Hch] Hq Hk [Hkc Hroom] Htr Htw] Hreq Hstr Hd Hlen.
  assert (tr <> tw) as Hne by congruence.
  destruct (readPacket_frame _ _ _ Hreq Hstr) as (r' & Hread & Hr' & _).
  destruct req as [opcode payload]. destruct (c_writer k) as [wr room0] eqn:Hwk. simpl in Hroom. subst room0.
  unfold turn. cbn [replicate app].
  erewrite run_step; [|done|done|cbn [run_thread]; unfold do_read_top; by rewrite Ho, Hctx].
  erewrite run_step; [|done|apply lookup_insert_eq|cbn [run_thread]; unfold do_read_packet; sm_simpl;
    rewrite Ho, Hk, Hkc; by rewrite Hread].
  erewrite run_step; [|done|apply lookup_insert_eq|cbn [run_thread]; unfold do_read_control; sm_simpl;
    rewrite Ho, Hcb; unfold controlCallback; by rewrite Hd].
  erewrite run_step; [|done|apply lookup_insert_eq|cbn [run_thread do_read_calls start_call]; done].
  erewrite run_step; [|done|apply lookup_insert_eq|cbn [run_thread]; unfold do_send; sm_simpl;
    by rewrite Htab].
  erewrite run_step; [|done|apply lookup_insert_eq|cbn [run_thread]; unfold do_send_locked; sm_simpl;
    rewrite Ho, Hcl, Hch, Hq; done].
  erewrite run_step; [|done|apply lookup_insert_eq|cbn [run_thread do_read_calls start_call]; done].
  cbn [finish]. match goal with |- context [run _ ?x] => set (s1 := x) end.
  assert (threads s1 !! tw = Some (PWriteTop p)) as Htw1
    by (unfold s1; sm_simpl; by rewrite !lookup_insert_ne).
  erewrite run_step; [|done|exact Htw1|cbn [run_thread]; unfold do_write_top, s1; sm_simpl;
    rewrite lookup_insert_eq, andb_false_r; done].
  erewrite run_step; [|done|apply lookup_insert_eq|cbn [run_thread]; unfold do_write_packet, s1; sm_simpl;
    rewrite lookup_insert_eq; sm_simpl; rewrite lookup_insert_eq; sm_simpl; rewrite Hwk;
    rewrite writePacket_unlimited by done; done].
  cbn [run]. eexists _, (with_queue o [] (accepted o ++ [answer res]) (taken o ++ [answer res])),
    (mkConn r' (mkWriter (wr ++ packetFrame (answer res)) None) false).
  split; [done|]. split_and!; [|done..]. constructor; unfold s1; sm_simpl; try done.
  - by rewrite lookup_insert_eq.
  - by rewrite lookup_insert_eq.
  - rewrite lookup_insert_ne by done. rewrite !lookup_insert_ne by done. by rewrite lookup_insert_eq.
  - by rewrite lookup_insert_eq.
Qed.


End properties.
(** ** The default system calls *)

Section default_daemon.
Context {W : Type} `{Ed25519}.
Context (km : W -> KeyManager.KeyManager) (egress : IEgress W) (d : Dispatcher.Dispatcher W).
Context (Hd : RegisterDefaultHandlers (Some NewDispatcher) (Some km) (Some egress) = (Some d, None)).

(** The registered generators come back, and the egress does not change that. *)
Definition services_ok (I : W -> Prop) : Prop :=
  (forall w version, I w -> returns (KeyManager.GenerateKey (km w) version)) /\
  (forall w did data, I w -> I (RouteToNetwork egress w did data).1).

Definition default_status (status : Z) : Prop :=
  status ∈ [Success; ErrInvalidArgs; ErrUnknownOpcode; ErrInvalidKey; ErrInternalDaemon].

Lemma default_dispatch I w did opcode payload :
  services_ok I -> I w ->
  exists w' res, DispatchSysCall d w did opcode payload = Ret (w', res) /\ I w' /\
    default_status (StatusCode res).
Proof.
  intros [Hgen Hegress] Hw. unfold DispatchSysCall, default_status.
  rewrite (default_lookup _ _ _ Hd). case_decide; [|case_decide].
  - cbn [Handler]. unfold MakeEgressRouteHandler.
    destruct (ReadBytesParam_cases payload) as [(p & r & _ & _ & ->)|[_ ->]]; go_bind;
      cbn [Z.eqb negb Success ErrInvalidArgs].
    + specialize (Hegress w did p Hw).
      destruct (RouteToNetwork egress w did p) as [w' [err|]]; go_bind;
        eexists _, _; (split; [done|]); (split; [done|]); simpl; set_solver.
    + eexists _, _. split; [done|]. split; [done|]. simpl. set_solver.
  - cbn [Handler]. unfold MakeGetInviteKeyHandler.
    destruct (requestedVersion_returns payload) as (version & -> & _). go_bind.
    specialize (Hgen w version Hw).
    destruct (KeyManager.GenerateKey (km w) version); try done; go_bind;
      eexists _, _; (split; [done|]); (split; [done|]); simpl; set_solver.
  - eexists _, _. split; [done|]. split; [done|]. simpl. set_solver.
Qed.

Lemma default_dispatches I : services_ok I -> dispatches d I.
Proof.
  intros HI w did opcode payload Hw.
  by destruct (default_dispatch I w did opcode payload HI Hw) as (w' & res & -> & Hw' & _).
Qed.


(** C7. An application that asks the daemon for an invite key gets one that other nodes
    accept. When the request reaches an idle session and the manager has a well-formed
    generator, the session's two loops answer it with success; the bytes that the
    application gets are the frame of a key, from which the manager of another node reads
    this node's identity and address. This holds for addresses of at most 65354 bytes:
    the frame of a longer key does not fit. *)
Theorem invite_over_ipc `{!Ed25519Laws} s p o k tr tw payload rest identity addr priv :
  idle d s p o k tr tw -> frame_ok (OpcodeGetInviteKey, payload) -> requestedVersion payload = Ret 0 ->
  stream (c_reader k) = requestFrame (OpcodeGetInviteKey, payload) ++ rest ->
  KeyManager.generatorList (km (world s)) !! KeyManager.v1keytype =
    Some (KeyManager.GenV1 (KeyV1.NewKeyGeneratorV1 (Some identity) addr priv)) ->
  addr <> [] -> zlen addr <= 65354 -> curve identity = X25519 ->
  zlen (publicKey identity) = 32 -> valid_private priv ->
  exists s' o' k' key, run (turn tr tw) s = Some s' /\ idle d s' p o' k' tr tw /\
    stream (c_reader k') = rest /\
    written (c_writer k') = written (c_writer k) ++ responseFrame OpcodeGetInviteKey Success key /\
    (KeyManager.ParseKey KeyManager.NewKeyManager key).2 = Ret (identity, addr).
Proof.
  intros Hid Hreq Hver Hstr Hgen Haddr Hsize Hcurve Hlen (seed & Hseed & ->).
  pose proof (invite_key_dispatched km egress d (world s) (s_DID o) payload identity addr seed Hd Hgen
    Haddr Hseed Hver) as Hdis.
  destruct (turn_answers d s p o k tr tw _ _ _ _ Hid Hreq Hstr Hdis)
    as (s' & o' & k' & Hrun & Hid' & _ & _ & Hrest & Hwr).
  { simpl. rewrite KeyV1.generated_length by done. unfold maxPacketSize. lia. }
  exists s', o', k', (KeyV1.generated_key identity addr seed).
  split_and!; [done..|by apply KeyManager.generated_parsed].
Qed.

End default_daemon.

End DaemonProperties.

(** ** A concrete run

    An application asks for an invite key and then uses an unknown opcode, as in the
    repository's integration test. *)

Module DaemonWitness.
Import Framing Abi Dispatcher ToyEd25519 DispatcherWitness SessionManager SessionInvariant SessionOnce.
Import Daemon DaemonInvariant DaemonRequests DaemonProperties.

Definition I0 (w : DispatcherWitness.world) : Prop := the_km w = the_km w0.

Lemma services0 : services_ok the_km egress I0.
Proof.
  split.
  - intros w version ->. unfold KeyManager.GenerateKey, w0. cbn [the_km].
    unfold KeyManager.RegisterGenerator. cbn [KeyManager.generatorList].
    rewrite lookup_insert. case_decide; [vm_compute; exact I|done].
  - intros w did [|b data] Hw; exact Hw.
Qed.

Definition dispatches0 : dispatches d0 I0 := default_dispatches the_km egress d0 d0_registered I0 services0.

(** The two requests, as the application sends them. *)
Definition requests0 : list (Z * list byte) := [(OpcodeGetInviteKey, []); (0x8888, [])].
Definition bytes0 : list byte := concat (requestFrame <$> requests0).

(** The application connects. *)
Definition connect : list (event DispatcherWitness.world) :=
  [ERegister (Some (mkReader [bytes0] EOF, None)); ERun 0 false].

Definition daemon_after (es : list (event DispatcherWitness.world)) : Daemon :=
  default (NewDaemon d0 w0) (daemon_run d0 es (NewDaemon d0 w0)).

Lemma daemon_after_reachable es :
  Forall daemon_event es -> daemon_reachable d0 w0 (daemon_after es).
Proof.
  intros Hes. unfold daemon_after.
  destruct (daemon_run d0 es (NewDaemon d0 w0)) as [D|] eqn:Hs; [|constructor].
  eapply daemon_run_reachable; [constructor|done..].
Qed.

(** Both requests are answered. *)
Definition exchange0 : list (event DispatcherWitness.world) := connect ++ turn 1 2 ++ turn 1 2.

Lemma exchange0_events : Forall daemon_event exchange0.
Proof. repeat constructor. Qed.


(** Between the two requests another part of the daemon sends a byte to the session. *)
Definition pushed0 : outboundPacket := mkPacket 7 0 [Byte.x2a].

Definition exchange1 : list (event DispatcherWitness.world) :=
  connect ++ turn 1 2 ++ ESend 1 pushed0 :: [ERun 3 false; ERun 3 false; ERun 2 false; ERun 2 false]
  ++ turn 1 2.

Lemma exchange1_events : Forall daemon_event exchange1.
Proof. repeat constructor. Qed.

(** The session after the run, and its connection. *)
Lemma answers_in_order_witness :
  exists o k, heap (mgr (daemon_after exchange1)) !! 0%nat = Some o /\
    conns (mgr (daemon_after exchange1)) !! s_Conn o = Some k /\
    length (written (c_writer k)) = 222%nat /\ offered (daemon_after exchange1) = [(1, pushed0)] /\
    exists exchanges (packets : list (origin * outboundPacket)),
      concat (requestFrame <$> exchanges.*1) `prefix_of` bytes0 /\
      written (c_writer k) `prefix_of` concat (packetFrame <$> packets.*2) /\
      replies packets `prefix_of`
        ((fun x => mkPacket x.1.1 (StatusCode x.2) (Payload x.2)) <$> exchanges).
Proof.
  eexists _, _. split; [vm_compute; reflexivity|]. split; [vm_compute; reflexivity|].
  split; [vm_compute; reflexivity|]. split; [vm_compute; reflexivity|].
  destruct (answers_in_order d0 I0 w0 (daemon_after exchange1) 0%nat _ _ dispatches0 eq_refl
    (daemon_after_reachable _ exchange1_events) ltac:(vm_compute; reflexivity)
    ltac:(vm_compute; reflexivity) ltac:(vm_compute; reflexivity))
    as (bytes & ex & packets & Hb & Hreq & _ & Hwr & Hrep & _).
  exists ex, packets. split; [|split; [exact Hwr|exact Hrep]].
  vm_compute in Hb. injection Hb as <-. exact Hreq.
Defined.

(** The session of the application, once it is connected. *)
Definition s0 : SM DispatcherWitness.world := mgr (daemon_after connect).
Definition o0 : SessionState := mkSession 1 0%nat [] false false OnceIdle [] [].
Definition k0 : Conn := mkConn (mkReader [bytes0] EOF) (mkWriter [] None) false.

(** What a sequential server gives. *)
Definition served0 : DispatcherWitness.world * list IpcResponse :=
  match serve d0 w0 (pair 1 <$> requests0) with Ret r => r | _ => (w0, []) end.

Lemma served0_small : Forall (fun res => zlen (Payload res) <= maxPacketSize) served0.2.
Proof.
  assert (forallb (fun res => zlen (Payload res) <=? maxPacketSize) served0.2 = true) as Hb
    by (vm_compute; reflexivity).
  rewrite forallb_forall in Hb. apply Forall_forall. intros res Hres.
  apply Z.leb_le, Hb. by apply list_elem_of_In.
Qed.


Lemma invite_over_ipc_witness :
  exists s' o' k' key, run (turn 1 2) s0 = Some s' /\ idle d0 s' 0 o' k' 1 2 /\
    written (c_writer k') = responseFrame OpcodeGetInviteKey Success key /\
    (KeyManager.ParseKey KeyManager.NewKeyManager key).2 = Ret (toy_identity, toy_addr).
Proof.
  destruct (invite_over_ipc the_km egress d0 d0_registered s0 0%nat o0 k0 1%nat 2%nat []
    (requestFrame (0x8888, [])) toy_identity toy_addr toy_priv)
    as (s' & o' & k' & key & Hrun & Hid & _ & Hwr & Hkey).
  - constructor; try (split; vm_compute; reflexivity); vm_compute; reflexivity.
  - split; [vm_compute; split; congruence|vm_compute; reflexivity].
  - vm_compute. reflexivity.
  - vm_compute. reflexivity.
  - vm_compute. reflexivity.
  - vm_compute. congruence.
  - vm_compute. congruence.
  - vm_compute. reflexivity.
  - vm_compute. reflexivity.
  - exact toy_priv_valid.
  - exists s', o', k', key. split; [exact Hrun|]. split; [exact Hid|]. split; [exact Hwr|exact Hkey].
Defined.


End DaemonWitness.
