(* ===== verification/IpcListener.v ===== *)
(** * IpcListener: the local socket or pipe

    Models [src/ipc/listener_unix.go], [src/ipc/listener_windows.go] and
    [src/ipc/listener.go]. Every method runs under the listener's lock, so that each is
    one step; [Accept] then waits on the listener that it found. A successful [Start]
    leaves a goroutine behind that stops the listener when the context of that [Start]
    is done. Listeners of the operating system are numbered; [opened] says which exist
    and whether they are closed. *)

From S2P Require Import Prelude Threads.

Inductive IpcError :=
| ErrAlreadyStarted
| ErrCleanup
| ErrListen
| ErrClose
| ErrListenerClosed
| ErrAccept.

(** ** Unix domain sockets *)

Module UnixListener.

(** The outcome of [os.Remove]. *)
Inductive removal := Removed | NotExist | RemoveFails.

Record UnixIpcListener := mkUnixIpcListener {
  socketPath : list byte;
  listener : option nat;
  closed : bool;
  opened : gmap nat bool;
  socketFile : bool;                   (* whether the socket file exists *)
  watchers : list nat;                 (* the contexts that the goroutines wait for *)
}.

(** [file]: whether there is a file at the path already. *)
Definition NewUnixIpcListener (path : list byte) (file : bool) : UnixIpcListener :=
  mkUnixIpcListener path None false ∅ file [].

Definition Start (ctx : nat) (remove : removal) (listenOk : bool) (l : UnixIpcListener)
    : UnixIpcListener * option IpcError :=
  match listener l with
  | Some _ => (l, Some ErrAlreadyStarted)
  | None =>
      match remove with
      | RemoveFails => (l, Some ErrCleanup)
      | Removed | NotExist =>
          if listenOk then
            let ln := fresh (dom (opened l)) in
            (mkUnixIpcListener (socketPath l) (Some ln) false (<[ln := false]> (opened l)) true
               (watchers l ++ [ctx]), None)
          else (mkUnixIpcListener (socketPath l) None (closed l) (opened l) false (watchers l), Some ErrListen)
      end
  end.

(** [Stop]: the close may report an error, and the removal of the file may fail. *)
Definition Stop (closeOk removeOk : bool) (l : UnixIpcListener) : UnixIpcListener * option IpcError :=
  match listener l with
  | None => (l, None)
  | Some ln =>
      (mkUnixIpcListener (socketPath l) None true (<[ln := true]> (opened l))
         (if removeOk then false else socketFile l) (watchers l),
       if closeOk then None else Some ErrClose)
  end.

(** [Accept]: the listener that it waits on, or the refusal. *)
Definition Accept (l : UnixIpcListener) : nat + IpcError :=
  match listener l with
  | Some ln => if closed l then inr ErrListenerClosed else inl ln
  | None => inr ErrListenerClosed
  end.

(** The wait on a listener: it fails once the listener is closed, and may fail before. *)
Definition AcceptWait {Conn} (l : UnixIpcListener) (ln : nat) (incoming : option Conn) : Conn + IpcError :=
  match opened l !! ln, incoming with
  | Some false, Some c => inl c
  | _, _ => inr ErrAccept
  end.

(** A goroutine of an earlier [Start] whose context is done stops the listener. *)
Definition watch (i : nat) (closeOk removeOk : bool) (l : UnixIpcListener) : UnixIpcListener :=
  let '(l, _) := Stop closeOk removeOk l in
  mkUnixIpcListener (socketPath l) (listener l) (closed l) (opened l) (socketFile l) (delete i (watchers l)).

Inductive event :=
| EStart (ctx : nat) (remove : removal) (listenOk : bool)
| EStop (closeOk removeOk : bool)
| EDone (i : nat) (closeOk removeOk : bool).

Definition step (e : event) (l : UnixIpcListener) : UnixIpcListener :=
  match e with
  | EStart ctx remove ok => (Start ctx remove ok l).1
  | EStop c r => (Stop c r l).1
  | EDone i c r => match watchers l !! i with Some _ => watch i c r l | None => l end
  end.

Definition run (es : list event) (l : UnixIpcListener) : UnixIpcListener := foldl (fun l e => step e l) l es.

(** The only open listener is the current one, and the closed flag is never up while
    there is one. *)
Record listener_ok (l : UnixIpcListener) : Prop := {
  lo_open ln : opened l !! ln = Some false <-> listener l = Some ln;
  lo_flag : is_Some (listener l) -> closed l = false;
}.

Lemma Stop_ok c r l : listener_ok l -> listener_ok (Stop c r l).1.
Proof.
  intros Hok. pose proof Hok as [H1 H2]. unfold Stop.
  destruct (listener l) as [ln|] eqn:Hl; [|done]. simpl.
  constructor; simpl; [|by intros [? ?]]. intros ln'. split; [|done]. intros Ho. lookup_cases Ho.
  apply H1 in Ho. congruence.
Qed.

Lemma listener_ok_step e l : listener_ok l -> listener_ok (step e l).
Proof.
  intros Hok. destruct e as [ctx rm ok|c r|i c r]; cbn [step]; [|by apply Stop_ok|].
  - pose proof Hok as [H1 H2]. unfold Start. destruct (listener l) as [ln|] eqn:Hl; [done|].
    assert (forall rm, rm <> RemoveFails -> listener_ok
      (if ok then (mkUnixIpcListener (socketPath l) (Some (fresh (dom (opened l)))) false
         (<[fresh (dom (opened l)) := false]> (opened l)) true (watchers l ++ [ctx]), None)
       else (mkUnixIpcListener (socketPath l) None (closed l) (opened l) false (watchers l), Some ErrListen)).1)
      as Hstart; [|by destruct rm; [apply (Hstart Removed)|apply (Hstart NotExist)|]].
    intros _ _. destruct ok; simpl; (constructor; simpl; [|done || by intros [? ?]]); [|done].
    intros ln. split.
    + intros Ho. lookup_cases Ho; [done|]. apply H1 in Ho. done.
    + intros [= <-]. apply lookup_insert_eq.
  - destruct (watchers l !! i); [|done]. unfold watch. pose proof (Stop_ok c r l Hok) as Hok'.
    destruct (Stop c r l) as [l' e]. destruct Hok' as [H1 H2]. by constructor.
Qed.

Lemma listener_ok_run path file es : listener_ok (run es (NewUnixIpcListener path file)).
Proof.
  unfold run. induction es as [|e es IH] using rev_ind.
  - constructor; simpl; [|by intros [? ?]]. intros ln. by rewrite lookup_empty.
  - rewrite foldl_app. simpl. by apply listener_ok_step.
Qed.

Lemma unix_accept_ok l ln : listener_ok l -> opened l !! ln = Some false <-> Accept l = inl ln.
Proof.
  intros [H1 H2]. rewrite H1. unfold Accept. destruct (listener l) as [ln'|] eqn:Hl; [|done].
  rewrite H2 by eauto. split; congruence.
Qed.

Lemma unix_stop_refuses c r l : Accept (Stop c r l).1 = inr ErrListenerClosed.
Proof. unfold Stop. destruct (listener l) eqn:Hl; unfold Accept; simpl; [done|]. by rewrite Hl. Qed.

(** The goroutine of a [Start] outlives the [Stop] that follows: when the context of
    the first [Start] is cancelled after the listener was started again with another
    context, it stops the second listener. *)
Theorem unix_stale_context_stops path file :
  let l := run [EStart 0 NotExist true; EStop true true; EStart 1 NotExist true]
             (NewUnixIpcListener path file) in
  Accept l = inl 1%nat /\ watchers l = [0; 1]%nat /\
  Accept (step (EDone 0 true true) l) = inr ErrListenerClosed.
Proof. destruct file; vm_compute; auto. Qed.

(** A [Start] that fails to listen has removed the file at the path, whoever made it. *)
Lemma unix_failed_start_removes ctx rm l :
  listener l = None -> rm <> RemoveFails ->
  socketFile (Start ctx rm false l).1 = false /\ (Start ctx rm false l).2 = Some ErrListen.
Proof. intros Hl Hrm. unfold Start. rewrite Hl. by destruct rm. Qed.

End UnixListener.

(** ** Windows named pipes *)

Module WindowsListener.

Record WindowsIpcListener := mkWindowsIpcListener {
  pipePath : list byte;
  listener : option nat;
  closed : bool;
  opened : gmap nat bool;
  watchers : list nat;
}.

Definition NewWindowsIpcListener (path : list byte) : WindowsIpcListener :=
  mkWindowsIpcListener path None false ∅ [].

Definition Start (ctx : nat) (listenOk : bool) (l : WindowsIpcListener)
    : WindowsIpcListener * option IpcError :=
  match listener l with
  | Some _ => (l, Some ErrAlreadyStarted)
  | None =>
      if listenOk then
        let ln := fresh (dom (opened l)) in
        (mkWindowsIpcListener (pipePath l) (Some ln) false (<[ln := false]> (opened l)) (watchers l ++ [ctx]), None)
      else (l, Some ErrListen)
  end.

Definition Stop (closeOk : bool) (l : WindowsIpcListener) : WindowsIpcListener * option IpcError :=
  match listener l with
  | None => (l, None)
  | Some ln =>
      (mkWindowsIpcListener (pipePath l) None true (<[ln := true]> (opened l)) (watchers l),
       if closeOk then None else Some ErrClose)
  end.

Definition Accept (l : WindowsIpcListener) : nat + IpcError :=
  match listener l with
  | Some ln => if closed l then inr ErrListenerClosed else inl ln
  | None => inr ErrListenerClosed
  end.

(** A goroutine of an earlier [Start] whose context is done stops the listener. *)
Definition watch (i : nat) (closeOk : bool) (l : WindowsIpcListener) : WindowsIpcListener :=
  let '(l, _) := Stop closeOk l in
  mkWindowsIpcListener (pipePath l) (listener l) (closed l) (opened l) (delete i (watchers l)).

Inductive event := EStart (ctx : nat) (listenOk : bool) | EStop (closeOk : bool) | EDone (i : nat) (closeOk : bool).

Definition step (e : event) (l : WindowsIpcListener) : WindowsIpcListener :=
  match e with
  | EStart ctx ok => (Start ctx ok l).1
  | EStop c => (Stop c l).1
  | EDone i c => match watchers l !! i with Some _ => watch i c l | None => l end
  end.

Definition run (es : list event) (l : WindowsIpcListener) : WindowsIpcListener :=
  foldl (fun l e => step e l) l es.

Record listener_ok (l : WindowsIpcListener) : Prop := {
  lo_open ln : opened l !! ln = Some false <-> listener l = Some ln;
  lo_flag : is_Some (listener l) -> closed l = false;
}.

Lemma pipe_Stop_ok c l : listener_ok l -> listener_ok (Stop c l).1.
Proof.
  intros Hok. pose proof Hok as [H1 H2]. unfold Stop.
  destruct (listener l) as [ln|] eqn:Hl; [|done]. simpl.
  constructor; simpl; [|by intros [? ?]]. intros ln'. split; [|done]. intros Ho. lookup_cases Ho.
  apply H1 in Ho. congruence.
Qed.

Lemma pipe_listener_ok_step e l : listener_ok l -> listener_ok (step e l).
Proof.
  intros Hok. destruct e as [ctx ok|c|i c]; cbn [step]; [|by apply pipe_Stop_ok|].
  - pose proof Hok as [H1 H2]. unfold Start. destruct (listener l) as [ln|] eqn:Hl; [done|].
    destruct ok; simpl; [|done]. constructor; simpl; [|done].
    intros ln. split.
    + intros Ho. lookup_cases Ho; [done|]. apply H1 in Ho. done.
    + intros [= <-]. apply lookup_insert_eq.
  - destruct (watchers l !! i); [|done]. unfold watch. pose proof (pipe_Stop_ok c l Hok) as Hok'.
    destruct (Stop c l) as [l' e]. destruct Hok' as [H1 H2]. by constructor.
Qed.

Lemma pipe_listener_ok_run path es : listener_ok (run es (NewWindowsIpcListener path)).
Proof.
  unfold run. induction es as [|e es IH] using rev_ind.
  - constructor; simpl; [|by intros [? ?]]. intros ln. by rewrite lookup_empty.
  - rewrite foldl_app. simpl. by apply pipe_listener_ok_step.
Qed.

Lemma pipe_accept_ok l ln : listener_ok l -> opened l !! ln = Some false <-> Accept l = inl ln.
Proof.
  intros [H1 H2]. rewrite H1. unfold Accept. destruct (listener l) as [ln'|] eqn:Hl; [|done].
  rewrite H2 by eauto. split; congruence.
Qed.

Lemma pipe_stop_refuses c l : Accept (Stop c l).1 = inr ErrListenerClosed.
Proof. unfold Stop. destruct (listener l) eqn:Hl; unfold Accept; simpl; [done|]. by rewrite Hl. Qed.

End WindowsListener.

(** ** The platform's listener *)

(** [interfaces.IIpcListener], with what the operating system decides in a call: whether
    removing the file, listening and closing succeed. [lost] is the end of the context of
    an earlier [Start]. *)
Record OsOutcome := mkOsOutcome { remove : UnixListener.removal; listenOk : bool; closeOk : bool; removeOk : bool }.

Class IIpcListener (L : Type) := {
  Start : nat -> OsOutcome -> L -> L * option IpcError;
  Stop : OsOutcome -> L -> L * option IpcError;
  Accept : L -> nat + IpcError;
  lost : nat -> OsOutcome -> L -> L;
  opened : L -> gmap nat bool;
}.

(** What a client relies on. *)
Class IIpcListenerLaws (L : Type) `{IIpcListener L} := {
  listener_inv : L -> Prop;
  start_keeps ctx os l : listener_inv l -> listener_inv (Start ctx os l).1;
  stop_keeps os l : listener_inv l -> listener_inv (Stop os l).1;
  lost_keeps i os l : listener_inv l -> listener_inv (lost i os l);
  accept_current l ln : listener_inv l -> opened l !! ln = Some false <-> Accept l = inl ln;
  stop_refuses os l : Accept (Stop os l).1 = inr ErrListenerClosed;
}.

#[export] Instance unix_listener : IIpcListener UnixListener.UnixIpcListener := {|
  Start ctx os := UnixListener.Start ctx (remove os) (listenOk os);
  Stop os := UnixListener.Stop (closeOk os) (removeOk os);
  Accept := UnixListener.Accept;
  lost i os := UnixListener.step (UnixListener.EDone i (closeOk os) (removeOk os));
  opened := UnixListener.opened;
|}.

#[export] Instance windows_listener : IIpcListener WindowsListener.WindowsIpcListener := {|
  Start ctx os := WindowsListener.Start ctx (listenOk os);
  Stop os := WindowsListener.Stop (closeOk os);
  Accept := WindowsListener.Accept;
  lost i os := WindowsListener.step (WindowsListener.EDone i (closeOk os));
  opened := WindowsListener.opened;
|}.

#[export] Instance unix_listener_laws : IIpcListenerLaws UnixListener.UnixIpcListener.
Proof.
  refine {| listener_inv := UnixListener.listener_ok |}.
  - intros ctx os l. apply (UnixListener.listener_ok_step (UnixListener.EStart ctx (remove os) (listenOk os))).
  - intros os l. apply UnixListener.Stop_ok.
  - intros i os l. apply UnixListener.listener_ok_step.
  - intros l ln. apply UnixListener.unix_accept_ok.
  - intros os l. apply UnixListener.unix_stop_refuses.
Defined.

#[export] Instance windows_listener_laws : IIpcListenerLaws WindowsListener.WindowsIpcListener.
Proof.
  refine {| listener_inv := WindowsListener.listener_ok |}.
  - intros ctx os l. apply (WindowsListener.pipe_listener_ok_step (WindowsListener.EStart ctx (listenOk os))).
  - intros os l. apply WindowsListener.pipe_Stop_ok.
  - intros i os l. apply WindowsListener.pipe_listener_ok_step.
  - intros l ln. apply WindowsListener.pipe_accept_ok.
  - intros os l. apply WindowsListener.pipe_stop_refuses.
Defined.

Module PlatformListener.

(** The build tag selects the file, and with it [newPlatformListener]. *)
Inductive platform := Unix | Windows.

(** A value of the interface: one of the two implementations. *)
Inductive AnyListener :=
| AsUnix (l : UnixListener.UnixIpcListener)
| AsWindows (l : WindowsListener.WindowsIpcListener).

(** [file]: whether there is a file at the address. *)
Definition newPlatformListener (os : platform) (address : list byte) (file : bool) : AnyListener :=
  match os with
  | Unix => AsUnix (UnixListener.NewUnixIpcListener address file)
  | Windows => AsWindows (WindowsListener.NewWindowsIpcListener address)
  end.

Definition NewIpcListener (os : platform) (address : list byte) (file : bool) : AnyListener :=
  newPlatformListener os address file.

(** A method call on the interface runs the method of the implementation. *)
#[export] Instance any_listener : IIpcListener AnyListener := {|
  Start ctx os l := match l with
    | AsUnix l => let '(l, e) := Start ctx os l in (AsUnix l, e)
    | AsWindows l => let '(l, e) := Start ctx os l in (AsWindows l, e)
    end;
  Stop os l := match l with
    | AsUnix l => let '(l, e) := Stop os l in (AsUnix l, e)
    | AsWindows l => let '(l, e) := Stop os l in (AsWindows l, e)
    end;
  Accept l := match l with AsUnix l => Accept l | AsWindows l => Accept l end;
  lost i os l := match l with AsUnix l => AsUnix (lost i os l) | AsWindows l => AsWindows (lost i os l) end;
  opened l := match l with AsUnix l => opened l | AsWindows l => opened l end;
|}.

#[export] Instance any_listener_laws : IIpcListenerLaws AnyListener.
Proof.
  refine {| listener_inv l := match l with AsUnix l => listener_inv l | AsWindows l => listener_inv l end |}.
  - intros ctx os [l|l] Hl; simpl; [pose proof (start_keeps ctx os l Hl) as Hk; simpl in Hk;
      by destruct (UnixListener.Start ctx (remove os) (listenOk os) l)|
      pose proof (start_keeps ctx os l Hl) as Hk; simpl in Hk; by destruct (WindowsListener.Start ctx (listenOk os) l)].
  - intros os [l|l] Hl; simpl; [pose proof (stop_keeps os l Hl) as Hk; simpl in Hk;
      by destruct (UnixListener.Stop (closeOk os) (removeOk os) l)|
      pose proof (stop_keeps os l Hl) as Hk; simpl in Hk; by destruct (WindowsListener.Stop (closeOk os) l)].
  - intros i os [l|l] Hl; by apply lost_keeps.
  - intros [l|l] ln Hl; by apply (accept_current l).
  - intros os [l|l]; simpl; [pose proof (stop_refuses os l) as Hk; simpl in Hk;
      by destruct (UnixListener.Stop (closeOk os) (removeOk os) l)|
      pose proof (stop_refuses os l) as Hk; simpl in Hk; by destruct (WindowsListener.Stop (closeOk os) l)].
Defined.

(** Calls by a client, and contexts that end. *)
Inductive event :=
| CallStart (ctx : nat) (os : OsOutcome)
| CallStop (os : OsOutcome)
| ContextDone (i : nat) (os : OsOutcome).

Definition step {L} `{IIpcListener L} (e : event) (l : L) : L :=
  match e with
  | CallStart ctx os => (Start ctx os l).1
  | CallStop os => (Stop os l).1
  | ContextDone i os => lost i os l
  end.

Definition run {L} `{IIpcListener L} (es : list event) (l : L) : L := foldl (fun l e => step e l) l es.

(** For any listener that keeps the laws. *)
Lemma run_inv {L} `{IIpcListenerLaws L} es (l : L) : listener_inv l -> listener_inv (run es l).
Proof.
  intros Hl. unfold run. induction es as [|e es IH] using rev_ind; [done|]. rewrite foldl_app. simpl.
  destruct e; [by apply start_keeps|by apply stop_keeps|by apply lost_keeps].
Qed.

(** C39. The listener that [NewIpcListener] gives, on either platform and after any calls
    and ends of contexts: an operating-system listener is open exactly when [Accept]
    waits on it, so that none is lost, and after [Stop] nothing is accepted. *)
Theorem platform_accept_current os address file es ln :
  let l := run es (NewIpcListener os address file) in
  (opened l !! ln = Some false <-> Accept l = inl ln) /\
  (forall outcome, Accept (Stop outcome l).1 = inr ErrListenerClosed).
Proof.
  intros l. split; [|intros outcome; apply stop_refuses]. apply accept_current, run_inv.
  destruct os; simpl.
  - apply (UnixListener.listener_ok_run address file []).
  - apply (WindowsListener.pipe_listener_ok_run address []).
Qed.

End PlatformListener.
