(* ===== verification/KeyRace.v ===== *)
(** * KeyRace: the key manager without a lock

    [src/invitekey/key_manager.go] has no lock, and the handlers that use it run in the
    read loops of all sessions. Here its operations are goroutines whose steps are the
    accesses to the three maps. Two accesses to a map that can happen next, one of them
    a write, are a data race; Go's runtime may end the program on it.

    Calls that only read never race, and then the concurrent calls return what the
    functions of [KeyManager] do. [ParseKey] writes when the version 1 parser was not
    registered: two such calls race. *)

From S2P Require Import Prelude Threads Base64 InviteKey KeyManager.

Module KeyRace.
Section race.
Context `{Ed25519}.
Import KeyManager.

Inductive pc :=
(* ParseKey: before [prefixToVersion], before [ecdhParserList], before its update *)
| KPrefix (keyStr : list byte)
| KParser (keyStr : list byte) (version : Z)
| KStore (keyStr : list byte) (version : Z)
(* GenerateKey, before [generatorList] *)
| KGenerate (version : Z)
(* RegisterGenerator *)
| KSetGenerator (version : Z) (generator : IKeyGenerator)
(* RegisterParser, before its two updates *)
| KSetParser (version : Z) (prefix : list byte) (parser : IKeyParser)
| KSetPrefix (version : Z) (prefix : list byte)
(* returned *)
| KParsed (keyStr : list byte) (res : outcome KeyError (PublicKey * list byte))
| KGenerated (version : Z) (res : outcome KeyError (list byte))
| KRegistered.

Inductive map_name := Generators | Parsers | Prefixes.

(** The access that the next step makes: to which map, and whether it writes. *)
Definition access (c : pc) : option (map_name * bool) :=
  match c with
  | KPrefix _ => Some (Prefixes, false)
  | KParser _ _ => Some (Parsers, false)
  | KStore _ _ => Some (Parsers, true)
  | KGenerate _ => Some (Generators, false)
  | KSetGenerator _ _ => Some (Generators, true)
  | KSetParser _ _ _ => Some (Parsers, true)
  | KSetPrefix _ _ => Some (Prefixes, true)
  | KParsed _ _ | KGenerated _ _ | KRegistered => None
  end.

Record Shared := mkShared { km : KeyManager; threads : gmap nat pc }.

Definition start (m : KeyManager) : Shared := mkShared m ∅.

Definition race (s : Shared) : Prop :=
  exists t u c c' m b, t <> u /\ threads s !! t = Some c /\ threads s !! u = Some c' /\
    access c = Some (m, true) /\ access c' = Some (m, b).

Definition set_parser (version : Z) (parser : IKeyParser) (m : KeyManager) : KeyManager :=
  {| generatorList := generatorList m;
     ecdhParserList := <[version := parser]> (ecdhParserList m);
     prefixToVersion := prefixToVersion m |}.

Definition set_prefix (prefix : list byte) (version : Z) (m : KeyManager) : KeyManager :=
  {| generatorList := generatorList m; ecdhParserList := ecdhParserList m;
     prefixToVersion := <[prefix := version]> (prefixToVersion m) |}.

(** One access of a goroutine. *)
Definition advance (c : pc) (m : KeyManager) : option (pc * KeyManager) :=
  match c with
  | KPrefix keyStr =>
      Some (match cut keyStr dash with
            | None => KParsed keyStr (Fail MissingPrefixSeparator)
            | Some (prefix, _) =>
                match prefixToVersion m !! prefix with
                | None => KParsed keyStr (Fail (UnsupportedKeyPrefix prefix))
                | Some version => KParser keyStr version
                end
            end, m)
  | KParser keyStr version =>
      Some (match ecdhParserList m !! version with
            | Some parser => KParsed keyStr (callParse parser keyStr)
            | None => if negb (version =? v1keytype)
                      then KParsed keyStr (Fail (NoParserRegistered version))
                      else KStore keyStr version
            end, m)
  | KStore keyStr version =>
      let parser := ParV1 KeyV1.NewKeyParserV1 in
      Some (KParsed keyStr (callParse parser keyStr), set_parser version parser m)
  | KGenerate version => Some (KGenerated version (GenerateKey m version), m)
  | KSetGenerator version generator => Some (KRegistered, RegisterGenerator m version generator)
  | KSetParser version prefix parser => Some (KSetPrefix version prefix, set_parser version parser m)
  | KSetPrefix version prefix => Some (KRegistered, set_prefix prefix version m)
  | KParsed _ _ | KGenerated _ _ | KRegistered => None
  end.

(** What happens next: a goroutine accesses a map, or a call begins. *)
Inductive event :=
| ERun (t : nat)
| EParse (keyStr : list byte)
| EGenerate (version : Z)
| ERegisterGenerator (version : Z) (generator : IKeyGenerator)
| ERegisterParser (version : Z) (prefix : list byte) (parser : IKeyParser).

Definition begin (c : pc) (s : Shared) : Shared :=
  mkShared (km s) (<[fresh (dom (threads s)) := c]> (threads s)).

Definition step (e : event) (s : Shared) : option Shared :=
  match e with
  | ERun t =>
      c ← threads s !! t;
      '(c', m) ← advance c (km s);
      Some (mkShared m (<[t := c']> (threads s)))
  | EParse keyStr => Some (begin (KPrefix keyStr) s)
  | EGenerate version => Some (begin (KGenerate version) s)
  | ERegisterGenerator version generator => Some (begin (KSetGenerator version generator) s)
  | ERegisterParser version prefix parser => Some (begin (KSetParser version prefix parser) s)
  end.

Fixpoint run (es : list event) (s : Shared) : option Shared :=
  match es with
  | [] => Some s
  | e :: es => s' ← step e s; run es s'
  end.

Lemma run_move t es s c c' m' :
  threads s !! t = Some c -> advance c (km s) = Some (c', m') ->
  run (ERun t :: es) s = run es (mkShared m' (<[t := c']> (threads s))).
Proof. intros Ht Ha. cbn [run step]. rewrite Ht. cbn [mbind option_bind]. by rewrite Ha. Qed.

Lemma run_parse keyStr es s : run (EParse keyStr :: es) s = run es (begin (KPrefix keyStr) s).
Proof. done. Qed.

(** The steps of a call, when nobody else moves, are the function of [KeyManager]. *)
Lemma ParseKey_steps m keyStr :
  exists n s, run (EParse keyStr :: replicate n (ERun 0)) (start m) = Some s /\
    km s = (ParseKey m keyStr).1 /\ threads s !! 0%nat = Some (KParsed keyStr (ParseKey m keyStr).2).
Proof.
  unfold ParseKey. destruct (cut keyStr dash) as [[prefix rest]|] eqn:Hc;
    [destruct (prefixToVersion m !! prefix) as [version|] eqn:Hv;
     [destruct (ecdhParserList m !! version) as [parser|] eqn:Hp;
      [|destruct (negb (version =? v1keytype)) eqn:Hn]|]|].
  all: [> exists 2%nat | exists 2%nat | exists 3%nat | exists 1%nat | exists 1%nat].
  all: eexists; rewrite run_parse; cbn [replicate]; (split;
    [repeat (erewrite run_move; [|apply lookup_insert_eq|
       cbn [advance km begin start]; rewrite ?Hc, ?Hv, ?Hp, ?Hn; done]); done|]);
    (split; [done|apply lookup_insert_eq]).
Qed.

(** ** Calls that only read *)

(** Parsing, once the version 1 parser is registered, and generating. *)
Definition only_reads (m : KeyManager) (e : event) : Prop :=
  match e with
  | ERun _ | EGenerate _ => True
  | EParse _ => is_Some (ecdhParserList m !! v1keytype)
  | ERegisterGenerator _ _ | ERegisterParser _ _ _ => False
  end.

(** Where such calls are, and what those that have returned have returned. *)
Definition reads_ok (m : KeyManager) (c : pc) : Prop :=
  match c with
  | KPrefix _ => is_Some (ecdhParserList m !! v1keytype)
  | KParser keyStr version => is_Some (ecdhParserList m !! v1keytype) /\
      exists prefix rest, cut keyStr dash = Some (prefix, rest) /\
        prefixToVersion m !! prefix = Some version
  | KGenerate _ => True
  | KParsed keyStr res => res = parse_spec m keyStr
  | KGenerated version res => res = GenerateKey m version
  | _ => False
  end.

Lemma reads_ok_advance m c c' m' :
  reads_ok m c -> advance c m = Some (c', m') -> reads_ok m c' /\ m' = m.
Proof.
  destruct c; simpl; intros Hok Ha; try done; injection Ha as <- <-; try done.
  - split; [|done]. destruct (cut keyStr dash) as [[prefix rest]|] eqn:Hc;
      [destruct (prefixToVersion m !! prefix) as [version|] eqn:Hv|]; simpl.
    + by eauto.
    + unfold parse_spec, parser_for. by rewrite Hc, Hv.
    + unfold parse_spec. by rewrite Hc.
  - destruct Hok as (Hv1 & prefix & rest & Hc & Hv). split; [|done].
    destruct (ecdhParserList m !! version) as [parser|] eqn:Hp; simpl.
    + unfold parse_spec, parser_for. by rewrite Hc, Hv, Hp.
    + destruct (Z.eqb_spec version v1keytype) as [->|Hne]; simpl; [by destruct Hv1; congruence|].
      unfold parse_spec, parser_for. rewrite Hc, Hv, Hp.
      by rewrite (proj2 (Z.eqb_neq version v1keytype)).
Qed.

Lemma reads_ok_run m es : forall s s',
  km s = m -> map_Forall (fun _ => reads_ok m) (threads s) -> Forall (only_reads m) es ->
  run es s = Some s' -> km s' = m /\ map_Forall (fun _ => reads_ok m) (threads s').
Proof.
  induction es as [|e es IH]; intros s s' Hm Hok Hes Hr; simpl in Hr; [by simplify_eq|].
  apply Forall_cons in Hes as [He Hes]. destruct (step e s) as [s1|] eqn:Hs; [|done].
  assert (km s1 = m /\ map_Forall (fun _ => reads_ok m) (threads s1)) as [Hm1 Hok1]; [|by eapply IH].
  destruct e; simpl in Hs, He; try done; simplify_eq.
  - destruct (threads s !! t) as [c|] eqn:Ht; [|done]. simpl in Hs.
    destruct (advance c (km s)) as [[c' m']|] eqn:Ha; [|done]. simpl in Hs. simplify_eq. simpl.
    destruct (reads_ok_advance _ _ _ _ (Hok _ _ Ht) Ha) as [Hc' ->].
    split; [done|]. by apply map_Forall_insert_2.
  - split; [done|]. by apply map_Forall_insert_2.
  - split; [done|]. by apply map_Forall_insert_2.
Qed.

(** C36. Concurrent use of the key manager without registrations is safe once the version
    1 parser is registered: in every interleaving of parsing and generating there is no
    data race, the manager does not change, and every call that has returned gave what
    the specification of the manager gives. Generating alone is safe on any manager. *)
Theorem reads_never_race m es s :
  Forall (only_reads m) es -> run es (start m) = Some s ->
  (race s -> False) /\ km s = m /\
  (forall t keyStr res, threads s !! t = Some (KParsed keyStr res) -> res = parse_spec m keyStr) /\
  (forall t version res, threads s !! t = Some (KGenerated version res) -> res = GenerateKey m version).
Proof.
  intros Hes Hr. destruct (reads_ok_run m es (start m) s) as [Hm Hok]; [done| |done|done|].
  { intros t c Ht. simpl in Ht. by rewrite lookup_empty in Ht. }
  split_and!; [|done| |].
  - intros (t & u & c & c' & n & b & _ & Ht & _ & Hc & _). specialize (Hok _ _ Ht).
    destruct c; simpl in *; naive_solver.
  - intros t keyStr res Ht. by specialize (Hok _ _ Ht).
  - intros t version res Ht. by specialize (Hok _ _ Ht).
Qed.

(** C37. The first uses of the version 1 parser race: on a new manager two concurrent
    calls of [ParseKey] with version 1 keys can both be about to write the map of
    parsers. *)
Theorem first_parses_race key1 key2 rest1 rest2 :
  cut key1 dash = Some (bstr "gota1", rest1) -> cut key2 dash = Some (bstr "gota1", rest2) ->
  exists s, run [EParse key1; EParse key2; ERun 0; ERun 0; ERun 1; ERun 1] (start NewKeyManager) = Some s /\
    race s.
Proof.
  intros H1 H2. eexists. rewrite !run_parse. split.
  - repeat (erewrite run_move; [|reflexivity|cbn [advance km begin start]; rewrite ?H1, ?H2; reflexivity]).
    reflexivity.
  - exists 0%nat, 1%nat. eexists _, _, Parsers, true. split; [done|].
    split; [reflexivity|]. split; [reflexivity|]. done.
Qed.

End race.
End KeyRace.

Module KeyRaceWitness.
Import ToyEd25519 KeyManager KeyRace.

(** A manager with its parser and a generator registered. *)
Definition ready : KeyManager :=
  RegisterGenerator (RegisterParser NewKeyManager v1keytype (bstr "gota1") (ParV1 KeyV1.NewKeyParserV1))
    v1keytype (GenV1 (KeyV1.NewKeyGeneratorV1 (Some toy_identity) toy_addr toy_priv)).

(** Two calls of [ParseKey] and one of [GenerateKey], interleaved. *)
Definition readers : list event :=
  [EParse (bstr "gota1-a"); EGenerate 0; EParse (bstr "nokey"); ERun 0; ERun 2; ERun 1; ERun 0].

Lemma reads_never_race_witness :
  exists s, run readers (start ready) = Some s /\ (race s -> False) /\ km s = ready.
Proof.
  destruct (run readers (start ready)) as [s|] eqn:Hs; [|vm_compute in Hs; discriminate Hs].
  destruct (reads_never_race ready readers s) as (Hno & Hm & _).
  - unfold readers. repeat apply Forall_cons_2; try exact I; try apply Forall_nil_2;
      exists (ParV1 KeyV1.NewKeyParserV1); reflexivity.
  - exact Hs.
  - exists s. split; [reflexivity|]. split; [exact Hno|exact Hm].
Defined.

Lemma first_parses_race_witness :
  exists s, run [EParse (bstr "gota1-a"); EParse (bstr "gota1-b"); ERun 0; ERun 0; ERun 1; ERun 1]
    (start NewKeyManager) = Some s /\ race s.
Proof.
  apply (first_parses_race (bstr "gota1-a") (bstr "gota1-b") (bstr "a") (bstr "b")); reflexivity.
Defined.

End KeyRaceWitness.
