(* ===== verification/Interfaces.v ===== *)
(** * Interfaces: the contracts between the parts

    Models the declarations of [src/interfaces/]: the local session manager as a class
    with its implementation, and the handshake, NAT punching and ingress interfaces,
    which have no implementation in the repository yet, as records of operations on the
    state [W] of whatever implements them. The two constructors of error values
    ([handshaker.go], [natpuncher.go]) are the only code here: an error is a pointer to a
    struct, so that errors live in a store and are compared by identity. *)

From S2P Require Import Prelude Identity Framing SessionManager SessionCalls.

Module Interfaces.

(** ** Error values *)

Inductive FailError :=
| handshakeFailError (reason : list byte)
| natPunchFailError (reason : list byte).

(** The errors that exist, by address. *)
Notation Errors := (gmap nat FailError).

Definition NewHandshakeFailErr (reason : list byte) (st : Errors) : Errors * nat :=
  let p := fresh (dom st) in (<[p := handshakeFailError reason]> st, p).

Definition NewNatPunchFailErr (reason : list byte) (st : Errors) : Errors * nat :=
  let p := fresh (dom st) in (<[p := natPunchFailError reason]> st, p).

(** The method [Error] of either type; calling it through a nil pointer panics. *)
Definition Error {E} (p : option nat) (st : Errors) : outcome E (list byte) :=
  match p with
  | None => Panic
  | Some p =>
      match st !! p with
      | Some (handshakeFailError reason) | Some (natPunchFailError reason) => Ret reason
      | None => Panic
      end
  end.

(** Errors stay what they are. *)
Definition later (st st' : Errors) : Prop := st ⊆ st'.

Lemma new_error_later reason st :
  later st (NewHandshakeFailErr reason st).1 /\ later st (NewNatPunchFailErr reason st).1.
Proof. split; apply insert_subseteq, not_elem_of_dom, is_fresh. Qed.

(** An error says its reason for as long as it exists, and is equal to no error made
    before or after it, not even to one of the same kind with the same reason. *)
Theorem fail_errors_distinct {E} reason reason' st st' :
  let '(st1, p) := NewHandshakeFailErr reason st in
  later st1 st' ->
  let '(st2, q) := NewHandshakeFailErr reason' st' in
  let '(st3, r) := NewNatPunchFailErr reason' st' in
  p <> q /\ p <> r /\ st !! p = None /\
  Error (E := E) (Some p) st2 = Ret reason /\ Error (E := E) (Some p) st3 = Ret reason.
Proof.
  unfold NewHandshakeFailErr, NewNatPunchFailErr. cbv beta iota zeta. intros Hl. set (p := fresh (dom st)).
  assert (st' !! p = Some (handshakeFailError reason)) as Hp.
  { eapply lookup_weaken; [|exact Hl]. apply lookup_insert_eq. }
  assert (p <> fresh (dom st')) as Hne.
  { intros Heq. apply (is_fresh (dom st')). rewrite <- Heq. by eapply elem_of_dom_2. }
  unfold Error. rewrite !lookup_insert_ne by done. rewrite Hp.
  split_and!; try done. apply not_elem_of_dom, is_fresh.
Qed.

(** ** Handshake, NAT punching and ingress *)

(** [HandshakeSession]. The keys are byte slices, the address a pointer. *)
Record HandshakeSession := mkHandshakeSession {
  TargetAddr : option UDPAddr;
  PeerIdentity : list byte;
  CipherSuite : list byte;
  InboundKey : list byte;
  OutboundKey : list byte;
}.

Section contracts.
Context {W : Type}.

Record IHandshakerSubscriber := {
  OnHandshakeSuccess : option HandshakeSession -> W -> W;
  OnHandshakeFailure : option UDPAddr -> option nat -> W -> W;
}.

(** The context is a number; the port listener is of any type that has the interface. *)
Record IHandshaker (Port : Type) := {
  StartHandshake : nat -> Port -> option UDPAddr -> list byte -> IHandshakerSubscriber -> W -> W * option nat;
}.

Record INatPunchSubscriber := {
  OnNatPunchSuccess : option UDPAddr -> W -> W;
  OnNatPunchFailure : option UDPAddr -> option nat -> W -> W;
}.

Record INatPuncher (Port : Type) := {
  StartPunch : nat -> Port -> option UDPAddr -> list byte -> INatPunchSubscriber -> W -> W * option nat;
}.

(** [AddSession] returns an int, and the other operations take a string. *)
Record IIngress (Port : Type) := {
  ingress_Start : Port -> W -> W;
  AddSession : HandshakeSession -> W -> W * Z;
  SubscribeToSession : list byte -> (list byte -> bool) -> W -> W * (list byte + nat);
  UnsubscribeFromSession : list byte -> list byte -> W -> W * option nat;
  RemoveSession : list byte -> W -> W * option nat;
}.

End contracts.

(** ** The local session manager *)

Import Framing SessionManager SessionCalls.

(** [IIpcSessionManager]. A connection is what its peer sends and how much it takes; a
    call that does not come back is [None]; how long [UnregisterSession] takes depends on
    the close callback, so that it has fuel. *)
Class IIpcSessionManager (S W : Type) := {
  im_RegisterSession : option (Reader * option nat) -> S -> option S;
  im_UnregisterSession : nat -> DID -> bool -> S -> option S;
  im_SendToLocal : DID -> Z -> Z -> list byte -> S -> option S;
  im_SetControlCallback : option (ControlCallback W) -> S -> option S;
}.

#[export] Instance session_manager {W} : IIpcSessionManager (SM W) W := {|
  im_RegisterSession := RegisterSession;
  im_UnregisterSession := UnregisterSession;
  im_SendToLocal did opcode statusCode data := SendToLocal did (mkPacket opcode statusCode data);
  im_SetControlCallback cb := step (ESetControlCallback cb);
|}.

End Interfaces.
